(** * The CPU difference and cross-correlation kernels of [diff2.h]

    A shallow embedding of [src/acc/cpu/cpu_kernels/diff2.h] (namespace
    [CpuKernels]) and the properties its specification states about it.

    Conventions of the embedding.
    - [XFLOAT] is a type parameter with the operations the kernels use
      (class [XFloatOps]); nothing is assumed about them, so every theorem
      stated for an arbitrary [XFLOAT] holds for IEEE single and double
      precision alike.  Statements that are algebraic identities are proved
      for the instance [R_ops] of exact real arithmetic; the instance
      [binary64_ops] of IEEE double precision shows, at concrete inputs,
      where such an identity holds up to rounding only.
    - [int], [unsigned long] and [size_t] values are integers of [Z]; [/] and
      [%] of the source are [Z.quot] and [Z.rem] (C truncates).  Signed
      overflow is undefined in C and is not modelled.
    - A pointer argument [XFLOAT *p] is the function [p : Z -> XFLOAT] of the
      cells addressed from it; a store [p[i] += v] is [upd p i (p i + v)].
    - A [for] loop is [for_loop lo hi body], a left fold over [lo .. hi-1].
    - Scratch arrays that are filled and then read at the same indices
      ([x], [y], [z], [s_real], [s_ref_real], [ref_real], [trans_cos_x], the
      cached Euler entries, ...) are the functions that compute their
      entries; accumulators ([diffi], [diff2s], [s], [s_weight], [s_norm],
      [s_cc] and the output) are updated cell by cell as in the source. *)

From Stdlib Require Import ZArith List Lia Bool FinFun Reals Lra.
From Stdlib Require PrimFloat FloatOps SpecFloat.
Import ListNotations.
Import PrimFloat.PrimFloatNotations.
Number Notation PrimFloat.float PrimFloat.parser PrimFloat.printer : float_scope.

Set Implicit Arguments.
Open Scope Z_scope.

(* ================================================================== *)
(** * Numbers *)

(** The arithmetic of [XFLOAT] that the kernels use. *)
Class XFloatOps (XFLOAT : Type) := {
  xf_zero : XFLOAT;                       (* (XFLOAT)0.0, also memset 0 *)
  xf_half : XFLOAT;                       (* (XFLOAT)0.5 *)
  xf_add  : XFLOAT -> XFLOAT -> XFLOAT;
  xf_sub  : XFLOAT -> XFLOAT -> XFLOAT;
  xf_mul  : XFLOAT -> XFLOAT -> XFLOAT;
  xf_div  : XFLOAT -> XFLOAT -> XFLOAT;
  xf_neg  : XFLOAT -> XFLOAT;
  xf_sqrt : XFLOAT -> XFLOAT;             (* sqrt / sqrtf *)
  (** Modelled from the spec: [computeSincosLookupTable2D] and
      [computeSincosLookupTable3D] are defined in [helper.h], which is not
      among the files.  For a translation component [t] and an extent [N]
      they fill entry [k] (for [0 <= k < N]) of the sine table with
      [sin(2 pi t k / N)] and of the cosine table with [cos(2 pi t k / N)];
      [xf_sin_entry t N k] and [xf_cos_entry t N k] are these entries. *)
  xf_sin_entry : XFLOAT -> Z -> Z -> XFLOAT;
  xf_cos_entry : XFLOAT -> Z -> Z -> XFLOAT
}.

Declare Scope xf_scope.
Delimit Scope xf_scope with xf.
Notation "x [+] y" := (xf_add x y) (at level 50, left associativity) : xf_scope.
Notation "x [-] y" := (xf_sub x y) (at level 50, left associativity) : xf_scope.
Notation "x [*] y" := (xf_mul x y) (at level 40, left associativity) : xf_scope.
Notation "x [/] y" := (xf_div x y) (at level 40, left associativity) : xf_scope.
Notation "[~] x" := (xf_neg x) (at level 35, right associativity) : xf_scope.
Open Scope xf_scope.

(** Exact real arithmetic, with the tables of the spec. *)
#[export] Instance R_ops : XFloatOps R := {
  xf_zero := 0%R;
  xf_half := (1 / 2)%R;
  xf_add  := Rplus;
  xf_sub  := Rminus;
  xf_mul  := Rmult;
  xf_div  := Rdiv;
  xf_neg  := Ropp;
  xf_sqrt := sqrt;
  xf_sin_entry := fun t N k => sin (2 * PI * t * IZR k / IZR N);
  xf_cos_entry := fun t N k => cos (2 * PI * t * IZR k / IZR N)
}.

(** IEEE 754 double precision ([XFLOAT] under [ACC_DOUBLE_PRECISION]), with
    round to nearest even, on the primitive floats of Rocq.  Of the sincos
    tables only those of the translation component [+0] are given: their
    entries are [sin 0 = 0] and [cos 0 = 1].  The tables of other
    translations need [sin] and [cos] of the C library, which are not
    modelled (their entries are left as not-a-number), so this instance is
    used with zero translations only. *)
#[export] Instance binary64_ops : XFloatOps PrimFloat.float := {
  xf_zero := 0%float;
  xf_half := 0.5%float;
  xf_add  := PrimFloat.add;
  xf_sub  := PrimFloat.sub;
  xf_mul  := PrimFloat.mul;
  xf_div  := PrimFloat.div;
  xf_neg  := PrimFloat.opp;
  xf_sqrt := PrimFloat.sqrt;
  xf_sin_entry := fun t _ _ =>
    if PrimFloat.Leibniz.eqb t 0%float then 0%float else PrimFloat.nan;
  xf_cos_entry := fun t _ _ =>
    if PrimFloat.Leibniz.eqb t 0%float then 1%float else PrimFloat.nan
}.

(** The real number that a finite double stands for: [(-1)^s * m * 2^e].
    Infinities and not-a-number stand for no real number; they are sent to
    [0] and do not occur where this function is used. *)
Definition f64_value (f : PrimFloat.float) : R :=
  match FloatOps.Prim2SF f with
  | SpecFloat.S754_finite s m e =>
      (IZR (if s then Z.neg m else Z.pos m)
       * (if 0 <=? e then IZR (2 ^ e) else / IZR (2 ^ (- e))))%R
  | _ => 0%R
  end.

(* ================================================================== *)
(** * Arrays and loops *)

(** [p[i] = v] on the cells addressed from a pointer. *)
Definition upd {A : Type} (a : Z -> A) (i : Z) (v : A) : Z -> A :=
  fun j => if j =? i then v else a j.

(** [a[i][j] = v] on a two-dimensional local array. *)
Definition upd2 {A : Type} (a : Z -> Z -> A) (i j : Z) (v : A) : Z -> Z -> A :=
  fun i' j' => if (i' =? i) && (j' =? j) then v else a i' j'.

(** The indices [lo, lo+1, ..., hi-1] of [for (k = lo; k < hi; k++)]. *)
Definition zrange (lo hi : Z) : list Z :=
  map (fun k => lo + Z.of_nat k) (seq 0 (Z.to_nat (hi - lo))).

(** [for (k = lo; k < hi; k++) s = body k s]. *)
Definition for_loop {S : Type} (lo hi : Z) (body : Z -> S -> S) (s : S) : S :=
  fold_left (fun st k => body k st) (zrange lo hi) s.

(* ================================================================== *)
(** * The projector *)

(** [AccProjectorKernel] is declared in [acc_projector.h], which is not among
    the files: the kernels read its extents and cutoff and call its three
    sampling functions, which are taken here as they are. *)
Record AccProjectorKernel (XFLOAT : Type) := {
  imgX : Z;
  imgY : Z;
  imgZ : Z;
  maxR : Z;
  (* project2Dmodel(x, y, e0, e1, e3, e4, real, imag) *)
  project2Dmodel : Z -> Z -> XFLOAT -> XFLOAT -> XFLOAT -> XFLOAT -> XFLOAT * XFLOAT;
  (* project3Dmodel(x, y, e0, e1, e3, e4, e6, e7, real, imag) *)
  project3Dmodel_xy : Z -> Z -> XFLOAT -> XFLOAT -> XFLOAT -> XFLOAT ->
                      XFLOAT -> XFLOAT -> XFLOAT * XFLOAT;
  (* project3Dmodel(x, y, z, e0, ..., e8, real, imag) *)
  project3Dmodel_xyz : Z -> Z -> Z -> XFLOAT -> XFLOAT -> XFLOAT -> XFLOAT ->
                       XFLOAT -> XFLOAT -> XFLOAT -> XFLOAT -> XFLOAT -> XFLOAT * XFLOAT
}.

(* ================================================================== *)
(** * Pieces shared by the kernels *)

Section Shared.
Context {XFLOAT : Type} {ops : XFloatOps XFLOAT}.

(** The table look-up with sign folding that every kernel repeats:
<<
    if (k < 0) { c = cos_a[i][-k]; s = -sin_a[i][-k]; }
    else       { c = cos_a[i][k];  s =  sin_a[i][k];  }
>>
    for the table of translation component [t] along an axis of extent [N].
    The result is the pair (cosine, sine). *)
Definition lookup_signed (t : XFLOAT) (N k : Z) : XFLOAT * XFLOAT :=
  if k <? 0
  then (xf_cos_entry t N (- k), [~] xf_sin_entry t N (- k))
  else (xf_cos_entry t N k, xf_sin_entry t N k).

(** The angle addition [ss = sx*cy + cx*sy; cc = cx*cy - sx*sy], as the pair
    (cc, ss). *)
Definition add_angle (cx sx cy sy : XFLOAT) : XFLOAT * XFLOAT :=
  (cx [*] cy [-] sx [*] sy, sx [*] cy [+] cx [*] sy).

(** [real = cc*a - ss*b; imag = cc*b + ss*a]. *)
Definition rotate (cc ss a b : XFLOAT) : XFLOAT * XFLOAT :=
  (cc [*] a [-] ss [*] b, cc [*] b [+] ss [*] a).

(** The row rule of the row-by-row kernels, for a row index [i] along an
    axis of extent [size] and the x range [(xstart, xend)] inherited from
    the enclosing loop:
<<
    int y = iy;
    if (iy > maxR) {
        if (iy >= ySize - maxR) y = iy - ySize;
        else { xstart = maxR; xend = xstart + 1; }
    }
>>
    The result is (coordinate, xstart, xend). *)
Definition row_rule (maxR size i xstart xend : Z) : Z * Z * Z :=
  if i >? maxR
  then if i >=? size - maxR
       then (i - size, xstart, xend)
       else (i, maxR, maxR + 1)
  else (i, xstart, xend).

End Shared.

(* ================================================================== *)
(** * diff2_coarse (lines 32-282, the [USE_SINCOS_TABLE] branch) *)

Section Diff2Coarse.
Context {XFLOAT : Type} {ops : XFloatOps XFLOAT}.
(* template<bool REF3D, bool DATA3D, int block_sz, int eulers_per_block, ...> *)
Variables (REF3D DATA3D : bool) (block_sz eulers_per_block : Z).
Variables g_eulers trans_x trans_y trans_z g_real g_imag : Z -> XFLOAT.
Variable projector : AccProjectorKernel XFLOAT.
Variable g_corr : Z -> XFLOAT.
Variables translation_num image_size : Z.

(** Lines 53-54. *)
Definition coarse_pass_num : Z :=
  let pass_num_floor := Z.quot image_size block_sz in
  if Z.rem image_size block_sz =? 0 then pass_num_floor else pass_num_floor + 1.

(** Lines 96-110: the coordinates [(x, y, z)] stored for a pixel. *)
Definition coarse_xyz (pixel : Z) : Z * Z * Z :=
  let xSize := imgX projector in
  let ySize := imgY projector in
  let zSize := imgZ projector in
  let xySize := xSize * ySize in
  let '(x, y, z) :=
    if DATA3D then
      let z := Z.quot pixel xySize in
      let xy := Z.rem pixel xySize in
      let x := Z.rem xy xSize in
      let y := Z.quot xy xSize in
      (x, y, if z >? maxR projector then z - zSize else z)
    else (Z.rem pixel xSize, Z.quot pixel xSize, 0) in
  (x, if y >? maxR projector then y - ySize else y, z).

(** Lines 87-117: [x[pass][tid]], [y[pass][tid]], [z[pass][tid]] and the tile's
    samples, written and later read only where [start + tid < image_size]. *)
Definition coarse_tile_xyz (pass tid : Z) : Z * Z * Z :=
  let start := pass * block_sz in
  let pixel := start + tid in
  coarse_xyz pixel.

Definition coarse_s_real (pass tid : Z) : XFLOAT := g_real (pass * block_sz + tid).
Definition coarse_s_imag (pass tid : Z) : XFLOAT := g_imag (pass * block_sz + tid).
Definition coarse_s_corr (pass tid : Z) : XFLOAT :=
  g_corr (pass * block_sz + tid) [*] xf_half.

(** Lines 127-129: [s_eulers[e*16+i] = g_eulers[block*eulers_per_block*9 + e*9+i]]. *)
Definition coarse_s_eulers (block e i : Z) : XFLOAT :=
  g_eulers (block * eulers_per_block * 9 + e * 9 + i).

(** Lines 145-178: the projector call for orientation [i] of the block at
    the coordinates [(x, y, z)]. *)
Definition coarse_project (block i : Z) (xyz : Z * Z * Z) : XFLOAT * XFLOAT :=
  let '(x, y, z) := xyz in
  let e := coarse_s_eulers block i in
  if DATA3D then
    project3Dmodel_xyz projector x y z
      (e 0) (e 1) (e 2) (e 3) (e 4) (e 5) (e 6) (e 7) (e 8)
  else if REF3D then
    project3Dmodel_xy projector x y (e 0) (e 1) (e 3) (e 4) (e 6) (e 7)
  else
    project2Dmodel projector x y (e 0) (e 1) (e 3) (e 4).

(** Lines 143-180: [(s_ref_real[i][tid], s_ref_imag[i][tid])] of a pass. *)
Definition coarse_s_ref (block pass i tid : Z) : XFLOAT * XFLOAT :=
  coarse_project block i (coarse_tile_xyz pass tid).

(** Lines 192-255: the shifted signal [(real, imag)] of tile pixel [tid] for
    translation [i]. *)
Definition coarse_shifted (pass i tid : Z) : XFLOAT * XFLOAT :=
  let '(xidx, yidx, zidx) := coarse_tile_xyz pass tid in
  let '(trans_cos_x, trans_sin_x) := lookup_signed (trans_x i) (imgX projector) xidx in
  let '(trans_cos_y, trans_sin_y) := lookup_signed (trans_y i) (imgY projector) yidx in
  if DATA3D then
    let '(trans_cos_z, trans_sin_z) := lookup_signed (trans_z i) (imgZ projector) zidx in
    let '(c, s) := add_angle trans_cos_x trans_sin_x trans_cos_y trans_sin_y in
    let '(cc, ss) := add_angle c s trans_cos_z trans_sin_z in
    rotate cc ss (coarse_s_real pass tid) (coarse_s_imag pass tid)
  else
    let '(cc, ss) := add_angle trans_cos_x trans_sin_x trans_cos_y trans_sin_y in
    rotate cc ss (coarse_s_real pass tid) (coarse_s_imag pass tid).

(** Lines 265-268: what pixel [tid] adds to [diffi[j]]. *)
Definition coarse_term (block pass i tid j : Z) : XFLOAT :=
  let '(real, imag) := coarse_shifted pass i tid in
  let '(ref_real, ref_imag) := coarse_s_ref block pass j tid in
  let diff_real := ref_real [-] real in
  let diff_imag := ref_imag [-] imag in
  (diff_real [*] diff_real [+] diff_imag [*] diff_imag) [*] coarse_s_corr pass tid.

(** Lines 231-271: [diffi] after the tile loop of translation [i]. *)
Definition coarse_diffi (block pass i : Z) : Z -> XFLOAT :=
  for_loop 0 block_sz
    (fun tid diffi =>
       if pass * block_sz + tid <? image_size then
         for_loop 0 eulers_per_block
           (fun j diffi => upd diffi j (diffi j [+] coarse_term block pass i tid j))
           diffi
       else diffi)
    (fun _ => xf_zero).

(** Lines 131-275: [diff2s[i][j]] after all passes. *)
Definition coarse_diff2s (block : Z) : Z -> Z -> XFLOAT :=
  for_loop 0 coarse_pass_num
    (fun pass diff2s =>
       for_loop 0 translation_num
         (fun i diff2s =>
            let diffi := coarse_diffi block pass i in
            for_loop 0 eulers_per_block
              (fun j diff2s => upd2 diff2s i j (diff2s i j [+] diffi j))
              diff2s)
         diff2s)
    (fun _ _ => xf_zero).

(** Lines 277-280: the block's scores are added into the output. *)
Definition coarse_emit (block : Z) (diff2s : Z -> Z -> XFLOAT)
    (g_diff2s : Z -> XFLOAT) : Z -> XFLOAT :=
  let pData := block * eulers_per_block * translation_num in
  for_loop 0 eulers_per_block
    (fun j out =>
       for_loop 0 translation_num
         (fun i out =>
            upd out (pData + (j * translation_num + i))
                (out (pData + (j * translation_num + i)) [+] diff2s i j))
         out)
    g_diff2s.

Definition coarse_block (block : Z) (g_diff2s : Z -> XFLOAT) : Z -> XFLOAT :=
  coarse_emit block (coarse_diff2s block) g_diff2s.

End Diff2Coarse.

(** The kernel, with the parameters of the source in their order; the
    result is the content of [g_diff2s] when the call returns. *)
Definition diff2_coarse {XFLOAT : Type} {ops : XFloatOps XFLOAT}
    (REF3D DATA3D : bool) (block_sz eulers_per_block : Z)
    (grid_size : Z)
    (g_eulers trans_x trans_y trans_z g_real g_imag : Z -> XFLOAT)
    (projector : AccProjectorKernel XFLOAT)
    (g_corr g_diff2s : Z -> XFLOAT)
    (translation_num image_size : Z) : Z -> XFLOAT :=
  for_loop 0 grid_size
    (coarse_block REF3D DATA3D block_sz eulers_per_block g_eulers
       trans_x trans_y trans_z g_real g_imag projector g_corr
       translation_num image_size)
    g_diff2s.

(* ================================================================== *)
(** * diff2_fine_2D (lines 284-430) *)

Section Diff2Fine2D.
Context {XFLOAT : Type} {ops : XFloatOps XFLOAT}.
Variable REF3D : bool.
Variables g_eulers g_imgs_real g_imgs_imag g_trans_x g_trans_y : Z -> XFLOAT.
Variable projector : AccProjectorKernel XFLOAT.
Variable g_corr_img : Z -> XFLOAT.
Variable sum_init : XFLOAT.
Variables d_rot_idx d_trans_idx d_job_idx d_job_num : Z -> Z.

(** Lines 331-335: the job's translations. *)
Definition fine2D_trans_x (bid i : Z) : XFLOAT := g_trans_x (d_trans_idx (d_job_idx bid) + i).
Definition fine2D_trans_y (bid i : Z) : XFLOAT := g_trans_y (d_trans_idx (d_job_idx bid) + i).

(** Lines 344-355: [(y, xstart, xend)] of row [iy]. *)
Definition fine2D_row_range (iy : Z) : Z * Z * Z :=
  row_rule (maxR projector) (imgY projector) iy 0 (imgX projector).

(** Lines 363-370: the projected reference of pixel [x] in a row of
    coordinate [y], before it is scaled. *)
Definition fine2D_project (bid y x : Z) : XFLOAT * XFLOAT :=
  let offset := d_rot_idx (d_job_idx bid) * 9 in
  let e1 := g_eulers offset in
  let e2 := g_eulers (offset + 1) in
  let e3 := g_eulers (offset + 3) in
  let e4 := g_eulers (offset + 4) in
  let e5 := g_eulers (offset + 6) in
  let e6 := g_eulers (offset + 7) in
  if REF3D then project3Dmodel_xy projector x y e1 e2 e3 e4 e5 e6
  else project2Dmodel projector x y e1 e2 e3 e4.

(** Lines 377-384: [half_corr] of pixel [x] of the row starting at [pixel],
    and the scaled signal [(imgs_real[x], imgs_imag[x])]. *)
Definition fine2D_half_corr (pixel x : Z) : XFLOAT :=
  xf_sqrt (g_corr_img (pixel + x) [*] xf_half).

Definition fine2D_imgs (pixel x : Z) : XFLOAT * XFLOAT :=
  (g_imgs_real (pixel + x) [*] fine2D_half_corr pixel x,
   g_imgs_imag (pixel + x) [*] fine2D_half_corr pixel x).

(** Lines 389-411: [(shifted_real, shifted_imag)] of pixel [x]. *)
Definition fine2D_shifted (bid y pixel itrans x : Z) : XFLOAT * XFLOAT :=
  let '(imgs_real, imgs_imag) := fine2D_imgs pixel x in
  let '(trans_cos_y, trans_sin_y) :=
    lookup_signed (fine2D_trans_y bid itrans) (imgY projector) y in
  let trans_cos_x := xf_cos_entry (fine2D_trans_x bid itrans) (imgX projector) x in
  let trans_sin_x := xf_sin_entry (fine2D_trans_x bid itrans) (imgX projector) x in
  let '(cc, ss) := add_angle trans_cos_x trans_sin_x trans_cos_y trans_sin_y in
  rotate cc ss imgs_real imgs_imag.

(** Lines 406-416: what pixel [x] of the row starting at [pixel] adds to
    [sum] for translation [itrans], with the scaling of lines 381-382. *)
Definition fine2D_term (bid y pixel itrans x : Z) : XFLOAT :=
  let ref_real := fst (fine2D_project bid y x) [*] fine2D_half_corr pixel x in
  let ref_imag := snd (fine2D_project bid y x) [*] fine2D_half_corr pixel x in
  let '(shifted_real, shifted_imag) := fine2D_shifted bid y pixel itrans x in
  let diff_real := ref_real [-] shifted_real in
  let diff_imag := ref_imag [-] shifted_imag in
  diff_real [*] diff_real [+] diff_imag [*] diff_imag.

(** Lines 402-417: [sum] of one translation over the row. *)
Definition fine2D_row_sum (bid iy pixel itrans : Z) : XFLOAT :=
  let '(y, xstart, xend) := fine2D_row_range iy in
  for_loop xstart xend (fun x sum => sum [+] fine2D_term bid y pixel itrans x) xf_zero.

(** Lines 388-419: the row's contribution to [s]. *)
Definition fine2D_row (bid iy pixel : Z) (s : Z -> XFLOAT) : Z -> XFLOAT :=
  for_loop 0 (d_job_num bid)
    (fun itrans s => upd s itrans (s itrans [+] fine2D_row_sum bid iy pixel itrans))
    s.

(** Lines 341-422: [(pixel, s)] after all rows. *)
Definition fine2D_rows (bid : Z) : Z * (Z -> XFLOAT) :=
  for_loop 0 (imgY projector)
    (fun iy st => (fst st + imgX projector, fine2D_row bid iy (fst st) (snd st)))
    (0, fun _ => xf_zero).

(** Lines 424-428. *)
Definition fine2D_emit (bid : Z) (s : Z -> XFLOAT) (g_diff2s : Z -> XFLOAT) : Z -> XFLOAT :=
  for_loop 0 (d_job_num bid)
    (fun itrans out =>
       let iy := d_job_idx bid + itrans in
       upd out iy (out iy [+] (s itrans [+] sum_init)))
    g_diff2s.

Definition fine2D_job (bid : Z) (g_diff2s : Z -> XFLOAT) : Z -> XFLOAT :=
  fine2D_emit bid (snd (fine2D_rows bid)) g_diff2s.

End Diff2Fine2D.

Definition diff2_fine_2D {XFLOAT : Type} {ops : XFloatOps XFLOAT}
    (REF3D : bool)
    (grid_size : Z)
    (g_eulers g_imgs_real g_imgs_imag g_trans_x g_trans_y g_trans_z : Z -> XFLOAT)
    (projector : AccProjectorKernel XFLOAT)
    (g_corr_img g_diff2s : Z -> XFLOAT)
    (image_size : Z) (sum_init : XFLOAT)
    (orientation_num translation_num num_jobs : Z)
    (d_rot_idx d_trans_idx d_job_idx d_job_num : Z -> Z) : Z -> XFLOAT :=
  for_loop 0 grid_size
    (fine2D_job REF3D g_eulers g_imgs_real g_imgs_imag g_trans_x g_trans_y
       projector g_corr_img sum_init d_rot_idx d_trans_idx d_job_idx d_job_num)
    g_diff2s.

(* ================================================================== *)
(** * diff2_fine_3D (lines 432-605) *)

Section Diff2Fine3D.
Context {XFLOAT : Type} {ops : XFloatOps XFLOAT}.
Variables g_eulers g_imgs_real g_imgs_imag g_trans_x g_trans_y g_trans_z : Z -> XFLOAT.
Variable projector : AccProjectorKernel XFLOAT.
Variable g_corr_img : Z -> XFLOAT.
Variable sum_init : XFLOAT.
Variables d_rot_idx d_trans_idx d_job_idx d_job_num : Z -> Z.

(** Lines 482-487. *)
Definition fine3D_trans_x (bid i : Z) : XFLOAT := g_trans_x (d_trans_idx (d_job_idx bid) + i).
Definition fine3D_trans_y (bid i : Z) : XFLOAT := g_trans_y (d_trans_idx (d_job_idx bid) + i).
Definition fine3D_trans_z (bid i : Z) : XFLOAT := g_trans_z (d_trans_idx (d_job_idx bid) + i).

(** Lines 498-521: [(z, y, xstart_y, xend_y)] of the row [(iz, iy)]. *)
Definition fine3D_row_range (iz iy : Z) : Z * Z * Z * Z :=
  let '(z, xstart_z, xend_z) :=
    row_rule (maxR projector) (imgZ projector) iz 0 (imgX projector) in
  let '(y, xstart_y, xend_y) :=
    row_rule (maxR projector) (imgY projector) iy xstart_z xend_z in
  (z, y, xstart_y, xend_y).

(** Lines 529-532. *)
Definition fine3D_project (bid z y x : Z) : XFLOAT * XFLOAT :=
  let offset := d_rot_idx (d_job_idx bid) * 9 in
  let e1 := g_eulers offset in
  let e2 := g_eulers (offset + 1) in
  let e3 := g_eulers (offset + 2) in
  let e4 := g_eulers (offset + 3) in
  let e5 := g_eulers (offset + 4) in
  let e6 := g_eulers (offset + 5) in
  let e7 := g_eulers (offset + 6) in
  let e8 := g_eulers (offset + 7) in
  let e9 := g_eulers (offset + 8) in
  project3Dmodel_xyz projector x y z e1 e2 e3 e4 e5 e6 e7 e8 e9.

(** Lines 539-546: [half_corr] of pixel [x] of the row starting at [pixel],
    and the scaled signal [(imgs_real[x], imgs_imag[x])]. *)
Definition fine3D_half_corr (pixel x : Z) : XFLOAT :=
  xf_sqrt (g_corr_img (pixel + x) [*] xf_half).

Definition fine3D_imgs (pixel x : Z) : XFLOAT * XFLOAT :=
  (g_imgs_real (pixel + x) [*] fine3D_half_corr pixel x,
   g_imgs_imag (pixel + x) [*] fine3D_half_corr pixel x).

(** Lines 550-585: [(shifted_real, shifted_imag)] of pixel [x]. *)
Definition fine3D_shifted (bid z y pixel itrans x : Z) : XFLOAT * XFLOAT :=
  let '(imgs_real, imgs_imag) := fine3D_imgs pixel x in
  let '(trans_cos_z, trans_sin_z) :=
    lookup_signed (fine3D_trans_z bid itrans) (imgZ projector) z in
  let '(trans_cos_y, trans_sin_y) :=
    lookup_signed (fine3D_trans_y bid itrans) (imgY projector) y in
  let trans_cos_x := xf_cos_entry (fine3D_trans_x bid itrans) (imgX projector) x in
  let trans_sin_x := xf_sin_entry (fine3D_trans_x bid itrans) (imgX projector) x in
  let '(c1, s1) := add_angle trans_cos_x trans_sin_x trans_cos_y trans_sin_y in
  let '(cc, ss) := add_angle c1 s1 trans_cos_z trans_sin_z in
  rotate cc ss imgs_real imgs_imag.

(** Lines 577-590: what pixel [x] of the row starting at [pixel] adds to
    [sum] for translation [itrans], with the scaling of lines 543-544. *)
Definition fine3D_term (bid z y pixel itrans x : Z) : XFLOAT :=
  let ref_real := fst (fine3D_project bid z y x) [*] fine3D_half_corr pixel x in
  let ref_imag := snd (fine3D_project bid z y x) [*] fine3D_half_corr pixel x in
  let '(shifted_real, shifted_imag) := fine3D_shifted bid z y pixel itrans x in
  let diff_real := ref_real [-] shifted_real in
  let diff_imag := ref_imag [-] shifted_imag in
  diff_real [*] diff_real [+] diff_imag [*] diff_imag.

(** Lines 573-591. *)
Definition fine3D_row_sum (bid iz iy pixel itrans : Z) : XFLOAT :=
  let '(z, y, xstart_y, xend_y) := fine3D_row_range iz iy in
  for_loop xstart_y xend_y
    (fun x sum => sum [+] fine3D_term bid z y pixel itrans x) xf_zero.

(** Lines 549-593. *)
Definition fine3D_row (bid iz iy pixel : Z) (s : Z -> XFLOAT) : Z -> XFLOAT :=
  for_loop 0 (d_job_num bid)
    (fun itrans s => upd s itrans (s itrans [+] fine3D_row_sum bid iz iy pixel itrans))
    s.

(** Lines 494-597: [(pixel, s)] after all rows; [pixel] advances by [xSize]
    at the end of every [iy] iteration (line 595). *)
Definition fine3D_rows (bid : Z) : Z * (Z -> XFLOAT) :=
  for_loop 0 (imgZ projector)
    (fun iz st =>
       for_loop 0 (imgY projector)
         (fun iy st => (fst st + imgX projector, fine3D_row bid iz iy (fst st) (snd st)))
         st)
    (0, fun _ => xf_zero).

(** Lines 599-603. *)
Definition fine3D_emit (bid : Z) (s : Z -> XFLOAT) (g_diff2s : Z -> XFLOAT) : Z -> XFLOAT :=
  for_loop 0 (d_job_num bid)
    (fun itrans out =>
       let iy := d_job_idx bid + itrans in
       upd out iy (out iy [+] (s itrans [+] sum_init)))
    g_diff2s.

Definition fine3D_job (bid : Z) (g_diff2s : Z -> XFLOAT) : Z -> XFLOAT :=
  fine3D_emit bid (snd (fine3D_rows bid)) g_diff2s.

End Diff2Fine3D.

Definition diff2_fine_3D {XFLOAT : Type} {ops : XFloatOps XFLOAT}
    (grid_size : Z)
    (g_eulers g_imgs_real g_imgs_imag g_trans_x g_trans_y g_trans_z : Z -> XFLOAT)
    (projector : AccProjectorKernel XFLOAT)
    (g_corr_img g_diff2s : Z -> XFLOAT)
    (image_size : Z) (sum_init : XFLOAT)
    (orientation_num translation_num num_jobs : Z)
    (d_rot_idx d_trans_idx d_job_idx d_job_num : Z -> Z) : Z -> XFLOAT :=
  for_loop 0 grid_size
    (fine3D_job g_eulers g_imgs_real g_imgs_imag g_trans_x g_trans_y g_trans_z
       projector g_corr_img sum_init d_rot_idx d_trans_idx d_job_idx d_job_num)
    g_diff2s.

(* ================================================================== *)
(** * diff2_CC_coarse_2D (lines 611-742) *)

Section Diff2CCCoarse2D.
Context {XFLOAT : Type} {ops : XFloatOps XFLOAT}.
Variable REF3D : bool.
Variables g_eulers g_imgs_real g_imgs_imag g_trans_x g_trans_y : Z -> XFLOAT.
Variable projector : AccProjectorKernel XFLOAT.
Variable g_corr_img : Z -> XFLOAT.
Variable trans_num : Z.

(** Lines 658-669. *)
Definition ccc2D_row_range (iy : Z) : Z * Z * Z :=
  row_rule (maxR projector) (imgY projector) iy 0 (imgX projector).

(** Lines 646-652 and 678-687. *)
Definition ccc2D_project (iorient y x : Z) : XFLOAT * XFLOAT :=
  let e0 := g_eulers (iorient * 9) in
  let e1 := g_eulers (iorient * 9 + 1) in
  let e3 := g_eulers (iorient * 9 + 3) in
  let e4 := g_eulers (iorient * 9 + 4) in
  let e6 := g_eulers (iorient * 9 + 6) in
  let e7 := g_eulers (iorient * 9 + 7) in
  if REF3D then project3Dmodel_xy projector x y e0 e1 e3 e4 e6 e7
  else project2Dmodel projector x y e0 e1 e3 e4.

(** Lines 695-714: the shifted signal [(real, imag)] of pixel [x]. *)
Definition ccc2D_shifted (y pixel itrans x : Z) : XFLOAT * XFLOAT :=
  let img_real := g_imgs_real (pixel + x) in
  let img_imag := g_imgs_imag (pixel + x) in
  let '(trans_cos_y, trans_sin_y) := lookup_signed (g_trans_y itrans) (imgY projector) y in
  let trans_cos_x := xf_cos_entry (g_trans_x itrans) (imgX projector) x in
  let trans_sin_x := xf_sin_entry (g_trans_x itrans) (imgX projector) x in
  let '(cc, ss) := add_angle trans_cos_x trans_sin_x trans_cos_y trans_sin_y in
  rotate cc ss img_real img_imag.

(** Line 716: what pixel [x] adds to [s_weight[itrans][x]]. *)
Definition ccc2D_weight_term (iorient y pixel itrans x : Z) : XFLOAT :=
  let '(ref_real, ref_imag) := ccc2D_project iorient y x in
  let '(real, imag) := ccc2D_shifted y pixel itrans x in
  (ref_real [*] real [+] ref_imag [*] imag) [*] g_corr_img (pixel + x).

(** Line 717: what pixel [x] adds to [s_norm[itrans][x]]. *)
Definition ccc2D_norm_term (iorient y pixel x : Z) : XFLOAT :=
  let '(ref_real, ref_imag) := ccc2D_project iorient y x in
  (ref_real [*] ref_real [+] ref_imag [*] ref_imag) [*] g_corr_img (pixel + x).

(** Lines 694-719: one row's update of [(s_weight, s_norm)]. *)
Definition ccc2D_row (iorient iy pixel : Z)
    (acc : (Z -> Z -> XFLOAT) * (Z -> Z -> XFLOAT)) :
    (Z -> Z -> XFLOAT) * (Z -> Z -> XFLOAT) :=
  let '(y, xstart, xend) := ccc2D_row_range iy in
  for_loop 0 trans_num
    (fun itrans acc =>
       for_loop xstart xend
         (fun x acc =>
            (upd2 (fst acc) itrans x
               (fst acc itrans x [+] ccc2D_weight_term iorient y pixel itrans x),
             upd2 (snd acc) itrans x
               (snd acc itrans x [+] ccc2D_norm_term iorient y pixel x)))
         acc)
    acc.

(** Lines 654-722: [(pixel, (s_weight, s_norm))] after all rows. *)
Definition ccc2D_rows (iorient : Z) : Z * ((Z -> Z -> XFLOAT) * (Z -> Z -> XFLOAT)) :=
  for_loop 0 (imgY projector)
    (fun iy st => (fst st + imgX projector, ccc2D_row iorient iy (fst st) (snd st)))
    (0, (fun _ _ => xf_zero, fun _ _ => xf_zero)).

(** Lines 725-731: [(sum_weight, sum_norm)] of translation [itrans]. *)
Definition ccc2D_sums (acc : (Z -> Z -> XFLOAT) * (Z -> Z -> XFLOAT)) (itrans : Z) :
    XFLOAT * XFLOAT :=
  for_loop 0 (imgX projector)
    (fun i sums => (fst sums [+] fst acc itrans i, snd sums [+] snd acc itrans i))
    (xf_zero, xf_zero).

(** Lines 724-740. *)
Definition ccc2D_emit (iorient : Z) (acc : (Z -> Z -> XFLOAT) * (Z -> Z -> XFLOAT))
    (g_diff2 : Z -> XFLOAT) : Z -> XFLOAT :=
  for_loop 0 trans_num
    (fun itrans out =>
       let '(sum_weight, sum_norm) := ccc2D_sums acc itrans in
       upd out (iorient * trans_num + itrans)
           (out (iorient * trans_num + itrans) [+] [~] (sum_weight [/] xf_sqrt sum_norm)))
    g_diff2.

Definition ccc2D_orient (iorient : Z) (g_diff2 : Z -> XFLOAT) : Z -> XFLOAT :=
  ccc2D_emit iorient (snd (ccc2D_rows iorient)) g_diff2.

End Diff2CCCoarse2D.

Definition diff2_CC_coarse_2D {XFLOAT : Type} {ops : XFloatOps XFLOAT}
    (REF3D : bool)
    (grid_size : Z)
    (g_eulers g_imgs_real g_imgs_imag g_trans_x g_trans_y : Z -> XFLOAT)
    (projector : AccProjectorKernel XFLOAT)
    (g_corr_img g_diff2 : Z -> XFLOAT)
    (trans_num image_size : Z) (exp_local_sqrtXi2 : XFLOAT) : Z -> XFLOAT :=
  for_loop 0 grid_size
    (ccc2D_orient REF3D g_eulers g_imgs_real g_imgs_imag g_trans_x g_trans_y
       projector g_corr_img trans_num)
    g_diff2.

(* ================================================================== *)
(** * diff2_CC_coarse_3D (lines 744-901) *)

Section Diff2CCCoarse3D.
Context {XFLOAT : Type} {ops : XFloatOps XFLOAT}.
Variables g_eulers g_imgs_real g_imgs_imag g_trans_x g_trans_y g_trans_z : Z -> XFLOAT.
Variable projector : AccProjectorKernel XFLOAT.
Variable g_corr_img : Z -> XFLOAT.
Variable trans_num : Z.

(** Lines 797-820. *)
Definition ccc3D_row_range (iz iy : Z) : Z * Z * Z * Z :=
  let '(z, xstart_z, xend_z) :=
    row_rule (maxR projector) (imgZ projector) iz 0 (imgX projector) in
  let '(y, xstart_y, xend_y) :=
    row_rule (maxR projector) (imgY projector) iy xstart_z xend_z in
  (z, y, xstart_y, xend_y).

(** Lines 782-791 and 829-832. *)
Definition ccc3D_project (iorient z y x : Z) : XFLOAT * XFLOAT :=
  let e0 := g_eulers (iorient * 9) in
  let e1 := g_eulers (iorient * 9 + 1) in
  let e2 := g_eulers (iorient * 9 + 2) in
  let e3 := g_eulers (iorient * 9 + 3) in
  let e4 := g_eulers (iorient * 9 + 4) in
  let e5 := g_eulers (iorient * 9 + 5) in
  let e6 := g_eulers (iorient * 9 + 6) in
  let e7 := g_eulers (iorient * 9 + 7) in
  let e8 := g_eulers (iorient * 9 + 8) in
  project3Dmodel_xyz projector x y z e0 e1 e2 e3 e4 e5 e6 e7 e8.

(** Lines 840-872. *)
Definition ccc3D_shifted (z y pixel itrans x : Z) : XFLOAT * XFLOAT :=
  let img_real := g_imgs_real (pixel + x) in
  let img_imag := g_imgs_imag (pixel + x) in
  let '(trans_cos_z, trans_sin_z) := lookup_signed (g_trans_z itrans) (imgZ projector) z in
  let '(trans_cos_y, trans_sin_y) := lookup_signed (g_trans_y itrans) (imgY projector) y in
  let trans_cos_x := xf_cos_entry (g_trans_x itrans) (imgX projector) x in
  let trans_sin_x := xf_sin_entry (g_trans_x itrans) (imgX projector) x in
  let '(c, s) := add_angle trans_cos_x trans_sin_x trans_cos_y trans_sin_y in
  let '(cc, ss) := add_angle c s trans_cos_z trans_sin_z in
  rotate cc ss img_real img_imag.

(** Line 874. *)
Definition ccc3D_weight_term (iorient z y pixel itrans x : Z) : XFLOAT :=
  let '(ref_real, ref_imag) := ccc3D_project iorient z y x in
  let '(real, imag) := ccc3D_shifted z y pixel itrans x in
  (ref_real [*] real [+] ref_imag [*] imag) [*] g_corr_img (pixel + x).

(** Line 875. *)
Definition ccc3D_norm_term (iorient z y pixel x : Z) : XFLOAT :=
  let '(ref_real, ref_imag) := ccc3D_project iorient z y x in
  (ref_real [*] ref_real [+] ref_imag [*] ref_imag) [*] g_corr_img (pixel + x).

(** Lines 839-877. *)
Definition ccc3D_row (iorient iz iy pixel : Z)
    (acc : (Z -> Z -> XFLOAT) * (Z -> Z -> XFLOAT)) :
    (Z -> Z -> XFLOAT) * (Z -> Z -> XFLOAT) :=
  let '(z, y, xstart_y, xend_y) := ccc3D_row_range iz iy in
  for_loop 0 trans_num
    (fun itrans acc =>
       for_loop xstart_y xend_y
         (fun x acc =>
            (upd2 (fst acc) itrans x
               (fst acc itrans x [+] ccc3D_weight_term iorient z y pixel itrans x),
             upd2 (snd acc) itrans x
               (snd acc itrans x [+] ccc3D_norm_term iorient z y pixel x)))
         acc)
    acc.

(** Lines 793-881; [pixel] advances at the end of every [iy] iteration
    (line 879). *)
Definition ccc3D_rows (iorient : Z) : Z * ((Z -> Z -> XFLOAT) * (Z -> Z -> XFLOAT)) :=
  for_loop 0 (imgZ projector)
    (fun iz st =>
       for_loop 0 (imgY projector)
         (fun iy st =>
            (fst st + imgX projector, ccc3D_row iorient iz iy (fst st) (snd st)))
         st)
    (0, (fun _ _ => xf_zero, fun _ _ => xf_zero)).

(** Lines 884-890. *)
Definition ccc3D_sums (acc : (Z -> Z -> XFLOAT) * (Z -> Z -> XFLOAT)) (itrans : Z) :
    XFLOAT * XFLOAT :=
  for_loop 0 (imgX projector)
    (fun i sums => (fst sums [+] fst acc itrans i, snd sums [+] snd acc itrans i))
    (xf_zero, xf_zero).

(** Lines 883-899. *)
Definition ccc3D_emit (iorient : Z) (acc : (Z -> Z -> XFLOAT) * (Z -> Z -> XFLOAT))
    (g_diff2 : Z -> XFLOAT) : Z -> XFLOAT :=
  for_loop 0 trans_num
    (fun itrans out =>
       let '(sum_weight, sum_norm) := ccc3D_sums acc itrans in
       upd out (iorient * trans_num + itrans)
           (out (iorient * trans_num + itrans) [+] [~] (sum_weight [/] xf_sqrt sum_norm)))
    g_diff2.

Definition ccc3D_orient (iorient : Z) (g_diff2 : Z -> XFLOAT) : Z -> XFLOAT :=
  ccc3D_emit iorient (snd (ccc3D_rows iorient)) g_diff2.

End Diff2CCCoarse3D.

Definition diff2_CC_coarse_3D {XFLOAT : Type} {ops : XFloatOps XFLOAT}
    (grid_size : Z)
    (g_eulers g_imgs_real g_imgs_imag g_trans_x g_trans_y g_trans_z : Z -> XFLOAT)
    (projector : AccProjectorKernel XFLOAT)
    (g_corr_img g_diff2 : Z -> XFLOAT)
    (trans_num image_size : Z) (exp_local_sqrtXi2 : XFLOAT) : Z -> XFLOAT :=
  for_loop 0 grid_size
    (ccc3D_orient g_eulers g_imgs_real g_imgs_imag g_trans_x g_trans_y g_trans_z
       projector g_corr_img trans_num)
    g_diff2.

(* ================================================================== *)
(** * diff2_CC_fine_2D (lines 904-1051) *)

Section Diff2CCFine2D.
Context {XFLOAT : Type} {ops : XFloatOps XFLOAT}.
Variable REF3D : bool.
Variables g_eulers g_imgs_real g_imgs_imag g_trans_x g_trans_y : Z -> XFLOAT.
Variable projector : AccProjectorKernel XFLOAT.
Variable g_corr_img : Z -> XFLOAT.
Variables d_rot_idx d_trans_idx d_job_idx d_job_num : Z -> Z.

(** Lines 947-951. *)
Definition ccf2D_trans_x (bid i : Z) : XFLOAT := g_trans_x (d_trans_idx (d_job_idx bid) + i).
Definition ccf2D_trans_y (bid i : Z) : XFLOAT := g_trans_y (d_trans_idx (d_job_idx bid) + i).

(** Lines 969-980. *)
Definition ccf2D_row_range (iy : Z) : Z * Z * Z :=
  row_rule (maxR projector) (imgY projector) iy 0 (imgX projector).

(** Lines 956-963 and 989-998. *)
Definition ccf2D_project (bid y x : Z) : XFLOAT * XFLOAT :=
  let iorient := d_rot_idx (d_job_idx bid) in
  let e0 := g_eulers (iorient * 9) in
  let e1 := g_eulers (iorient * 9 + 1) in
  let e3 := g_eulers (iorient * 9 + 3) in
  let e4 := g_eulers (iorient * 9 + 4) in
  let e6 := g_eulers (iorient * 9 + 6) in
  let e7 := g_eulers (iorient * 9 + 7) in
  if REF3D then project3Dmodel_xy projector x y e0 e1 e3 e4 e6 e7
  else project2Dmodel projector x y e0 e1 e3 e4.

(** Lines 1007-1025. *)
Definition ccf2D_shifted (bid y pixel itrans x : Z) : XFLOAT * XFLOAT :=
  let img_real := g_imgs_real (pixel + x) in
  let img_imag := g_imgs_imag (pixel + x) in
  let '(trans_cos_y, trans_sin_y) :=
    lookup_signed (ccf2D_trans_y bid itrans) (imgY projector) y in
  let trans_cos_x := xf_cos_entry (ccf2D_trans_x bid itrans) (imgX projector) x in
  let trans_sin_x := xf_sin_entry (ccf2D_trans_x bid itrans) (imgX projector) x in
  let '(cc, ss) := add_angle trans_cos_x trans_sin_x trans_cos_y trans_sin_y in
  rotate cc ss img_real img_imag.

(** Line 1027. *)
Definition ccf2D_s_term (bid y pixel itrans x : Z) : XFLOAT :=
  let '(ref_real, ref_imag) := ccf2D_project bid y x in
  let '(shifted_real, shifted_imag) := ccf2D_shifted bid y pixel itrans x in
  (ref_real [*] shifted_real [+] ref_imag [*] shifted_imag) [*] g_corr_img (pixel + x).

(** Line 1028. *)
Definition ccf2D_cc_term (bid y pixel x : Z) : XFLOAT :=
  let '(ref_real, ref_imag) := ccf2D_project bid y x in
  (ref_real [*] ref_real [+] ref_imag [*] ref_imag) [*] g_corr_img (pixel + x).

(** Lines 1005-1030: one row's update of [(s, s_cc)]. *)
Definition ccf2D_row (bid iy pixel : Z)
    (acc : (Z -> Z -> XFLOAT) * (Z -> Z -> XFLOAT)) :
    (Z -> Z -> XFLOAT) * (Z -> Z -> XFLOAT) :=
  let '(y, xstart, xend) := ccf2D_row_range iy in
  for_loop 0 (d_job_num bid)
    (fun itrans acc =>
       for_loop xstart xend
         (fun x acc =>
            (upd2 (fst acc) itrans x
               (fst acc itrans x [+] ccf2D_s_term bid y pixel itrans x),
             upd2 (snd acc) itrans x
               (snd acc itrans x [+] ccf2D_cc_term bid y pixel x)))
         acc)
    acc.

(** Lines 965-1033. *)
Definition ccf2D_rows (bid : Z) : Z * ((Z -> Z -> XFLOAT) * (Z -> Z -> XFLOAT)) :=
  for_loop 0 (imgY projector)
    (fun iy st => (fst st + imgX projector, ccf2D_row bid iy (fst st) (snd st)))
    (0, (fun _ _ => xf_zero, fun _ _ => xf_zero)).

(** Lines 1036-1041: [(sum1, sum2)] of translation [itrans]. *)
Definition ccf2D_sums (acc : (Z -> Z -> XFLOAT) * (Z -> Z -> XFLOAT)) (itrans : Z) :
    XFLOAT * XFLOAT :=
  for_loop 0 (imgX projector)
    (fun x sums => (fst sums [+] fst acc itrans x, snd sums [+] snd acc itrans x))
    (xf_zero, xf_zero).

(** Lines 1035-1049: [g_diff2s[iy] += - sum1 / sqrt(sum2)]. *)
Definition ccf2D_emit (bid : Z) (acc : (Z -> Z -> XFLOAT) * (Z -> Z -> XFLOAT))
    (g_diff2s : Z -> XFLOAT) : Z -> XFLOAT :=
  for_loop 0 (d_job_num bid)
    (fun itrans out =>
       let '(sum1, sum2) := ccf2D_sums acc itrans in
       let iy := d_job_idx bid + itrans in
       upd out iy (out iy [+] ([~] sum1) [/] xf_sqrt sum2))
    g_diff2s.

Definition ccf2D_job (bid : Z) (g_diff2s : Z -> XFLOAT) : Z -> XFLOAT :=
  ccf2D_emit bid (snd (ccf2D_rows bid)) g_diff2s.

End Diff2CCFine2D.

Definition diff2_CC_fine_2D {XFLOAT : Type} {ops : XFloatOps XFLOAT}
    (REF3D : bool)
    (grid_size : Z)
    (g_eulers g_imgs_real g_imgs_imag g_trans_x g_trans_y : Z -> XFLOAT)
    (projector : AccProjectorKernel XFLOAT)
    (g_corr_img g_diff2s : Z -> XFLOAT)
    (image_size : Z) (sum_init exp_local_sqrtXi2 : XFLOAT)
    (orientation_num translation_num num_jobs : Z)
    (d_rot_idx d_trans_idx d_job_idx d_job_num : Z -> Z) : Z -> XFLOAT :=
  for_loop 0 grid_size
    (ccf2D_job REF3D g_eulers g_imgs_real g_imgs_imag g_trans_x g_trans_y
       projector g_corr_img d_rot_idx d_trans_idx d_job_idx d_job_num)
    g_diff2s.

(* ================================================================== *)
(** * diff2_CC_fine_3D (lines 1053-1229) *)

Section Diff2CCFine3D.
Context {XFLOAT : Type} {ops : XFloatOps XFLOAT}.
Variables g_eulers g_imgs_real g_imgs_imag g_trans_x g_trans_y g_trans_z : Z -> XFLOAT.
Variable projector : AccProjectorKernel XFLOAT.
Variable g_corr_img : Z -> XFLOAT.
Variables d_rot_idx d_trans_idx d_job_idx d_job_num : Z -> Z.

(** Lines 1098-1103. *)
Definition ccf3D_trans_x (bid i : Z) : XFLOAT := g_trans_x (d_trans_idx (d_job_idx bid) + i).
Definition ccf3D_trans_y (bid i : Z) : XFLOAT := g_trans_y (d_trans_idx (d_job_idx bid) + i).
Definition ccf3D_trans_z (bid i : Z) : XFLOAT := g_trans_z (d_trans_idx (d_job_idx bid) + i).

(** Lines 1127-1150. *)
Definition ccf3D_row_range (iz iy : Z) : Z * Z * Z * Z :=
  let '(z, xstart_z, xend_z) :=
    row_rule (maxR projector) (imgZ projector) iz 0 (imgX projector) in
  let '(y, xstart_y, xend_y) :=
    row_rule (maxR projector) (imgY projector) iy xstart_z xend_z in
  (z, y, xstart_y, xend_y).

(** Lines 1114-1124 and 1159-1161. *)
Definition ccf3D_project (bid z y x : Z) : XFLOAT * XFLOAT :=
  let iorient := d_rot_idx (d_job_idx bid) in
  let e0 := g_eulers (iorient * 9) in
  let e1 := g_eulers (iorient * 9 + 1) in
  let e2 := g_eulers (iorient * 9 + 2) in
  let e3 := g_eulers (iorient * 9 + 3) in
  let e4 := g_eulers (iorient * 9 + 4) in
  let e5 := g_eulers (iorient * 9 + 5) in
  let e6 := g_eulers (iorient * 9 + 6) in
  let e7 := g_eulers (iorient * 9 + 7) in
  let e8 := g_eulers (iorient * 9 + 8) in
  project3Dmodel_xyz projector x y z e0 e1 e2 e3 e4 e5 e6 e7 e8.

(** Lines 1170-1201. *)
Definition ccf3D_shifted (bid z y pixel itrans x : Z) : XFLOAT * XFLOAT :=
  let img_real := g_imgs_real (pixel + x) in
  let img_imag := g_imgs_imag (pixel + x) in
  let '(trans_cos_z, trans_sin_z) :=
    lookup_signed (ccf3D_trans_z bid itrans) (imgZ projector) z in
  let '(trans_cos_y, trans_sin_y) :=
    lookup_signed (ccf3D_trans_y bid itrans) (imgY projector) y in
  let trans_cos_x := xf_cos_entry (ccf3D_trans_x bid itrans) (imgX projector) x in
  let trans_sin_x := xf_sin_entry (ccf3D_trans_x bid itrans) (imgX projector) x in
  let '(c1, s1) := add_angle trans_cos_x trans_sin_x trans_cos_y trans_sin_y in
  let '(cc, ss) := add_angle c1 s1 trans_cos_z trans_sin_z in
  rotate cc ss img_real img_imag.

(** Line 1203. *)
Definition ccf3D_s_term (bid z y pixel itrans x : Z) : XFLOAT :=
  let '(ref_real, ref_imag) := ccf3D_project bid z y x in
  let '(shifted_real, shifted_imag) := ccf3D_shifted bid z y pixel itrans x in
  (ref_real [*] shifted_real [+] ref_imag [*] shifted_imag) [*] g_corr_img (pixel + x).

(** Line 1204. *)
Definition ccf3D_cc_term (bid z y pixel x : Z) : XFLOAT :=
  let '(ref_real, ref_imag) := ccf3D_project bid z y x in
  (ref_real [*] ref_real [+] ref_imag [*] ref_imag) [*] g_corr_img (pixel + x).

(** Lines 1168-1206. *)
Definition ccf3D_row (bid iz iy pixel : Z)
    (acc : (Z -> Z -> XFLOAT) * (Z -> Z -> XFLOAT)) :
    (Z -> Z -> XFLOAT) * (Z -> Z -> XFLOAT) :=
  let '(z, y, xstart_y, xend_y) := ccf3D_row_range iz iy in
  for_loop 0 (d_job_num bid)
    (fun itrans acc =>
       for_loop xstart_y xend_y
         (fun x acc =>
            (upd2 (fst acc) itrans x
               (fst acc itrans x [+] ccf3D_s_term bid z y pixel itrans x),
             upd2 (snd acc) itrans x
               (snd acc itrans x [+] ccf3D_cc_term bid z y pixel x)))
         acc)
    acc.

(** Lines 1110-1210.  The [iy] loop closes at line 1207 and
    [pixel += xSize] stands after it, at line 1209: [pixel] is the same for
    every row of a plane and advances once per [iz] iteration. *)
Definition ccf3D_rows (bid : Z) : Z * ((Z -> Z -> XFLOAT) * (Z -> Z -> XFLOAT)) :=
  for_loop 0 (imgZ projector)
    (fun iz st =>
       let st' :=
         for_loop 0 (imgY projector)
           (fun iy st => (fst st, ccf3D_row bid iz iy (fst st) (snd st)))
           st in
       (fst st' + imgX projector, snd st'))
    (0, (fun _ _ => xf_zero, fun _ _ => xf_zero)).

(** Lines 1213-1218. *)
Definition ccf3D_sums (acc : (Z -> Z -> XFLOAT) * (Z -> Z -> XFLOAT)) (itrans : Z) :
    XFLOAT * XFLOAT :=
  for_loop 0 (imgX projector)
    (fun x sums => (fst sums [+] fst acc itrans x, snd sums [+] snd acc itrans x))
    (xf_zero, xf_zero).

(** Lines 1212-1227. *)
Definition ccf3D_emit (bid : Z) (acc : (Z -> Z -> XFLOAT) * (Z -> Z -> XFLOAT))
    (g_diff2s : Z -> XFLOAT) : Z -> XFLOAT :=
  for_loop 0 (d_job_num bid)
    (fun itrans out =>
       let '(sum1, sum2) := ccf3D_sums acc itrans in
       let iy := d_job_idx bid + itrans in
       upd out iy (out iy [+] ([~] sum1) [/] xf_sqrt sum2))
    g_diff2s.

Definition ccf3D_job (bid : Z) (g_diff2s : Z -> XFLOAT) : Z -> XFLOAT :=
  ccf3D_emit bid (snd (ccf3D_rows bid)) g_diff2s.

End Diff2CCFine3D.

Definition diff2_CC_fine_3D {XFLOAT : Type} {ops : XFloatOps XFLOAT}
    (grid_size : Z)
    (g_eulers g_imgs_real g_imgs_imag g_trans_x g_trans_y g_trans_z : Z -> XFLOAT)
    (projector : AccProjectorKernel XFLOAT)
    (g_corr_img g_diff2s : Z -> XFLOAT)
    (image_size : Z) (sum_init exp_local_sqrtXi2 : XFLOAT)
    (orientation_num translation_num num_jobs : Z)
    (d_rot_idx d_trans_idx d_job_idx d_job_num : Z -> Z) : Z -> XFLOAT :=
  for_loop 0 grid_size
    (ccf3D_job g_eulers g_imgs_real g_imgs_imag g_trans_x g_trans_y g_trans_z
       projector g_corr_img d_rot_idx d_trans_idx d_job_idx d_job_num)
    g_diff2s.

(* ================================================================== *)
(** * The output as a list of additions

    Every kernel stores only by [g_diff2s[k] += v].  [scatter ws out] performs
    the additions [ws], a list of (cell, value), in order; [*_writes] lists
    the additions of a kernel call in the order the source performs them. *)

Definition scatter {XFLOAT : Type} {ops : XFloatOps XFLOAT}
    (ws : list (Z * XFLOAT)) (out : Z -> XFLOAT) : Z -> XFLOAT :=
  fold_left (fun o w => upd o (fst w) (o (fst w) [+] snd w)) ws out.

Section Writes.
Context {XFLOAT : Type} {ops : XFloatOps XFLOAT}.

Definition coarse_block_writes (eulers_per_block translation_num : Z)
    (diff2s : Z -> Z -> XFLOAT) (block : Z) : list (Z * XFLOAT) :=
  flat_map
    (fun j =>
       map (fun i =>
              (block * eulers_per_block * translation_num + (j * translation_num + i),
               diff2s i j))
           (zrange 0 translation_num))
    (zrange 0 eulers_per_block).

Definition job_writes (d_job_idx d_job_num : Z -> Z) (score : Z -> XFLOAT) (bid : Z) :
    list (Z * XFLOAT) :=
  map (fun itrans => (d_job_idx bid + itrans, score itrans)) (zrange 0 (d_job_num bid)).

Definition orient_writes (trans_num : Z) (score : Z -> XFLOAT) (iorient : Z) :
    list (Z * XFLOAT) :=
  map (fun itrans => (iorient * trans_num + itrans, score itrans)) (zrange 0 trans_num).

End Writes.

(** The cells a fine kernel targets: [job_idx[b] + i] for a job [b] and
    [0 <= i < job_num[b]]. *)
Definition job_cell (grid_size : Z) (d_job_idx d_job_num : Z -> Z) (c : Z) : Prop :=
  exists b i, 0 <= b < grid_size /\ 0 <= i < d_job_num b /\ c = d_job_idx b + i.

(** A row index strictly inside the band that the row rule collapses. *)
Definition in_band (maxR size i : Z) : Prop := maxR < i < size - maxR.

(** The signed coordinate of a row index: indices from [size - maxR] on are
    the negative frequencies. *)
Definition row_coord (maxR size i : Z) : Z :=
  if (i >? maxR) && (i >=? size - maxR) then i - size else i.

(** The update of the cross-correlation accumulators [(s, s_cc)] of [n]
    translations by the single pixel [x]. *)
Definition cc_row_single {XFLOAT : Type} {ops : XFloatOps XFLOAT}
    (n x : Z) (s_term : Z -> Z -> XFLOAT) (cc_term : Z -> XFLOAT)
    (acc : (Z -> Z -> XFLOAT) * (Z -> Z -> XFLOAT)) :
    (Z -> Z -> XFLOAT) * (Z -> Z -> XFLOAT) :=
  for_loop 0 n
    (fun itrans acc =>
       (upd2 (fst acc) itrans x (fst acc itrans x [+] s_term itrans x),
        upd2 (snd acc) itrans x (snd acc itrans x [+] cc_term x)))
    acc.

(** The real sum of [f] over [lo .. hi-1]. *)
Definition Rsum (lo hi : Z) (f : Z -> R) : R :=
  fold_right (fun k acc => (f k + acc)%R) 0%R (zrange lo hi).

(* ================================================================== *)
(** * The additions of each kernel *)

Section KernelScores.
Context {XFLOAT : Type} {ops : XFloatOps XFLOAT}.
Variables (REF3D DATA3D : bool) (block_sz eulers_per_block grid_size : Z).
Variables g_eulers g_real g_imag g_trans_x g_trans_y g_trans_z g_corr : Z -> XFLOAT.
Variable projector : AccProjectorKernel XFLOAT.
Variables translation_num image_size orientation_num num_jobs : Z.
Variables sum_init exp_local_sqrtXi2 : XFLOAT.
Variables d_rot_idx d_trans_idx d_job_idx d_job_num : Z -> Z.

Definition diff2_coarse_writes : list (Z * XFLOAT) :=
  flat_map
    (fun block =>
       coarse_block_writes eulers_per_block translation_num
         (coarse_diff2s REF3D DATA3D block_sz eulers_per_block g_eulers
            g_trans_x g_trans_y g_trans_z g_real g_imag projector g_corr
            translation_num image_size block)
         block)
    (zrange 0 grid_size).

(** The score a diff2 fine job adds for its translation [itrans]. *)
Definition fine2D_score (bid itrans : Z) : XFLOAT :=
  snd (fine2D_rows REF3D g_eulers g_real g_imag g_trans_x g_trans_y projector
         g_corr d_rot_idx d_trans_idx d_job_idx d_job_num bid) itrans
  [+] sum_init.

Definition fine3D_score (bid itrans : Z) : XFLOAT :=
  snd (fine3D_rows g_eulers g_real g_imag g_trans_x g_trans_y g_trans_z projector
         g_corr d_rot_idx d_trans_idx d_job_idx d_job_num bid) itrans
  [+] sum_init.

(** The scores of the cross-correlation kernels, from the accumulators. *)
Definition cc_coarse_score (sums : Z -> XFLOAT * XFLOAT) (itrans : Z) : XFLOAT :=
  [~] (fst (sums itrans) [/] xf_sqrt (snd (sums itrans))).

Definition cc_fine_score (sums : Z -> XFLOAT * XFLOAT) (itrans : Z) : XFLOAT :=
  ([~] fst (sums itrans)) [/] xf_sqrt (snd (sums itrans)).

Definition ccc2D_score (iorient : Z) : Z -> XFLOAT :=
  cc_coarse_score
    (ccc2D_sums projector
       (snd (ccc2D_rows REF3D g_eulers g_real g_imag g_trans_x g_trans_y projector
               g_corr translation_num iorient))).

Definition ccc3D_score (iorient : Z) : Z -> XFLOAT :=
  cc_coarse_score
    (ccc3D_sums projector
       (snd (ccc3D_rows g_eulers g_real g_imag g_trans_x g_trans_y g_trans_z projector
               g_corr translation_num iorient))).

Definition ccf2D_score (bid : Z) : Z -> XFLOAT :=
  cc_fine_score
    (ccf2D_sums projector
       (snd (ccf2D_rows REF3D g_eulers g_real g_imag g_trans_x g_trans_y projector
               g_corr d_rot_idx d_trans_idx d_job_idx d_job_num bid))).

Definition ccf3D_score (bid : Z) : Z -> XFLOAT :=
  cc_fine_score
    (ccf3D_sums projector
       (snd (ccf3D_rows g_eulers g_real g_imag g_trans_x g_trans_y g_trans_z projector
               g_corr d_rot_idx d_trans_idx d_job_idx d_job_num bid))).

End KernelScores.

(* ================================================================== *)
(** * A kernel call on the caller's buffers *)

(** The seven kernels of the file, with their template arguments. *)
Inductive Kernel : Type :=
| K_diff2_coarse (REF3D DATA3D : bool) (block_sz eulers_per_block : Z)
| K_diff2_fine_2D (REF3D : bool)
| K_diff2_fine_3D
| K_diff2_CC_coarse_2D (REF3D : bool)
| K_diff2_CC_coarse_3D
| K_diff2_CC_fine_2D (REF3D : bool)
| K_diff2_CC_fine_3D.

(** The arguments of a call: the caller's arrays and the scalars.  A kernel
    reads the ones its signature has. *)
Record Args (XFLOAT : Type) := {
  a_grid_size : Z;
  a_eulers : Z -> XFLOAT;
  a_trans_x : Z -> XFLOAT;
  a_trans_y : Z -> XFLOAT;
  a_trans_z : Z -> XFLOAT;
  a_real : Z -> XFLOAT;
  a_imag : Z -> XFLOAT;
  a_projector : AccProjectorKernel XFLOAT;
  a_corr : Z -> XFLOAT;
  a_diff2s : Z -> XFLOAT;
  a_translation_num : Z;
  a_image_size : Z;
  a_sum_init : XFLOAT;
  a_exp_local_sqrtXi2 : XFLOAT;
  a_orientation_num : Z;
  a_num_jobs : Z;
  a_rot_idx : Z -> Z;
  a_trans_idx : Z -> Z;
  a_job_idx : Z -> Z;
  a_job_num : Z -> Z
}.

Section Calls.
Context {XFLOAT : Type} {ops : XFloatOps XFLOAT}.

(** The arguments with another output array. *)
Definition with_diff2s (a : Args XFLOAT) (out : Z -> XFLOAT) : Args XFLOAT :=
  {| a_grid_size := a_grid_size a; a_eulers := a_eulers a;
     a_trans_x := a_trans_x a; a_trans_y := a_trans_y a; a_trans_z := a_trans_z a;
     a_real := a_real a; a_imag := a_imag a; a_projector := a_projector a;
     a_corr := a_corr a; a_diff2s := out;
     a_translation_num := a_translation_num a; a_image_size := a_image_size a;
     a_sum_init := a_sum_init a; a_exp_local_sqrtXi2 := a_exp_local_sqrtXi2 a;
     a_orientation_num := a_orientation_num a; a_num_jobs := a_num_jobs a;
     a_rot_idx := a_rot_idx a; a_trans_idx := a_trans_idx a;
     a_job_idx := a_job_idx a; a_job_num := a_job_num a |}.

(** The arguments with another number of work units. *)
Definition with_grid_size (a : Args XFLOAT) (n : Z) : Args XFLOAT :=
  {| a_grid_size := n; a_eulers := a_eulers a;
     a_trans_x := a_trans_x a; a_trans_y := a_trans_y a; a_trans_z := a_trans_z a;
     a_real := a_real a; a_imag := a_imag a; a_projector := a_projector a;
     a_corr := a_corr a; a_diff2s := a_diff2s a;
     a_translation_num := a_translation_num a; a_image_size := a_image_size a;
     a_sum_init := a_sum_init a; a_exp_local_sqrtXi2 := a_exp_local_sqrtXi2 a;
     a_orientation_num := a_orientation_num a; a_num_jobs := a_num_jobs a;
     a_rot_idx := a_rot_idx a; a_trans_idx := a_trans_idx a;
     a_job_idx := a_job_idx a; a_job_num := a_job_num a |}.

(** The output array when the call of kernel [k] on [a] returns. *)
Definition kernel_output (k : Kernel) (a : Args XFLOAT) : Z -> XFLOAT :=
  match k with
  | K_diff2_coarse REF3D DATA3D block_sz eulers_per_block =>
      diff2_coarse REF3D DATA3D block_sz eulers_per_block (a_grid_size a)
        (a_eulers a) (a_trans_x a) (a_trans_y a) (a_trans_z a) (a_real a) (a_imag a)
        (a_projector a) (a_corr a) (a_diff2s a) (a_translation_num a) (a_image_size a)
  | K_diff2_fine_2D REF3D =>
      diff2_fine_2D REF3D (a_grid_size a) (a_eulers a) (a_real a) (a_imag a)
        (a_trans_x a) (a_trans_y a) (a_trans_z a) (a_projector a) (a_corr a)
        (a_diff2s a) (a_image_size a) (a_sum_init a) (a_orientation_num a)
        (a_translation_num a) (a_num_jobs a)
        (a_rot_idx a) (a_trans_idx a) (a_job_idx a) (a_job_num a)
  | K_diff2_fine_3D =>
      diff2_fine_3D (a_grid_size a) (a_eulers a) (a_real a) (a_imag a)
        (a_trans_x a) (a_trans_y a) (a_trans_z a) (a_projector a) (a_corr a)
        (a_diff2s a) (a_image_size a) (a_sum_init a) (a_orientation_num a)
        (a_translation_num a) (a_num_jobs a)
        (a_rot_idx a) (a_trans_idx a) (a_job_idx a) (a_job_num a)
  | K_diff2_CC_coarse_2D REF3D =>
      diff2_CC_coarse_2D REF3D (a_grid_size a) (a_eulers a) (a_real a) (a_imag a)
        (a_trans_x a) (a_trans_y a) (a_projector a) (a_corr a) (a_diff2s a)
        (a_translation_num a) (a_image_size a) (a_exp_local_sqrtXi2 a)
  | K_diff2_CC_coarse_3D =>
      diff2_CC_coarse_3D (a_grid_size a) (a_eulers a) (a_real a) (a_imag a)
        (a_trans_x a) (a_trans_y a) (a_trans_z a) (a_projector a) (a_corr a)
        (a_diff2s a) (a_translation_num a) (a_image_size a) (a_exp_local_sqrtXi2 a)
  | K_diff2_CC_fine_2D REF3D =>
      diff2_CC_fine_2D REF3D (a_grid_size a) (a_eulers a) (a_real a) (a_imag a)
        (a_trans_x a) (a_trans_y a) (a_projector a) (a_corr a) (a_diff2s a)
        (a_image_size a) (a_sum_init a) (a_exp_local_sqrtXi2 a) (a_orientation_num a)
        (a_translation_num a) (a_num_jobs a)
        (a_rot_idx a) (a_trans_idx a) (a_job_idx a) (a_job_num a)
  | K_diff2_CC_fine_3D =>
      diff2_CC_fine_3D (a_grid_size a) (a_eulers a) (a_real a) (a_imag a)
        (a_trans_x a) (a_trans_y a) (a_trans_z a) (a_projector a) (a_corr a)
        (a_diff2s a) (a_image_size a) (a_sum_init a) (a_exp_local_sqrtXi2 a)
        (a_orientation_num a) (a_translation_num a) (a_num_jobs a)
        (a_rot_idx a) (a_trans_idx a) (a_job_idx a) (a_job_num a)
  end.

(** The caller's buffers after the call: the kernels store through
    [g_diff2s] and into call-local scratch only, so every other array is
    the one that was passed. *)
Definition call (k : Kernel) (a : Args XFLOAT) : Args XFLOAT :=
  with_diff2s a (kernel_output k a).

(** The additions of a call, in the order the source performs them. *)
Definition kernel_writes (k : Kernel) (a : Args XFLOAT) : list (Z * XFLOAT) :=
  match k with
  | K_diff2_coarse REF3D DATA3D block_sz eulers_per_block =>
      diff2_coarse_writes REF3D DATA3D block_sz eulers_per_block (a_grid_size a)
        (a_eulers a) (a_real a) (a_imag a) (a_trans_x a) (a_trans_y a) (a_trans_z a)
        (a_corr a) (a_projector a) (a_translation_num a) (a_image_size a)
  | K_diff2_fine_2D REF3D =>
      flat_map
        (fun bid =>
           job_writes (a_job_idx a) (a_job_num a)
             (fine2D_score REF3D (a_eulers a) (a_real a) (a_imag a) (a_trans_x a)
                (a_trans_y a) (a_corr a) (a_projector a) (a_sum_init a)
                (a_rot_idx a) (a_trans_idx a) (a_job_idx a) (a_job_num a) bid)
             bid)
        (zrange 0 (a_grid_size a))
  | K_diff2_fine_3D =>
      flat_map
        (fun bid =>
           job_writes (a_job_idx a) (a_job_num a)
             (fine3D_score (a_eulers a) (a_real a) (a_imag a) (a_trans_x a)
                (a_trans_y a) (a_trans_z a) (a_corr a) (a_projector a) (a_sum_init a)
                (a_rot_idx a) (a_trans_idx a) (a_job_idx a) (a_job_num a) bid)
             bid)
        (zrange 0 (a_grid_size a))
  | K_diff2_CC_coarse_2D REF3D =>
      flat_map
        (fun iorient =>
           orient_writes (a_translation_num a)
             (ccc2D_score REF3D (a_eulers a) (a_real a) (a_imag a) (a_trans_x a)
                (a_trans_y a) (a_corr a) (a_projector a) (a_translation_num a) iorient)
             iorient)
        (zrange 0 (a_grid_size a))
  | K_diff2_CC_coarse_3D =>
      flat_map
        (fun iorient =>
           orient_writes (a_translation_num a)
             (ccc3D_score (a_eulers a) (a_real a) (a_imag a) (a_trans_x a)
                (a_trans_y a) (a_trans_z a) (a_corr a) (a_projector a)
                (a_translation_num a) iorient)
             iorient)
        (zrange 0 (a_grid_size a))
  | K_diff2_CC_fine_2D REF3D =>
      flat_map
        (fun bid =>
           job_writes (a_job_idx a) (a_job_num a)
             (ccf2D_score REF3D (a_eulers a) (a_real a) (a_imag a) (a_trans_x a)
                (a_trans_y a) (a_corr a) (a_projector a)
                (a_rot_idx a) (a_trans_idx a) (a_job_idx a) (a_job_num a) bid)
             bid)
        (zrange 0 (a_grid_size a))
  | K_diff2_CC_fine_3D =>
      flat_map
        (fun bid =>
           job_writes (a_job_idx a) (a_job_num a)
             (ccf3D_score (a_eulers a) (a_real a) (a_imag a) (a_trans_x a)
                (a_trans_y a) (a_trans_z a) (a_corr a) (a_projector a)
                (a_rot_idx a) (a_trans_idx a) (a_job_idx a) (a_job_num a) bid)
             bid)
        (zrange 0 (a_grid_size a))
  end.

(** The output cells a call targets: for the coarse kernels the
    [grid_size * eulers_per_block * translation_num] cells from the output
    base (the cross-correlation kernels take one orientation per work
    unit); for the fine kernels the cells [job_idx[b] + i]. *)
Definition targeted (k : Kernel) (a : Args XFLOAT) (c : Z) : Prop :=
  match k with
  | K_diff2_coarse _ _ _ eulers_per_block =>
      0 <= c < a_grid_size a * eulers_per_block * a_translation_num a
  | K_diff2_CC_coarse_2D _ | K_diff2_CC_coarse_3D =>
      0 <= c < a_grid_size a * 1 * a_translation_num a
  | K_diff2_fine_2D _ | K_diff2_fine_3D | K_diff2_CC_fine_2D _ | K_diff2_CC_fine_3D =>
      job_cell (a_grid_size a) (a_job_idx a) (a_job_num a) c
  end.

End Calls.

(* ================================================================== *)
(** * Definitions of the specification *)

(** The mapping of section 4.1 of the specification, in its words: for 3D
    data [z = p / (imgX*imgY)], [r = p mod (imgX*imgY)], [x = r mod imgX],
    [y = r / imgX], then [z -= imgZ] if [z > maxR]; for 2D data
    [x = p mod imgX], [y = p / imgX], [z = 0]; always [y -= imgY] if
    [y > maxR]. *)
Definition resolve_spec (DATA3D : bool) (imgX imgY imgZ maxR p : Z) : Z * Z * Z :=
  let '(x, y, z) :=
    if DATA3D then
      let z := p / (imgX * imgY) in
      let r := p mod (imgX * imgY) in
      (r mod imgX, r / imgX, if z >? maxR then z - imgZ else z)
    else (p mod imgX, p / imgX, 0) in
  (x, if y >? maxR then y - imgY else y, z).

(** The angle [2 pi (t_x x / imgX + t_y y / imgY)] of a 2D translation. *)
Definition theta2D (tx ty : R) (X Y x y : Z) : R :=
  (2 * PI * (tx * IZR x / IZR X + ty * IZR y / IZR Y))%R.

(** The angle [2 pi (t_x x / imgX + t_y y / imgY + t_z z / imgZ)]. *)
Definition theta3D (tx ty tz : R) (X Y Zs x y z : Z) : R :=
  (2 * PI * (tx * IZR x / IZR X + ty * IZR y / IZR Y + tz * IZR z / IZR Zs))%R.

(** The sum of [f y pixel x] over the pixels that a row-by-row 2D kernel
    samples: every row [iy] of the image, whose pixels start at
    [pixel = iy * imgX], and every [x] of the row's range; [y] is the row's
    signed coordinate. *)
Definition sampled_sum_2D (projector : AccProjectorKernel R) (f : Z -> Z -> Z -> R) : R :=
  Rsum 0 (imgY projector)
    (fun iy =>
       let '(y, xstart, xend) :=
         row_rule (maxR projector) (imgY projector) iy 0 (imgX projector) in
       Rsum xstart xend (fun x => f y (iy * imgX projector) x)).

(** The same over the volume of a 3D kernel: the row [(iz, iy)] starts at
    [pixel = (iz * imgY + iy) * imgX]. *)
Definition sampled_sum_3D (projector : AccProjectorKernel R)
    (f : Z -> Z -> Z -> Z -> R) : R :=
  Rsum 0 (imgZ projector)
    (fun iz =>
       Rsum 0 (imgY projector)
         (fun iy =>
            let '(z, xstart_z, xend_z) :=
              row_rule (maxR projector) (imgZ projector) iz 0 (imgX projector) in
            let '(y, xstart_y, xend_y) :=
              row_rule (maxR projector) (imgY projector) iy xstart_z xend_z in
            Rsum xstart_y xend_y
              (fun x => f z y ((iz * imgY projector + iy) * imgX projector) x))).

(** [(a + b i) (cos theta + i sin theta)], as the pair (real, imaginary). *)
Definition times_phase (theta a b : R) : R * R :=
  (cos theta * a - sin theta * b, cos theta * b + sin theta * a)%R.

(** What the additions [ws] add to cell [c], over the reals. *)
Fixpoint added (ws : list (Z * R)) (c : Z) : R :=
  match ws with
  | [] => 0%R
  | w :: ws' => if c =? fst w then (snd w + added ws' c)%R else added ws' c
  end.

(** ** Sums in the arithmetic of [XFLOAT] *)

Section OrderedSums.
Context {XFLOAT : Type} {ops : XFloatOps XFLOAT}.
Variable projector : AccProjectorKernel XFLOAT.

(** Column [x] of an accumulator of a 2D cross-correlation kernel
    ([s_weight[itrans][x]], [s_norm[itrans][x]]): from [(XFLOAT)0], the rows
    whose range has [x] add their term [f y pixel x], in increasing [iy]. *)
Definition xf_column_sum_2D (f : Z -> Z -> Z -> XFLOAT) (x : Z) : XFLOAT :=
  for_loop 0 (imgY projector)
    (fun iy a =>
       let '(y, xstart, xend) :=
         row_rule (maxR projector) (imgY projector) iy 0 (imgX projector) in
       if (xstart <=? x) && (x <? xend) then a [+] f y (iy * imgX projector) x else a)
    xf_zero.

(** The sum of [f y pixel x] over the sampled pixels in the arithmetic of
    [XFLOAT] and in the order of the code: the columns, each summed over its
    rows, are added from [(XFLOAT)0] in increasing [x]. *)
Definition xf_sampled_sum_2D (f : Z -> Z -> Z -> XFLOAT) : XFLOAT :=
  for_loop 0 (imgX projector) (fun x a => a [+] xf_column_sum_2D f x) xf_zero.

(** The same for a volume: the rows [(iz, iy)] in the order of the two loops,
    row [(iz, iy)] at the row base [(iz * imgY + iy) * imgX]. *)
Definition xf_column_sum_3D (f : Z -> Z -> Z -> Z -> XFLOAT) (x : Z) : XFLOAT :=
  for_loop 0 (imgZ projector)
    (fun iz a =>
       for_loop 0 (imgY projector)
         (fun iy a =>
            let '(z, xstart_z, xend_z) :=
              row_rule (maxR projector) (imgZ projector) iz 0 (imgX projector) in
            let '(y, xstart_y, xend_y) :=
              row_rule (maxR projector) (imgY projector) iy xstart_z xend_z in
            if (xstart_y <=? x) && (x <? xend_y)
            then a [+] f z y ((iz * imgY projector + iy) * imgX projector) x else a)
         a)
    xf_zero.

Definition xf_sampled_sum_3D (f : Z -> Z -> Z -> Z -> XFLOAT) : XFLOAT :=
  for_loop 0 (imgX projector) (fun x a => a [+] xf_column_sum_3D f x) xf_zero.

End OrderedSums.

(* ================================================================== *)
(** * Example inputs *)

Definition zeros : Z -> R := fun _ => 0%R.
Definition ones : Z -> R := fun _ => 1%R.

(** An image of 4 x 4 pixels with cutoff 1, sampled by the constant 1. *)
Definition projector_4x4 : AccProjectorKernel R :=
  {| imgX := 4; imgY := 4; imgZ := 1; maxR := 1;
     project2Dmodel := fun _ _ _ _ _ _ => (1%R, 0%R);
     project3Dmodel_xy := fun _ _ _ _ _ _ _ _ => (1%R, 0%R);
     project3Dmodel_xyz := fun _ _ _ _ _ _ _ _ _ _ _ _ => (1%R, 0%R) |}.

(** An image of 8 x 8 pixels with cutoff 2. *)
Definition projector_8x8 : AccProjectorKernel R :=
  {| imgX := 8; imgY := 8; imgZ := 1; maxR := 2;
     project2Dmodel := fun _ _ _ _ _ _ => (1%R, 0%R);
     project3Dmodel_xy := fun _ _ _ _ _ _ _ _ => (1%R, 0%R);
     project3Dmodel_xyz := fun _ _ _ _ _ _ _ _ _ _ _ _ => (1%R, 0%R) |}.

(** A volume of 2 x 2 x 2 pixels with cutoff 1: no row is skipped. *)
Definition projector_2x2x2 : AccProjectorKernel R :=
  {| imgX := 2; imgY := 2; imgZ := 2; maxR := 1;
     project2Dmodel := fun _ _ _ _ _ _ => (1%R, 0%R);
     project3Dmodel_xy := fun _ _ _ _ _ _ _ _ => (1%R, 0%R);
     project3Dmodel_xyz := fun _ _ _ _ _ _ _ _ _ _ _ _ => (1%R, 0%R) |}.

(** A signal that is 1 on the pixels 0..3 and 100 on the pixels 4..7 of the
    2 x 2 x 2 volume. *)
Definition volume_1_100 : Z -> R := fun p => if p <? 4 then 1%R else 100%R.

(** Job tables of a single job of one translation and orientation 0. *)
Definition job_first : Z -> Z := fun _ => 0.
Definition job_single : Z -> Z := fun _ => 1.

(** A call on one job over the 4 x 4 image. *)
Definition example_args : Args R :=
  {| a_grid_size := 1; a_eulers := zeros;
     a_trans_x := zeros; a_trans_y := zeros; a_trans_z := zeros;
     a_real := ones; a_imag := zeros; a_projector := projector_4x4;
     a_corr := ones; a_diff2s := zeros;
     a_translation_num := 1; a_image_size := 16;
     a_sum_init := (7 / 2)%R; a_exp_local_sqrtXi2 := 1%R;
     a_orientation_num := 1; a_num_jobs := 1;
     a_rot_idx := job_first; a_trans_idx := job_first;
     a_job_idx := job_first; a_job_num := job_single |}.

(** Inputs in double precision. *)
Definition zeros64 : Z -> PrimFloat.float := fun _ => 0%float.
Definition ones64 : Z -> PrimFloat.float := fun _ => 1%float.

(** A 2 x 2 image with cutoff 1 (no row is skipped) whose reference is
    zero. *)
Definition projector_2x2_zero : AccProjectorKernel PrimFloat.float :=
  {| imgX := 2; imgY := 2; imgZ := 1; maxR := 1;
     project2Dmodel := fun _ _ _ _ _ _ => (0%float, 0%float);
     project3Dmodel_xy := fun _ _ _ _ _ _ _ _ => (0%float, 0%float);
     project3Dmodel_xyz := fun _ _ _ _ _ _ _ _ _ _ _ _ => (0%float, 0%float) |}.

(** The 4 x 4 image with cutoff 1 of [projector_4x4], in double precision. *)
Definition projector_4x4_one : AccProjectorKernel PrimFloat.float :=
  {| imgX := 4; imgY := 4; imgZ := 1; maxR := 1;
     project2Dmodel := fun _ _ _ _ _ _ => (1%float, 0%float);
     project3Dmodel_xy := fun _ _ _ _ _ _ _ _ => (1%float, 0%float);
     project3Dmodel_xyz := fun _ _ _ _ _ _ _ _ _ _ _ _ => (1%float, 0%float) |}.

(** The signal [2^27, 1, 1, 1] and the weights [1, 2, 2, 2] on four
    pixels: the terms [corr[p] * 0.5 * |0 - sig_p|^2] are
    [2^53, 1, 1, 1]. *)
Definition signal_2p27 : Z -> PrimFloat.float :=
  fun p => if p =? 0 then 134217728%float else 1%float.
Definition weights_1222 : Z -> PrimFloat.float :=
  fun p => if p =? 0 then 1%float else 2%float.

(** One job of one zero translation on the 4 x 4 image, with a signal equal
    to the reference, [sum_init = 1], and [2^53] in every output cell. *)
Definition args_2p53 : Args PrimFloat.float :=
  {| a_grid_size := 1; a_eulers := zeros64;
     a_trans_x := zeros64; a_trans_y := zeros64; a_trans_z := zeros64;
     a_real := ones64; a_imag := zeros64; a_projector := projector_4x4_one;
     a_corr := ones64; a_diff2s := fun _ => 9007199254740992%float;
     a_translation_num := 1; a_image_size := 16;
     a_sum_init := 1%float; a_exp_local_sqrtXi2 := 1%float;
     a_orientation_num := 1; a_num_jobs := 1;
     a_rot_idx := job_first; a_trans_idx := job_first;
     a_job_idx := job_first; a_job_num := job_single |}.

(* ================================================================== *)
(** * Definitions for the further properties *)

Definition sampled_2D {XFLOAT : Type} (projector : AccProjectorKernel XFLOAT) (p : Z) : Prop :=
  exists iy x,
    0 <= iy < imgY projector /\
    (let '(_, xstart, xend) :=
       row_rule (maxR projector) (imgY projector) iy 0 (imgX projector) in
     xstart <= x < xend) /\
    p = iy * imgX projector + x.

Definition sampled_3D {XFLOAT : Type} (projector : AccProjectorKernel XFLOAT) (p : Z) : Prop :=
  exists iz iy x,
    0 <= iz < imgZ projector /\ 0 <= iy < imgY projector /\
    (let '(_, xstart_z, xend_z) :=
       row_rule (maxR projector) (imgZ projector) iz 0 (imgX projector) in
     let '(_, xstart_y, xend_y) :=
       row_rule (maxR projector) (imgY projector) iy xstart_z xend_z in
     xstart_y <= x < xend_y) /\
    p = (iz * imgY projector + iy) * imgX projector + x.

(** [|ref - sh|^2] of two complex numbers given as pairs. *)
Definition dist2 (ref sh : R * R) : R :=
  ((fst ref - fst sh) * (fst ref - fst sh) + (snd ref - snd sh) * (snd ref - snd sh))%R.

(** The phase angle of translation [(tx, ty, tz)] at the coordinates of a
    pixel of diff2_coarse. *)
Definition coarse_theta (DATA3D : bool) (projector : AccProjectorKernel R)
    (tx ty tz : R) (xyz : Z * Z * Z) : R :=
  let '(x, y, z) := xyz in
  if DATA3D
  then theta3D tx ty tz (imgX projector) (imgY projector) (imgZ projector) x y z
  else theta2D tx ty (imgX projector) (imgY projector) x y.

(** What pixel [p] contributes to the score of diff2_coarse for the
    orientation [j] of block [block] and the translation [(tx, ty, tz)]:
    [corr[p] * 0.5 * |ref_p - e^(i theta_p) sig_p|^2]. *)
Definition coarse_pixel_diff2 (REF3D DATA3D : bool) (eulers_per_block : Z)
    (g_eulers g_real g_imag : Z -> R) (projector : AccProjectorKernel R)
    (g_corr : Z -> R) (block j : Z) (tx ty tz : R) (p : Z) : R :=
  let xyz := coarse_xyz DATA3D projector p in
  (g_corr p * (1 / 2)
   * dist2 (coarse_project REF3D DATA3D eulers_per_block g_eulers projector block j xyz)
       (times_phase (coarse_theta DATA3D projector tx ty tz xyz) (g_real p) (g_imag p)))%R.

(** The sum of [f z y pixel x] over the rows as diff2_CC_fine_3D addresses
    them: every row [(iz, iy)] with the row base [pixel = iz * imgX]. *)
Definition plane_sum_3D (projector : AccProjectorKernel R)
    (f : Z -> Z -> Z -> Z -> R) : R :=
  Rsum 0 (imgZ projector)
    (fun iz =>
       Rsum 0 (imgY projector)
         (fun iy =>
            let '(z, xstart_z, xend_z) :=
              row_rule (maxR projector) (imgZ projector) iz 0 (imgX projector) in
            let '(y, xstart_y, xend_y) :=
              row_rule (maxR projector) (imgY projector) iy xstart_z xend_z in
            Rsum xstart_y xend_y (fun x => f z y (iz * imgX projector) x))).

(** The four kernels that take a job list. *)
Inductive JobKernel : Type :=
| JK_diff2_fine_2D (REF3D : bool)
| JK_diff2_fine_3D
| JK_diff2_CC_fine_2D (REF3D : bool)
| JK_diff2_CC_fine_3D.

Definition job_kernel (k : JobKernel) : Kernel :=
  match k with
  | JK_diff2_fine_2D REF3D => K_diff2_fine_2D REF3D
  | JK_diff2_fine_3D => K_diff2_fine_3D
  | JK_diff2_CC_fine_2D REF3D => K_diff2_CC_fine_2D REF3D
  | JK_diff2_CC_fine_3D => K_diff2_CC_fine_3D
  end.

Section JobCalls.
Context {XFLOAT : Type} {ops : XFloatOps XFLOAT}.

(** The score that job [bid] of a call adds for its translation [itrans]. *)
Definition job_score (k : JobKernel) (a : Args XFLOAT) (bid itrans : Z) : XFLOAT :=
  match k with
  | JK_diff2_fine_2D REF3D =>
      fine2D_score REF3D (a_eulers a) (a_real a) (a_imag a) (a_trans_x a)
        (a_trans_y a) (a_corr a) (a_projector a) (a_sum_init a)
        (a_rot_idx a) (a_trans_idx a) (a_job_idx a) (a_job_num a) bid itrans
  | JK_diff2_fine_3D =>
      fine3D_score (a_eulers a) (a_real a) (a_imag a) (a_trans_x a)
        (a_trans_y a) (a_trans_z a) (a_corr a) (a_projector a) (a_sum_init a)
        (a_rot_idx a) (a_trans_idx a) (a_job_idx a) (a_job_num a) bid itrans
  | JK_diff2_CC_fine_2D REF3D =>
      ccf2D_score REF3D (a_eulers a) (a_real a) (a_imag a) (a_trans_x a)
        (a_trans_y a) (a_corr a) (a_projector a)
        (a_rot_idx a) (a_trans_idx a) (a_job_idx a) (a_job_num a) bid itrans
  | JK_diff2_CC_fine_3D =>
      ccf3D_score (a_eulers a) (a_real a) (a_imag a) (a_trans_x a)
        (a_trans_y a) (a_trans_z a) (a_corr a) (a_projector a)
        (a_rot_idx a) (a_trans_idx a) (a_job_idx a) (a_job_num a) bid itrans
  end.

(** The arguments with the job tables [d_job_idx + first] and
    [d_job_num + first]: the job list from job [first] on. *)
Definition with_jobs_from (a : Args XFLOAT) (first : Z) : Args XFLOAT :=
  {| a_grid_size := a_grid_size a; a_eulers := a_eulers a;
     a_trans_x := a_trans_x a; a_trans_y := a_trans_y a; a_trans_z := a_trans_z a;
     a_real := a_real a; a_imag := a_imag a; a_projector := a_projector a;
     a_corr := a_corr a; a_diff2s := a_diff2s a;
     a_translation_num := a_translation_num a; a_image_size := a_image_size a;
     a_sum_init := a_sum_init a; a_exp_local_sqrtXi2 := a_exp_local_sqrtXi2 a;
     a_orientation_num := a_orientation_num a; a_num_jobs := a_num_jobs a;
     a_rot_idx := a_rot_idx a; a_trans_idx := a_trans_idx a;
     a_job_idx := fun b => a_job_idx a (first + b);
     a_job_num := fun b => a_job_num a (first + b) |}.

(** A call without work: no translation for a coarse kernel, no translation
    in any job for a kernel that takes a job list. *)
Definition no_translations (k : Kernel) (a : Args XFLOAT) : Prop :=
  match k with
  | K_diff2_coarse _ _ _ _ | K_diff2_CC_coarse_2D _ | K_diff2_CC_coarse_3D =>
      a_translation_num a <= 0
  | K_diff2_fine_2D _ | K_diff2_fine_3D | K_diff2_CC_fine_2D _ | K_diff2_CC_fine_3D =>
      forall b, 0 <= b < a_grid_size a -> a_job_num a b <= 0
  end.

End JobCalls.

(** The entries of a 3 x 3 Euler matrix that a 2D kernel passes to the
    projector. *)
Definition euler_entries_2D (REF3D : bool) : list Z :=
  if REF3D then [0; 1; 3; 4; 6; 7] else [0; 1; 3; 4].

(** [|a + b i|^2]. *)
Definition cnorm2 (c : R * R) : R := (fst c * fst c + snd c * snd c)%R.

(** The projector whose samples are those of [projector] times [lambda]. *)
Definition scale_projector (lambda : R) (projector : AccProjectorKernel R) :
    AccProjectorKernel R :=
  {| imgX := imgX projector; imgY := imgY projector; imgZ := imgZ projector;
     maxR := maxR projector;
     project2Dmodel := fun x y e0 e1 e3 e4 =>
       let '(re, im) := project2Dmodel projector x y e0 e1 e3 e4 in
       (lambda * re, lambda * im)%R;
     project3Dmodel_xy := fun x y e0 e1 e3 e4 e6 e7 =>
       let '(re, im) := project3Dmodel_xy projector x y e0 e1 e3 e4 e6 e7 in
       (lambda * re, lambda * im)%R;
     project3Dmodel_xyz := fun x y z e0 e1 e2 e3 e4 e5 e6 e7 e8 =>
       let '(re, im) := project3Dmodel_xyz projector x y z e0 e1 e2 e3 e4 e5 e6 e7 e8 in
       (lambda * re, lambda * im)%R |}.

(** The 8 x 8 image of ones, except for the value 5 at pixel 24: the
    pixel [x = 0] of row 3, which lies in the band of [projector_8x8]. *)
Definition off_band_8x8 : Z -> R := fun p => if p =? 24 then 5%R else 1%R.

(** A volume of 4 x 4 x 4 pixels with cutoff 1: the rows with [iy = 2] or
    [iz = 2] lie in the band. *)
Definition projector_4x4x4 : AccProjectorKernel R :=
  {| imgX := 4; imgY := 4; imgZ := 4; maxR := 1;
     project2Dmodel := fun _ _ _ _ _ _ => (1%R, 0%R);
     project3Dmodel_xy := fun _ _ _ _ _ _ _ _ => (1%R, 0%R);
     project3Dmodel_xyz := fun _ _ _ _ _ _ _ _ _ _ _ _ => (1%R, 0%R) |}.

(** The volume of ones, except for the value 5 at pixel 8: the pixel
    [x = 0] of the row [(iz, iy) = (0, 2)]. *)
Definition off_band_4x4x4 : Z -> R := fun p => if p =? 8 then 5%R else 1%R.

(** Ones on the 16 pixels of the 4 x 4 image and 5 behind them. *)
Definition beyond_16 : Z -> R := fun p => if p <? 16 then 1%R else 5%R.

(** Euler matrices that are zero except for entry 2 of the first one. *)
Definition eulers_entry_2 : Z -> R := fun k => if k =? 2 then 5%R else 0%R.

(** The job tables of a dense job list: job [b] is orientation [b] with all
    3 translations, and its cells start at [3 b]. *)
Definition dense_job_idx : Z -> Z := fun b => b * 3.
Definition dense_job_num : Z -> Z := fun _ => 3.
Definition dense_rot_idx : Z -> Z := fun c => c / 3.
Definition dense_trans_idx : Z -> Z := fun c => c mod 3.

(** An image without rows and columns. *)
Definition projector_0x0 : AccProjectorKernel R :=
  {| imgX := 0; imgY := 0; imgZ := 0; maxR := 0;
     project2Dmodel := fun _ _ _ _ _ _ => (1%R, 0%R);
     project3Dmodel_xy := fun _ _ _ _ _ _ _ _ => (1%R, 0%R);
     project3Dmodel_xyz := fun _ _ _ _ _ _ _ _ _ _ _ _ => (1%R, 0%R) |}.

(** A call without translations. *)
Definition idle_args : Args R :=
  {| a_grid_size := 2; a_eulers := zeros;
     a_trans_x := zeros; a_trans_y := zeros; a_trans_z := zeros;
     a_real := ones; a_imag := zeros; a_projector := projector_4x4;
     a_corr := ones; a_diff2s := ones;
     a_translation_num := 0; a_image_size := 16;
     a_sum_init := 0%R; a_exp_local_sqrtXi2 := 1%R;
     a_orientation_num := 2; a_num_jobs := 2;
     a_rot_idx := job_first; a_trans_idx := job_first;
     a_job_idx := job_first; a_job_num := fun _ => 0 |}.

(* ================================================================== *)
(** * Loops and stores: basic facts *)

Unset Implicit Arguments.

Section LoopFacts.

Lemma zrange_nil lo hi : hi <= lo -> zrange lo hi = [].
Proof.
  intros H. unfold zrange.
  replace (Z.to_nat (hi - lo)) with 0%nat by lia. reflexivity.
Qed.

Lemma zrange_snoc lo hi : lo <= hi -> zrange lo (hi + 1) = zrange lo hi ++ [hi].
Proof.
  intros H. unfold zrange.
  replace (Z.to_nat (hi + 1 - lo)) with (S (Z.to_nat (hi - lo))) by lia.
  rewrite seq_S, map_app. cbn [map Nat.add]. do 3 f_equal. lia.
Qed.

Lemma zrange_cons lo hi : lo < hi -> zrange lo hi = lo :: zrange (lo + 1) hi.
Proof.
  intros H. unfold zrange.
  replace (Z.to_nat (hi - lo)) with (S (Z.to_nat (hi - (lo + 1)))) by lia.
  cbn [seq map]. f_equal; [lia|].
  rewrite <- seq_shift, map_map. apply map_ext. intros k. lia.
Qed.

Lemma in_zrange i lo hi : In i (zrange lo hi) <-> lo <= i < hi.
Proof.
  unfold zrange. rewrite in_map_iff. split.
  - intros (k & <- & Hk). apply in_seq in Hk. lia.
  - intros H. exists (Z.to_nat (i - lo)). split; [lia|]. apply in_seq. lia.
Qed.

Lemma zrange_NoDup lo hi : NoDup (zrange lo hi).
Proof.
  unfold zrange. apply Injective_map_NoDup; [|apply seq_NoDup].
  intros a b. lia.
Qed.

Context {S : Type}.
Implicit Types (body : Z -> S -> S) (s : S).

Lemma for_loop_nil lo hi body s : hi <= lo -> for_loop lo hi body s = s.
Proof. intros H. unfold for_loop. rewrite zrange_nil by assumption. reflexivity. Qed.

Lemma for_loop_snoc lo hi body s :
  lo <= hi -> for_loop lo (hi + 1) body s = body hi (for_loop lo hi body s).
Proof.
  intros H. unfold for_loop. rewrite zrange_snoc by assumption.
  rewrite fold_left_app. reflexivity.
Qed.

Lemma for_loop_cons lo hi body s :
  lo < hi -> for_loop lo hi body s = for_loop (lo + 1) hi body (body lo s).
Proof. intros H. unfold for_loop. rewrite zrange_cons by assumption. reflexivity. Qed.

Lemma for_loop_one m body s : for_loop m (m + 1) body s = body m s.
Proof. rewrite for_loop_snoc by lia. rewrite for_loop_nil by lia. reflexivity. Qed.

Lemma fold_left_ext_in {A} (f g : S -> A -> S) (l : list A) s :
  (forall a st, In a l -> f st a = g st a) -> fold_left f l s = fold_left g l s.
Proof.
  revert s. induction l as [|a l IH]; intros s H; [reflexivity|].
  cbn [fold_left]. rewrite H by (left; reflexivity).
  apply IH. intros b st Hb. apply H. right. exact Hb.
Qed.

Lemma for_loop_ext lo hi body body' s :
  (forall i st, lo <= i < hi -> body i st = body' i st) ->
  for_loop lo hi body s = for_loop lo hi body' s.
Proof.
  intros H. unfold for_loop. apply fold_left_ext_in.
  intros a st Ha. apply H. apply in_zrange. exact Ha.
Qed.

(** The invariant rule of a loop, with the loop counter. *)
Lemma for_loop_ind (P : Z -> S -> Prop) lo hi body s :
  lo <= hi -> P lo s ->
  (forall i st, lo <= i < hi -> P i st -> P (i + 1) (body i st)) ->
  P hi (for_loop lo hi body s).
Proof.
  intros Hle H0 Hstep.
  assert (G : forall n, P (lo + Z.of_nat n) (for_loop lo (lo + Z.of_nat n) body s)
                        \/ hi < lo + Z.of_nat n).
  { induction n as [|n IH].
    - left. rewrite Z.add_0_r. rewrite for_loop_nil by lia. exact H0.
    - destruct IH as [IH|IH]; [|right; lia].
      destruct (Z_lt_le_dec (lo + Z.of_nat n) hi) as [Hlt|Hge]; [left|right; lia].
      replace (lo + Z.of_nat (Datatypes.S n)) with (lo + Z.of_nat n + 1) by lia.
      rewrite for_loop_snoc by lia. apply Hstep; [lia|exact IH]. }
  destruct (G (Z.to_nat (hi - lo))) as [G'|G']; [|lia].
  replace (lo + Z.of_nat (Z.to_nat (hi - lo))) with hi in G' by lia. exact G'.
Qed.

(** The invariant rule without the counter; it needs no order of the bounds. *)
Lemma for_loop_inv (P : S -> Prop) lo hi body s :
  P s -> (forall i st, lo <= i < hi -> P st -> P (body i st)) ->
  P (for_loop lo hi body s).
Proof.
  intros H0 Hstep.
  destruct (Z_le_gt_dec lo hi) as [Hle|Hgt].
  - apply (for_loop_ind (fun _ => P)); auto.
  - rewrite for_loop_nil by lia. exact H0.
Qed.

End LoopFacts.

Section StoreFacts.
Context {A : Type}.

Lemma upd_same (a : Z -> A) i v : upd a i v i = v.
Proof. unfold upd. rewrite Z.eqb_refl. reflexivity. Qed.

Lemma upd_other (a : Z -> A) i v j : j <> i -> upd a i v j = a j.
Proof. intros H. unfold upd. destruct (Z.eqb_spec j i); [contradiction|reflexivity]. Qed.

Lemma upd2_same (a : Z -> Z -> A) i j v : upd2 a i j v i j = v.
Proof. unfold upd2. rewrite !Z.eqb_refl. reflexivity. Qed.

Lemma upd2_other (a : Z -> Z -> A) i j v i' j' :
  i' <> i \/ j' <> j -> upd2 a i j v i' j' = a i' j'.
Proof.
  intros H. unfold upd2.
  destruct (Z.eqb_spec i' i), (Z.eqb_spec j' j); cbn; try reflexivity. lia.
Qed.

End StoreFacts.

(* ================================================================== *)
(** * Additions into the output *)

Section ScatterFacts.
Context {XFLOAT : Type} {ops : XFloatOps XFLOAT}.
Implicit Types (ws : list (Z * XFLOAT)) (out : Z -> XFLOAT).

Lemma scatter_app ws1 ws2 out :
  scatter (ws1 ++ ws2) out = scatter ws2 (scatter ws1 out).
Proof. unfold scatter. apply fold_left_app. Qed.

Lemma scatter_cons w ws out :
  scatter (w :: ws) out = scatter ws (upd out (fst w) (out (fst w) [+] snd w)).
Proof. reflexivity. Qed.

(** A cell that no addition names keeps its content. *)
Lemma scatter_frame ws out c :
  ~ In c (map fst ws) -> scatter ws out c = out c.
Proof.
  revert out. induction ws as [|w ws IH]; intros out H; [reflexivity|].
  rewrite scatter_cons, IH.
  - apply upd_other. intros ->. apply H. left. reflexivity.
  - intros Hin. apply H. right. exact Hin.
Qed.

(** A cell that exactly one addition names receives that value once. *)
Lemma scatter_hit ws out c v :
  NoDup (map fst ws) -> In (c, v) ws -> scatter ws out c = out c [+] v.
Proof.
  revert out. induction ws as [|w ws IH]; intros out Hnd Hin; [contradiction|].
  cbn [map] in Hnd. inversion Hnd as [|? ? Hnotin Hnd']; subst.
  rewrite scatter_cons. destruct Hin as [->|Hin].
  - cbn [fst snd] in *. rewrite scatter_frame by exact Hnotin. apply upd_same.
  - rewrite (IH _ Hnd' Hin). rewrite upd_other; [reflexivity|].
    intros E. apply Hnotin. rewrite <- E.
    change c with (fst (c, v)). apply in_map. exact Hin.
Qed.

Lemma for_loop_upd_scatter lo hi (idx : Z -> Z) (v : Z -> XFLOAT) out :
  for_loop lo hi (fun k o => upd o (idx k) (o (idx k) [+] v k)) out
  = scatter (map (fun k => (idx k, v k)) (zrange lo hi)) out.
Proof.
  unfold for_loop, scatter. generalize (zrange lo hi) as l. intros l. revert out.
  induction l as [|k l IH]; intros out; [reflexivity|].
  cbn [map fold_left fst snd]. apply IH.
Qed.

Lemma for_loop_scatter lo hi (W : Z -> list (Z * XFLOAT)) out :
  for_loop lo hi (fun k o => scatter (W k) o) out
  = scatter (flat_map W (zrange lo hi)) out.
Proof.
  unfold for_loop. generalize (zrange lo hi) as l. intros l. revert out.
  induction l as [|k l IH]; intros out; [reflexivity|].
  cbn [flat_map fold_left]. rewrite scatter_app. apply IH.
Qed.

Lemma in_map_fst_flat_map (W : Z -> list (Z * XFLOAT)) (l : list Z) c :
  In c (map fst (flat_map W l)) <-> exists k, In k l /\ In c (map fst (W k)).
Proof.
  rewrite in_map_iff. split.
  - intros (w & <- & Hw). apply in_flat_map in Hw. destruct Hw as (k & Hk & Hw).
    exists k. split; [exact Hk|]. apply in_map. exact Hw.
  - intros (k & Hk & Hc). apply in_map_iff in Hc. destruct Hc as (w & <- & Hw).
    exists w. split; [reflexivity|]. apply in_flat_map. exists k. auto.
Qed.

Lemma in_job_writes d_job_idx d_job_num (score : Z -> XFLOAT) bid c :
  In c (map fst (job_writes d_job_idx d_job_num score bid))
  <-> exists i, 0 <= i < d_job_num bid /\ c = d_job_idx bid + i.
Proof.
  unfold job_writes. rewrite map_map. cbn [fst]. rewrite in_map_iff. split.
  - intros (i & <- & Hi). apply in_zrange in Hi. eauto.
  - intros (i & Hi & ->). exists i. split; [reflexivity|]. apply in_zrange. exact Hi.
Qed.

Lemma in_orient_writes trans_num (score : Z -> XFLOAT) iorient c :
  In c (map fst (orient_writes trans_num score iorient))
  <-> exists i, 0 <= i < trans_num /\ c = iorient * trans_num + i.
Proof.
  unfold orient_writes. rewrite map_map. cbn [fst]. rewrite in_map_iff. split.
  - intros (i & <- & Hi). apply in_zrange in Hi. eauto.
  - intros (i & Hi & ->). exists i. split; [reflexivity|]. apply in_zrange. exact Hi.
Qed.

Lemma in_coarse_block_writes epb T (diff2s : Z -> Z -> XFLOAT) block c :
  In c (map fst (coarse_block_writes epb T diff2s block))
  <-> exists j i, 0 <= j < epb /\ 0 <= i < T /\ c = block * epb * T + (j * T + i).
Proof.
  unfold coarse_block_writes. rewrite in_map_fst_flat_map. split.
  - intros (j & Hj & Hc). rewrite map_map in Hc. cbn [fst] in Hc.
    apply in_map_iff in Hc. destruct Hc as (i & <- & Hi).
    apply in_zrange in Hj, Hi. eauto.
  - intros (j & i & Hj & Hi & ->). exists j. split; [apply in_zrange; exact Hj|].
    rewrite map_map. cbn [fst]. apply in_map_iff. exists i.
    split; [reflexivity|apply in_zrange; exact Hi].
Qed.

(** The additions of one job name distinct cells. *)
Lemma job_writes_NoDup d_job_idx d_job_num (score : Z -> XFLOAT) bid :
  NoDup (map fst (job_writes d_job_idx d_job_num score bid)).
Proof.
  unfold job_writes. rewrite map_map. cbn [fst].
  apply Injective_map_NoDup; [|apply zrange_NoDup]. intros a b. lia.
Qed.

Lemma orient_writes_NoDup trans_num (score : Z -> XFLOAT) iorient :
  NoDup (map fst (orient_writes trans_num score iorient)).
Proof.
  unfold orient_writes. rewrite map_map. cbn [fst].
  apply Injective_map_NoDup; [|apply zrange_NoDup]. intros a b. lia.
Qed.

End ScatterFacts.

(* ================================================================== *)
(** * Every kernel call is a list of additions into the output *)

Section KernelsAsAdditions.
Context {XFLOAT : Type} {ops : XFloatOps XFLOAT}.
Variables (REF3D DATA3D : bool) (block_sz eulers_per_block grid_size : Z).
Variables g_eulers g_real g_imag g_trans_x g_trans_y g_trans_z g_corr : Z -> XFLOAT.
Variable projector : AccProjectorKernel XFLOAT.
Variables translation_num image_size orientation_num num_jobs : Z.
Variables sum_init exp_local_sqrtXi2 : XFLOAT.
Variables d_rot_idx d_trans_idx d_job_idx d_job_num : Z -> Z.

Lemma coarse_emit_scatter block diff2s out :
  coarse_emit eulers_per_block translation_num block diff2s out
  = scatter (coarse_block_writes eulers_per_block translation_num diff2s block) out.
Proof.
  unfold coarse_emit, coarse_block_writes. cbv zeta.
  rewrite <- for_loop_scatter. apply for_loop_ext. intros j st _.
  apply (for_loop_upd_scatter 0 translation_num
           (fun i => block * eulers_per_block * translation_num + (j * translation_num + i))
           (fun i => diff2s i j)).
Qed.

Lemma diff2_coarse_scatter out :
  diff2_coarse REF3D DATA3D block_sz eulers_per_block grid_size g_eulers
    g_trans_x g_trans_y g_trans_z g_real g_imag projector g_corr out
    translation_num image_size
  = scatter
      (diff2_coarse_writes REF3D DATA3D block_sz eulers_per_block grid_size g_eulers
         g_real g_imag g_trans_x g_trans_y g_trans_z g_corr projector
         translation_num image_size)
      out.
Proof.
  unfold diff2_coarse, diff2_coarse_writes. rewrite <- for_loop_scatter.
  apply for_loop_ext. intros block st _. apply coarse_emit_scatter.
Qed.

Lemma fine2D_emit_scatter bid s out :
  fine2D_emit sum_init d_job_idx d_job_num bid s out
  = scatter (job_writes d_job_idx d_job_num (fun itrans => s itrans [+] sum_init) bid) out.
Proof.
  apply (for_loop_upd_scatter 0 (d_job_num bid) (fun i => d_job_idx bid + i)
           (fun i => s i [+] sum_init)).
Qed.

Lemma fine3D_emit_scatter bid s out :
  fine3D_emit sum_init d_job_idx d_job_num bid s out
  = scatter (job_writes d_job_idx d_job_num (fun itrans => s itrans [+] sum_init) bid) out.
Proof.
  apply (for_loop_upd_scatter 0 (d_job_num bid) (fun i => d_job_idx bid + i)
           (fun i => s i [+] sum_init)).
Qed.

Lemma diff2_fine_2D_scatter out :
  diff2_fine_2D REF3D grid_size g_eulers g_real g_imag g_trans_x g_trans_y g_trans_z
    projector g_corr out image_size sum_init orientation_num translation_num num_jobs
    d_rot_idx d_trans_idx d_job_idx d_job_num
  = scatter
      (flat_map (fun bid =>
                   job_writes d_job_idx d_job_num
                     (fine2D_score REF3D g_eulers g_real g_imag g_trans_x g_trans_y g_corr
                        projector sum_init d_rot_idx d_trans_idx d_job_idx d_job_num bid)
                     bid)
                (zrange 0 grid_size))
      out.
Proof.
  unfold diff2_fine_2D. rewrite <- for_loop_scatter.
  apply for_loop_ext. intros bid st _. apply fine2D_emit_scatter.
Qed.

Lemma diff2_fine_3D_scatter out :
  diff2_fine_3D grid_size g_eulers g_real g_imag g_trans_x g_trans_y g_trans_z
    projector g_corr out image_size sum_init orientation_num translation_num num_jobs
    d_rot_idx d_trans_idx d_job_idx d_job_num
  = scatter
      (flat_map (fun bid =>
                   job_writes d_job_idx d_job_num
                     (fine3D_score g_eulers g_real g_imag g_trans_x g_trans_y g_trans_z
                        g_corr projector sum_init d_rot_idx d_trans_idx d_job_idx
                        d_job_num bid)
                     bid)
                (zrange 0 grid_size))
      out.
Proof.
  unfold diff2_fine_3D. rewrite <- for_loop_scatter.
  apply for_loop_ext. intros bid st _. apply fine3D_emit_scatter.
Qed.

Lemma ccc2D_emit_scatter trans_num iorient acc out :
  ccc2D_emit projector trans_num iorient acc out
  = scatter (orient_writes trans_num (cc_coarse_score (ccc2D_sums projector acc)) iorient) out.
Proof.
  unfold ccc2D_emit, orient_writes, cc_coarse_score.
  rewrite <- for_loop_upd_scatter. apply for_loop_ext. intros itrans st _.
  destruct (ccc2D_sums projector acc itrans). reflexivity.
Qed.

Lemma ccc3D_emit_scatter trans_num iorient acc out :
  ccc3D_emit projector trans_num iorient acc out
  = scatter (orient_writes trans_num (cc_coarse_score (ccc3D_sums projector acc)) iorient) out.
Proof.
  unfold ccc3D_emit, orient_writes, cc_coarse_score.
  rewrite <- for_loop_upd_scatter. apply for_loop_ext. intros itrans st _.
  destruct (ccc3D_sums projector acc itrans). reflexivity.
Qed.

Lemma ccf2D_emit_scatter bid acc out :
  ccf2D_emit projector d_job_idx d_job_num bid acc out
  = scatter (job_writes d_job_idx d_job_num (cc_fine_score (ccf2D_sums projector acc)) bid) out.
Proof.
  unfold ccf2D_emit, job_writes, cc_fine_score.
  rewrite <- for_loop_upd_scatter. apply for_loop_ext. intros itrans st _.
  destruct (ccf2D_sums projector acc itrans). reflexivity.
Qed.

Lemma ccf3D_emit_scatter bid acc out :
  ccf3D_emit projector d_job_idx d_job_num bid acc out
  = scatter (job_writes d_job_idx d_job_num (cc_fine_score (ccf3D_sums projector acc)) bid) out.
Proof.
  unfold ccf3D_emit, job_writes, cc_fine_score.
  rewrite <- for_loop_upd_scatter. apply for_loop_ext. intros itrans st _.
  destruct (ccf3D_sums projector acc itrans). reflexivity.
Qed.

Lemma diff2_CC_coarse_2D_scatter out :
  diff2_CC_coarse_2D REF3D grid_size g_eulers g_real g_imag g_trans_x g_trans_y
    projector g_corr out translation_num image_size exp_local_sqrtXi2
  = scatter
      (flat_map (fun iorient =>
                   orient_writes translation_num
                     (ccc2D_score REF3D g_eulers g_real g_imag g_trans_x g_trans_y g_corr
                        projector translation_num iorient)
                     iorient)
                (zrange 0 grid_size))
      out.
Proof.
  unfold diff2_CC_coarse_2D. rewrite <- for_loop_scatter.
  apply for_loop_ext. intros iorient st _. apply ccc2D_emit_scatter.
Qed.

Lemma diff2_CC_coarse_3D_scatter out :
  diff2_CC_coarse_3D grid_size g_eulers g_real g_imag g_trans_x g_trans_y g_trans_z
    projector g_corr out translation_num image_size exp_local_sqrtXi2
  = scatter
      (flat_map (fun iorient =>
                   orient_writes translation_num
                     (ccc3D_score g_eulers g_real g_imag g_trans_x g_trans_y g_trans_z
                        g_corr projector translation_num iorient)
                     iorient)
                (zrange 0 grid_size))
      out.
Proof.
  unfold diff2_CC_coarse_3D. rewrite <- for_loop_scatter.
  apply for_loop_ext. intros iorient st _. apply ccc3D_emit_scatter.
Qed.

Lemma diff2_CC_fine_2D_scatter out :
  diff2_CC_fine_2D REF3D grid_size g_eulers g_real g_imag g_trans_x g_trans_y
    projector g_corr out image_size sum_init exp_local_sqrtXi2
    orientation_num translation_num num_jobs
    d_rot_idx d_trans_idx d_job_idx d_job_num
  = scatter
      (flat_map (fun bid =>
                   job_writes d_job_idx d_job_num
                     (ccf2D_score REF3D g_eulers g_real g_imag g_trans_x g_trans_y g_corr
                        projector d_rot_idx d_trans_idx d_job_idx d_job_num bid)
                     bid)
                (zrange 0 grid_size))
      out.
Proof.
  unfold diff2_CC_fine_2D. rewrite <- for_loop_scatter.
  apply for_loop_ext. intros bid st _. apply ccf2D_emit_scatter.
Qed.

Lemma diff2_CC_fine_3D_scatter out :
  diff2_CC_fine_3D grid_size g_eulers g_real g_imag g_trans_x g_trans_y g_trans_z
    projector g_corr out image_size sum_init exp_local_sqrtXi2
    orientation_num translation_num num_jobs
    d_rot_idx d_trans_idx d_job_idx d_job_num
  = scatter
      (flat_map (fun bid =>
                   job_writes d_job_idx d_job_num
                     (ccf3D_score g_eulers g_real g_imag g_trans_x g_trans_y g_trans_z
                        g_corr projector d_rot_idx d_trans_idx d_job_idx d_job_num bid)
                     bid)
                (zrange 0 grid_size))
      out.
Proof.
  unfold diff2_CC_fine_3D. rewrite <- for_loop_scatter.
  apply for_loop_ext. intros bid st _. apply ccf3D_emit_scatter.
Qed.

End KernelsAsAdditions.

Section CallFacts.
Context {XFLOAT : Type} {ops : XFloatOps XFLOAT}.
Implicit Types (k : Kernel) (a : Args XFLOAT).

Lemma kernel_output_scatter k a :
  kernel_output k a = scatter (kernel_writes k a) (a_diff2s a).
Proof.
  destruct k; cbn [kernel_output kernel_writes].
  - apply diff2_coarse_scatter.
  - apply diff2_fine_2D_scatter.
  - apply diff2_fine_3D_scatter.
  - apply diff2_CC_coarse_2D_scatter.
  - apply diff2_CC_coarse_3D_scatter.
  - apply diff2_CC_fine_2D_scatter.
  - apply diff2_CC_fine_3D_scatter.
Qed.

(** The additions of a call do not depend on the output array. *)
Lemma kernel_writes_with_diff2s k a out :
  kernel_writes k (with_diff2s a out) = kernel_writes k a.
Proof. destruct k; reflexivity. Qed.

Lemma coarse_cell_bounds grid epb T b j i :
  0 <= b < grid -> 0 <= j < epb -> 0 <= i < T ->
  0 <= b * epb * T + (j * T + i) < grid * epb * T.
Proof.
  intros Hb Hj Hi.
  assert (0 <= j * T) by nia.
  assert (j * T + i < epb * T) by nia.
  assert (0 <= b * (epb * T)) by nia.
  assert ((b + 1) * (epb * T) <= grid * (epb * T)) by nia.
  nia.
Qed.

Lemma orient_cell_bounds grid T b i :
  0 <= b < grid -> 0 <= i < T -> 0 <= b * T + i < grid * 1 * T.
Proof.
  intros Hb Hi.
  assert (0 <= b * T) by nia.
  assert ((b + 1) * T <= grid * T) by nia.
  nia.
Qed.

(** Every addition of a call names a targeted cell. *)
Lemma kernel_writes_targeted k a c :
  In c (map fst (kernel_writes k a)) -> targeted k a c.
Proof.
  destruct k; cbn [kernel_writes targeted]; unfold diff2_coarse_writes, job_cell;
    rewrite in_map_fst_flat_map; intros (b & Hb & Hc); apply in_zrange in Hb.
  - apply in_coarse_block_writes in Hc. destruct Hc as (j & i & Hj & Hi & ->).
    apply coarse_cell_bounds; assumption.
  - apply in_job_writes in Hc. destruct Hc as (i & Hi & ->). eauto.
  - apply in_job_writes in Hc. destruct Hc as (i & Hi & ->). eauto.
  - apply in_orient_writes in Hc. destruct Hc as (i & Hi & ->).
    apply orient_cell_bounds; assumption.
  - apply in_orient_writes in Hc. destruct Hc as (i & Hi & ->).
    apply orient_cell_bounds; assumption.
  - apply in_job_writes in Hc. destruct Hc as (i & Hi & ->). eauto.
  - apply in_job_writes in Hc. destruct Hc as (i & Hi & ->). eauto.
Qed.

(** C10.  A call of any of the seven kernels leaves every input array
    (Euler matrices, translations, signal, weights, job tables) as it was
    passed, leaves every output cell outside the targeted ones unchanged
    (coarse: the [grid_size * eulers_per_block * translation_num] cells from
    the output base; fine: the cells [job_idx[b] + i] with
    [0 <= i < job_num[b]]), and with [grid_size = 0] changes no output cell. *)
Theorem kernel_frame k a :
  (a_eulers (call k a) = a_eulers a /\
   a_trans_x (call k a) = a_trans_x a /\
   a_trans_y (call k a) = a_trans_y a /\
   a_trans_z (call k a) = a_trans_z a /\
   a_real (call k a) = a_real a /\
   a_imag (call k a) = a_imag a /\
   a_corr (call k a) = a_corr a /\
   a_rot_idx (call k a) = a_rot_idx a /\
   a_trans_idx (call k a) = a_trans_idx a /\
   a_job_idx (call k a) = a_job_idx a /\
   a_job_num (call k a) = a_job_num a) /\
  (forall c, ~ targeted k a c -> a_diff2s (call k a) c = a_diff2s a c) /\
  (forall c, a_diff2s (call k (with_grid_size a 0)) c = a_diff2s a c).
Proof.
  split; [repeat split|split].
  - intros c Hc. cbn [call with_diff2s a_diff2s].
    rewrite kernel_output_scatter. apply scatter_frame.
    intros Hin. apply Hc. apply kernel_writes_targeted. exact Hin.
  - intros c. destruct k; reflexivity.
Qed.

End CallFacts.

(* ================================================================== *)
(** * Accumulator semantics, in exact real arithmetic *)

Section Accumulate.
Open Scope R_scope.

Lemma scatter_added (ws : list (Z * R)) (out : Z -> R) (c : Z) :
  scatter ws out c = out c + added ws c.
Proof.
  revert out. induction ws as [|w ws IH]; intros out.
  - cbn. lra.
  - rewrite scatter_cons, IH. cbn [added]. unfold upd.
    destruct (Z.eqb_spec c (fst w)) as [->|Hne]; cbn [xf_add R_ops]; lra.
Qed.

(** Over the reals, calling any of the seven kernels on an output array
    [O] and calling it again on the result yields [O + 2 * Delta], where
    [Delta] is the output of a call that starts from the all-zero array:
    what a call adds does not depend on what the output held. *)
Theorem kernel_accumulates (k : Kernel) (a : Args R) (c : Z) :
  a_diff2s (call k (call k a)) c
  = a_diff2s a c + 2 * a_diff2s (call k (with_diff2s a (fun _ => 0))) c.
Proof.
  unfold call. cbn [with_diff2s a_diff2s].
  rewrite !kernel_output_scatter. cbn [with_diff2s a_diff2s].
  rewrite !kernel_writes_with_diff2s. rewrite !scatter_added. lra.
Qed.

End Accumulate.

(* ================================================================== *)
(** * Accumulator semantics, in every arithmetic *)

Section AccumulatorSemantics.

(** C4.  In every arithmetic of [XFLOAT], what a call of any of the seven
    kernels adds does not depend on what the output array held: there is a
    list [W] of additions [g_diff2s[c] += v], fixed by the other inputs,
    such that a call on [O] returns [O] with the additions of [W] applied in
    order, and a second call applies them once more.  In exact real
    arithmetic this is [O + 2 * Delta], where [Delta] is the output of a
    call that starts from the all-zero array. *)
Theorem kernel_accumulator_semantics :
  (forall (XFLOAT : Type) (ops : XFloatOps XFLOAT) (k : Kernel) (a : Args XFLOAT),
      exists W : list (Z * XFLOAT),
        forall O : Z -> XFLOAT,
          a_diff2s (call k (with_diff2s a O)) = scatter W O /\
          a_diff2s (call k (call k (with_diff2s a O))) = scatter W (scatter W O)) /\
  (forall (k : Kernel) (a : Args R) (c : Z),
      a_diff2s (call k (call k a)) c
      = (a_diff2s a c + 2 * a_diff2s (call k (with_diff2s a (fun _ => 0%R))) c)%R).
Proof.
  split.
  - intros XFLOAT ops k a. exists (kernel_writes k a). intros O.
    unfold call. cbn [with_diff2s a_diff2s].
    rewrite !kernel_output_scatter. cbn [with_diff2s a_diff2s].
    rewrite !kernel_writes_with_diff2s. split; reflexivity.
  - exact kernel_accumulates.
Qed.

End AccumulatorSemantics.

(* ================================================================== *)
(** * Pixel geometry of diff2_coarse *)

Section Geometry.
Context {XFLOAT : Type}.
Variables (DATA3D : bool) (block_sz image_size : Z).
Variable projector : AccProjectorKernel XFLOAT.

Lemma coarse_xyz_spec p :
  0 < imgX projector -> 0 < imgY projector -> 0 <= p ->
  coarse_xyz DATA3D projector p
  = resolve_spec DATA3D (imgX projector) (imgY projector) (imgZ projector)
      (maxR projector) p.
Proof.
  intros HX HY Hp. unfold coarse_xyz, resolve_spec. cbv zeta.
  assert (HXY : 0 < imgX projector * imgY projector) by nia.
  destruct DATA3D.
  - rewrite (Z.quot_div_nonneg p) by lia.
    rewrite (Z.rem_mod_nonneg p) by lia.
    pose proof (Z.mod_pos_bound p _ HXY) as Hr.
    rewrite Z.quot_div_nonneg by lia. rewrite Z.rem_mod_nonneg by lia.
    reflexivity.
  - rewrite Z.quot_div_nonneg by lia. rewrite Z.rem_mod_nonneg by lia.
    reflexivity.
Qed.

Lemma coarse_pass_covers p :
  0 < block_sz -> 0 <= p < image_size ->
  0 <= p / block_sz < coarse_pass_num block_sz image_size.
Proof.
  intros Hb Hp. unfold coarse_pass_num. cbv zeta.
  rewrite Z.quot_div_nonneg by lia. rewrite Z.rem_mod_nonneg by lia.
  split; [apply Z.div_pos; lia|].
  pose proof (Z.div_mod image_size block_sz ltac:(lia)) as E.
  pose proof (Z.mod_pos_bound image_size block_sz Hb) as Hm.
  destruct (Z.eqb_spec (image_size mod block_sz) 0) as [H0|H0].
  - apply Z.div_lt_upper_bound; [lia|]. lia.
  - assert (p / block_sz <= image_size / block_sz) by (apply Z.div_le_mono; lia). lia.
Qed.

(** C9.  For every linear pixel index [p < image_size], the tile loop of
    diff2_coarse reaches [p] (in pass [p / block_sz], at [tid = p mod
    block_sz]), and at every pass and tile position that address [p] the
    stored coordinates are those of the specification: for 3D data
    [z = p / (imgX*imgY)], [x = (p mod (imgX*imgY)) mod imgX],
    [y = (p mod (imgX*imgY)) / imgX] with [z] decremented by [imgZ] when
    [z > maxR]; for 2D data [x = p mod imgX], [y = p / imgX], [z = 0]; and
    always [y] decremented by [imgY] when [y > maxR]. *)
Theorem coarse_geometry p :
  0 < imgX projector -> 0 < imgY projector -> 0 < block_sz ->
  0 <= p < image_size ->
  (exists pass tid,
      0 <= pass < coarse_pass_num block_sz image_size /\
      0 <= tid < block_sz /\ pass * block_sz + tid = p) /\
  (forall pass tid,
      pass * block_sz + tid = p ->
      coarse_tile_xyz DATA3D block_sz projector pass tid
      = resolve_spec DATA3D (imgX projector) (imgY projector) (imgZ projector)
          (maxR projector) p).
Proof.
  intros HX HY Hb Hp. split.
  - exists (p / block_sz), (p mod block_sz).
    split; [apply coarse_pass_covers; assumption|].
    split; [apply Z.mod_pos_bound; assumption|].
    pose proof (Z.div_mod p block_sz ltac:(lia)). lia.
  - intros pass tid E. unfold coarse_tile_xyz. cbv zeta. rewrite E.
    apply coarse_xyz_spec; lia.
Qed.

End Geometry.

(* ================================================================== *)
(** * The polar skip of the fine kernels *)

Section PolarSkip.

Lemma row_rule_band m size i xs xe :
  in_band m size i -> row_rule m size i xs xe = (row_coord m size i, m, m + 1).
Proof.
  unfold in_band, row_rule, row_coord. intros H.
  destruct (Z.gtb_spec i m); [|lia].
  destruct (Z.geb_spec i (size - m)); [lia|reflexivity].
Qed.

Lemma row_rule_outside m size i xs xe :
  ~ in_band m size i -> row_rule m size i xs xe = (row_coord m size i, xs, xe).
Proof.
  unfold in_band, row_rule, row_coord. intros H.
  destruct (Z.gtb_spec i m); [|reflexivity].
  destruct (Z.geb_spec i (size - m)); [reflexivity|lia].
Qed.

Lemma row_coord_band m size i : in_band m size i -> row_coord m size i = i.
Proof.
  unfold in_band, row_coord. intros H.
  destruct (Z.gtb_spec i m); [|reflexivity].
  destruct (Z.geb_spec i (size - m)); [lia|reflexivity].
Qed.

Lemma in_band_dec m size i : {in_band m size i} + {~ in_band m size i}.
Proof.
  unfold in_band.
  destruct (Z_lt_dec m i); [destruct (Z_lt_dec i (size - m))|]; (left; lia) || (right; lia).
Qed.

(** The range of a row of a 3D kernel, from the two applications of the
    row rule. *)
Lemma row_rule_3D m sizeZ sizeY xSize iz iy :
  (let '(z, xstart_z, xend_z) := row_rule m sizeZ iz 0 xSize in
   let '(y, xstart_y, xend_y) := row_rule m sizeY iy xstart_z xend_z in
   (z, y, xstart_y, xend_y))
  = (row_coord m sizeZ iz, row_coord m sizeY iy,
     if in_band_dec m sizeZ iz then m else if in_band_dec m sizeY iy then m else 0,
     if in_band_dec m sizeZ iz then m + 1
     else if in_band_dec m sizeY iy then m + 1 else xSize).
Proof.
  destruct (in_band_dec m sizeZ iz) as [Hz|Hz], (in_band_dec m sizeY iy) as [Hy|Hy];
    repeat first [rewrite (@row_rule_band m sizeZ iz) by assumption
                 |rewrite (@row_rule_outside m sizeZ iz) by assumption
                 |rewrite (@row_rule_band m sizeY iy) by assumption
                 |rewrite (@row_rule_outside m sizeY iy) by assumption];
    reflexivity.
Qed.

Context {XFLOAT : Type} {ops : XFloatOps XFLOAT}.
Variable REF3D : bool.
Variables g_eulers g_imgs_real g_imgs_imag g_trans_x g_trans_y g_trans_z : Z -> XFLOAT.
Variable projector : AccProjectorKernel XFLOAT.
Variable g_corr_img : Z -> XFLOAT.
Variables d_rot_idx d_trans_idx d_job_idx d_job_num : Z -> Z.

(** C7.  In the four fine kernels the x loops of a row run over
    [xstart .. xend-1] of the row's range.  In a 2D kernel a row with
    [maxR < iy < imgY - maxR] has the range [(maxR, maxR+1)], so that the
    pixel at [x = maxR] is the only one visited and the only one that
    contributes, and every other row has the range [(0, imgX)].  In a 3D
    kernel the same rule applies to [iz] as well: a row with [iz] or [iy]
    in the band has the range [(maxR, maxR+1)], every other row
    [(0, imgX)]. *)
Theorem polar_skip (bid iz iy pixel itrans : Z)
    (acc : (Z -> Z -> XFLOAT) * (Z -> Z -> XFLOAT)) :
  let m := maxR projector in
  let y := row_coord m (imgY projector) iy in
  let z := row_coord m (imgZ projector) iz in
  (* 2D kernels, a row inside the band *)
  (in_band m (imgY projector) iy ->
   y = iy /\
   fine2D_row_range projector iy = (y, m, m + 1) /\
   ccf2D_row_range projector iy = (y, m, m + 1) /\
   fine2D_row_sum REF3D g_eulers g_imgs_real g_imgs_imag g_trans_x g_trans_y
     projector g_corr_img d_rot_idx d_trans_idx d_job_idx bid iy pixel itrans
   = xf_zero [+] fine2D_term REF3D g_eulers g_imgs_real g_imgs_imag g_trans_x g_trans_y
                   projector g_corr_img d_rot_idx d_trans_idx d_job_idx bid y pixel
                   itrans m /\
   ccf2D_row REF3D g_eulers g_imgs_real g_imgs_imag g_trans_x g_trans_y
     projector g_corr_img d_rot_idx d_trans_idx d_job_idx d_job_num bid iy pixel acc
   = cc_row_single (d_job_num bid) m
       (ccf2D_s_term REF3D g_eulers g_imgs_real g_imgs_imag g_trans_x g_trans_y
          projector g_corr_img d_rot_idx d_trans_idx d_job_idx bid y pixel)
       (ccf2D_cc_term REF3D g_eulers projector g_corr_img d_rot_idx d_job_idx bid y pixel)
       acc) /\
  (* 2D kernels, any other row *)
  (~ in_band m (imgY projector) iy ->
   fine2D_row_range projector iy = (y, 0, imgX projector) /\
   ccf2D_row_range projector iy = (y, 0, imgX projector)) /\
  (* 3D kernels, a row inside the band of z or of y *)
  (in_band m (imgZ projector) iz \/ in_band m (imgY projector) iy ->
   fine3D_row_range projector iz iy = (z, y, m, m + 1) /\
   ccf3D_row_range projector iz iy = (z, y, m, m + 1) /\
   fine3D_row_sum g_eulers g_imgs_real g_imgs_imag g_trans_x g_trans_y g_trans_z
     projector g_corr_img d_rot_idx d_trans_idx d_job_idx bid iz iy pixel itrans
   = xf_zero [+] fine3D_term g_eulers g_imgs_real g_imgs_imag g_trans_x g_trans_y
                   g_trans_z projector g_corr_img d_rot_idx d_trans_idx d_job_idx
                   bid z y pixel itrans m /\
   ccf3D_row g_eulers g_imgs_real g_imgs_imag g_trans_x g_trans_y g_trans_z
     projector g_corr_img d_rot_idx d_trans_idx d_job_idx d_job_num bid iz iy pixel acc
   = cc_row_single (d_job_num bid) m
       (ccf3D_s_term g_eulers g_imgs_real g_imgs_imag g_trans_x g_trans_y g_trans_z
          projector g_corr_img d_rot_idx d_trans_idx d_job_idx bid z y pixel)
       (ccf3D_cc_term g_eulers projector g_corr_img d_rot_idx d_job_idx bid z y pixel)
       acc) /\
  (* 3D kernels, any other row *)
  (~ in_band m (imgZ projector) iz /\ ~ in_band m (imgY projector) iy ->
   fine3D_row_range projector iz iy = (z, y, 0, imgX projector) /\
   ccf3D_row_range projector iz iy = (z, y, 0, imgX projector)).
Proof.
  intros m y z. subst m y z. split; [|split; [|split]].
  - intros H. split; [apply row_coord_band; exact H|].
    split; [apply row_rule_band; exact H|].
    split; [apply row_rule_band; exact H|].
    split.
    + unfold fine2D_row_sum, fine2D_row_range. rewrite row_rule_band by exact H.
      rewrite for_loop_one. reflexivity.
    + unfold ccf2D_row, ccf2D_row_range, cc_row_single.
      rewrite row_rule_band by exact H.
      apply for_loop_ext. intros i st _. rewrite for_loop_one. reflexivity.
  - intros H. split; apply row_rule_outside; exact H.
  - intros H.
    assert (E : (if in_band_dec (maxR projector) (imgZ projector) iz
                 then maxR projector
                 else if in_band_dec (maxR projector) (imgY projector) iy
                      then maxR projector else 0) = maxR projector
                /\ (if in_band_dec (maxR projector) (imgZ projector) iz
                    then maxR projector + 1
                    else if in_band_dec (maxR projector) (imgY projector) iy
                         then maxR projector + 1 else imgX projector)
                   = maxR projector + 1).
    { destruct (in_band_dec (maxR projector) (imgZ projector) iz);
        [|destruct (in_band_dec (maxR projector) (imgY projector) iy)];
        try (split; reflexivity). tauto. }
    destruct E as [E1 E2].
    assert (R1 : fine3D_row_range projector iz iy
                 = (row_coord (maxR projector) (imgZ projector) iz,
                    row_coord (maxR projector) (imgY projector) iy,
                    maxR projector, maxR projector + 1)).
    { unfold fine3D_row_range. rewrite row_rule_3D, E1, E2. reflexivity. }
    assert (R2 : ccf3D_row_range projector iz iy
                 = (row_coord (maxR projector) (imgZ projector) iz,
                    row_coord (maxR projector) (imgY projector) iy,
                    maxR projector, maxR projector + 1)).
    { unfold ccf3D_row_range. rewrite row_rule_3D, E1, E2. reflexivity. }
    split; [exact R1|]. split; [exact R2|]. split.
    + unfold fine3D_row_sum. rewrite R1. rewrite for_loop_one. reflexivity.
    + unfold ccf3D_row, cc_row_single. rewrite R2.
      apply for_loop_ext. intros i st _. rewrite for_loop_one. reflexivity.
  - intros [Hz Hy].
    unfold fine3D_row_range, ccf3D_row_range. rewrite row_rule_3D.
    destruct (in_band_dec (maxR projector) (imgZ projector) iz); [contradiction|].
    destruct (in_band_dec (maxR projector) (imgY projector) iy); [contradiction|].
    split; reflexivity.
Qed.

End PolarSkip.

(* ================================================================== *)
(** * What a fine job adds to its cells *)

Section JobScores.
Context {XFLOAT : Type} {ops : XFloatOps XFLOAT}.
Variable REF3D : bool.
Variables g_eulers g_imgs_real g_imgs_imag g_trans_x g_trans_y g_trans_z : Z -> XFLOAT.
Variable projector : AccProjectorKernel XFLOAT.
Variable g_corr_img : Z -> XFLOAT.
Variables d_rot_idx d_trans_idx d_job_idx d_job_num : Z -> Z.

Lemma job_writes_hit (score : Z -> XFLOAT) bid i out :
  0 <= i < d_job_num bid ->
  scatter (job_writes d_job_idx d_job_num score bid) out (d_job_idx bid + i)
  = out (d_job_idx bid + i) [+] score i.
Proof.
  intros Hi. apply scatter_hit; [apply job_writes_NoDup|].
  unfold job_writes.
  apply (in_map (fun itrans => (d_job_idx bid + itrans, score itrans))).
  apply in_zrange. exact Hi.
Qed.

(** C5.  In diff2_fine_2D and diff2_fine_3D, job [bid] adds to the output
    cell [job_idx[bid] + i], for every [0 <= i < job_num[bid]], the value
    [s[i] + sum_init], where [s] are the sums the job accumulated over its
    rows (they do not involve [sum_init]): the bias enters each emitted score
    once, whatever the number of rows and pixels. *)
Theorem fine_job_adds_sum_init (sum_init : XFLOAT) (bid i : Z) (out : Z -> XFLOAT) :
  0 <= i < d_job_num bid ->
  fine2D_job REF3D g_eulers g_imgs_real g_imgs_imag g_trans_x g_trans_y projector
    g_corr_img sum_init d_rot_idx d_trans_idx d_job_idx d_job_num bid out
    (d_job_idx bid + i)
  = out (d_job_idx bid + i)
    [+] (snd (fine2D_rows REF3D g_eulers g_imgs_real g_imgs_imag g_trans_x g_trans_y
                projector g_corr_img d_rot_idx d_trans_idx d_job_idx d_job_num bid) i
         [+] sum_init)
  /\
  fine3D_job g_eulers g_imgs_real g_imgs_imag g_trans_x g_trans_y g_trans_z projector
    g_corr_img sum_init d_rot_idx d_trans_idx d_job_idx d_job_num bid out
    (d_job_idx bid + i)
  = out (d_job_idx bid + i)
    [+] (snd (fine3D_rows g_eulers g_imgs_real g_imgs_imag g_trans_x g_trans_y g_trans_z
                projector g_corr_img d_rot_idx d_trans_idx d_job_idx d_job_num bid) i
         [+] sum_init).
Proof.
  intros Hi. split.
  - unfold fine2D_job. rewrite fine2D_emit_scatter.
    rewrite job_writes_hit by exact Hi. reflexivity.
  - unfold fine3D_job. rewrite fine3D_emit_scatter.
    rewrite job_writes_hit by exact Hi. reflexivity.
Qed.

(** C6.  In diff2_CC_fine_2D and diff2_CC_fine_3D the output does not
    depend on [sum_init] and [exp_local_sqrtXi2], and job [bid] adds to the
    output cell [job_idx[bid] + i], for every [0 <= i < job_num[bid]],
    exactly [- sum1 / sqrt(sum2)], where [sum1] and [sum2] are the sums over
    [x] of the accumulators [s[i][x]] and [s_cc[i][x]] of the job. *)
Theorem cc_fine_job_score :
  (forall grid_size g_diff2s image_size orientation_num translation_num num_jobs
          (sum_init exp_local_sqrtXi2 sum_init' exp_local_sqrtXi2' : XFLOAT),
      diff2_CC_fine_2D REF3D grid_size g_eulers g_imgs_real g_imgs_imag g_trans_x
        g_trans_y projector g_corr_img g_diff2s image_size sum_init exp_local_sqrtXi2
        orientation_num translation_num num_jobs d_rot_idx d_trans_idx d_job_idx d_job_num
      = diff2_CC_fine_2D REF3D grid_size g_eulers g_imgs_real g_imgs_imag g_trans_x
          g_trans_y projector g_corr_img g_diff2s image_size sum_init' exp_local_sqrtXi2'
          orientation_num translation_num num_jobs d_rot_idx d_trans_idx d_job_idx d_job_num
      /\
      diff2_CC_fine_3D grid_size g_eulers g_imgs_real g_imgs_imag g_trans_x
        g_trans_y g_trans_z projector g_corr_img g_diff2s image_size sum_init
        exp_local_sqrtXi2 orientation_num translation_num num_jobs
        d_rot_idx d_trans_idx d_job_idx d_job_num
      = diff2_CC_fine_3D grid_size g_eulers g_imgs_real g_imgs_imag g_trans_x
          g_trans_y g_trans_z projector g_corr_img g_diff2s image_size sum_init'
          exp_local_sqrtXi2' orientation_num translation_num num_jobs
          d_rot_idx d_trans_idx d_job_idx d_job_num) /\
  (forall bid i (out : Z -> XFLOAT),
      0 <= i < d_job_num bid ->
      (let acc := snd (ccf2D_rows REF3D g_eulers g_imgs_real g_imgs_imag g_trans_x
                         g_trans_y projector g_corr_img d_rot_idx d_trans_idx d_job_idx
                         d_job_num bid) in
       let sum1 := fst (ccf2D_sums projector acc i) in
       let sum2 := snd (ccf2D_sums projector acc i) in
       ccf2D_job REF3D g_eulers g_imgs_real g_imgs_imag g_trans_x g_trans_y projector
         g_corr_img d_rot_idx d_trans_idx d_job_idx d_job_num bid out (d_job_idx bid + i)
       = out (d_job_idx bid + i) [+] ([~] sum1) [/] xf_sqrt sum2) /\
      (let acc := snd (ccf3D_rows g_eulers g_imgs_real g_imgs_imag g_trans_x g_trans_y
                         g_trans_z projector g_corr_img d_rot_idx d_trans_idx d_job_idx
                         d_job_num bid) in
       let sum1 := fst (ccf3D_sums projector acc i) in
       let sum2 := snd (ccf3D_sums projector acc i) in
       ccf3D_job g_eulers g_imgs_real g_imgs_imag g_trans_x g_trans_y g_trans_z projector
         g_corr_img d_rot_idx d_trans_idx d_job_idx d_job_num bid out (d_job_idx bid + i)
       = out (d_job_idx bid + i) [+] ([~] sum1) [/] xf_sqrt sum2)).
Proof.
  split.
  - intros. split; reflexivity.
  - intros bid i out Hi. split; cbv zeta.
    + unfold ccf2D_job. rewrite ccf2D_emit_scatter.
      rewrite job_writes_hit by exact Hi. reflexivity.
    + unfold ccf3D_job. rewrite ccf3D_emit_scatter.
      rewrite job_writes_hit by exact Hi. reflexivity.
Qed.

End JobScores.

(* ================================================================== *)
(** * The translation of a sample is a multiplication by a phase *)

Section PhaseShift.
Open Scope R_scope.

(** Sign folding: the folded look-up at a coordinate [k] of either sign is
    the cosine and sine of the angle of [k] itself. *)
Lemma lookup_signed_R (t : R) (N k : Z) :
  lookup_signed t N k
  = (cos (2 * PI * t * IZR k / IZR N), sin (2 * PI * t * IZR k / IZR N)).
Proof.
  unfold lookup_signed. cbn [xf_cos_entry xf_sin_entry xf_neg R_ops].
  destruct (Z.ltb_spec k 0) as [Hk|Hk]; [|reflexivity].
  rewrite opp_IZR.
  replace (2 * PI * t * - IZR k / IZR N) with (- (2 * PI * t * IZR k / IZR N))
    by (unfold Rdiv; ring).
  rewrite cos_neg, sin_neg, Ropp_involutive. reflexivity.
Qed.

Lemma add_angle_R (a b : R) :
  add_angle (cos a) (sin a) (cos b) (sin b) = (cos (a + b), sin (a + b)).
Proof.
  unfold add_angle. cbn [xf_add xf_sub xf_mul R_ops].
  rewrite cos_plus, sin_plus. reflexivity.
Qed.

Lemma shift2D_R (tx ty : R) (X Y x y : Z) (a b : R) :
  (let '(cy, sy) := lookup_signed ty Y y in
   let '(cc, ss) :=
     add_angle (cos (2 * PI * tx * IZR x / IZR X)) (sin (2 * PI * tx * IZR x / IZR X))
       cy sy in
   rotate cc ss a b)
  = times_phase (theta2D tx ty X Y x y) a b.
Proof.
  rewrite lookup_signed_R, add_angle_R. unfold rotate, times_phase, theta2D.
  cbn [xf_add xf_sub xf_mul R_ops].
  replace (2 * PI * tx * IZR x / IZR X + 2 * PI * ty * IZR y / IZR Y)
    with (2 * PI * (tx * IZR x / IZR X + ty * IZR y / IZR Y))
    by (unfold Rdiv; ring).
  reflexivity.
Qed.

Lemma shift3D_R (tx ty tz : R) (X Y Zs x y z : Z) (a b : R) :
  (let '(cz, sz) := lookup_signed tz Zs z in
   let '(cy, sy) := lookup_signed ty Y y in
   let '(c1, s1) :=
     add_angle (cos (2 * PI * tx * IZR x / IZR X)) (sin (2 * PI * tx * IZR x / IZR X))
       cy sy in
   let '(cc, ss) := add_angle c1 s1 cz sz in
   rotate cc ss a b)
  = times_phase (theta3D tx ty tz X Y Zs x y z) a b.
Proof.
  rewrite !lookup_signed_R, !add_angle_R. unfold rotate, times_phase, theta3D.
  cbn [xf_add xf_sub xf_mul R_ops].
  replace (2 * PI * tx * IZR x / IZR X + 2 * PI * ty * IZR y / IZR Y
           + 2 * PI * tz * IZR z / IZR Zs)
    with (2 * PI * (tx * IZR x / IZR X + ty * IZR y / IZR Y + tz * IZR z / IZR Zs))
    by (unfold Rdiv; ring).
  reflexivity.
Qed.

Variables (REF3D : bool) (block_sz : Z).
Variables g_eulers g_real g_imag g_trans_x g_trans_y g_trans_z g_corr : Z -> R.
Variable projector : AccProjectorKernel R.
Variables d_rot_idx d_trans_idx d_job_idx : Z -> Z.

Let X := imgX projector.
Let Y := imgY projector.
Let Zs := imgZ projector.


End PhaseShift.

(* ================================================================== *)
(** * One cell of a loop's state *)

Section CellFacts.
Context {S A : Type}.
Variable proj : S -> A.

(** A loop in which only iteration [k0] changes the observed cell. *)
Lemma for_loop_cell lo hi (body : Z -> S -> S) (s : S) (k0 : Z) (g : A -> A) :
  (forall k st, lo <= k < hi -> k <> k0 -> proj (body k st) = proj st) ->
  (forall st, lo <= k0 < hi -> proj (body k0 st) = g (proj st)) ->
  proj (for_loop lo hi body s)
  = if (lo <=? k0) && (k0 <? hi) then g (proj s) else proj s.
Proof.
  intros Hother Hhit.
  destruct (Z_le_gt_dec lo hi) as [Hle|Hgt].
  - apply (for_loop_ind
             (fun i st => proj st = if (lo <=? k0) && (k0 <? i) then g (proj s) else proj s)
             lo hi body s Hle).
    + destruct (Z.leb_spec lo k0), (Z.ltb_spec k0 lo); cbn; try reflexivity; lia.
    + intros i st Hi IH.
      destruct (Z.eq_dec i k0) as [->|Hne].
      * rewrite Hhit by lia. rewrite IH.
        destruct (Z.leb_spec lo k0), (Z.ltb_spec k0 k0), (Z.ltb_spec k0 (k0 + 1));
          cbn; try reflexivity; lia.
      * rewrite Hother by lia. rewrite IH.
        destruct (Z.leb_spec lo k0), (Z.ltb_spec k0 i), (Z.ltb_spec k0 (i + 1));
          cbn; try reflexivity; lia.
  - rewrite for_loop_nil by lia.
    destruct (Z.leb_spec lo k0), (Z.ltb_spec k0 hi); cbn; try reflexivity; lia.
Qed.

(** A loop in which every iteration [k] applies [g k] to the observed cell. *)
Lemma for_loop_fold lo hi (body : Z -> S -> S) (s : S) (g : Z -> A -> A) :
  (forall k st, lo <= k < hi -> proj (body k st) = g k (proj st)) ->
  proj (for_loop lo hi body s) = for_loop lo hi g (proj s).
Proof.
  intros H.
  destruct (Z_le_gt_dec lo hi) as [Hle|Hgt].
  - apply (for_loop_ind (fun i st => proj st = for_loop lo i g (proj s))
             lo hi body s Hle).
    + rewrite for_loop_nil by lia. reflexivity.
    + intros i st Hi IH. rewrite for_loop_snoc by lia. rewrite H by lia.
      rewrite IH. reflexivity.
  - rewrite !for_loop_nil by lia. reflexivity.
Qed.

End CellFacts.

Section AccumulatorFacts.
Context {XFLOAT : Type} {ops : XFloatOps XFLOAT}.

(** [for (j = lo; j < hi; j++) d[j] += t(j)], read at one cell. *)
Lemma for_loop_upd_at lo hi (t : Z -> XFLOAT) (d : Z -> XFLOAT) j0 :
  for_loop lo hi (fun j d => upd d j (d j [+] t j)) d j0
  = if (lo <=? j0) && (j0 <? hi) then d j0 [+] t j0 else d j0.
Proof.
  apply (for_loop_cell (fun d : Z -> XFLOAT => d j0)
           lo hi (fun j d => upd d j (d j [+] t j)) d j0 (fun a => a [+] t j0)).
  - intros k st _ Hne. apply upd_other. congruence.
  - intros st _. apply upd_same.
Qed.

(** [for (j = lo; j < hi; j++) a[i][j] += t(j)], read at one cell. *)
Lemma for_loop_upd2_col lo hi i (t : Z -> XFLOAT) (a : Z -> Z -> XFLOAT) i0 j0 :
  for_loop lo hi (fun j a => upd2 a i j (a i j [+] t j)) a i0 j0
  = if (i0 =? i) && ((lo <=? j0) && (j0 <? hi)) then a i0 j0 [+] t j0 else a i0 j0.
Proof.
  destruct (Z.eqb_spec i0 i) as [->|Hne]; cbn [andb].
  - apply (for_loop_cell (fun a : Z -> Z -> XFLOAT => a i j0)
             lo hi (fun j a => upd2 a i j (a i j [+] t j)) a j0 (fun v => v [+] t j0)).
    + intros k st _ Hk. apply upd2_other. right. congruence.
    + intros st _. apply upd2_same.
  - apply (for_loop_inv (fun a' : Z -> Z -> XFLOAT => a' i0 j0 = a i0 j0)).
    + reflexivity.
    + intros k st _ IH. rewrite upd2_other by (left; exact Hne). exact IH.
Qed.

End AccumulatorFacts.

Section WorkUnitFacts.
Context {XFLOAT : Type} {ops : XFloatOps XFLOAT}.

Lemma zrange_split lo k hi :
  lo <= k <= hi -> zrange lo hi = zrange lo k ++ zrange k hi.
Proof.
  intros H.
  assert (G : forall n : nat,
             zrange lo (k + Z.of_nat n) = zrange lo k ++ zrange k (k + Z.of_nat n)).
  { induction n as [|n IH].
    - rewrite Z.add_0_r, (zrange_nil k k), app_nil_r by lia. reflexivity.
    - replace (k + Z.of_nat (Datatypes.S n)) with (k + Z.of_nat n + 1) by lia.
      rewrite !zrange_snoc by lia. rewrite IH, app_assoc. reflexivity. }
  specialize (G (Z.to_nat (hi - k))).
  replace (k + Z.of_nat (Z.to_nat (hi - k))) with hi in G by lia. exact G.
Qed.

(** A cell that only work unit [k] names, and names once, receives the
    value of that addition. *)
Lemma scatter_unit_hit lo hi (W : Z -> list (Z * XFLOAT)) (out : Z -> XFLOAT) k c v :
  lo <= k < hi ->
  (forall k', lo <= k' < hi -> k' <> k -> ~ In c (map fst (W k'))) ->
  NoDup (map fst (W k)) ->
  In (c, v) (W k) ->
  scatter (flat_map W (zrange lo hi)) out c = out c [+] v.
Proof.
  intros Hk Hother Hnd Hin.
  rewrite (zrange_split lo k hi) by lia.
  rewrite (zrange_cons k hi) by lia.
  rewrite flat_map_app. cbn [flat_map]. rewrite !scatter_app.
  rewrite scatter_frame.
  - rewrite (scatter_hit _ _ c v Hnd Hin). rewrite scatter_frame; [reflexivity|].
    rewrite in_map_fst_flat_map. intros (k' & Hk' & Hc). apply in_zrange in Hk'.
    apply (Hother k'); [lia|lia|exact Hc].
  - rewrite in_map_fst_flat_map. intros (k' & Hk' & Hc). apply in_zrange in Hk'.
    apply (Hother k'); [lia|lia|exact Hc].
Qed.

Lemma coarse_block_writes_NoDup epb T (diff2s : Z -> Z -> XFLOAT) block :
  NoDup (map fst (coarse_block_writes epb T diff2s block)).
Proof.
  unfold coarse_block_writes. rewrite flat_map_concat_map, concat_map, map_map.
  rewrite <- flat_map_concat_map.
  assert (G : forall l : list Z,
             NoDup l -> (forall j, In j l -> 0 <= j) ->
             NoDup (flat_map
                      (fun j => map fst
                         (map (fun i => (block * epb * T + (j * T + i), diff2s i j))
                              (zrange 0 T))) l)).
  { induction l as [|j l IH]; intros Hnd Hpos; [constructor|].
    inversion Hnd as [|? ? Hj Hnd']; subst. cbn [flat_map].
    apply NoDup_app.
    - rewrite map_map. cbn [fst].
      apply Injective_map_NoDup; [|apply zrange_NoDup]. intros a b. lia.
    - apply IH; [exact Hnd'|]. intros j' Hj'. apply Hpos. right. exact Hj'.
    - intros c Hc1 Hc2. rewrite map_map in Hc1. cbn [fst] in Hc1.
      apply in_map_iff in Hc1. destruct Hc1 as (i & <- & Hi). apply in_zrange in Hi.
      apply in_flat_map in Hc2. destruct Hc2 as (j' & Hj' & Hc2).
      rewrite map_map in Hc2. cbn [fst] in Hc2.
      apply in_map_iff in Hc2. destruct Hc2 as (i' & E & Hi'). apply in_zrange in Hi'.
      assert (j' = j) by nia. subst j'. contradiction. }
  apply G; [apply zrange_NoDup|]. intros j Hj. apply in_zrange in Hj. lia.
Qed.

End WorkUnitFacts.

(* ================================================================== *)
(** * The cells of diff2_coarse *)

Section CoarseCells.
Context {XFLOAT : Type} {ops : XFloatOps XFLOAT}.
Variables (REF3D DATA3D : bool) (block_sz eulers_per_block grid_size : Z).
Variables g_eulers trans_x trans_y trans_z g_real g_imag : Z -> XFLOAT.
Variable projector : AccProjectorKernel XFLOAT.
Variable g_corr : Z -> XFLOAT.
Variables translation_num image_size : Z.

Let term := coarse_term REF3D DATA3D block_sz eulers_per_block g_eulers
              trans_x trans_y trans_z g_real g_imag projector g_corr.
Let diffi := coarse_diffi REF3D DATA3D block_sz eulers_per_block g_eulers
               trans_x trans_y trans_z g_real g_imag projector g_corr image_size.
Let diff2s := coarse_diff2s REF3D DATA3D block_sz eulers_per_block g_eulers
                trans_x trans_y trans_z g_real g_imag projector g_corr
                translation_num image_size.

(** [diffi[j]] after the tile loop: the tile's pixels below [image_size],
    added in the order of [tid]. *)
Lemma coarse_diffi_at block pass i j :
  0 <= j < eulers_per_block ->
  diffi block pass i j
  = for_loop 0 block_sz
      (fun tid a =>
         if pass * block_sz + tid <? image_size then a [+] term block pass i tid j else a)
      xf_zero.
Proof.
  intros Hj. subst diffi term. unfold coarse_diffi.
  apply (for_loop_fold (fun d : Z -> XFLOAT => d j)).
  intros tid st _. cbv beta.
  destruct (pass * block_sz + tid <? image_size); [|reflexivity].
  rewrite for_loop_upd_at.
  destruct (Z.leb_spec 0 j), (Z.ltb_spec j eulers_per_block); cbn; try reflexivity; lia.
Qed.

(** [diff2s[i][j]] after all passes: the tile sums, added in the order of
    the passes. *)
Lemma coarse_diff2s_at block i j :
  0 <= i < translation_num -> 0 <= j < eulers_per_block ->
  diff2s block i j
  = for_loop 0 (coarse_pass_num block_sz image_size)
      (fun pass a => a [+] diffi block pass i j) xf_zero.
Proof.
  intros Hi Hj. subst diff2s diffi. unfold coarse_diff2s.
  apply (for_loop_fold (fun d : Z -> Z -> XFLOAT => d i j)).
  intros pass st _. cbv beta zeta.
  rewrite (for_loop_cell (fun d : Z -> Z -> XFLOAT => d i j) 0 translation_num _ st i
             (fun a => a [+] coarse_diffi REF3D DATA3D block_sz eulers_per_block g_eulers
                           trans_x trans_y trans_z g_real g_imag projector g_corr
                           image_size block pass i j)).
  - destruct (Z.leb_spec 0 i), (Z.ltb_spec i translation_num); cbn; try reflexivity; lia.
  - intros k st' _ Hne. rewrite for_loop_upd2_col.
    destruct (Z.eqb_spec i k); [congruence|reflexivity].
  - intros st' _. rewrite for_loop_upd2_col. rewrite Z.eqb_refl.
    destruct (Z.leb_spec 0 j), (Z.ltb_spec j eulers_per_block); cbn; try reflexivity; lia.
Qed.

(** The cell of orientation [j] of block [block] and translation [i]
    receives [diff2s[i][j]], once. *)
Lemma diff2_coarse_cell out block j i :
  0 <= block < grid_size -> 0 <= j < eulers_per_block -> 0 <= i < translation_num ->
  diff2_coarse REF3D DATA3D block_sz eulers_per_block grid_size g_eulers
    trans_x trans_y trans_z g_real g_imag projector g_corr out translation_num image_size
    (block * eulers_per_block * translation_num + (j * translation_num + i))
  = out (block * eulers_per_block * translation_num + (j * translation_num + i))
    [+] diff2s block i j.
Proof.
  intros Hb Hj Hi. rewrite diff2_coarse_scatter. unfold diff2_coarse_writes.
  apply (scatter_unit_hit 0 grid_size _ out block); [exact Hb| | |].
  - intros b' Hb' Hne Hin. apply in_coarse_block_writes in Hin.
    destruct Hin as (j' & i' & Hj' & Hi' & E).
    pose proof (coarse_cell_bounds 1 eulers_per_block translation_num 0 j i
                  ltac:(lia) Hj Hi).
    pose proof (coarse_cell_bounds 1 eulers_per_block translation_num 0 j' i'
                  ltac:(lia) Hj' Hi').
    assert (block * (eulers_per_block * translation_num)
            = b' * (eulers_per_block * translation_num) + (j' * translation_num + i')
              - (j * translation_num + i)) by lia.
    nia.
  - apply coarse_block_writes_NoDup.
  - unfold coarse_block_writes. apply in_flat_map. exists j.
    split; [apply in_zrange; exact Hj|].
    apply (in_map (fun i0 =>
                     (block * eulers_per_block * translation_num
                      + (j * translation_num + i0), diff2s block i0 j))).
    apply in_zrange. exact Hi.
Qed.

End CoarseCells.

(* ================================================================== *)
(** * Real sums over index ranges *)

Section RealSums.
Open Scope R_scope.

Lemma range_ind (P : Z -> Prop) (lo : Z) :
  P lo -> (forall i, (lo <= i)%Z -> P i -> P (i + 1)%Z) ->
  forall hi, (lo <= hi)%Z -> P hi.
Proof.
  intros H0 Hstep hi Hle.
  replace hi with (lo + Z.of_nat (Z.to_nat (hi - lo)))%Z by lia.
  induction (Z.to_nat (hi - lo)) as [|n IH].
  - rewrite Z.add_0_r. exact H0.
  - replace (lo + Z.of_nat (S n))%Z with (lo + Z.of_nat n + 1)%Z by lia.
    apply Hstep; [lia|exact IH].
Qed.

Lemma Rsum_nil lo hi f : (hi <= lo)%Z -> Rsum lo hi f = 0.
Proof. intros H. unfold Rsum. rewrite zrange_nil by exact H. reflexivity. Qed.

Lemma fold_right_Rplus_acc (f : Z -> R) (l : list Z) (b : R) :
  fold_right (fun k acc => f k + acc) b l
  = fold_right (fun k acc => f k + acc) 0 l + b.
Proof. induction l as [|k l IH]; cbn; [lra|rewrite IH; lra]. Qed.

Lemma Rsum_split lo k hi f :
  (lo <= k <= hi)%Z -> Rsum lo hi f = Rsum lo k f + Rsum k hi f.
Proof.
  intros H. unfold Rsum. rewrite (zrange_split lo k hi H), fold_right_app.
  apply fold_right_Rplus_acc.
Qed.

Lemma Rsum_one k f : Rsum k (k + 1) f = f k.
Proof.
  unfold Rsum. rewrite zrange_cons by lia. rewrite (zrange_nil (k + 1)) by lia.
  cbn. lra.
Qed.

Lemma Rsum_snoc lo hi f : (lo <= hi)%Z -> Rsum lo (hi + 1) f = Rsum lo hi f + f hi.
Proof. intros H. rewrite (Rsum_split lo hi (hi + 1)) by lia. rewrite Rsum_one. reflexivity. Qed.

Lemma Rsum_ext lo hi f g :
  (forall k, (lo <= k < hi)%Z -> f k = g k) -> Rsum lo hi f = Rsum lo hi g.
Proof.
  intros H. unfold Rsum.
  assert (G : forall l, (forall k, In k l -> f k = g k) ->
                        fold_right (fun k acc => f k + acc) 0 l
                        = fold_right (fun k acc => g k + acc) 0 l).
  { induction l as [|k l IH]; intros Hl; [reflexivity|]. cbn.
    rewrite Hl by (left; reflexivity). rewrite IH; [reflexivity|].
    intros k' Hk'. apply Hl. right. exact Hk'. }
  apply G. intros k Hk. apply H. apply in_zrange. exact Hk.
Qed.

Lemma Rsum_zero lo hi : Rsum lo hi (fun _ => 0) = 0.
Proof.
  unfold Rsum. induction (zrange lo hi) as [|k l IH]; cbn; [reflexivity|].
  rewrite IH. lra.
Qed.

Lemma Rsum_scal lo hi c f : Rsum lo hi (fun k => c * f k) = c * Rsum lo hi f.
Proof.
  unfold Rsum. induction (zrange lo hi) as [|k l IH]; cbn; [lra|].
  rewrite IH. lra.
Qed.

Lemma Rsum_plus lo hi f g :
  Rsum lo hi (fun k => f k + g k) = Rsum lo hi f + Rsum lo hi g.
Proof.
  unfold Rsum. induction (zrange lo hi) as [|k l IH]; cbn; [lra|].
  rewrite IH. lra.
Qed.

Lemma Rsum_shift lo hi d f :
  Rsum lo hi (fun k => f (k + d)%Z) = Rsum (lo + d) (hi + d) f.
Proof.
  destruct (Z_le_gt_dec lo hi) as [Hle|Hgt].
  - revert hi Hle.
    apply (range_ind
             (fun hi => Rsum lo hi (fun k => f (k + d)%Z) = Rsum (lo + d) (hi + d) f)).
    + rewrite !Rsum_nil by lia. reflexivity.
    + intros i Hi IH. rewrite Rsum_snoc by lia.
      replace (i + 1 + d)%Z with (i + d + 1)%Z by lia.
      rewrite Rsum_snoc by lia. rewrite IH. reflexivity.
  - rewrite !Rsum_nil by lia. reflexivity.
Qed.

(** The order of two sums. *)
Lemma Rsum_swap a b c d (f : Z -> Z -> R) :
  Rsum a b (fun x => Rsum c d (fun y => f x y))
  = Rsum c d (fun y => Rsum a b (fun x => f x y)).
Proof.
  destruct (Z_le_gt_dec a b) as [Hle|Hgt].
  - revert b Hle.
    apply (range_ind
             (fun b => Rsum a b (fun x => Rsum c d (fun y => f x y))
                       = Rsum c d (fun y => Rsum a b (fun x => f x y)))).
    + rewrite Rsum_nil by lia. rewrite <- (Rsum_zero c d).
      apply Rsum_ext. intros y _. rewrite Rsum_nil by lia. reflexivity.
    + intros i Hi IH. rewrite Rsum_snoc by lia. rewrite IH.
      rewrite <- Rsum_plus. apply Rsum_ext. intros y _.
      rewrite Rsum_snoc by lia. reflexivity.
  - rewrite Rsum_nil by lia. rewrite <- (Rsum_zero c d).
    apply Rsum_ext. intros y _. rewrite Rsum_nil by lia. reflexivity.
Qed.

(** A sum over [lo .. hi-1] of terms that vanish outside [xs .. xe-1]. *)
Lemma Rsum_indicator lo hi xs xe (h : Z -> R) :
  (lo <= xs <= xe)%Z -> (xe <= hi)%Z ->
  Rsum lo hi (fun x => if (xs <=? x)%Z && (x <? xe)%Z then h x else 0) = Rsum xs xe h.
Proof.
  intros H1 H2.
  rewrite (Rsum_split lo xs hi) by lia. rewrite (Rsum_split xs xe hi) by lia.
  rewrite (Rsum_ext lo xs _ (fun _ => 0)), Rsum_zero.
  - rewrite (Rsum_ext xe hi _ (fun _ => 0)), Rsum_zero.
    + rewrite (Rsum_ext xs xe _ h); [lra|].
      intros k Hk. destruct (Z.leb_spec xs k), (Z.ltb_spec k xe); cbn; try reflexivity; lia.
    + intros k Hk. destruct (Z.leb_spec xs k), (Z.ltb_spec k xe); cbn; try reflexivity; lia.
  - intros k Hk. destruct (Z.leb_spec xs k), (Z.ltb_spec k xe); cbn; try reflexivity; lia.
Qed.

(** An accumulation loop over the reals is a sum. *)
Lemma for_loop_Rsum lo hi (f : Z -> R) (a : R) :
  for_loop lo hi (fun k acc => acc + f k) a = a + Rsum lo hi f.
Proof.
  destruct (Z_le_gt_dec lo hi) as [Hle|Hgt].
  - revert hi Hle.
    apply (range_ind
             (fun hi => for_loop lo hi (fun k acc => acc + f k) a = a + Rsum lo hi f)).
    + rewrite for_loop_nil, Rsum_nil by lia. lra.
    + intros i Hi IH. rewrite for_loop_snoc, Rsum_snoc by lia. rewrite IH. lra.
  - rewrite for_loop_nil, Rsum_nil by lia. lra.
Qed.

(** The tiles of the passes cover the pixels in order. *)
Lemma Rsum_tiles (bs : Z) (g : Z -> R) (k : Z) :
  (0 <= bs)%Z -> (0 <= k)%Z ->
  Rsum 0 k (fun pass => Rsum 0 bs (fun tid => g (pass * bs + tid)%Z)) = Rsum 0 (k * bs) g.
Proof.
  intros Hbs. revert k.
  apply (range_ind
           (fun k => Rsum 0 k (fun pass => Rsum 0 bs (fun tid => g (pass * bs + tid)%Z))
                     = Rsum 0 (k * bs) g)).
  - rewrite !Rsum_nil by lia. reflexivity.
  - intros i Hi IH. rewrite Rsum_snoc by lia. rewrite IH.
    rewrite (Rsum_split 0 (i * bs) ((i + 1) * bs)) by nia.
    f_equal.
    rewrite (Rsum_ext 0 bs _ (fun tid => g (tid + i * bs)%Z))
      by (intros; f_equal; lia).
    rewrite Rsum_shift. f_equal; lia.
Qed.

End RealSums.

(* ================================================================== *)
(** * diff2_coarse with zero translations, over the reals *)

Section CoarseZeroTranslation.
Open Scope R_scope.
Variables (REF3D DATA3D : bool) (block_sz eulers_per_block grid_size : Z).
Variables g_eulers trans_x trans_y trans_z g_real g_imag : Z -> R.
Variable projector : AccProjectorKernel R.
Variable g_corr : Z -> R.
Variables translation_num image_size : Z.

Lemma coarse_pass_num_covers :
  (0 < block_sz)%Z -> (0 <= image_size)%Z ->
  (0 <= coarse_pass_num block_sz image_size)%Z /\
  (image_size <= coarse_pass_num block_sz image_size * block_sz)%Z.
Proof.
  intros Hb Hn. unfold coarse_pass_num. cbv zeta.
  rewrite Z.quot_div_nonneg by lia. rewrite Z.rem_mod_nonneg by lia.
  pose proof (Z.div_mod image_size block_sz ltac:(lia)) as E.
  pose proof (Z.mod_pos_bound image_size block_sz Hb) as Hm.
  assert (0 <= image_size / block_sz)%Z by (apply Z.div_pos; lia).
  destruct (Z.eqb_spec (image_size mod block_sz) 0); split; nia.
Qed.

(** With a zero translation the shifted signal is the signal. *)
Lemma coarse_shifted_zero pass i tid :
  trans_x i = 0 -> trans_y i = 0 -> (DATA3D = true -> trans_z i = 0) ->
  coarse_shifted DATA3D block_sz trans_x trans_y trans_z g_real g_imag projector
    pass i tid
  = (g_real (pass * block_sz + tid)%Z, g_imag (pass * block_sz + tid)%Z).
Proof.
  intros Hx Hy Hz. unfold coarse_shifted, coarse_s_real, coarse_s_imag.
  destruct (coarse_tile_xyz DATA3D block_sz projector pass tid) as [[xc yc] zc].
  destruct DATA3D.
  - pose proof (shift3D_R (trans_x i) (trans_y i) (trans_z i)
                  (imgX projector) (imgY projector) (imgZ projector) xc yc zc
                  (g_real (pass * block_sz + tid)%Z) (g_imag (pass * block_sz + tid)%Z))
      as E.
    rewrite !lookup_signed_R in E. rewrite !lookup_signed_R.
    etransitivity; [exact E|].
    unfold times_phase, theta3D. rewrite Hx, Hy, Hz by reflexivity.
    replace (2 * PI * (0 * IZR xc / IZR (imgX projector)
                       + 0 * IZR yc / IZR (imgY projector)
                       + 0 * IZR zc / IZR (imgZ projector))) with 0
      by (unfold Rdiv; ring).
    rewrite cos_0, sin_0. f_equal; lra.
  - rewrite (lookup_signed_R (trans_x i)).
    rewrite shift2D_R. unfold times_phase, theta2D. rewrite Hx, Hy.
    replace (2 * PI * (0 * IZR xc / IZR (imgX projector)
                       + 0 * IZR yc / IZR (imgY projector))) with 0
      by (unfold Rdiv; ring).
    rewrite cos_0, sin_0. f_equal; lra.
Qed.

(** The projected reference of pixel [p] for orientation [j] of a block. *)
Let ref (block j p : Z) : R * R :=
  coarse_project REF3D DATA3D eulers_per_block g_eulers projector block j
    (coarse_xyz DATA3D projector p).

(** [corr[p] * |ref_p - sig_p|^2]. *)
Let weighted_diff2 (block j p : Z) : R :=
  g_corr p * ((fst (ref block j p) - g_real p) * (fst (ref block j p) - g_real p)
              + (snd (ref block j p) - g_imag p) * (snd (ref block j p) - g_imag p)).

Lemma coarse_term_zero block pass i tid j :
  trans_x i = 0 -> trans_y i = 0 -> (DATA3D = true -> trans_z i = 0) ->
  coarse_term REF3D DATA3D block_sz eulers_per_block g_eulers trans_x trans_y trans_z
    g_real g_imag projector g_corr block pass i tid j
  = 1 / 2 * weighted_diff2 block j (pass * block_sz + tid)%Z.
Proof.
  intros Hx Hy Hz. unfold coarse_term. rewrite coarse_shifted_zero by assumption.
  subst weighted_diff2 ref. cbv beta. unfold coarse_s_ref, coarse_tile_xyz, coarse_s_corr.
  cbv zeta.
  destruct (coarse_project REF3D DATA3D eulers_per_block g_eulers projector block j
              (coarse_xyz DATA3D projector (pass * block_sz + tid))) as [rr ri].
  cbn [fst snd xf_add xf_sub xf_mul xf_half R_ops]. lra.
Qed.

(** C2.  Over the reals, when every translation is zero, the call of
    diff2_coarse adds to the cell of orientation [j] of block [block] and
    translation [i] exactly [1/2 * sum over all pixels p < image_size of
    corr[p] * |ref_p - sig_p|^2]: the factor 1/2 of the per-pixel weight
    appears once and the reduction applies none. *)
Theorem diff2_coarse_zero_translation (out : Z -> R) (block j i : Z) :
  (0 < block_sz)%Z -> (0 <= image_size)%Z ->
  (forall i', (0 <= i' < translation_num)%Z ->
              trans_x i' = 0 /\ trans_y i' = 0 /\ (DATA3D = true -> trans_z i' = 0)) ->
  (0 <= block < grid_size)%Z -> (0 <= j < eulers_per_block)%Z ->
  (0 <= i < translation_num)%Z ->
  diff2_coarse REF3D DATA3D block_sz eulers_per_block grid_size g_eulers
    trans_x trans_y trans_z g_real g_imag projector g_corr out translation_num image_size
    (block * eulers_per_block * translation_num + (j * translation_num + i))%Z
  = out (block * eulers_per_block * translation_num + (j * translation_num + i))%Z
    + 1 / 2 * Rsum 0 image_size
                (fun p =>
                   let ref_p := coarse_project REF3D DATA3D eulers_per_block g_eulers
                                  projector block j (coarse_xyz DATA3D projector p) in
                   g_corr p * ((fst ref_p - g_real p) * (fst ref_p - g_real p)
                               + (snd ref_p - g_imag p) * (snd ref_p - g_imag p))).
Proof.
  intros Hbs Hn Hzero Hb Hj Hi.
  destruct (Hzero i Hi) as (Hx & Hy & Hz).
  destruct (coarse_pass_num_covers Hbs Hn) as [Hpn Hcov].
  rewrite diff2_coarse_cell by assumption. cbn [xf_add R_ops]. f_equal.
  rewrite coarse_diff2s_at by assumption. cbn [xf_add xf_zero R_ops].
  rewrite for_loop_Rsum, Rplus_0_l.
  pose (G := fun p : Z =>
               if (p <? image_size)%Z then 1 / 2 * weighted_diff2 block j p else 0).
  rewrite (Rsum_ext _ _ _
             (fun pass => Rsum 0 block_sz (fun tid => G (pass * block_sz + tid)%Z))).
  - rewrite (Rsum_tiles block_sz G (coarse_pass_num block_sz image_size)) by lia.
    rewrite (Rsum_split 0 image_size) by lia.
    rewrite (Rsum_ext image_size _ G (fun _ => 0)), Rsum_zero.
    + rewrite (Rsum_ext 0 image_size G (fun p => 1 / 2 * weighted_diff2 block j p)).
      * rewrite Rsum_scal, Rplus_0_r. reflexivity.
      * intros p Hp. subst G. cbv beta.
        destruct (Z.ltb_spec p image_size); [reflexivity|lia].
    + intros p Hp. subst G. cbv beta.
      destruct (Z.ltb_spec p image_size); [lia|reflexivity].
  - intros pass Hpass. rewrite coarse_diffi_at by assumption. cbn [xf_add xf_zero R_ops].
    rewrite (for_loop_ext 0 block_sz _
               (fun tid acc => acc + G (pass * block_sz + tid)%Z)).
    + rewrite for_loop_Rsum, Rplus_0_l. reflexivity.
    + intros tid st _. subst G. cbv beta.
      destruct (pass * block_sz + tid <? image_size)%Z; [|lra].
      rewrite coarse_term_zero by assumption. reflexivity.
Qed.

End CoarseZeroTranslation.

(* ================================================================== *)
(** * The accumulators of the cross-correlation kernels *)

Section CCRowFacts.
Context {XFLOAT : Type} {ops : XFloatOps XFLOAT}.

(** One row's update of [(s_weight, s_norm)], read at one cell. *)
Lemma cc_row_loop_at n xs xe (w : Z -> Z -> XFLOAT) (nt : Z -> XFLOAT)
    (acc : (Z -> Z -> XFLOAT) * (Z -> Z -> XFLOAT)) it0 x0 :
  let r :=
    for_loop 0 n
      (fun itrans acc =>
         for_loop xs xe
           (fun x acc =>
              (upd2 (fst acc) itrans x (fst acc itrans x [+] w itrans x),
               upd2 (snd acc) itrans x (snd acc itrans x [+] nt x)))
           acc)
      acc in
  fst r it0 x0
  = (if ((0 <=? it0) && (it0 <? n)) && ((xs <=? x0) && (x0 <? xe))
     then fst acc it0 x0 [+] w it0 x0 else fst acc it0 x0) /\
  snd r it0 x0
  = (if ((0 <=? it0) && (it0 <? n)) && ((xs <=? x0) && (x0 <? xe))
     then snd acc it0 x0 [+] nt x0 else snd acc it0 x0).
Proof.
  cbv zeta. split.
  - rewrite (for_loop_cell
               (fun a : (Z -> Z -> XFLOAT) * (Z -> Z -> XFLOAT) => fst a it0 x0)
               0 n _ acc it0
               (fun v => if (xs <=? x0) && (x0 <? xe) then v [+] w it0 x0 else v)).
    + destruct ((0 <=? it0) && (it0 <? n)), ((xs <=? x0) && (x0 <? xe)); reflexivity.
    + intros k st _ Hne.
      apply (for_loop_inv
               (fun a : (Z -> Z -> XFLOAT) * (Z -> Z -> XFLOAT) =>
                  fst a it0 x0 = fst st it0 x0)); [reflexivity|].
      intros x a _ IH. cbn [fst]. rewrite upd2_other by (left; congruence). exact IH.
    + intros st _.
      apply (for_loop_cell
               (fun a : (Z -> Z -> XFLOAT) * (Z -> Z -> XFLOAT) => fst a it0 x0)
               xs xe _ st x0 (fun v => v [+] w it0 x0)).
      * intros x a _ Hne. cbn [fst]. apply upd2_other. right. congruence.
      * intros a _. cbn [fst]. apply upd2_same.
  - rewrite (for_loop_cell
               (fun a : (Z -> Z -> XFLOAT) * (Z -> Z -> XFLOAT) => snd a it0 x0)
               0 n _ acc it0
               (fun v => if (xs <=? x0) && (x0 <? xe) then v [+] nt x0 else v)).
    + destruct ((0 <=? it0) && (it0 <? n)), ((xs <=? x0) && (x0 <? xe)); reflexivity.
    + intros k st _ Hne.
      apply (for_loop_inv
               (fun a : (Z -> Z -> XFLOAT) * (Z -> Z -> XFLOAT) =>
                  snd a it0 x0 = snd st it0 x0)); [reflexivity|].
      intros x a _ IH. cbn [snd]. rewrite upd2_other by (left; congruence). exact IH.
    + intros st _.
      apply (for_loop_cell
               (fun a : (Z -> Z -> XFLOAT) * (Z -> Z -> XFLOAT) => snd a it0 x0)
               xs xe _ st x0 (fun v => v [+] nt x0)).
      * intros x a _ Hne. cbn [snd]. apply upd2_other. right. congruence.
      * intros a _. cbn [snd]. apply upd2_same.
Qed.

(** The two sums over [x] of the accumulators of a translation. *)
Lemma cc_sums_at n (acc : (Z -> Z -> XFLOAT) * (Z -> Z -> XFLOAT)) it :
  let r :=
    for_loop 0 n
      (fun i sums => (fst sums [+] fst acc it i, snd sums [+] snd acc it i))
      (xf_zero, xf_zero) in
  fst r = for_loop 0 n (fun i a => a [+] fst acc it i) xf_zero /\
  snd r = for_loop 0 n (fun i a => a [+] snd acc it i) xf_zero.
Proof.
  cbv zeta. split.
  - apply (for_loop_fold (fun s : XFLOAT * XFLOAT => fst s)). reflexivity.
  - apply (for_loop_fold (fun s : XFLOAT * XFLOAT => snd s)). reflexivity.
Qed.

(** The cell of work unit [iorient] and translation [i] of a coarse
    cross-correlation kernel receives the unit's score, once. *)
Lemma orient_cell_hit grid_size trans_num (score : Z -> Z -> XFLOAT) out iorient i :
  0 <= iorient < grid_size -> 0 <= i < trans_num ->
  scatter
    (flat_map (fun io => orient_writes trans_num (score io) io) (zrange 0 grid_size))
    out (iorient * trans_num + i)
  = out (iorient * trans_num + i) [+] score iorient i.
Proof.
  intros Ho Hi.
  apply (scatter_unit_hit 0 grid_size _ out iorient); [exact Ho| | |].
  - intros io Hio Hne Hin. apply in_orient_writes in Hin.
    destruct Hin as (i' & Hi' & E). nia.
  - apply orient_writes_NoDup.
  - unfold orient_writes.
    apply (in_map (fun it => (iorient * trans_num + it, score iorient it))).
    apply in_zrange. exact Hi.
Qed.

End CCRowFacts.

(* ================================================================== *)
(** * The scores of the coarse cross-correlation kernels, in every arithmetic *)

Section CCCoarseAnyArithmetic.
Context {XFLOAT : Type} {ops : XFloatOps XFLOAT}.
Variable REF3D : bool.
Variable grid_size : Z.
Variables g_eulers g_real g_imag g_trans_x g_trans_y g_trans_z : Z -> XFLOAT.
Variable projector : AccProjectorKernel XFLOAT.
Variable g_corr : Z -> XFLOAT.
Variable trans_num : Z.

Lemma ccc2D_rows_columns iorient it0 x0 :
  0 <= it0 < trans_num ->
  let acc := snd (ccc2D_rows REF3D g_eulers g_real g_imag g_trans_x g_trans_y
                    projector g_corr trans_num iorient) in
  fst acc it0 x0
  = xf_column_sum_2D projector
      (fun y pixel x =>
         ccc2D_weight_term REF3D g_eulers g_real g_imag g_trans_x g_trans_y projector
           g_corr iorient y pixel it0 x) x0 /\
  snd acc it0 x0
  = xf_column_sum_2D projector
      (fun y pixel x => ccc2D_norm_term REF3D g_eulers projector g_corr iorient y pixel x)
      x0.
Proof.
  intros Hit. cbv zeta. unfold ccc2D_rows, xf_column_sum_2D.
  set (gw := fun iy a => let '(y, xstart, xend) := row_rule (maxR projector) (imgY projector) iy 0 (imgX projector) in
       if (xstart <=? x0) && (x0 <? xend) then a [+] ccc2D_weight_term REF3D g_eulers g_real g_imag g_trans_x g_trans_y projector
           g_corr iorient y (iy * imgX projector) it0 x0 else a).
  set (gn := fun iy a => let '(y, xstart, xend) := row_rule (maxR projector) (imgY projector) iy 0 (imgX projector) in
       if (xstart <=? x0) && (x0 <? xend) then a [+] ccc2D_norm_term REF3D g_eulers projector g_corr iorient y (iy * imgX projector) x0 else a).
  set (body := fun iy (st : Z * ((Z -> Z -> XFLOAT) * (Z -> Z -> XFLOAT))) =>
                 (fst st + imgX projector,
                  ccc2D_row REF3D g_eulers g_real g_imag g_trans_x g_trans_y projector
                    g_corr trans_num iorient iy (fst st) (snd st))).
  set (s0 := (0, (fun _ _ : Z => xf_zero, fun _ _ : Z => xf_zero))).
  destruct (Z.le_gt_cases 0 (imgY projector)) as [HY|HY].
  2:{ rewrite !for_loop_nil by lia. split; reflexivity. }
  refine (proj2 (for_loop_ind
            (fun iy (st : Z * ((Z -> Z -> XFLOAT) * (Z -> Z -> XFLOAT))) =>
               fst st = iy * imgX projector /\
               (fst (snd st) it0 x0 = for_loop 0 iy gw xf_zero /\
                snd (snd st) it0 x0 = for_loop 0 iy gn xf_zero))
            0 (imgY projector) body s0 HY _ _)).
  - subst s0. cbn [fst snd]. rewrite !for_loop_nil by lia. repeat split.
  - intros iy st Hiy (Hp & Hw & Hn). subst body. cbn [fst snd]. split; [lia|].
    rewrite !for_loop_snoc by lia. rewrite <- Hw, <- Hn. subst gw gn. cbv beta.
    unfold ccc2D_row, ccc2D_row_range. rewrite Hp.
    destruct (row_rule (maxR projector) (imgY projector) iy 0 (imgX projector))
      as [[y xs] xe].
    destruct (cc_row_loop_at trans_num xs xe
                (ccc2D_weight_term REF3D g_eulers g_real g_imag g_trans_x g_trans_y
                   projector g_corr iorient y (iy * imgX projector))
                (ccc2D_norm_term REF3D g_eulers projector g_corr iorient y
                   (iy * imgX projector)) (snd st) it0 x0) as [L1 L2].
    cbv zeta in L1, L2. rewrite L1, L2.
    replace ((0 <=? it0) && (it0 <? trans_num)) with true
      by (symmetry; apply andb_true_iff; split;
          [apply Z.leb_le|apply Z.ltb_lt]; lia).
    cbn [andb]. destruct ((xs <=? x0) && (x0 <? xe)); split; reflexivity.
Qed.

Lemma ccc3D_rows_columns iorient it0 x0 :
  0 <= it0 < trans_num ->
  let acc := snd (ccc3D_rows g_eulers g_real g_imag g_trans_x g_trans_y g_trans_z
                    projector g_corr trans_num iorient) in
  fst acc it0 x0
  = xf_column_sum_3D projector
      (fun z y pixel x =>
         ccc3D_weight_term g_eulers g_real g_imag g_trans_x g_trans_y g_trans_z
           projector g_corr iorient z y pixel it0 x) x0 /\
  snd acc it0 x0
  = xf_column_sum_3D projector
      (fun z y pixel x => ccc3D_norm_term g_eulers projector g_corr iorient z y pixel x)
      x0.
Proof.
  intros Hit. cbv zeta. unfold ccc3D_rows, xf_column_sum_3D.
  set (gw := fun iz iy a =>
               let '(z, xstart_z, xend_z) :=
                 row_rule (maxR projector) (imgZ projector) iz 0 (imgX projector) in
               let '(y, xstart_y, xend_y) :=
                 row_rule (maxR projector) (imgY projector) iy xstart_z xend_z in
               if (xstart_y <=? x0) && (x0 <? xend_y)
               then a [+] ccc3D_weight_term g_eulers g_real g_imag g_trans_x g_trans_y
                            g_trans_z projector g_corr iorient z y
                            ((iz * imgY projector + iy) * imgX projector) it0 x0
               else a).
  set (gn := fun iz iy a =>
               let '(z, xstart_z, xend_z) :=
                 row_rule (maxR projector) (imgZ projector) iz 0 (imgX projector) in
               let '(y, xstart_y, xend_y) :=
                 row_rule (maxR projector) (imgY projector) iy xstart_z xend_z in
               if (xstart_y <=? x0) && (x0 <? xend_y)
               then a [+] ccc3D_norm_term g_eulers projector g_corr iorient z y
                            ((iz * imgY projector + iy) * imgX projector) x0
               else a).
  set (row := fun (iz iy : Z) (st : Z * ((Z -> Z -> XFLOAT) * (Z -> Z -> XFLOAT))) =>
                (fst st + imgX projector,
                 ccc3D_row g_eulers g_real g_imag g_trans_x g_trans_y g_trans_z
                   projector g_corr trans_num iorient iz iy (fst st) (snd st))).
  set (s0 := (0, (fun _ _ : Z => xf_zero, fun _ _ : Z => xf_zero))).
  change (fst (snd (for_loop 0 (imgZ projector)
                      (fun iz st => for_loop 0 (imgY projector) (row iz) st) s0)) it0 x0
          = for_loop 0 (imgZ projector)
              (fun iz a => for_loop 0 (imgY projector) (gw iz) a) xf_zero /\
          snd (snd (for_loop 0 (imgZ projector)
                      (fun iz st => for_loop 0 (imgY projector) (row iz) st) s0)) it0 x0
          = for_loop 0 (imgZ projector)
              (fun iz a => for_loop 0 (imgY projector) (gn iz) a) xf_zero).
  destruct (Z.le_gt_cases 0 (imgZ projector)) as [HZ|HZ].
  2:{ rewrite !for_loop_nil by lia. split; reflexivity. }
  destruct (Z.le_gt_cases 0 (imgY projector)) as [HY|HY].
  2:{ assert (E : forall (S : Type) (b : Z -> Z -> S -> S) (s : S),
                 for_loop 0 (imgZ projector)
                   (fun iz st => for_loop 0 (imgY projector) (b iz) st) s = s).
      { intros S b s. apply (for_loop_inv (fun st => st = s)); [reflexivity|].
        intros i st _ ->. apply for_loop_nil. lia. }
      rewrite (E _ row s0), (E _ gw xf_zero), (E _ gn xf_zero).
      split; reflexivity. }
  refine (proj2 (for_loop_ind
            (fun iz (st : Z * ((Z -> Z -> XFLOAT) * (Z -> Z -> XFLOAT))) =>
               fst st = iz * imgY projector * imgX projector /\
               (fst (snd st) it0 x0
                = for_loop 0 iz (fun iz a => for_loop 0 (imgY projector) (gw iz) a)
                    xf_zero /\
                snd (snd st) it0 x0
                = for_loop 0 iz (fun iz a => for_loop 0 (imgY projector) (gn iz) a)
                    xf_zero))
            0 (imgZ projector) _ s0 HZ _ _)).
  - subst s0. cbn [fst snd]. rewrite !for_loop_nil by lia. repeat split.
  - intros iz st0 Hiz (Hp & Hw & Hn).
    rewrite !for_loop_snoc by lia. rewrite <- Hw, <- Hn.
    assert (G : let st := for_loop 0 (imgY projector) (row iz) st0 in
                fst st = (iz * imgY projector + imgY projector) * imgX projector /\
                (fst (snd st) it0 x0
                 = for_loop 0 (imgY projector) (gw iz) (fst (snd st0) it0 x0) /\
                 snd (snd st) it0 x0
                 = for_loop 0 (imgY projector) (gn iz) (snd (snd st0) it0 x0))).
    { cbv zeta.
      apply (for_loop_ind
               (fun iy (st : Z * ((Z -> Z -> XFLOAT) * (Z -> Z -> XFLOAT))) =>
                  fst st = (iz * imgY projector + iy) * imgX projector /\
                  (fst (snd st) it0 x0 = for_loop 0 iy (gw iz) (fst (snd st0) it0 x0) /\
                   snd (snd st) it0 x0 = for_loop 0 iy (gn iz) (snd (snd st0) it0 x0)))
               0 (imgY projector) (row iz) st0 HY).
      - rewrite !for_loop_nil by lia. split; [lia|split; reflexivity].
      - intros iy st Hiy (Hp' & Hw' & Hn'). subst row. cbn [fst snd].
        split; [lia|]. rewrite !for_loop_snoc by lia. rewrite <- Hw', <- Hn'.
        subst gw gn. cbv beta. unfold ccc3D_row, ccc3D_row_range. rewrite Hp'.
        destruct (row_rule (maxR projector) (imgZ projector) iz 0 (imgX projector))
          as [[z xs_z] xe_z].
        destruct (row_rule (maxR projector) (imgY projector) iy xs_z xe_z)
          as [[y xs] xe].
        destruct (cc_row_loop_at trans_num xs xe
                    (ccc3D_weight_term g_eulers g_real g_imag g_trans_x g_trans_y
                       g_trans_z projector g_corr iorient z y
                       ((iz * imgY projector + iy) * imgX projector))
                    (ccc3D_norm_term g_eulers projector g_corr iorient z y
                       ((iz * imgY projector + iy) * imgX projector))
                    (snd st) it0 x0) as [L1 L2].
        cbv zeta in L1, L2. rewrite L1, L2.
        replace ((0 <=? it0) && (it0 <? trans_num)) with true
          by (symmetry; apply andb_true_iff; split;
              [apply Z.leb_le|apply Z.ltb_lt]; lia).
        cbn [andb]. destruct ((xs <=? x0) && (x0 <? xe)); split; reflexivity. }
    cbv zeta in G. destruct G as (G1 & G2 & G3).
    split; [rewrite G1; lia|]. split; [exact G2|exact G3].
Qed.

(** The sums over [x] of the accumulators, as sums over the sampled pixels
    in the order of the code. *)
Lemma ccc2D_sums_ordered iorient it :
  0 <= it < trans_num ->
  ccc2D_sums projector
    (snd (ccc2D_rows REF3D g_eulers g_real g_imag g_trans_x g_trans_y
            projector g_corr trans_num iorient)) it
  = (xf_sampled_sum_2D projector
       (fun y pixel x =>
          ccc2D_weight_term REF3D g_eulers g_real g_imag g_trans_x g_trans_y projector
            g_corr iorient y pixel it x),
     xf_sampled_sum_2D projector
       (fun y pixel x =>
          ccc2D_norm_term REF3D g_eulers projector g_corr iorient y pixel x)).
Proof.
  intros Hit. unfold ccc2D_sums.
  destruct (cc_sums_at (imgX projector)
              (snd (ccc2D_rows REF3D g_eulers g_real g_imag g_trans_x g_trans_y
                      projector g_corr trans_num iorient)) it) as [S1 S2].
  cbv zeta in S1, S2. apply injective_projections; cbn [fst snd].
  - rewrite S1. unfold xf_sampled_sum_2D. apply for_loop_ext. intros x a _.
    f_equal. apply (ccc2D_rows_columns iorient it x Hit).
  - rewrite S2. unfold xf_sampled_sum_2D. apply for_loop_ext. intros x a _.
    f_equal. apply (ccc2D_rows_columns iorient it x Hit).
Qed.

Lemma ccc3D_sums_ordered iorient it :
  0 <= it < trans_num ->
  ccc3D_sums projector
    (snd (ccc3D_rows g_eulers g_real g_imag g_trans_x g_trans_y g_trans_z
            projector g_corr trans_num iorient)) it
  = (xf_sampled_sum_3D projector
       (fun z y pixel x =>
          ccc3D_weight_term g_eulers g_real g_imag g_trans_x g_trans_y g_trans_z
            projector g_corr iorient z y pixel it x),
     xf_sampled_sum_3D projector
       (fun z y pixel x =>
          ccc3D_norm_term g_eulers projector g_corr iorient z y pixel x)).
Proof.
  intros Hit. unfold ccc3D_sums.
  destruct (cc_sums_at (imgX projector)
              (snd (ccc3D_rows g_eulers g_real g_imag g_trans_x g_trans_y g_trans_z
                      projector g_corr trans_num iorient)) it) as [S1 S2].
  cbv zeta in S1, S2. apply injective_projections; cbn [fst snd].
  - rewrite S1. unfold xf_sampled_sum_3D. apply for_loop_ext. intros x a _.
    f_equal. apply (ccc3D_rows_columns iorient it x Hit).
  - rewrite S2. unfold xf_sampled_sum_3D. apply for_loop_ext. intros x a _.
    f_equal. apply (ccc3D_rows_columns iorient it x Hit).
Qed.

(** C3.  In every arithmetic of [XFLOAT], a call of diff2_CC_coarse_2D or
    diff2_CC_coarse_3D adds to the cell of orientation [iorient] and
    translation [it] exactly [- (s_weight / sqrt(s_norm))], where [s_weight]
    is the sum over the sampled pixels [p] of
    [(ref.re * shifted.re + ref.im * shifted.im) * corr[p]] and [s_norm] the
    sum of [(ref.re^2 + ref.im^2) * corr[p]], both added up in the order of
    the code; the weights [corr[p]] enter unscaled, and nothing guards a
    zero [s_norm]. *)
Theorem cc_coarse_cell_adds_score (out : Z -> XFLOAT) (image_size : Z)
    (exp_local_sqrtXi2 : XFLOAT) (iorient it : Z) :
  0 <= iorient < grid_size -> 0 <= it < trans_num ->
  (let s_weight :=
     xf_sampled_sum_2D projector
       (fun y pixel x =>
          let '(ref_re, ref_im) := ccc2D_project REF3D g_eulers projector iorient y x in
          let '(sh_re, sh_im) :=
            ccc2D_shifted g_real g_imag g_trans_x g_trans_y projector y pixel it x in
          (ref_re [*] sh_re [+] ref_im [*] sh_im) [*] g_corr (pixel + x)) in
   let s_norm :=
     xf_sampled_sum_2D projector
       (fun y pixel x =>
          let '(ref_re, ref_im) := ccc2D_project REF3D g_eulers projector iorient y x in
          (ref_re [*] ref_re [+] ref_im [*] ref_im) [*] g_corr (pixel + x)) in
   diff2_CC_coarse_2D REF3D grid_size g_eulers g_real g_imag g_trans_x g_trans_y
     projector g_corr out trans_num image_size exp_local_sqrtXi2
     (iorient * trans_num + it)
   = out (iorient * trans_num + it) [+] [~] (s_weight [/] xf_sqrt s_norm)) /\
  (let s_weight :=
     xf_sampled_sum_3D projector
       (fun z y pixel x =>
          let '(ref_re, ref_im) := ccc3D_project g_eulers projector iorient z y x in
          let '(sh_re, sh_im) :=
            ccc3D_shifted g_real g_imag g_trans_x g_trans_y g_trans_z projector
              z y pixel it x in
          (ref_re [*] sh_re [+] ref_im [*] sh_im) [*] g_corr (pixel + x)) in
   let s_norm :=
     xf_sampled_sum_3D projector
       (fun z y pixel x =>
          let '(ref_re, ref_im) := ccc3D_project g_eulers projector iorient z y x in
          (ref_re [*] ref_re [+] ref_im [*] ref_im) [*] g_corr (pixel + x)) in
   diff2_CC_coarse_3D grid_size g_eulers g_real g_imag g_trans_x g_trans_y g_trans_z
     projector g_corr out trans_num image_size exp_local_sqrtXi2
     (iorient * trans_num + it)
   = out (iorient * trans_num + it) [+] [~] (s_weight [/] xf_sqrt s_norm)).
Proof.
  intros Ho Hit. split; cbv zeta.
  - rewrite diff2_CC_coarse_2D_scatter.
    rewrite (orient_cell_hit grid_size trans_num _ out iorient it Ho Hit).
    unfold ccc2D_score, cc_coarse_score. rewrite (ccc2D_sums_ordered iorient it Hit).
    reflexivity.
  - rewrite diff2_CC_coarse_3D_scatter.
    rewrite (orient_cell_hit grid_size trans_num _ out iorient it Ho Hit).
    unfold ccc3D_score, cc_coarse_score. rewrite (ccc3D_sums_ordered iorient it Hit).
    reflexivity.
Qed.

End CCCoarseAnyArithmetic.

(* ================================================================== *)
(** * The scores of the coarse cross-correlation kernels, over the reals *)

Section CCCoarseScores.
Open Scope R_scope.
Variable REF3D : bool.
Variable grid_size : Z.
Variables g_eulers g_real g_imag g_trans_x g_trans_y g_trans_z : Z -> R.
Variable projector : AccProjectorKernel R.
Variable g_corr : Z -> R.
Variable trans_num : Z.

Hypothesis maxR_in_row : (0 <= maxR projector < imgX projector)%Z.
Hypothesis imgY_nonneg : (0 <= imgY projector)%Z.
Hypothesis imgZ_nonneg : (0 <= imgZ projector)%Z.

Lemma row_rule_range size i xs xe y xs' xe' :
  row_rule (maxR projector) size i xs xe = (y, xs', xe') ->
  (0 <= xs <= xe)%Z -> (xe <= imgX projector)%Z ->
  (0 <= xs' <= xe')%Z /\ (xe' <= imgX projector)%Z.
Proof.
  unfold row_rule. intros E H1 H2.
  destruct (i >? maxR projector)%Z; [destruct (i >=? size - maxR projector)%Z|];
    inversion E; subst; lia.
Qed.

Let w2 := ccc2D_weight_term REF3D g_eulers g_real g_imag g_trans_x g_trans_y
            projector g_corr.
Let n2 := ccc2D_norm_term REF3D g_eulers projector g_corr.

(** The accumulators of diff2_CC_coarse_2D after the rows: column [x0] of
    translation [it0] holds the terms of the rows whose range has [x0]. *)
Lemma ccc2D_rows_at iorient it0 x0 :
  (0 <= it0 < trans_num)%Z ->
  let acc := snd (ccc2D_rows REF3D g_eulers g_real g_imag g_trans_x g_trans_y
                    projector g_corr trans_num iorient) in
  fst acc it0 x0
  = Rsum 0 (imgY projector)
      (fun iy =>
         let '(y, xs, xe) := ccc2D_row_range projector iy in
         if (xs <=? x0)%Z && (x0 <? xe)%Z
         then w2 iorient y (iy * imgX projector)%Z it0 x0 else 0) /\
  snd acc it0 x0
  = Rsum 0 (imgY projector)
      (fun iy =>
         let '(y, xs, xe) := ccc2D_row_range projector iy in
         if (xs <=? x0)%Z && (x0 <? xe)%Z
         then n2 iorient y (iy * imgX projector)%Z x0 else 0).
Proof.
  intros Hit. cbv zeta. unfold ccc2D_rows.
  pose (W := fun iy : Z =>
               let '(y, xs, xe) := ccc2D_row_range projector iy in
               if (xs <=? x0)%Z && (x0 <? xe)%Z
               then w2 iorient y (iy * imgX projector)%Z it0 x0 else 0).
  pose (N := fun iy : Z =>
               let '(y, xs, xe) := ccc2D_row_range projector iy in
               if (xs <=? x0)%Z && (x0 <? xe)%Z
               then n2 iorient y (iy * imgX projector)%Z x0 else 0).
  change (fst (snd (for_loop 0 (imgY projector)
                      (fun iy st =>
                         ((fst st + imgX projector)%Z,
                          ccc2D_row REF3D g_eulers g_real g_imag g_trans_x g_trans_y
                            projector g_corr trans_num iorient iy (fst st) (snd st)))
                      (0%Z, (fun _ _ => xf_zero, fun _ _ => xf_zero)))) it0 x0
          = Rsum 0 (imgY projector) W /\
          snd (snd (for_loop 0 (imgY projector)
                      (fun iy st =>
                         ((fst st + imgX projector)%Z,
                          ccc2D_row REF3D g_eulers g_real g_imag g_trans_x g_trans_y
                            projector g_corr trans_num iorient iy (fst st) (snd st)))
                      (0%Z, (fun _ _ => xf_zero, fun _ _ => xf_zero)))) it0 x0
          = Rsum 0 (imgY projector) N).
  refine (proj2 (for_loop_ind
            (fun iy (st : Z * ((Z -> Z -> R) * (Z -> Z -> R))) =>
               fst st = (iy * imgX projector)%Z /\
               (fst (snd st) it0 x0 = Rsum 0 iy W /\
                snd (snd st) it0 x0 = Rsum 0 iy N))
            0 (imgY projector) _ _ imgY_nonneg _ _)).
  - cbn [fst snd]. rewrite !Rsum_nil by lia. repeat split. 
  - intros iy st Hiy (Hp & Hw & Hn). cbn [fst snd]. split; [lia|].
    rewrite !Rsum_snoc by lia. rewrite <- Hw, <- Hn. subst W N. cbv beta.
    unfold ccc2D_row. rewrite Hp.
    destruct (ccc2D_row_range projector iy) as [[y xs] xe].
    destruct (cc_row_loop_at trans_num xs xe
                (w2 iorient y (iy * imgX projector)%Z)
                (n2 iorient y (iy * imgX projector)%Z) (snd st) it0 x0) as [L1 L2].
    cbv zeta in L1, L2. subst w2 n2. rewrite L1, L2.
    replace ((0 <=? it0)%Z && (it0 <? trans_num)%Z) with true
      by (symmetry; apply andb_true_iff; split;
          [apply Z.leb_le|apply Z.ltb_lt]; lia).
    cbn [andb]. destruct ((xs <=? x0)%Z && (x0 <? xe)%Z); cbn [xf_add R_ops]; split; lra.
Qed.

Lemma ccc2D_sums_sampled iorient it :
  (0 <= it < trans_num)%Z ->
  ccc2D_sums projector
    (snd (ccc2D_rows REF3D g_eulers g_real g_imag g_trans_x g_trans_y
            projector g_corr trans_num iorient)) it
  = (sampled_sum_2D projector (fun y pixel x => w2 iorient y pixel it x),
     sampled_sum_2D projector (fun y pixel x => n2 iorient y pixel x)).
Proof.
  intros Hit. unfold ccc2D_sums.
  destruct (cc_sums_at (imgX projector)
              (snd (ccc2D_rows REF3D g_eulers g_real g_imag g_trans_x g_trans_y
                      projector g_corr trans_num iorient)) it) as [S1 S2].
  cbv zeta in S1, S2. apply injective_projections; cbn [fst snd].
  - rewrite S1. cbn [xf_add xf_zero R_ops]. rewrite for_loop_Rsum, Rplus_0_l.
    rewrite (Rsum_ext _ _ _
               (fun x =>
                  Rsum 0 (imgY projector)
                    (fun iy =>
                       let '(y, xs, xe) := ccc2D_row_range projector iy in
                       if (xs <=? x)%Z && (x <? xe)%Z
                       then w2 iorient y (iy * imgX projector)%Z it x else 0)))
      by (intros x _; apply (ccc2D_rows_at iorient it x Hit)).
    rewrite (Rsum_swap 0 (imgX projector) 0 (imgY projector)
               (fun x iy =>
                  let '(y, xs, xe) := ccc2D_row_range projector iy in
                  if (xs <=? x)%Z && (x <? xe)%Z
                  then w2 iorient y (iy * imgX projector)%Z it x else 0)).
    unfold sampled_sum_2D. apply Rsum_ext. intros iy _. unfold ccc2D_row_range.
    destruct (row_rule (maxR projector) (imgY projector) iy 0 (imgX projector))
      as [[y xs] xe] eqn:E.
    destruct (row_rule_range _ _ _ _ _ _ _ E ltac:(lia) ltac:(lia)) as [B1 B2].
    apply (Rsum_indicator 0 (imgX projector) xs xe
             (fun x => w2 iorient y (iy * imgX projector)%Z it x)); lia.
  - rewrite S2. cbn [xf_add xf_zero R_ops]. rewrite for_loop_Rsum, Rplus_0_l.
    rewrite (Rsum_ext _ _ _
               (fun x =>
                  Rsum 0 (imgY projector)
                    (fun iy =>
                       let '(y, xs, xe) := ccc2D_row_range projector iy in
                       if (xs <=? x)%Z && (x <? xe)%Z
                       then n2 iorient y (iy * imgX projector)%Z x else 0)))
      by (intros x _; apply (ccc2D_rows_at iorient it x Hit)).
    rewrite (Rsum_swap 0 (imgX projector) 0 (imgY projector)
               (fun x iy =>
                  let '(y, xs, xe) := ccc2D_row_range projector iy in
                  if (xs <=? x)%Z && (x <? xe)%Z
                  then n2 iorient y (iy * imgX projector)%Z x else 0)).
    unfold sampled_sum_2D. apply Rsum_ext. intros iy _. unfold ccc2D_row_range.
    destruct (row_rule (maxR projector) (imgY projector) iy 0 (imgX projector))
      as [[y xs] xe] eqn:E.
    destruct (row_rule_range _ _ _ _ _ _ _ E ltac:(lia) ltac:(lia)) as [B1 B2].
    apply (Rsum_indicator 0 (imgX projector) xs xe
             (fun x => n2 iorient y (iy * imgX projector)%Z x)); lia.
Qed.

Let w3 := ccc3D_weight_term g_eulers g_real g_imag g_trans_x g_trans_y g_trans_z
            projector g_corr.
Let n3 := ccc3D_norm_term g_eulers projector g_corr.

(** The accumulators of diff2_CC_coarse_3D after the rows. *)
Lemma ccc3D_rows_at iorient it0 x0 :
  (0 <= it0 < trans_num)%Z ->
  let acc := snd (ccc3D_rows g_eulers g_real g_imag g_trans_x g_trans_y g_trans_z
                    projector g_corr trans_num iorient) in
  fst acc it0 x0
  = Rsum 0 (imgZ projector)
      (fun iz =>
         Rsum 0 (imgY projector)
           (fun iy =>
              let '(z, y, xs, xe) := ccc3D_row_range projector iz iy in
              if (xs <=? x0)%Z && (x0 <? xe)%Z
              then w3 iorient z y ((iz * imgY projector + iy) * imgX projector)%Z it0 x0
              else 0)) /\
  snd acc it0 x0
  = Rsum 0 (imgZ projector)
      (fun iz =>
         Rsum 0 (imgY projector)
           (fun iy =>
              let '(z, y, xs, xe) := ccc3D_row_range projector iz iy in
              if (xs <=? x0)%Z && (x0 <? xe)%Z
              then n3 iorient z y ((iz * imgY projector + iy) * imgX projector)%Z x0
              else 0)).
Proof.
  intros Hit. cbv zeta. unfold ccc3D_rows.
  pose (W := fun iz iy : Z =>
               let '(z, y, xs, xe) := ccc3D_row_range projector iz iy in
               if (xs <=? x0)%Z && (x0 <? xe)%Z
               then w3 iorient z y ((iz * imgY projector + iy) * imgX projector)%Z it0 x0
               else 0).
  pose (N := fun iz iy : Z =>
               let '(z, y, xs, xe) := ccc3D_row_range projector iz iy in
               if (xs <=? x0)%Z && (x0 <? xe)%Z
               then n3 iorient z y ((iz * imgY projector + iy) * imgX projector)%Z x0
               else 0).
  pose (row := fun (iz iy : Z) (st : Z * ((Z -> Z -> R) * (Z -> Z -> R))) =>
                 ((fst st + imgX projector)%Z,
                  ccc3D_row g_eulers g_real g_imag g_trans_x g_trans_y g_trans_z
                    projector g_corr trans_num iorient iz iy (fst st) (snd st))).
  change (fst (snd (for_loop 0 (imgZ projector)
                      (fun iz st => for_loop 0 (imgY projector) (row iz) st)
                      (0%Z, (fun _ _ => xf_zero, fun _ _ => xf_zero)))) it0 x0
          = Rsum 0 (imgZ projector) (fun iz => Rsum 0 (imgY projector) (W iz)) /\
          snd (snd (for_loop 0 (imgZ projector)
                      (fun iz st => for_loop 0 (imgY projector) (row iz) st)
                      (0%Z, (fun _ _ => xf_zero, fun _ _ => xf_zero)))) it0 x0
          = Rsum 0 (imgZ projector) (fun iz => Rsum 0 (imgY projector) (N iz))).
  refine (proj2 (for_loop_ind
            (fun iz (st : Z * ((Z -> Z -> R) * (Z -> Z -> R))) =>
               fst st = (iz * imgY projector * imgX projector)%Z /\
               (fst (snd st) it0 x0
                = Rsum 0 iz (fun iz => Rsum 0 (imgY projector) (W iz)) /\
                snd (snd st) it0 x0
                = Rsum 0 iz (fun iz => Rsum 0 (imgY projector) (N iz))))
            0 (imgZ projector) _ _ imgZ_nonneg _ _)).
  - cbn [fst snd]. rewrite !Rsum_nil by lia. repeat split.
  - intros iz st0 Hiz (Hp & Hw & Hn).
    rewrite !Rsum_snoc by lia. rewrite <- Hw, <- Hn.
    assert (G : let st := for_loop 0 (imgY projector) (row iz) st0 in
                fst st = ((iz * imgY projector + imgY projector) * imgX projector)%Z /\
                (fst (snd st) it0 x0
                 = fst (snd st0) it0 x0 + Rsum 0 (imgY projector) (W iz) /\
                 snd (snd st) it0 x0
                 = snd (snd st0) it0 x0 + Rsum 0 (imgY projector) (N iz))).
    { cbv zeta.
      apply (for_loop_ind
               (fun iy (st : Z * ((Z -> Z -> R) * (Z -> Z -> R))) =>
                  fst st = ((iz * imgY projector + iy) * imgX projector)%Z /\
                  (fst (snd st) it0 x0 = fst (snd st0) it0 x0 + Rsum 0 iy (W iz) /\
                   snd (snd st) it0 x0 = snd (snd st0) it0 x0 + Rsum 0 iy (N iz)))
               0 (imgY projector) (row iz) st0 imgY_nonneg).
      - rewrite !Rsum_nil by lia. split; [lia|split; lra].
      - intros iy st Hiy (Hp' & Hw' & Hn'). subst row. cbn [fst snd].
        split; [lia|]. rewrite !Rsum_snoc by lia.
        rewrite <- Rplus_assoc, <- Hw'. rewrite <- Rplus_assoc, <- Hn'.
        subst W N. cbv beta. unfold ccc3D_row. rewrite Hp'.
        destruct (ccc3D_row_range projector iz iy) as [[[z y] xs] xe].
        destruct (cc_row_loop_at trans_num xs xe
                    (w3 iorient z y ((iz * imgY projector + iy) * imgX projector)%Z)
                    (n3 iorient z y ((iz * imgY projector + iy) * imgX projector)%Z)
                    (snd st) it0 x0) as [L1 L2].
        cbv zeta in L1, L2. subst w3 n3. rewrite L1, L2.
        replace ((0 <=? it0)%Z && (it0 <? trans_num)%Z) with true
          by (symmetry; apply andb_true_iff; split;
              [apply Z.leb_le|apply Z.ltb_lt]; lia).
        cbn [andb].
        destruct ((xs <=? x0)%Z && (x0 <? xe)%Z); cbn [xf_add R_ops]; split; lra. }
    cbv zeta in G. destruct G as (G1 & G2 & G3).
    split; [rewrite G1; lia|]. split; [exact G2|exact G3].
Qed.

Lemma ccc3D_sums_sampled iorient it :
  (0 <= it < trans_num)%Z ->
  ccc3D_sums projector
    (snd (ccc3D_rows g_eulers g_real g_imag g_trans_x g_trans_y g_trans_z
            projector g_corr trans_num iorient)) it
  = (sampled_sum_3D projector (fun z y pixel x => w3 iorient z y pixel it x),
     sampled_sum_3D projector (fun z y pixel x => n3 iorient z y pixel x)).
Proof.
  intros Hit. unfold ccc3D_sums.
  destruct (cc_sums_at (imgX projector)
              (snd (ccc3D_rows g_eulers g_real g_imag g_trans_x g_trans_y g_trans_z
                      projector g_corr trans_num iorient)) it) as [S1 S2].
  cbv zeta in S1, S2.
  assert (B : forall iz iy z y xs xe,
             ccc3D_row_range projector iz iy = (z, y, xs, xe) ->
             (0 <= xs <= xe)%Z /\ (xe <= imgX projector)%Z).
  { intros iz iy z y xs xe E. unfold ccc3D_row_range in E.
    destruct (row_rule (maxR projector) (imgZ projector) iz 0 (imgX projector))
      as [[z' xs_z] xe_z] eqn:Ez.
    destruct (row_rule_range _ _ _ _ _ _ _ Ez ltac:(lia) ltac:(lia)) as [B1 B2].
    destruct (row_rule (maxR projector) (imgY projector) iy xs_z xe_z)
      as [[y' xs_y] xe_y] eqn:Ey.
    destruct (row_rule_range _ _ _ _ _ _ _ Ey B1 B2) as [B3 B4].
    inversion E; subst. split; assumption. }
  apply injective_projections; cbn [fst snd].
  - rewrite S1. cbn [xf_add xf_zero R_ops]. rewrite for_loop_Rsum, Rplus_0_l.
    pose (F := fun x iz iy : Z =>
                 let '(z, y, xs, xe) := ccc3D_row_range projector iz iy in
                 if (xs <=? x)%Z && (x <? xe)%Z
                 then w3 iorient z y ((iz * imgY projector + iy) * imgX projector)%Z it x
                 else 0).
    rewrite (Rsum_ext _ _ _
               (fun x => Rsum 0 (imgZ projector)
                           (fun iz => Rsum 0 (imgY projector) (fun iy => F x iz iy))))
      by (intros x _; apply (ccc3D_rows_at iorient it x Hit)).
    rewrite (Rsum_swap 0 (imgX projector) 0 (imgZ projector)
               (fun x iz => Rsum 0 (imgY projector) (fun iy => F x iz iy))).
    unfold sampled_sum_3D. apply Rsum_ext. intros iz _.
    rewrite (Rsum_swap 0 (imgX projector) 0 (imgY projector) (fun x iy => F x iz iy)).
    apply Rsum_ext. intros iy _. subst F. cbv beta.
    pose proof (B iz iy) as Biy. unfold ccc3D_row_range in *.
    destruct (row_rule (maxR projector) (imgZ projector) iz 0 (imgX projector))
      as [[z xs_z] xe_z].
    destruct (row_rule (maxR projector) (imgY projector) iy xs_z xe_z)
      as [[y xs] xe].
    destruct (Biy z y xs xe eq_refl) as [B1 B2].
    apply (Rsum_indicator 0 (imgX projector) xs xe
             (fun x => w3 iorient z y ((iz * imgY projector + iy) * imgX projector)%Z
                         it x)); lia.
  - rewrite S2. cbn [xf_add xf_zero R_ops]. rewrite for_loop_Rsum, Rplus_0_l.
    pose (F := fun x iz iy : Z =>
                 let '(z, y, xs, xe) := ccc3D_row_range projector iz iy in
                 if (xs <=? x)%Z && (x <? xe)%Z
                 then n3 iorient z y ((iz * imgY projector + iy) * imgX projector)%Z x
                 else 0).
    rewrite (Rsum_ext _ _ _
               (fun x => Rsum 0 (imgZ projector)
                           (fun iz => Rsum 0 (imgY projector) (fun iy => F x iz iy))))
      by (intros x _; apply (ccc3D_rows_at iorient it x Hit)).
    rewrite (Rsum_swap 0 (imgX projector) 0 (imgZ projector)
               (fun x iz => Rsum 0 (imgY projector) (fun iy => F x iz iy))).
    unfold sampled_sum_3D. apply Rsum_ext. intros iz _.
    rewrite (Rsum_swap 0 (imgX projector) 0 (imgY projector) (fun x iy => F x iz iy)).
    apply Rsum_ext. intros iy _. subst F. cbv beta.
    pose proof (B iz iy) as Biy. unfold ccc3D_row_range in *.
    destruct (row_rule (maxR projector) (imgZ projector) iz 0 (imgX projector))
      as [[z xs_z] xe_z].
    destruct (row_rule (maxR projector) (imgY projector) iy xs_z xe_z)
      as [[y xs] xe].
    destruct (Biy z y xs xe eq_refl) as [B1 B2].
    apply (Rsum_indicator 0 (imgX projector) xs xe
             (fun x => n3 iorient z y ((iz * imgY projector + iy) * imgX projector)%Z
                         x)); lia.
Qed.

(** Over the reals, where the order of a sum does not matter, a call of
    diff2_CC_coarse_2D or diff2_CC_coarse_3D with [0 <= maxR < imgX]
    adds to the cell of orientation [iorient] and
    translation [it] exactly [- s_weight / sqrt(s_norm)], where [s_weight]
    is the sum over the sampled pixels [p] of
    [(ref.re * shifted.re + ref.im * shifted.im) * corr[p]] and [s_norm] the
    sum of [(ref.re^2 + ref.im^2) * corr[p]]; the weights [corr[p]] enter
    unscaled. *)
Theorem cc_coarse_cell_score (out : Z -> R) (image_size : Z) (exp_local_sqrtXi2 : R)
    (iorient it : Z) :
  (0 <= iorient < grid_size)%Z -> (0 <= it < trans_num)%Z ->
  (let s_weight :=
     sampled_sum_2D projector
       (fun y pixel x =>
          let '(ref_re, ref_im) := ccc2D_project REF3D g_eulers projector iorient y x in
          let '(sh_re, sh_im) :=
            ccc2D_shifted g_real g_imag g_trans_x g_trans_y projector y pixel it x in
          (ref_re * sh_re + ref_im * sh_im) * g_corr (pixel + x)%Z) in
   let s_norm :=
     sampled_sum_2D projector
       (fun y pixel x =>
          let '(ref_re, ref_im) := ccc2D_project REF3D g_eulers projector iorient y x in
          (ref_re * ref_re + ref_im * ref_im) * g_corr (pixel + x)%Z) in
   diff2_CC_coarse_2D REF3D grid_size g_eulers g_real g_imag g_trans_x g_trans_y
     projector g_corr out trans_num image_size exp_local_sqrtXi2
     (iorient * trans_num + it)%Z
   = out (iorient * trans_num + it)%Z + - (s_weight / sqrt s_norm)) /\
  (let s_weight :=
     sampled_sum_3D projector
       (fun z y pixel x =>
          let '(ref_re, ref_im) := ccc3D_project g_eulers projector iorient z y x in
          let '(sh_re, sh_im) :=
            ccc3D_shifted g_real g_imag g_trans_x g_trans_y g_trans_z projector
              z y pixel it x in
          (ref_re * sh_re + ref_im * sh_im) * g_corr (pixel + x)%Z) in
   let s_norm :=
     sampled_sum_3D projector
       (fun z y pixel x =>
          let '(ref_re, ref_im) := ccc3D_project g_eulers projector iorient z y x in
          (ref_re * ref_re + ref_im * ref_im) * g_corr (pixel + x)%Z) in
   diff2_CC_coarse_3D grid_size g_eulers g_real g_imag g_trans_x g_trans_y g_trans_z
     projector g_corr out trans_num image_size exp_local_sqrtXi2
     (iorient * trans_num + it)%Z
   = out (iorient * trans_num + it)%Z + - (s_weight / sqrt s_norm)).
Proof.
  intros Ho Hit. split; cbv zeta.
  - rewrite diff2_CC_coarse_2D_scatter.
    rewrite (orient_cell_hit grid_size trans_num _ out iorient it Ho Hit).
    unfold ccc2D_score, cc_coarse_score. rewrite (ccc2D_sums_sampled iorient it Hit).
    reflexivity.
  - rewrite diff2_CC_coarse_3D_scatter.
    rewrite (orient_cell_hit grid_size trans_num _ out iorient it Ho Hit).
    unfold ccc3D_score, cc_coarse_score. rewrite (ccc3D_sums_sampled iorient it Hit).
    reflexivity.
Qed.

End CCCoarseScores.

(* ================================================================== *)
(** * The rows that diff2_CC_fine_3D reads *)

Section CCFine3DRows.
Context {XFLOAT : Type} {ops : XFloatOps XFLOAT}.
Variables g_eulers g_trans_x g_trans_y g_trans_z : Z -> XFLOAT.
Variable projector : AccProjectorKernel XFLOAT.
Variables d_rot_idx d_trans_idx d_job_idx d_job_num : Z -> Z.

Lemma row_rule_bounds m X size i xs xe y xs' xe' :
  row_rule m size i xs xe = (y, xs', xe') ->
  0 <= m < X -> 0 <= xs <= xe -> xe <= X ->
  0 <= xs' <= xe' /\ xe' <= X.
Proof.
  unfold row_rule. intros E Hm H1 H2.
  destruct (i >? m); [destruct (i >=? size - m)|]; inversion E; subst; lia.
Qed.

(** In diff2_CC_fine_3D every row [(iz, iy)] of plane [iz] is processed with
    the row base [pixel = iz * imgX]: [pixel] advances once per plane. *)
Lemma ccf3D_rows_row_base g_imgs_real g_imgs_imag g_corr_img bid :
  0 <= imgY projector -> 0 <= imgZ projector ->
  ccf3D_rows g_eulers g_imgs_real g_imgs_imag g_trans_x g_trans_y g_trans_z
    projector g_corr_img d_rot_idx d_trans_idx d_job_idx d_job_num bid
  = (imgZ projector * imgX projector,
     for_loop 0 (imgZ projector)
       (fun iz acc =>
          for_loop 0 (imgY projector)
            (fun iy acc =>
               ccf3D_row g_eulers g_imgs_real g_imgs_imag g_trans_x g_trans_y g_trans_z
                 projector g_corr_img d_rot_idx d_trans_idx d_job_idx d_job_num
                 bid iz iy (iz * imgX projector) acc)
            acc)
       (fun _ _ => xf_zero, fun _ _ => xf_zero)).
Proof.
  intros HY HZ. unfold ccf3D_rows.
  set (row := ccf3D_row g_eulers g_imgs_real g_imgs_imag g_trans_x g_trans_y g_trans_z
                projector g_corr_img d_rot_idx d_trans_idx d_job_idx d_job_num bid).
  set (init := (fun _ _ : Z => xf_zero, fun _ _ : Z => xf_zero)).
  apply (for_loop_ind
           (fun iz (st : Z * ((Z -> Z -> XFLOAT) * (Z -> Z -> XFLOAT))) =>
              st = (iz * imgX projector,
                    for_loop 0 iz
                      (fun iz acc =>
                         for_loop 0 (imgY projector)
                           (fun iy acc => row iz iy (iz * imgX projector) acc) acc)
                      init))
           0 (imgZ projector) _ (0, init) HZ).
  - rewrite for_loop_nil by lia. reflexivity.
  - intros iz st Hiz ->. cbv zeta. rewrite for_loop_snoc by lia.
    set (acc0 := for_loop 0 iz _ init).
    assert (G : for_loop 0 (imgY projector)
                  (fun iy (st : Z * ((Z -> Z -> XFLOAT) * (Z -> Z -> XFLOAT))) =>
                     (fst st, row iz iy (fst st) (snd st)))
                  (iz * imgX projector, acc0)
                = (iz * imgX projector,
                   for_loop 0 (imgY projector)
                     (fun iy acc => row iz iy (iz * imgX projector) acc) acc0)).
    { apply (for_loop_ind
               (fun iy (st : Z * ((Z -> Z -> XFLOAT) * (Z -> Z -> XFLOAT))) =>
                  st = (iz * imgX projector,
                        for_loop 0 iy
                          (fun iy acc => row iz iy (iz * imgX projector) acc) acc0))
               0 (imgY projector) _ (iz * imgX projector, acc0) HY).
      - rewrite for_loop_nil by lia. reflexivity.
      - intros iy st' Hiy ->. cbn [fst snd]. rewrite for_loop_snoc by lia.
        reflexivity. }
    rewrite G. cbn [fst snd]. f_equal. lia.
Qed.

(** C1.  diff2_CC_fine_3D reads the signal and the weights only at the
    indices below [imgZ * imgX]: two inputs that agree there give the same
    output, whatever they hold in the rest of the volume of
    [imgX * imgY * imgZ] pixels.  A row [(iz, iy)] is read at
    [iz * imgX + x], and not at [(iz * imgY + iy) * imgX + x] as in
    diff2_fine_3D. *)
Theorem diff2_CC_fine_3D_reads_one_row_per_plane
    (grid_size : Z) (g_imgs_real g_imgs_imag g_corr_img : Z -> XFLOAT)
    (g_imgs_real' g_imgs_imag' g_corr_img' : Z -> XFLOAT)
    (g_diff2s : Z -> XFLOAT) (image_size : Z) (sum_init exp_local_sqrtXi2 : XFLOAT)
    (orientation_num translation_num num_jobs : Z) :
  0 <= maxR projector < imgX projector ->
  0 <= imgY projector -> 0 <= imgZ projector ->
  (forall p, 0 <= p < imgZ projector * imgX projector ->
             g_imgs_real p = g_imgs_real' p /\
             g_imgs_imag p = g_imgs_imag' p /\
             g_corr_img p = g_corr_img' p) ->
  diff2_CC_fine_3D grid_size g_eulers g_imgs_real g_imgs_imag g_trans_x g_trans_y
    g_trans_z projector g_corr_img g_diff2s image_size sum_init exp_local_sqrtXi2
    orientation_num translation_num num_jobs d_rot_idx d_trans_idx d_job_idx d_job_num
  = diff2_CC_fine_3D grid_size g_eulers g_imgs_real' g_imgs_imag' g_trans_x g_trans_y
      g_trans_z projector g_corr_img' g_diff2s image_size sum_init exp_local_sqrtXi2
      orientation_num translation_num num_jobs d_rot_idx d_trans_idx d_job_idx d_job_num.
Proof.
  intros Hm HY HZ Hagree. unfold diff2_CC_fine_3D.
  apply for_loop_ext. intros bid out _. unfold ccf3D_job. f_equal. f_equal.
  rewrite !ccf3D_rows_row_base by assumption. f_equal.
  apply for_loop_ext. intros iz acc Hiz.
  apply for_loop_ext. intros iy acc' Hiy.
  unfold ccf3D_row.
  destruct (ccf3D_row_range projector iz iy) as [[[z y] xs] xe] eqn:E.
  assert (B : 0 <= xs <= xe /\ xe <= imgX projector).
  { unfold ccf3D_row_range in E.
    destruct (row_rule (maxR projector) (imgZ projector) iz 0 (imgX projector))
      as [[z' xs_z] xe_z] eqn:Ez.
    destruct (row_rule_bounds _ (imgX projector) _ _ _ _ _ _ _ Ez Hm
                ltac:(lia) ltac:(lia)) as [B1 B2].
    destruct (row_rule (maxR projector) (imgY projector) iy xs_z xe_z)
      as [[y' xs_y] xe_y] eqn:Ey.
    destruct (row_rule_bounds _ (imgX projector) _ _ _ _ _ _ _ Ey Hm B1 B2) as [B3 B4].
    inversion E; subst. split; assumption. }
  apply for_loop_ext. intros itrans acc'' _.
  apply for_loop_ext. intros x a Hx.
  assert (Hp : 0 <= iz * imgX projector + x < imgZ projector * imgX projector) by nia.
  destruct (Hagree _ Hp) as (Hr & Hi & Hc).
  unfold ccf3D_s_term, ccf3D_cc_term, ccf3D_shifted. rewrite Hr, Hi, Hc. reflexivity.
Qed.

(** In diff2_fine_3D, by contrast, the row [(iz, iy)] is processed with the
    row base [pixel = (iz * imgY + iy) * imgX]. *)
Lemma fine3D_rows_row_base g_imgs_real g_imgs_imag g_corr_img bid :
  0 <= imgY projector -> 0 <= imgZ projector ->
  fine3D_rows g_eulers g_imgs_real g_imgs_imag g_trans_x g_trans_y g_trans_z
    projector g_corr_img d_rot_idx d_trans_idx d_job_idx d_job_num bid
  = (imgZ projector * imgY projector * imgX projector,
     for_loop 0 (imgZ projector)
       (fun iz s =>
          for_loop 0 (imgY projector)
            (fun iy s =>
               fine3D_row g_eulers g_imgs_real g_imgs_imag g_trans_x g_trans_y g_trans_z
                 projector g_corr_img d_rot_idx d_trans_idx d_job_idx d_job_num
                 bid iz iy ((iz * imgY projector + iy) * imgX projector) s)
            s)
       (fun _ => xf_zero)).
Proof.
  intros HY HZ. unfold fine3D_rows.
  set (row := fine3D_row g_eulers g_imgs_real g_imgs_imag g_trans_x g_trans_y g_trans_z
                projector g_corr_img d_rot_idx d_trans_idx d_job_idx d_job_num bid).
  set (init := fun _ : Z => xf_zero).
  apply (for_loop_ind
           (fun iz (st : Z * (Z -> XFLOAT)) =>
              st = (iz * imgY projector * imgX projector,
                    for_loop 0 iz
                      (fun iz s =>
                         for_loop 0 (imgY projector)
                           (fun iy s =>
                              row iz iy ((iz * imgY projector + iy) * imgX projector) s)
                           s)
                      init))
           0 (imgZ projector) _ (0, init) HZ).
  - rewrite for_loop_nil by lia. reflexivity.
  - intros iz st Hiz ->. rewrite for_loop_snoc by lia.
    set (s0 := for_loop 0 iz _ init).
    assert (G : for_loop 0 (imgY projector)
                  (fun iy (st : Z * (Z -> XFLOAT)) =>
                     (fst st + imgX projector, row iz iy (fst st) (snd st)))
                  (iz * imgY projector * imgX projector, s0)
                = ((iz * imgY projector + imgY projector) * imgX projector,
                   for_loop 0 (imgY projector)
                     (fun iy s =>
                        row iz iy ((iz * imgY projector + iy) * imgX projector) s)
                     s0)).
    { apply (for_loop_ind
               (fun iy (st : Z * (Z -> XFLOAT)) =>
                  st = ((iz * imgY projector + iy) * imgX projector,
                        for_loop 0 iy
                          (fun iy s =>
                             row iz iy ((iz * imgY projector + iy) * imgX projector) s)
                          s0))
               0 (imgY projector) _ (iz * imgY projector * imgX projector, s0) HY).
      - rewrite for_loop_nil by lia. f_equal. lia.
      - intros iy st' Hiy ->. cbn [fst snd]. rewrite for_loop_snoc by lia.
        f_equal. lia. }
    rewrite G. f_equal. lia.
Qed.

End CCFine3DRows.

(* ================================================================== *)
(** * The sums of diff2_CC_fine_3D, over the reals *)

Section CCFine3DSums.
Open Scope R_scope.
Variables g_eulers g_real g_imag g_trans_x g_trans_y g_trans_z : Z -> R.
Variable projector : AccProjectorKernel R.
Variable g_corr : Z -> R.
Variables d_rot_idx d_trans_idx d_job_idx d_job_num : Z -> Z.

Hypothesis maxR_in_row : (0 <= maxR projector < imgX projector)%Z.
Hypothesis imgY_nonneg : (0 <= imgY projector)%Z.
Hypothesis imgZ_nonneg : (0 <= imgZ projector)%Z.

(** Nested row loops whose rows add [W iz iy] and [N iz iy] to one cell. *)
Lemma cc_rows3D_at (nz ny : Z)
    (ROW : Z -> Z -> (Z -> Z -> R) * (Z -> Z -> R) -> (Z -> Z -> R) * (Z -> Z -> R))
    (W N : Z -> Z -> R) (it0 x0 : Z) (init : (Z -> Z -> R) * (Z -> Z -> R)) :
  (0 <= nz)%Z -> (0 <= ny)%Z ->
  (forall iz iy acc, (0 <= iz < nz)%Z -> (0 <= iy < ny)%Z ->
      fst (ROW iz iy acc) it0 x0 = fst acc it0 x0 + W iz iy /\
      snd (ROW iz iy acc) it0 x0 = snd acc it0 x0 + N iz iy) ->
  let r := for_loop 0 nz (fun iz acc => for_loop 0 ny (fun iy acc => ROW iz iy acc) acc)
             init in
  fst r it0 x0 = fst init it0 x0 + Rsum 0 nz (fun iz => Rsum 0 ny (W iz)) /\
  snd r it0 x0 = snd init it0 x0 + Rsum 0 nz (fun iz => Rsum 0 ny (N iz)).
Proof.
  intros Hz Hy HROW. cbv zeta.
  apply (for_loop_ind
           (fun iz (acc : (Z -> Z -> R) * (Z -> Z -> R)) =>
              fst acc it0 x0 = fst init it0 x0 + Rsum 0 iz (fun iz => Rsum 0 ny (W iz)) /\
              snd acc it0 x0 = snd init it0 x0 + Rsum 0 iz (fun iz => Rsum 0 ny (N iz)))
           0 nz _ init Hz).
  - rewrite !Rsum_nil by lia. split; lra.
  - intros iz acc0 Hiz (Hw & Hn). rewrite !Rsum_snoc by lia.
    rewrite <- !Rplus_assoc, <- Hw, <- Hn.
    apply (for_loop_ind
             (fun iy (acc : (Z -> Z -> R) * (Z -> Z -> R)) =>
                fst acc it0 x0 = fst acc0 it0 x0 + Rsum 0 iy (W iz) /\
                snd acc it0 x0 = snd acc0 it0 x0 + Rsum 0 iy (N iz))
             0 ny (fun iy acc => ROW iz iy acc) acc0 Hy).
    + rewrite !Rsum_nil by lia. split; lra.
    + intros iy acc Hiy (Hw' & Hn'). rewrite !Rsum_snoc by lia.
      destruct (HROW iz iy acc ltac:(lia) Hiy) as [R1 R2].
      rewrite R1, R2, Hw', Hn'. split; lra.
Qed.

(** The sums [(sum1, sum2)] of a job of diff2_CC_fine_3D: the terms of every
    row [(iz, iy)], taken at the row base [iz * imgX]. *)
Lemma ccf3D_sums_rows bid it :
  (0 <= it < d_job_num bid)%Z ->
  ccf3D_sums projector
    (snd (ccf3D_rows g_eulers g_real g_imag g_trans_x g_trans_y g_trans_z
            projector g_corr d_rot_idx d_trans_idx d_job_idx d_job_num bid)) it
  = (Rsum 0 (imgZ projector)
       (fun iz =>
          Rsum 0 (imgY projector)
            (fun iy =>
               let '(z, y, xs, xe) := ccf3D_row_range projector iz iy in
               Rsum xs xe
                 (fun x =>
                    ccf3D_s_term g_eulers g_real g_imag g_trans_x g_trans_y g_trans_z
                      projector g_corr d_rot_idx d_trans_idx d_job_idx bid z y
                      (iz * imgX projector)%Z it x))),
     Rsum 0 (imgZ projector)
       (fun iz =>
          Rsum 0 (imgY projector)
            (fun iy =>
               let '(z, y, xs, xe) := ccf3D_row_range projector iz iy in
               Rsum xs xe
                 (fun x =>
                    ccf3D_cc_term g_eulers projector g_corr d_rot_idx d_job_idx bid z y
                      (iz * imgX projector)%Z x)))).
Proof.
  intros Hit. rewrite ccf3D_rows_row_base by assumption. cbn [snd].
  set (w := ccf3D_s_term g_eulers g_real g_imag g_trans_x g_trans_y g_trans_z
              projector g_corr d_rot_idx d_trans_idx d_job_idx bid).
  set (n := ccf3D_cc_term g_eulers projector g_corr d_rot_idx d_job_idx bid).
  pose (F := fun x iz iy : Z =>
               let '(z, y, xs, xe) := ccf3D_row_range projector iz iy in
               if (xs <=? x)%Z && (x <? xe)%Z
               then w z y (iz * imgX projector)%Z it x else 0).
  pose (G := fun x iz iy : Z =>
               let '(z, y, xs, xe) := ccf3D_row_range projector iz iy in
               if (xs <=? x)%Z && (x <? xe)%Z
               then n z y (iz * imgX projector)%Z x else 0).
  assert (A : forall x,
             let acc :=
               for_loop 0 (imgZ projector)
                 (fun iz acc =>
                    for_loop 0 (imgY projector)
                      (fun iy acc =>
                         ccf3D_row g_eulers g_real g_imag g_trans_x g_trans_y g_trans_z
                           projector g_corr d_rot_idx d_trans_idx d_job_idx d_job_num
                           bid iz iy (iz * imgX projector)%Z acc)
                      acc)
                 (fun _ _ => xf_zero, fun _ _ => xf_zero) in
             fst acc it x
             = Rsum 0 (imgZ projector) (fun iz => Rsum 0 (imgY projector) (F x iz)) /\
             snd acc it x
             = Rsum 0 (imgZ projector) (fun iz => Rsum 0 (imgY projector) (G x iz))).
  { intros x. cbv zeta.
    destruct (cc_rows3D_at (imgZ projector) (imgY projector)
                (fun iz iy acc =>
                   ccf3D_row g_eulers g_real g_imag g_trans_x g_trans_y g_trans_z
                     projector g_corr d_rot_idx d_trans_idx d_job_idx d_job_num
                     bid iz iy (iz * imgX projector)%Z acc)
                (F x) (G x) it x (fun _ _ => xf_zero, fun _ _ => xf_zero)
                imgZ_nonneg imgY_nonneg) as [A1 A2].
    - intros iz iy acc _ _. subst F G. cbv beta. unfold ccf3D_row.
      destruct (ccf3D_row_range projector iz iy) as [[[z y] xs] xe].
      destruct (cc_row_loop_at (d_job_num bid) xs xe
                  (w z y (iz * imgX projector)%Z) (n z y (iz * imgX projector)%Z)
                  acc it x) as [L1 L2].
      cbv zeta in L1, L2. subst w n. rewrite L1, L2.
      replace ((0 <=? it)%Z && (it <? d_job_num bid)%Z) with true
        by (symmetry; apply andb_true_iff; split;
            [apply Z.leb_le|apply Z.ltb_lt]; lia).
      cbn [andb].
      destruct ((xs <=? x)%Z && (x <? xe)%Z); cbn [xf_add R_ops]; split; lra.
    - cbn [fst snd xf_zero R_ops] in A1, A2. rewrite Rplus_0_l in A1, A2.
      split; assumption. }
  assert (B : forall iz iy z y xs xe,
             ccf3D_row_range projector iz iy = (z, y, xs, xe) ->
             (0 <= xs <= xe)%Z /\ (xe <= imgX projector)%Z).
  { intros iz iy z y xs xe E. unfold ccf3D_row_range in E.
    destruct (row_rule (maxR projector) (imgZ projector) iz 0 (imgX projector))
      as [[z' xs_z] xe_z] eqn:Ez.
    destruct (row_rule_bounds _ (imgX projector) _ _ _ _ _ _ _ Ez maxR_in_row
                ltac:(lia) ltac:(lia)) as [B1 B2].
    destruct (row_rule (maxR projector) (imgY projector) iy xs_z xe_z)
      as [[y' xs_y] xe_y] eqn:Ey.
    destruct (row_rule_bounds _ (imgX projector) _ _ _ _ _ _ _ Ey maxR_in_row B1 B2)
      as [B3 B4].
    inversion E; subst. split; assumption. }
  unfold ccf3D_sums.
  match goal with
  | |- context [for_loop 0 (imgX projector) ?body (xf_zero, xf_zero)] =>
      match body with
      | (fun x sums => (fst sums [+] fst ?acc it x, _)) =>
          destruct (cc_sums_at (imgX projector) acc it) as [S1 S2]
      end
  end.
  cbv zeta in S1, S2. apply injective_projections; cbn [fst snd].
  - rewrite S1. cbn [xf_add xf_zero R_ops]. rewrite for_loop_Rsum, Rplus_0_l.
    rewrite (Rsum_ext _ _ _
               (fun x => Rsum 0 (imgZ projector)
                           (fun iz => Rsum 0 (imgY projector) (fun iy => F x iz iy))))
      by (intros x _; apply (A x)).
    rewrite (Rsum_swap 0 (imgX projector) 0 (imgZ projector)
               (fun x iz => Rsum 0 (imgY projector) (fun iy => F x iz iy))).
    apply Rsum_ext. intros iz _.
    rewrite (Rsum_swap 0 (imgX projector) 0 (imgY projector) (fun x iy => F x iz iy)).
    apply Rsum_ext. intros iy _. subst F. cbv beta.
    pose proof (B iz iy) as Biy.
    destruct (ccf3D_row_range projector iz iy) as [[[z y] xs] xe].
    destruct (Biy z y xs xe eq_refl) as [B1 B2].
    apply (Rsum_indicator 0 (imgX projector) xs xe
             (fun x => w z y (iz * imgX projector)%Z it x)); lia.
  - rewrite S2. cbn [xf_add xf_zero R_ops]. rewrite for_loop_Rsum, Rplus_0_l.
    rewrite (Rsum_ext _ _ _
               (fun x => Rsum 0 (imgZ projector)
                           (fun iz => Rsum 0 (imgY projector) (fun iy => G x iz iy))))
      by (intros x _; apply (A x)).
    rewrite (Rsum_swap 0 (imgX projector) 0 (imgZ projector)
               (fun x iz => Rsum 0 (imgY projector) (fun iy => G x iz iy))).
    apply Rsum_ext. intros iz _.
    rewrite (Rsum_swap 0 (imgX projector) 0 (imgY projector) (fun x iy => G x iz iy)).
    apply Rsum_ext. intros iy _. subst G. cbv beta.
    pose proof (B iz iy) as Biy.
    destruct (ccf3D_row_range projector iz iy) as [[[z y] xs] xe].
    destruct (Biy z y xs xe eq_refl) as [B1 B2].
    apply (Rsum_indicator 0 (imgX projector) xs xe
             (fun x => n z y (iz * imgX projector)%Z x)); lia.
Qed.

End CCFine3DSums.

(* ================================================================== *)
(** * The sums in the order of the code, over the reals *)

Section OrderedSumsOverReals.
Open Scope R_scope.
Variable projector : AccProjectorKernel R.
Hypothesis maxR_in_row : (0 <= maxR projector < imgX projector)%Z.

Lemma for_loop_Rsum_if lo hi (c : Z -> bool) (f : Z -> R) (a : R) :
  for_loop lo hi (fun k acc => if c k then acc + f k else acc) a
  = a + Rsum lo hi (fun k => if c k then f k else 0).
Proof.
  rewrite <- for_loop_Rsum. apply for_loop_ext. intros k st _.
  destruct (c k); lra.
Qed.

(** Over the reals the order of the additions does not matter: the sum in
    the order of the code is the sum over the sampled pixels. *)
Lemma xf_sampled_sum_2D_real (f : Z -> Z -> Z -> R) :
  xf_sampled_sum_2D projector f = sampled_sum_2D projector f.
Proof.
  unfold xf_sampled_sum_2D, xf_column_sum_2D. cbn [xf_add xf_zero R_ops].
  rewrite for_loop_Rsum, Rplus_0_l.
  rewrite (Rsum_ext _ _ _
             (fun x =>
                Rsum 0 (imgY projector)
                  (fun iy =>
                     let '(y, xs, xe) :=
                       row_rule (maxR projector) (imgY projector) iy 0 (imgX projector) in
                     if (xs <=? x)%Z && (x <? xe)%Z
                     then f y (iy * imgX projector)%Z x else 0))).
  - rewrite (Rsum_swap 0 (imgX projector) 0 (imgY projector)
               (fun x iy =>
                  let '(y, xs, xe) :=
                    row_rule (maxR projector) (imgY projector) iy 0 (imgX projector) in
                  if (xs <=? x)%Z && (x <? xe)%Z
                  then f y (iy * imgX projector)%Z x else 0)).
    unfold sampled_sum_2D. apply Rsum_ext. intros iy _.
    destruct (row_rule (maxR projector) (imgY projector) iy 0 (imgX projector))
      as [[y xs] xe] eqn:E.
    destruct (row_rule_bounds _ (imgX projector) _ _ _ _ _ _ _ E maxR_in_row
                ltac:(lia) ltac:(lia)) as [B1 B2].
    apply (Rsum_indicator 0 (imgX projector) xs xe
             (fun x => f y (iy * imgX projector)%Z x)); lia.
  - intros x _.
    rewrite (for_loop_ext 0 (imgY projector) _
               (fun iy acc =>
                  if (let '(_, xs, xe) :=
                        row_rule (maxR projector) (imgY projector) iy 0 (imgX projector)
                      in (xs <=? x)%Z && (x <? xe)%Z)
                  then acc + (let '(y, _, _) :=
                                row_rule (maxR projector) (imgY projector) iy 0
                                  (imgX projector) in
                              f y (iy * imgX projector)%Z x)
                  else acc)).
    + rewrite for_loop_Rsum_if, Rplus_0_l. apply Rsum_ext. intros iy _.
      destruct (row_rule (maxR projector) (imgY projector) iy 0 (imgX projector))
        as [[y xs] xe]. reflexivity.
    + intros iy st _.
      destruct (row_rule (maxR projector) (imgY projector) iy 0 (imgX projector))
        as [[y xs] xe]. reflexivity.
Qed.

Lemma xf_sampled_sum_3D_real (f : Z -> Z -> Z -> Z -> R) :
  xf_sampled_sum_3D projector f = sampled_sum_3D projector f.
Proof.
  unfold xf_sampled_sum_3D, xf_column_sum_3D. cbn [xf_add xf_zero R_ops].
  rewrite for_loop_Rsum, Rplus_0_l.
  pose (F := fun x iz iy : Z =>
               let '(z, xs_z, xe_z) :=
                 row_rule (maxR projector) (imgZ projector) iz 0 (imgX projector) in
               let '(y, xs, xe) :=
                 row_rule (maxR projector) (imgY projector) iy xs_z xe_z in
               if (xs <=? x)%Z && (x <? xe)%Z
               then f z y ((iz * imgY projector + iy) * imgX projector)%Z x else 0).
  rewrite (Rsum_ext _ _ _
             (fun x => Rsum 0 (imgZ projector)
                         (fun iz => Rsum 0 (imgY projector) (fun iy => F x iz iy)))).
  - rewrite (Rsum_swap 0 (imgX projector) 0 (imgZ projector)
               (fun x iz => Rsum 0 (imgY projector) (fun iy => F x iz iy))).
    unfold sampled_sum_3D. apply Rsum_ext. intros iz _.
    rewrite (Rsum_swap 0 (imgX projector) 0 (imgY projector) (fun x iy => F x iz iy)).
    apply Rsum_ext. intros iy _. subst F. cbv beta.
    destruct (row_rule (maxR projector) (imgZ projector) iz 0 (imgX projector))
      as [[z xs_z] xe_z] eqn:Ez.
    destruct (row_rule (maxR projector) (imgY projector) iy xs_z xe_z)
      as [[y xs] xe] eqn:Ey.
    destruct (row_rule_bounds _ (imgX projector) _ _ _ _ _ _ _ Ez maxR_in_row
                ltac:(lia) ltac:(lia)) as [Bz1 Bz2].
    destruct (row_rule_bounds _ (imgX projector) _ _ _ _ _ _ _ Ey maxR_in_row
                Bz1 Bz2) as [B1 B2].
    apply (Rsum_indicator 0 (imgX projector) xs xe
             (fun x => f z y ((iz * imgY projector + iy) * imgX projector)%Z x)); lia.
  - intros x _.
    assert (G : forall a, 
      for_loop 0 (imgZ projector)
        (fun iz a =>
           for_loop 0 (imgY projector)
             (fun iy a =>
                let '(z, xs_z, xe_z) :=
                  row_rule (maxR projector) (imgZ projector) iz 0 (imgX projector) in
                let '(y, xs, xe) :=
                  row_rule (maxR projector) (imgY projector) iy xs_z xe_z in
                if (xs <=? x)%Z && (x <? xe)%Z
                then a + f z y ((iz * imgY projector + iy) * imgX projector)%Z x
                else a) a) a
      = a + Rsum 0 (imgZ projector)
              (fun iz => Rsum 0 (imgY projector) (fun iy => F x iz iy))).
    { intros a. rewrite <- for_loop_Rsum. apply for_loop_ext. intros iz st _.
      rewrite <- for_loop_Rsum. apply for_loop_ext. intros iy st' _.
      subst F. cbv beta.
      destruct (row_rule (maxR projector) (imgZ projector) iz 0 (imgX projector))
        as [[z xs_z] xe_z].
      destruct (row_rule (maxR projector) (imgY projector) iy xs_z xe_z)
        as [[y xs] xe].
      destruct ((xs <=? x)%Z && (x <? xe)%Z); lra. }
    rewrite G. lra.
Qed.

End OrderedSumsOverReals.

(* ================================================================== *)
(** * The theorems at example inputs *)

Section Examples.
Open Scope R_scope.

Lemma Rsum_const lo hi c :
  (lo <= hi)%Z -> Rsum lo hi (fun _ => c) = IZR (hi - lo) * c.
Proof.
  intros H. revert hi H.
  apply (range_ind (fun hi => Rsum lo hi (fun _ => c) = IZR (hi - lo) * c)).
  - rewrite Rsum_nil by lia. rewrite Z.sub_diag. lra.
  - intros i Hi IH. rewrite Rsum_snoc by lia. rewrite IH.
    replace (i + 1 - lo)%Z with ((i - lo) + 1)%Z by lia. rewrite plus_IZR. lra.
Qed.

Lemma ccc2D_shifted_zero (g_real g_imag g_trans_x g_trans_y : Z -> R)
    (projector : AccProjectorKernel R) (y pixel it x : Z) :
  g_trans_x it = 0 -> g_trans_y it = 0 ->
  ccc2D_shifted g_real g_imag g_trans_x g_trans_y projector y pixel it x
  = (g_real (pixel + x)%Z, g_imag (pixel + x)%Z).
Proof.
  intros Hx Hy. unfold ccc2D_shifted.
  etransitivity; [apply shift2D_R|].
  unfold times_phase, theta2D. rewrite Hx, Hy.
  replace (2 * PI * (0 * IZR x / IZR (imgX projector)
                     + 0 * IZR y / IZR (imgY projector))) with 0
    by (unfold Rdiv; ring).
  rewrite cos_0, sin_0. f_equal; lra.
Qed.

(** The index ranges and row rules of a goal at concrete extents. *)
Ltac eval_ranges :=
  repeat match goal with
         | |- context [zrange ?a ?b] =>
             let v := eval vm_compute in (zrange a b) in change (zrange a b) with v
         | |- context [row_rule ?a ?b ?c ?d ?e] =>
             let v := eval vm_compute in (row_rule a b c d e) in
             change (row_rule a b c d e) with v
         end.

Ltac eval_volume :=
  unfold volume_1_100;
  repeat match goal with
         | |- context [(?a <? ?b)%Z] =>
             let v := eval vm_compute in (a <? b)%Z in change (a <? b)%Z with v
         end;
  cbv iota.

Lemma shift3D_zero (N1 N2 N3 x y z : Z) (a b : R) :
  times_phase (theta3D 0 0 0 N1 N2 N3 x y z) a b = (a, b).
Proof.
  unfold times_phase, theta3D.
  replace (2 * PI * (0 * IZR x / IZR N1 + 0 * IZR y / IZR N2 + 0 * IZR z / IZR N3))
    with 0 by (unfold Rdiv; ring).
  rewrite cos_0, sin_0. f_equal; lra.
Qed.

Lemma ccf3D_shifted_zero (g_real g_imag g_trans_x g_trans_y g_trans_z : Z -> R)
    (projector : AccProjectorKernel R) (d_trans_idx d_job_idx : Z -> Z)
    (bid z y pixel it x : Z) :
  g_trans_x (d_trans_idx (d_job_idx bid) + it)%Z = 0 ->
  g_trans_y (d_trans_idx (d_job_idx bid) + it)%Z = 0 ->
  g_trans_z (d_trans_idx (d_job_idx bid) + it)%Z = 0 ->
  ccf3D_shifted g_real g_imag g_trans_x g_trans_y g_trans_z projector
    d_trans_idx d_job_idx bid z y pixel it x
  = (g_real (pixel + x)%Z, g_imag (pixel + x)%Z).
Proof.
  intros Hx Hy Hz.
  unfold ccf3D_shifted, ccf3D_trans_x, ccf3D_trans_y, ccf3D_trans_z.
  etransitivity; [apply shift3D_R|]. rewrite Hx, Hy, Hz. apply shift3D_zero.
Qed.

Lemma ccc3D_shifted_zero (g_real g_imag g_trans_x g_trans_y g_trans_z : Z -> R)
    (projector : AccProjectorKernel R) (z y pixel it x : Z) :
  g_trans_x it = 0 -> g_trans_y it = 0 -> g_trans_z it = 0 ->
  ccc3D_shifted g_real g_imag g_trans_x g_trans_y g_trans_z projector z y pixel it x
  = (g_real (pixel + x)%Z, g_imag (pixel + x)%Z).
Proof.
  intros Hx Hy Hz. unfold ccc3D_shifted.
  etransitivity; [apply shift3D_R|]. rewrite Hx, Hy, Hz. apply shift3D_zero.
Qed.

(** The input of the next lemma, evaluated: diff2_CC_fine_3D adds
    [- 8 / sqrt 8] to cell 0, the score of a volume of ones, while
    diff2_CC_coarse_3D, which reads the row [(iz, iy)] at
    [(iz * imgY + iy) * imgX], adds [- 404 / sqrt 8] for the same volume,
    orientation and translation. *)
Lemma diff2_CC_fine_3D_failing_input_value :
  diff2_CC_fine_3D 1 zeros volume_1_100 zeros zeros zeros zeros projector_2x2x2 ones
    zeros 8 0 0 1 1 1 job_first job_first job_first job_single 0%Z
  = (- 8) / sqrt 8 /\
  diff2_CC_coarse_3D 1 zeros volume_1_100 zeros zeros zeros zeros projector_2x2x2 ones
    zeros 1 8 0 0%Z
  = - (404 / sqrt 8).
Proof.
  assert (Hm : (0 <= maxR projector_2x2x2 < imgX projector_2x2x2)%Z) by (cbn; lia).
  assert (HY : (0 <= imgY projector_2x2x2)%Z) by (cbn; lia).
  assert (HZ : (0 <= imgZ projector_2x2x2)%Z) by (cbn; lia).
  assert (Hrows : forall iz iy, (0 <= iz < 2)%Z -> (0 <= iy < 2)%Z ->
                    exists z y, ccf3D_row_range projector_2x2x2 iz iy = (z, y, 0, 2)%Z /\
                                ccc3D_row_range projector_2x2x2 iz iy = (z, y, 0, 2)%Z).
  { intros iz iy Hiz Hiy.
    assert (Hc : (iz = 0 \/ iz = 1)%Z) by lia.
    assert (Hd : (iy = 0 \/ iy = 1)%Z) by lia.
    destruct Hc, Hd; subst; do 2 eexists; split; reflexivity. }
  split.
  - assert (E : diff2_CC_fine_3D 1 zeros volume_1_100 zeros zeros zeros zeros
                  projector_2x2x2 ones zeros 8 0 0 1 1 1
                  job_first job_first job_first job_single (job_first 0 + 0)%Z
                = zeros (job_first 0 + 0)%Z
                  + cc_fine_score
                      (ccf3D_sums projector_2x2x2
                         (snd (ccf3D_rows zeros volume_1_100 zeros zeros zeros zeros
                                 projector_2x2x2 ones job_first job_first job_first
                                 job_single 0))) 0).
    { rewrite diff2_CC_fine_3D_scatter.
      change (zrange 0 1) with [0%Z]. cbn [flat_map]. rewrite app_nil_r.
      rewrite (job_writes_hit job_first job_single _ 0%Z 0%Z zeros)
        by (unfold job_single; lia).
      reflexivity. }
    change (job_first 0 + 0)%Z with 0%Z in E. rewrite E. clear E.
    unfold cc_fine_score.
    rewrite (ccf3D_sums_rows zeros volume_1_100 zeros zeros zeros zeros projector_2x2x2
               ones job_first job_first job_first job_single Hm HY HZ 0 0)
      by (unfold job_single; lia).
    cbn [fst snd xf_neg xf_div xf_sqrt R_ops imgX imgY imgZ projector_2x2x2].
    match goal with
    | |- _ + - ?a / sqrt ?b = _ =>
        assert (S1 : a = 8); [|assert (S2 : b = 8); [|rewrite S1, S2; unfold zeros; lra]]
    end.
    + rewrite (Rsum_ext 0 2 _
                 (fun iz => Rsum 0 2
                              (fun iy => Rsum 0 2
                                           (fun x => volume_1_100 (iz * 2 + x)%Z)))).
      * unfold Rsum. eval_ranges. cbn [fold_right]. eval_volume. lra.
      * intros iz Hiz. apply Rsum_ext. intros iy Hiy.
        destruct (Hrows iz iy Hiz Hiy) as (z & y & -> & _).
        apply Rsum_ext. intros x _. unfold ccf3D_s_term.
        cbn [ccf3D_project project3Dmodel_xyz projector_2x2x2].
        rewrite ccf3D_shifted_zero by reflexivity.
        cbn [xf_add xf_mul R_ops]. unfold ones, zeros. lra.
    + rewrite (Rsum_ext 0 2 _ (fun iz => Rsum 0 2 (fun iy => Rsum 0 2 (fun x => 1)))).
      * unfold Rsum. eval_ranges. cbn [fold_right]. lra.
      * intros iz Hiz. apply Rsum_ext. intros iy Hiy.
        destruct (Hrows iz iy Hiz Hiy) as (z & y & -> & _).
        apply Rsum_ext. intros x _. unfold ccf3D_cc_term.
        cbn [ccf3D_project project3Dmodel_xyz projector_2x2x2 xf_add xf_mul R_ops].
        unfold ones. lra.
  - assert (E : diff2_CC_coarse_3D 1 zeros volume_1_100 zeros zeros zeros zeros
                  projector_2x2x2 ones zeros 1 8 0 (0 * 1 + 0)%Z
                = zeros (0 * 1 + 0)%Z
                  + ccc3D_score zeros volume_1_100 zeros zeros zeros zeros ones
                      projector_2x2x2 1 0 0).
    { rewrite diff2_CC_coarse_3D_scatter.
      rewrite (orient_cell_hit 1 1 _ zeros 0 0) by lia. reflexivity. }
    change (0 * 1 + 0)%Z with 0%Z in E. rewrite E. clear E.
    unfold ccc3D_score, cc_coarse_score.
    rewrite (ccc3D_sums_sampled zeros volume_1_100 zeros zeros zeros zeros
               projector_2x2x2 ones 1 Hm HY HZ 0 0) by lia.
    cbn [fst snd xf_add xf_neg xf_div xf_sqrt R_ops].
    assert (W : forall f g,
               (forall z y pixel x, f z y pixel x = g (pixel + x)%Z) ->
               sampled_sum_3D projector_2x2x2 f
               = g 0%Z + g 1%Z + g 2%Z + g 3%Z + g 4%Z + g 5%Z + g 6%Z + g 7%Z).
    { intros f g Hf. unfold sampled_sum_3D, Rsum.
      cbn [imgX imgY imgZ maxR projector_2x2x2].
      repeat (eval_ranges; cbv iota beta; cbn [fold_right]). rewrite !Hf.
      repeat match goal with
             | |- context [g ?p] =>
                 lazymatch p with
                 | Z0 => fail
                 | Zpos _ => fail
                 | _ => let v := eval vm_compute in p in change p with v
                 end
             end.
      lra. }
    rewrite (W _ volume_1_100), (W _ (fun _ => 1)).
    + eval_volume. unfold zeros.
      replace (1 + 1 + 1 + 1 + 100 + 100 + 100 + 100) with 404 by lra.
      replace (1 + 1 + 1 + 1 + 1 + 1 + 1 + 1) with 8 by lra.
      lra.
    + intros z y pixel x. unfold ccc3D_norm_term.
      cbn [ccc3D_project project3Dmodel_xyz projector_2x2x2 xf_add xf_mul R_ops].
      unfold ones. lra.
    + intros z y pixel x. unfold ccc3D_weight_term.
      cbn [ccc3D_project project3Dmodel_xyz projector_2x2x2].
      rewrite ccc3D_shifted_zero by reflexivity.
      cbn [xf_add xf_mul R_ops]. unfold ones, zeros. lra.
Qed.

(** The failing input of C1: two volumes that differ on the pixels 4..7 of
    the 2 x 2 x 2 volume (at pixel 7, the row [iz = 1, iy = 1], one holds 100
    and the other 1), and diff2_CC_fine_3D returns the same output for
    both. *)
Lemma diff2_CC_fine_3D_failing_input :
  volume_1_100 7 <> ones 7 /\
  diff2_CC_fine_3D 1 zeros volume_1_100 zeros zeros zeros zeros projector_2x2x2 ones
    zeros 8 0 0 1 1 1 job_first job_first job_first job_single
  = diff2_CC_fine_3D 1 zeros ones zeros zeros zeros zeros projector_2x2x2 ones
      zeros 8 0 0 1 1 1 job_first job_first job_first job_single.
Proof.
  split.
  - change (volume_1_100 7) with 100. unfold ones. lra.
  - apply (@diff2_CC_fine_3D_reads_one_row_per_plane R R_ops zeros zeros zeros zeros
             projector_2x2x2 job_first job_first job_first job_single
             1 volume_1_100 zeros ones ones zeros ones zeros 8 0 0 1 1 1);
      cbn [imgX imgY imgZ maxR projector_2x2x2]; try lia.
    intros p Hp. unfold volume_1_100, ones.
    destruct (Z.ltb_spec p 4); [auto|lia].
Defined.

(** Scenario S1 of the specification: a 4 x 4 image, one zero translation,
    unit weights, zero signal and a projector that returns (1, 0) give
    [0.5 * 16 * 1 = 8] in each cell. *)
Lemma diff2_coarse_zero_translation_S1 :
  diff2_coarse false false 8 2 1 zeros zeros zeros zeros zeros zeros
    projector_4x4 ones zeros 1 16 0%Z = 8.
Proof.
  pose proof (@diff2_coarse_zero_translation false false 8 2 1 zeros zeros zeros zeros
                zeros zeros projector_4x4 ones 1 16 zeros 0 0 0) as E.
  change (0 * 2 * 1 + (0 * 1 + 0))%Z with 0%Z in E.
  rewrite E; try lia.
  - rewrite (Rsum_ext 0 16 _ (fun _ => 1)).
    + rewrite Rsum_const by lia. unfold zeros. change (16 - 0)%Z with 16%Z. lra.
    + intros p _. cbv zeta. unfold coarse_project.
      destruct (coarse_xyz false projector_4x4 p) as [[x y] z].
      cbn [project2Dmodel projector_4x4 fst snd]. unfold ones, zeros. lra.
  - intros i' _. repeat split; reflexivity.
Defined.

(** Scenario S4 of the specification on the code: a 4 x 4 image with cutoff
    1, unit signal, unit weights and a projector that returns (1, 0).  Row 2
    lies in the band, so 13 of the 16 pixels are sampled and the score is
    [- 13 / sqrt 13]. *)
Lemma cc_coarse_cell_score_S4 :
  diff2_CC_coarse_2D false 1 zeros ones zeros zeros zeros projector_4x4 ones zeros
    1 16 1 0%Z = - (13 / sqrt 13).
Proof.
  pose proof (@cc_coarse_cell_score false 1 zeros ones zeros zeros zeros zeros
                projector_4x4 ones 1) as E.
  specialize (E ltac:(cbn; lia) ltac:(cbn; lia) ltac:(cbn; lia) zeros 16%Z 1 0%Z 0%Z
                ltac:(lia) ltac:(lia)).
  destruct E as [E _]. cbv zeta in E.
  change (0 * 1 + 0)%Z with 0%Z in E. rewrite E.
  assert (W : forall f, (forall y pixel x, f y pixel x = 1) ->
                        sampled_sum_2D projector_4x4 f = 13).
  { intros f Hf. unfold sampled_sum_2D, Rsum.
    cbn [imgX imgY maxR projector_4x4].
    eval_ranges. cbn [fold_right]. eval_ranges. cbv iota beta.
    eval_ranges. cbn [fold_right]. rewrite !Hf. lra. }
  rewrite !W.
  - unfold zeros. lra.
  - intros y pixel x. cbn [ccc2D_project projector_4x4 project2Dmodel].
    unfold ones. lra.
  - intros y pixel x. cbn [ccc2D_project projector_4x4 project2Dmodel].
    rewrite ccc2D_shifted_zero by reflexivity. unfold ones, zeros. lra.
Defined.

(** One job of one translation with [sum_init = 7/2]: the job's cell
    receives [s + 7/2] for the accumulated sum [s], in both kernels. *)
Lemma fine_job_adds_sum_init_example :
  (exists s,
      fine2D_job false zeros ones zeros zeros zeros projector_4x4 ones (7 / 2)
        job_first job_first job_first job_single 0 zeros 0%Z
      = 0 + (s + 7 / 2)) /\
  (exists s,
      fine3D_job zeros ones zeros zeros zeros zeros projector_2x2x2 ones (7 / 2)
        job_first job_first job_first job_single 0 zeros 0%Z
      = 0 + (s + 7 / 2)).
Proof.
  split; eexists.
  - apply (proj1 (@fine_job_adds_sum_init R R_ops false zeros ones zeros zeros zeros
                    zeros projector_4x4 ones job_first job_first job_first job_single
                    (7 / 2) 0%Z 0%Z zeros ltac:(unfold job_single; lia))).
  - apply (proj2 (@fine_job_adds_sum_init R R_ops false zeros ones zeros zeros zeros
                    zeros projector_2x2x2 ones job_first job_first job_first job_single
                    (7 / 2) 0%Z 0%Z zeros ltac:(unfold job_single; lia))).
Defined.

(** One job of one translation: the job's cell receives [- sum1 / sqrt sum2]. *)
Lemma cc_fine_job_score_example :
  exists sum1 sum2,
    ccf2D_job false zeros ones zeros zeros zeros projector_4x4 ones
      job_first job_first job_first job_single 0 zeros 0%Z
    = 0 + (- sum1) / sqrt sum2.
Proof.
  do 2 eexists.
  apply (proj1 (proj2 (@cc_fine_job_score R R_ops false zeros ones zeros zeros zeros
                         zeros projector_4x4 ones job_first job_first job_first
                         job_single)
                  0%Z 0%Z zeros ltac:(unfold job_single; lia))).
Defined.

(** Scenario S5 of the specification: in an 8 x 8 image with cutoff 2 the
    row [iy = 4] is visited at [x = 2] only, and the row [iy = 6] in full. *)
Lemma polar_skip_S5 :
  fine2D_row_range projector_8x8 4 = (4, 2, 3)%Z /\
  fine2D_row_range projector_8x8 6 = (-2, 0, 8)%Z.
Proof.
  split.
  - apply (proj1 (@polar_skip R R_ops false zeros ones zeros zeros zeros zeros
                    projector_8x8 ones job_first job_first job_first job_single
                    0%Z 0%Z 4%Z 0%Z 0%Z (fun _ _ => 0, fun _ _ => 0))).
    unfold in_band. cbn. lia.
  - apply (proj1 (proj2 (@polar_skip R R_ops false zeros ones zeros zeros zeros zeros
                           projector_8x8 ones job_first job_first job_first job_single
                           0%Z 0%Z 6%Z 0%Z 0%Z (fun _ _ => 0, fun _ _ => 0)))).
    unfold in_band. cbn. lia.
Defined.

(** For the block size 8 and a 4 x 4 image with cutoff 1, pixel 14 is
    reached in pass 1 and has the coordinates (2, -1, 0). *)
Lemma coarse_geometry_witness :
  (exists pass tid,
      (0 <= pass < coarse_pass_num 8 16)%Z /\ (0 <= tid < 8)%Z /\
      (pass * 8 + tid)%Z = 14%Z) /\
  (forall pass tid,
      (pass * 8 + tid)%Z = 14%Z ->
      coarse_tile_xyz false 8 projector_4x4 pass tid = (2, -1, 0)%Z).
Proof.
  apply (@coarse_geometry R false 8 16 projector_4x4 14); cbn; lia.
Defined.

(** A call of diff2_fine_2D on one job of one translation targets cell 0
    only: cell 5 keeps its content. *)
Lemma kernel_frame_example :
  a_diff2s (call (K_diff2_fine_2D false) example_args) 5%Z = a_diff2s example_args 5%Z.
Proof.
  apply (proj1 (proj2 (@kernel_frame R R_ops (K_diff2_fine_2D false) example_args))).
  unfold targeted, job_cell. intros (b & i & Hb & Hi & E).
  cbn [example_args a_grid_size a_job_idx a_job_num] in *.
  unfold job_first, job_single in *. lia.
Defined.

End Examples.

(* ================================================================== *)
(** * Double precision: where the identities over the reals hold up to rounding *)

Lemma f64_value_finite f s m e :
  FloatOps.Prim2SF f = SpecFloat.S754_finite s m e ->
  f64_value f
  = (IZR (if s then Z.neg m else Z.pos m)
     * (if (0 <=? e)%Z then IZR (2 ^ e) else / IZR (2 ^ (- e))))%R.
Proof. intros E. unfold f64_value. rewrite E. reflexivity. Qed.

(** Evaluates [f64_value] at the literal [f]. *)
Ltac f64_literal f :=
  let sf := eval vm_compute in (FloatOps.Prim2SF f) in
  match sf with
  | SpecFloat.S754_finite ?s ?m ?e =>
      rewrite (f64_value_finite f s m e eq_refl);
      let b := eval vm_compute in (0 <=? e)%Z in
      change (0 <=? e)%Z with b; cbv iota;
      match b with
      | true => let v := eval vm_compute in (2 ^ e)%Z in change (2 ^ e)%Z with v
      | false => let v := eval vm_compute in (2 ^ (- e))%Z in
                 change (2 ^ (- e))%Z with v
      end
  end.

Section Binary64Values.
Open Scope R_scope.

Lemma f64_value_0 : f64_value 0%float = 0.
Proof. reflexivity. Qed.

Lemma f64_value_1 : f64_value 1%float = 1.
Proof.
  f64_literal 1%float. lra.
Qed.

Lemma f64_value_2 : f64_value 2%float = 2.
Proof.
  f64_literal 2%float. lra.
Qed.

Lemma f64_value_2p27 : f64_value 134217728%float = 134217728.
Proof.
  f64_literal 134217728%float. lra.
Qed.

Lemma f64_value_2p53_2 : f64_value 9007199254740994%float = 9007199254740994.
Proof.
  f64_literal 9007199254740994%float. lra.
Qed.

End Binary64Values.

Section Binary64Examples.
Open Scope R_scope.

(** In binary64 diff2_coarse with the block size 2 sums the four terms
    [2^53, 1, 1, 1] tile by tile: [2^53 + 1] rounds to [2^53], the second
    tile gives [2], and the cell receives [2^53 + 2].  The sum that the
    identity of the zero translation names is [2^53 + 3], which is no
    double. *)
Lemma diff2_coarse_binary64_cell :
  diff2_coarse false false 2 1 1 zeros64 zeros64 zeros64 zeros64
    signal_2p27 zeros64 projector_2x2_zero weights_1222 zeros64 1 4 0%Z
  = 9007199254740994%float.
Proof. vm_compute. reflexivity. Qed.

Lemma diff2_coarse_zero_translation_binary64 :
  f64_value
    (diff2_coarse false false 2 1 1 zeros64 zeros64 zeros64 zeros64
       signal_2p27 zeros64 projector_2x2_zero weights_1222 zeros64 1 4 0%Z)
  <> f64_value (zeros64 0%Z)
     + 1 / 2 * Rsum 0 4
                 (fun p =>
                    let ref_p := coarse_project false false 1 zeros64
                                   projector_2x2_zero 0 0
                                   (coarse_xyz false projector_2x2_zero p) in
                    f64_value (weights_1222 p)
                    * ((f64_value (fst ref_p) - f64_value (signal_2p27 p))
                       * (f64_value (fst ref_p) - f64_value (signal_2p27 p))
                       + (f64_value (snd ref_p) - f64_value (zeros64 p))
                         * (f64_value (snd ref_p) - f64_value (zeros64 p)))).
Proof.
  rewrite diff2_coarse_binary64_cell.
  unfold Rsum. change (zrange 0 4) with [0; 1; 2; 3]%Z. cbn [map fold_right].
  unfold coarse_project.
  repeat match goal with
         | |- context [coarse_xyz false projector_2x2_zero ?p] =>
             let v := eval vm_compute in (coarse_xyz false projector_2x2_zero p) in
             change (coarse_xyz false projector_2x2_zero p) with v
         end.
  cbn [project2Dmodel projector_2x2_zero fst snd].
  unfold zeros64.
  change (signal_2p27 0) with 134217728%float.
  change (signal_2p27 1) with 1%float.
  change (signal_2p27 2) with 1%float.
  change (signal_2p27 3) with 1%float.
  change (weights_1222 0) with 1%float.
  change (weights_1222 1) with 2%float.
  change (weights_1222 2) with 2%float.
  change (weights_1222 3) with 2%float.
  rewrite f64_value_2p53_2, f64_value_0, f64_value_1, f64_value_2, f64_value_2p27.
  lra.
Qed.

(** In binary64 two calls of diff2_fine_2D on the output [2^53], with a
    matching reference and [sum_init = 1], leave [2^53]: each call adds
    [0 + 1], which rounds away.  A call from the zero array gives
    [Delta = 1], so [O + 2 * Delta] is [2^53 + 2]. *)
Lemma kernel_accumulates_binary64 :
  f64_value (a_diff2s (call (K_diff2_fine_2D false)
                         (call (K_diff2_fine_2D false) args_2p53)) 0%Z)
  <> f64_value (a_diff2s args_2p53 0%Z)
     + 2 * f64_value (a_diff2s (call (K_diff2_fine_2D false)
                                  (with_diff2s args_2p53 zeros64)) 0%Z).
Proof.
  assert (E2 : a_diff2s (call (K_diff2_fine_2D false)
                           (call (K_diff2_fine_2D false) args_2p53)) 0%Z
               = 9007199254740992%float) by (vm_compute; reflexivity).
  assert (E0 : a_diff2s (call (K_diff2_fine_2D false)
                           (with_diff2s args_2p53 zeros64)) 0%Z
               = 1%float) by (vm_compute; reflexivity).
  rewrite E2, E0. change (a_diff2s args_2p53 0%Z) with 9007199254740992%float.
  rewrite f64_value_1. f64_literal 9007199254740992%float. lra.
Qed.

(** The 4 x 4 image with cutoff 1, unit signal, unit weights and a reference
    of ones in binary64: 13 pixels are sampled and the cell receives
    [- (13 / sqrt 13)] of binary64.  With a reference of zeros the norm is
    zero and the cell receives [- (0 / sqrt 0)], which is not a number. *)
Lemma cc_coarse_cell_adds_score_example :
  diff2_CC_coarse_2D false 1 zeros64 ones64 zeros64 zeros64 zeros64
    projector_4x4_one ones64 zeros64 1 16 1%float 0%Z
  = PrimFloat.opp (PrimFloat.div 13%float (PrimFloat.sqrt 13%float)) /\
  diff2_CC_coarse_2D false 1 zeros64 ones64 zeros64 zeros64 zeros64
    projector_2x2_zero ones64 zeros64 1 4 1%float 0%Z
  = PrimFloat.nan.
Proof.
  split.
  - pose proof (proj1 (@cc_coarse_cell_adds_score _ binary64_ops false 1%Z zeros64
                         ones64 zeros64 zeros64 zeros64 zeros64 projector_4x4_one
                         ones64 1%Z zeros64 16%Z 1%float 0%Z 0%Z ltac:(lia) ltac:(lia))) as E.
    cbv zeta in E. change (0 * 1 + 0)%Z with 0%Z in E. rewrite E.
    vm_compute. reflexivity.
  - pose proof (proj1 (@cc_coarse_cell_adds_score _ binary64_ops false 1%Z zeros64
                         ones64 zeros64 zeros64 zeros64 zeros64 projector_2x2_zero
                         ones64 1%Z zeros64 4%Z 1%float 0%Z 0%Z ltac:(lia) ltac:(lia))) as E.
    cbv zeta in E. change (0 * 1 + 0)%Z with 0%Z in E. rewrite E.
    vm_compute. reflexivity.
Defined.

End Binary64Examples.

(* ================================================================== *)
(** * Which pixels the row-by-row kernels read *)

Section RowBases.
Context {S : Type}.

Lemma rows_pixel_base (n X : Z) (F : Z -> Z -> S -> S) (s0 : S) :
  snd (for_loop 0 n (fun iy st => (fst st + X, F iy (fst st) (snd st))) (0, s0))
  = for_loop 0 n (fun iy s => F iy (iy * X) s) s0.
Proof.
  destruct (Z_le_gt_dec 0 n) as [Hn|Hn].
  - assert (G : for_loop 0 n (fun iy (st : Z * S) => (fst st + X, F iy (fst st) (snd st)))
                  (0, s0)
                = (n * X, for_loop 0 n (fun iy s => F iy (iy * X) s) s0)).
    { apply (for_loop_ind
               (fun k (st : Z * S) =>
                  st = (k * X, for_loop 0 k (fun iy s => F iy (iy * X) s) s0))
               0 n _ (0, s0) Hn).
      - rewrite for_loop_nil by lia. reflexivity.
      - intros iy st Hiy ->. cbn [fst snd]. rewrite for_loop_snoc by lia.
        f_equal. lia. }
    rewrite G. reflexivity.
  - rewrite !for_loop_nil by lia. reflexivity.
Qed.

Lemma rows3D_pixel_base (nz ny X : Z) (F : Z -> Z -> Z -> S -> S) (s0 : S) :
  snd (for_loop 0 nz
         (fun iz st =>
            for_loop 0 ny (fun iy st => (fst st + X, F iz iy (fst st) (snd st))) st)
         (0, s0))
  = for_loop 0 nz
      (fun iz s => for_loop 0 ny (fun iy s => F iz iy ((iz * ny + iy) * X) s) s) s0.
Proof.
  destruct (Z_le_gt_dec 0 ny) as [Hy|Hy].
  - destruct (Z_le_gt_dec 0 nz) as [Hz|Hz]; [|rewrite !for_loop_nil by lia; reflexivity].
    assert (G : for_loop 0 nz
                  (fun iz (st : Z * S) =>
                     for_loop 0 ny
                       (fun iy st => (fst st + X, F iz iy (fst st) (snd st))) st)
                  (0, s0)
                = (nz * ny * X,
                   for_loop 0 nz
                     (fun iz s =>
                        for_loop 0 ny (fun iy s => F iz iy ((iz * ny + iy) * X) s) s)
                     s0)).
    { apply (for_loop_ind
               (fun k (st : Z * S) =>
                  st = (k * ny * X,
                        for_loop 0 k
                          (fun iz s =>
                             for_loop 0 ny
                               (fun iy s => F iz iy ((iz * ny + iy) * X) s) s)
                          s0))
               0 nz _ (0, s0) Hz).
      - rewrite for_loop_nil by lia. reflexivity.
      - intros iz st Hiz ->. rewrite for_loop_snoc by lia.
        set (a0 := for_loop 0 iz _ s0).
        assert (G : for_loop 0 ny
                      (fun iy (st : Z * S) => (fst st + X, F iz iy (fst st) (snd st)))
                      (iz * ny * X, a0)
                    = ((iz * ny + ny) * X,
                       for_loop 0 ny
                         (fun iy s => F iz iy ((iz * ny + iy) * X) s) a0)).
        { apply (for_loop_ind
                   (fun k (st : Z * S) =>
                      st = ((iz * ny + k) * X,
                            for_loop 0 k
                              (fun iy s => F iz iy ((iz * ny + iy) * X) s) a0))
                   0 ny _ (iz * ny * X, a0) Hy).
          - rewrite for_loop_nil by lia. f_equal. lia.
          - intros iy st' Hiy ->. cbn [fst snd]. rewrite for_loop_snoc by lia.
            f_equal. lia. }
        rewrite G. f_equal. lia. }
    rewrite G. reflexivity.
  - transitivity s0.
    + apply (for_loop_inv (fun st : Z * S => snd st = s0)); [reflexivity|].
      intros iz st _ IH. rewrite for_loop_nil by lia. exact IH.
    + symmetry. apply (for_loop_inv (fun s : S => s = s0)); [reflexivity|].
      intros iz st _ IH. rewrite for_loop_nil by lia. exact IH.
Qed.
End RowBases.

Section SampledPixels.
Context {XFLOAT : Type} {ops : XFloatOps XFLOAT}.
Variable REF3D : bool.
Variables g_eulers g_trans_x g_trans_y g_trans_z : Z -> XFLOAT.
Variable projector : AccProjectorKernel XFLOAT.
Variables d_rot_idx d_trans_idx d_job_idx d_job_num : Z -> Z.

(** X1.  The output of diff2_fine_2D, diff2_CC_coarse_2D and
    diff2_CC_fine_2D depends on the signal and the weights only at the
    sampled pixels [iy * imgX + x], for a row [0 <= iy < imgY] and an [x] of
    the range of the row; these are the pixels that the loops over [x]
    load.  Two inputs that agree on them give the same output array,
    whatever they hold elsewhere (so, in a row of the band, at every
    [x <> maxR]).  For any [XFLOAT] arithmetic. *)
Theorem row_kernels_2D_read_sampled_pixels
    (grid_size : Z) (g_real g_imag g_corr g_real' g_imag' g_corr' g_diff2s : Z -> XFLOAT)
    (image_size : Z) (sum_init exp_local_sqrtXi2 : XFLOAT)
    (orientation_num translation_num num_jobs : Z) :
  (forall p, sampled_2D projector p ->
             g_real p = g_real' p /\ g_imag p = g_imag' p /\ g_corr p = g_corr' p) ->
  diff2_fine_2D REF3D grid_size g_eulers g_real g_imag g_trans_x g_trans_y g_trans_z
    projector g_corr g_diff2s image_size sum_init orientation_num translation_num num_jobs
    d_rot_idx d_trans_idx d_job_idx d_job_num
  = diff2_fine_2D REF3D grid_size g_eulers g_real' g_imag' g_trans_x g_trans_y g_trans_z
      projector g_corr' g_diff2s image_size sum_init orientation_num translation_num
      num_jobs d_rot_idx d_trans_idx d_job_idx d_job_num
  /\
  diff2_CC_coarse_2D REF3D grid_size g_eulers g_real g_imag g_trans_x g_trans_y
    projector g_corr g_diff2s translation_num image_size exp_local_sqrtXi2
  = diff2_CC_coarse_2D REF3D grid_size g_eulers g_real' g_imag' g_trans_x g_trans_y
      projector g_corr' g_diff2s translation_num image_size exp_local_sqrtXi2
  /\
  diff2_CC_fine_2D REF3D grid_size g_eulers g_real g_imag g_trans_x g_trans_y
    projector g_corr g_diff2s image_size sum_init exp_local_sqrtXi2
    orientation_num translation_num num_jobs d_rot_idx d_trans_idx d_job_idx d_job_num
  = diff2_CC_fine_2D REF3D grid_size g_eulers g_real' g_imag' g_trans_x g_trans_y
      projector g_corr' g_diff2s image_size sum_init exp_local_sqrtXi2
      orientation_num translation_num num_jobs d_rot_idx d_trans_idx d_job_idx d_job_num.
Proof.
  intros Hagree.
  assert (A : forall iy y xs xe x,
             0 <= iy < imgY projector ->
             row_rule (maxR projector) (imgY projector) iy 0 (imgX projector) = (y, xs, xe) ->
             xs <= x < xe ->
             g_real (iy * imgX projector + x) = g_real' (iy * imgX projector + x) /\
             g_imag (iy * imgX projector + x) = g_imag' (iy * imgX projector + x) /\
             g_corr (iy * imgX projector + x) = g_corr' (iy * imgX projector + x)).
  { intros iy y xs xe x Hiy E Hx. apply Hagree. exists iy, x.
    rewrite E. repeat split; lia. }
  repeat split.
  - unfold diff2_fine_2D. apply for_loop_ext. intros bid out _.
    unfold fine2D_job. f_equal. unfold fine2D_rows.
    rewrite (rows_pixel_base (imgY projector) (imgX projector)
               (fun iy pixel s =>
                  fine2D_row REF3D g_eulers g_real g_imag g_trans_x g_trans_y projector
                    g_corr d_rot_idx d_trans_idx d_job_idx d_job_num bid iy pixel s)).
    rewrite (rows_pixel_base (imgY projector) (imgX projector)
               (fun iy pixel s =>
                  fine2D_row REF3D g_eulers g_real' g_imag' g_trans_x g_trans_y projector
                    g_corr' d_rot_idx d_trans_idx d_job_idx d_job_num bid iy pixel s)).
    apply for_loop_ext. intros iy s Hiy. unfold fine2D_row.
    apply for_loop_ext. intros itrans s' _. f_equal. f_equal.
    unfold fine2D_row_sum, fine2D_row_range.
    destruct (row_rule (maxR projector) (imgY projector) iy 0 (imgX projector))
      as [[y xs] xe] eqn:E.
    apply for_loop_ext. intros x sum Hx. f_equal.
    destruct (A iy y xs xe x Hiy E Hx) as (Hr & Hi & Hc).
    unfold fine2D_term, fine2D_shifted, fine2D_imgs, fine2D_half_corr.
    rewrite Hr, Hi, Hc. reflexivity.
  - unfold diff2_CC_coarse_2D. apply for_loop_ext. intros iorient out _.
    unfold ccc2D_orient. f_equal. unfold ccc2D_rows.
    rewrite (rows_pixel_base (imgY projector) (imgX projector)
               (fun iy pixel acc =>
                  ccc2D_row REF3D g_eulers g_real g_imag g_trans_x g_trans_y projector
                    g_corr translation_num iorient iy pixel acc)).
    rewrite (rows_pixel_base (imgY projector) (imgX projector)
               (fun iy pixel acc =>
                  ccc2D_row REF3D g_eulers g_real' g_imag' g_trans_x g_trans_y projector
                    g_corr' translation_num iorient iy pixel acc)).
    apply for_loop_ext. intros iy acc Hiy. unfold ccc2D_row, ccc2D_row_range.
    destruct (row_rule (maxR projector) (imgY projector) iy 0 (imgX projector))
      as [[y xs] xe] eqn:E.
    apply for_loop_ext. intros itrans acc' _.
    apply for_loop_ext. intros x a Hx.
    destruct (A iy y xs xe x Hiy E Hx) as (Hr & Hi & Hc).
    unfold ccc2D_weight_term, ccc2D_norm_term, ccc2D_shifted.
    rewrite Hr, Hi, Hc. reflexivity.
  - unfold diff2_CC_fine_2D. apply for_loop_ext. intros bid out _.
    unfold ccf2D_job. f_equal. unfold ccf2D_rows.
    rewrite (rows_pixel_base (imgY projector) (imgX projector)
               (fun iy pixel acc =>
                  ccf2D_row REF3D g_eulers g_real g_imag g_trans_x g_trans_y projector
                    g_corr d_rot_idx d_trans_idx d_job_idx d_job_num bid iy pixel acc)).
    rewrite (rows_pixel_base (imgY projector) (imgX projector)
               (fun iy pixel acc =>
                  ccf2D_row REF3D g_eulers g_real' g_imag' g_trans_x g_trans_y projector
                    g_corr' d_rot_idx d_trans_idx d_job_idx d_job_num bid iy pixel acc)).
    apply for_loop_ext. intros iy acc Hiy. unfold ccf2D_row, ccf2D_row_range.
    destruct (row_rule (maxR projector) (imgY projector) iy 0 (imgX projector))
      as [[y xs] xe] eqn:E.
    apply for_loop_ext. intros itrans acc' _.
    apply for_loop_ext. intros x a Hx.
    destruct (A iy y xs xe x Hiy E Hx) as (Hr & Hi & Hc).
    unfold ccf2D_s_term, ccf2D_cc_term, ccf2D_shifted.
    rewrite Hr, Hi, Hc. reflexivity.
Qed.

(** X2.  The output of diff2_fine_3D and diff2_CC_coarse_3D depends on the
    signal and the weights only at the sampled pixels
    [(iz * imgY + iy) * imgX + x] of the volume, for a row [(iz, iy)] and an
    [x] of the range of the row: two inputs that agree on these pixels give
    the same output array.  For any [XFLOAT] arithmetic. *)
Theorem row_kernels_3D_read_sampled_pixels
    (grid_size : Z) (g_real g_imag g_corr g_real' g_imag' g_corr' g_diff2s : Z -> XFLOAT)
    (image_size : Z) (sum_init exp_local_sqrtXi2 : XFLOAT)
    (orientation_num translation_num num_jobs : Z) :
  (forall p, sampled_3D projector p ->
             g_real p = g_real' p /\ g_imag p = g_imag' p /\ g_corr p = g_corr' p) ->
  diff2_fine_3D grid_size g_eulers g_real g_imag g_trans_x g_trans_y g_trans_z
    projector g_corr g_diff2s image_size sum_init orientation_num translation_num num_jobs
    d_rot_idx d_trans_idx d_job_idx d_job_num
  = diff2_fine_3D grid_size g_eulers g_real' g_imag' g_trans_x g_trans_y g_trans_z
      projector g_corr' g_diff2s image_size sum_init orientation_num translation_num
      num_jobs d_rot_idx d_trans_idx d_job_idx d_job_num
  /\
  diff2_CC_coarse_3D grid_size g_eulers g_real g_imag g_trans_x g_trans_y g_trans_z
    projector g_corr g_diff2s translation_num image_size exp_local_sqrtXi2
  = diff2_CC_coarse_3D grid_size g_eulers g_real' g_imag' g_trans_x g_trans_y g_trans_z
      projector g_corr' g_diff2s translation_num image_size exp_local_sqrtXi2.
Proof.
  intros Hagree.
  assert (A : forall iz iy z xsz xez y xs xe x,
             0 <= iz < imgZ projector -> 0 <= iy < imgY projector ->
             row_rule (maxR projector) (imgZ projector) iz 0 (imgX projector)
             = (z, xsz, xez) ->
             row_rule (maxR projector) (imgY projector) iy xsz xez = (y, xs, xe) ->
             xs <= x < xe ->
             let p := (iz * imgY projector + iy) * imgX projector + x in
             g_real p = g_real' p /\ g_imag p = g_imag' p /\ g_corr p = g_corr' p).
  { intros iz iy z xsz xez y xs xe x Hiz Hiy Ez Ey Hx. cbv zeta. apply Hagree.
    exists iz, iy, x. rewrite Ez, Ey. repeat split; lia. }
  split.
  - unfold diff2_fine_3D. apply for_loop_ext. intros bid out _.
    unfold fine3D_job. f_equal. unfold fine3D_rows.
    rewrite (rows3D_pixel_base (imgZ projector) (imgY projector) (imgX projector)
               (fun iz iy pixel s =>
                  fine3D_row g_eulers g_real g_imag g_trans_x g_trans_y g_trans_z projector
                    g_corr d_rot_idx d_trans_idx d_job_idx d_job_num bid iz iy pixel s)).
    rewrite (rows3D_pixel_base (imgZ projector) (imgY projector) (imgX projector)
               (fun iz iy pixel s =>
                  fine3D_row g_eulers g_real' g_imag' g_trans_x g_trans_y g_trans_z projector
                    g_corr' d_rot_idx d_trans_idx d_job_idx d_job_num bid iz iy pixel s)).
    apply for_loop_ext. intros iz s Hiz.
    apply for_loop_ext. intros iy s0 Hiy. unfold fine3D_row.
    apply for_loop_ext. intros itrans s' _. f_equal. f_equal.
    unfold fine3D_row_sum, fine3D_row_range.
    destruct (row_rule (maxR projector) (imgZ projector) iz 0 (imgX projector))
      as [[z xsz] xez] eqn:Ez.
    destruct (row_rule (maxR projector) (imgY projector) iy xsz xez)
      as [[y xs] xe] eqn:Ey.
    apply for_loop_ext. intros x sum Hx. f_equal.
    destruct (A iz iy z xsz xez y xs xe x Hiz Hiy Ez Ey Hx) as (Hr & Hi & Hc).
    unfold fine3D_term, fine3D_shifted, fine3D_imgs, fine3D_half_corr.
    rewrite Hr, Hi, Hc. reflexivity.
  - unfold diff2_CC_coarse_3D. apply for_loop_ext. intros iorient out _.
    unfold ccc3D_orient. f_equal. unfold ccc3D_rows.
    rewrite (rows3D_pixel_base (imgZ projector) (imgY projector) (imgX projector)
               (fun iz iy pixel acc =>
                  ccc3D_row g_eulers g_real g_imag g_trans_x g_trans_y g_trans_z projector
                    g_corr translation_num iorient iz iy pixel acc)).
    rewrite (rows3D_pixel_base (imgZ projector) (imgY projector) (imgX projector)
               (fun iz iy pixel acc =>
                  ccc3D_row g_eulers g_real' g_imag' g_trans_x g_trans_y g_trans_z projector
                    g_corr' translation_num iorient iz iy pixel acc)).
    apply for_loop_ext. intros iz s Hiz.
    apply for_loop_ext. intros iy s0 Hiy. unfold ccc3D_row, ccc3D_row_range.
    destruct (row_rule (maxR projector) (imgZ projector) iz 0 (imgX projector))
      as [[z xsz] xez] eqn:Ez.
    destruct (row_rule (maxR projector) (imgY projector) iy xsz xez)
      as [[y xs] xe] eqn:Ey.
    apply for_loop_ext. intros itrans acc' _.
    apply for_loop_ext. intros x a Hx.
    destruct (A iz iy z xsz xez y xs xe x Hiz Hiy Ez Ey Hx) as (Hr & Hi & Hc).
    unfold ccc3D_weight_term, ccc3D_norm_term, ccc3D_shifted.
    rewrite Hr, Hi, Hc. reflexivity.
Qed.

End SampledPixels.

(* ================================================================== *)
(** * Which pixels diff2_coarse reads *)

Section CoarseWindow.
Context {XFLOAT : Type} {ops : XFloatOps XFLOAT}.
Variables (REF3D DATA3D : bool) (block_sz eulers_per_block grid_size : Z).
Variables g_eulers trans_x trans_y trans_z : Z -> XFLOAT.
Variable projector : AccProjectorKernel XFLOAT.
Variables translation_num image_size : Z.

(** X3.  The output of diff2_coarse depends on [g_real], [g_imag] and
    [g_corr] only at the indices [0 <= p < image_size]: the loads of lines
    112-114 stand under the guard [pixel < image_size] of line 95, which
    keeps the last, partial tile from reading behind the image.  Two inputs
    that agree below [image_size] give the same output array, for every
    block size and any [XFLOAT] arithmetic. *)
Theorem diff2_coarse_reads_below_image_size
    (g_real g_imag g_corr g_real' g_imag' g_corr' g_diff2s : Z -> XFLOAT) :
  (forall p, 0 <= p < image_size ->
             g_real p = g_real' p /\ g_imag p = g_imag' p /\ g_corr p = g_corr' p) ->
  diff2_coarse REF3D DATA3D block_sz eulers_per_block grid_size g_eulers
    trans_x trans_y trans_z g_real g_imag projector g_corr g_diff2s
    translation_num image_size
  = diff2_coarse REF3D DATA3D block_sz eulers_per_block grid_size g_eulers
      trans_x trans_y trans_z g_real' g_imag' projector g_corr' g_diff2s
      translation_num image_size.
Proof.
  intros Hagree. unfold diff2_coarse. apply for_loop_ext. intros block out _.
  unfold coarse_block. f_equal. unfold coarse_diff2s.
  apply for_loop_ext. intros pass d Hpass.
  apply for_loop_ext. intros i d' _. cbv zeta.
  assert (E : coarse_diffi REF3D DATA3D block_sz eulers_per_block g_eulers
                trans_x trans_y trans_z g_real g_imag projector g_corr image_size
                block pass i
              = coarse_diffi REF3D DATA3D block_sz eulers_per_block g_eulers
                  trans_x trans_y trans_z g_real' g_imag' projector g_corr' image_size
                  block pass i).
  { unfold coarse_diffi. apply for_loop_ext. intros tid a Htid.
    destruct (Z.ltb_spec (pass * block_sz + tid) image_size) as [Hlt|]; [|reflexivity].
    apply for_loop_ext. intros j a' _. f_equal. f_equal.
    assert (Hp : 0 <= pass * block_sz + tid < image_size) by nia.
    destruct (Hagree _ Hp) as (Hr & Hi & Hc).
    unfold coarse_term, coarse_shifted, coarse_s_real, coarse_s_imag, coarse_s_corr.
    rewrite Hr, Hi, Hc. reflexivity. }
  rewrite E. reflexivity.
Qed.

End CoarseWindow.

(* ================================================================== *)
(** * Bounds of the indices and coordinates *)

Section AccessBounds.
Context {XFLOAT : Type}.
Variable projector : AccProjectorKernel XFLOAT.

(** X4.  When [0 <= maxR < imgX], every row of a row-by-row kernel (the six
    of them use one row rule) has a non-empty x range inside [0, imgX), so
    that the scratch arrays of [xSize] entries are indexed in bounds; its
    signed coordinates lie strictly between [- imgY] and [imgY] (and
    [- imgZ] and [imgZ]), so that the table look-ups at [|y|] and [|z|] are
    in bounds; and the pixel index [iy * imgX + x] (in a volume
    [(iz * imgY + iy) * imgX + x]) lies inside the image. *)
Theorem row_accesses_in_bounds (iz iy : Z) :
  0 <= maxR projector < imgX projector ->
  (0 <= iy < imgY projector ->
   ccc2D_row_range projector iy = fine2D_row_range projector iy /\
   ccf2D_row_range projector iy = fine2D_row_range projector iy /\
   let '(y, xstart, xend) := fine2D_row_range projector iy in
   0 <= xstart < xend /\ xend <= imgX projector /\
   - imgY projector < y < imgY projector /\
   forall x, xstart <= x < xend ->
             0 <= iy * imgX projector + x < imgY projector * imgX projector) /\
  (0 <= iz < imgZ projector -> 0 <= iy < imgY projector ->
   ccc3D_row_range projector iz iy = fine3D_row_range projector iz iy /\
   ccf3D_row_range projector iz iy = fine3D_row_range projector iz iy /\
   let '(z, y, xstart_y, xend_y) := fine3D_row_range projector iz iy in
   0 <= xstart_y < xend_y /\ xend_y <= imgX projector /\
   - imgZ projector < z < imgZ projector /\
   - imgY projector < y < imgY projector /\
   forall x, xstart_y <= x < xend_y ->
             0 <= (iz * imgY projector + iy) * imgX projector + x
             < imgZ projector * imgY projector * imgX projector).
Proof.
  intros Hm. split.
  - intros Hiy. split; [reflexivity|]. split; [reflexivity|].
    unfold fine2D_row_range, row_rule.
    destruct (Z.gtb_spec iy (maxR projector));
      [destruct (Z.geb_spec iy (imgY projector - maxR projector))|];
      (repeat match goal with |- _ /\ _ => split end; try lia; intros x Hx; nia).
  - intros Hiz Hiy. split; [reflexivity|]. split; [reflexivity|].
    assert (Hrow : 0 <= iz * imgY projector + iy < imgZ projector * imgY projector)
      by nia.
    assert (Hpix : forall x, 0 <= x < imgX projector ->
                     0 <= (iz * imgY projector + iy) * imgX projector + x
                     < imgZ projector * imgY projector * imgX projector).
    { intros x Hx. revert Hrow.
      generalize (iz * imgY projector + iy), (imgZ projector * imgY projector).
      intros a b Hab. nia. }
    unfold fine3D_row_range, row_rule.
    destruct (Z.gtb_spec iz (maxR projector));
      [destruct (Z.geb_spec iz (imgZ projector - maxR projector))|];
      (destruct (Z.gtb_spec iy (maxR projector));
       [destruct (Z.geb_spec iy (imgY projector - maxR projector))|]);
      (repeat match goal with |- _ /\ _ => split end; try lia;
       intros x Hx; apply Hpix; lia).
Qed.

(** X5.  For positive [imgX] and [imgY], [0 <= maxR] and a pixel [p] of the
    image ([p < imgX * imgY] for 2D data, [p < imgX * imgY * imgZ] for 3D
    data), the coordinates that diff2_coarse stores satisfy
    [0 <= x < imgX], so that the sign fold on [x] (lines 219-222) is never
    taken, [- imgY < y < imgY] and [- imgZ < z < imgZ] ([z = 0] for 2D
    data): the table look-ups at [|x|], [|y|] and [|z|] are within the
    extents of the tables. *)
Theorem coarse_coordinates_in_bounds (DATA3D : bool) (p : Z) :
  0 < imgX projector -> 0 < imgY projector -> 0 <= maxR projector ->
  0 <= p < imgX projector * imgY projector * (if DATA3D then imgZ projector else 1) ->
  let '(x, y, z) := coarse_xyz DATA3D projector p in
  0 <= x < imgX projector /\
  - imgY projector < y < imgY projector /\
  (if DATA3D then - imgZ projector < z < imgZ projector else z = 0).
Proof.
  intros HX HY Hm Hp. unfold coarse_xyz. cbv zeta.
  set (X := imgX projector) in *. set (Y := imgY projector) in *.
  set (Zs := imgZ projector) in *. set (m := maxR projector) in *.
  assert (HXY : 0 < X * Y) by nia.
  destruct DATA3D.
  - rewrite (Z.quot_div_nonneg p) by lia. rewrite (Z.rem_mod_nonneg p) by lia.
    pose proof (Z.mod_pos_bound p (X * Y) HXY) as Hxy.
    rewrite (Z.rem_mod_nonneg (p mod (X * Y))) by lia.
    rewrite (Z.quot_div_nonneg (p mod (X * Y))) by lia.
    pose proof (Z.mod_pos_bound (p mod (X * Y)) X HX) as Hx.
    assert (Hy : 0 <= p mod (X * Y) / X < Y).
    { split; [apply Z.div_pos; lia|]. apply Z.div_lt_upper_bound; lia. }
    assert (Hz : 0 <= p / (X * Y) < Zs).
    { split; [apply Z.div_pos; lia|]. apply Z.div_lt_upper_bound; nia. }
    destruct (Z.gtb_spec (p mod (X * Y) / X) m), (Z.gtb_spec (p / (X * Y)) m);
      repeat match goal with |- _ /\ _ => split end; lia.
  - rewrite (Z.quot_div_nonneg p) by lia. rewrite (Z.rem_mod_nonneg p) by lia.
    pose proof (Z.mod_pos_bound p X HX) as Hx.
    assert (Hy : 0 <= p / X < Y).
    { split; [apply Z.div_pos; lia|]. apply Z.div_lt_upper_bound; nia. }
    destruct (Z.gtb_spec (p / X) m); repeat match goal with |- _ /\ _ => split end; lia.
Qed.

End AccessBounds.

(* ================================================================== *)
(** * The value of a cell of diff2_coarse *)

Section CoarseValue.
Open Scope R_scope.
Variables (REF3D DATA3D : bool) (block_sz eulers_per_block grid_size : Z).
Variables g_eulers trans_x trans_y trans_z g_real g_imag : Z -> R.
Variable projector : AccProjectorKernel R.
Variable g_corr : Z -> R.
Variables translation_num image_size : Z.

Lemma coarse_shifted_phase pass i tid :
  coarse_shifted DATA3D block_sz trans_x trans_y trans_z g_real g_imag projector
    pass i tid
  = times_phase
      (coarse_theta DATA3D projector (trans_x i) (trans_y i) (trans_z i)
         (coarse_xyz DATA3D projector (pass * block_sz + tid)))
      (g_real (pass * block_sz + tid)%Z) (g_imag (pass * block_sz + tid)%Z).
Proof.
  unfold coarse_shifted, coarse_s_real, coarse_s_imag, coarse_tile_xyz, coarse_theta.
  cbv zeta.
  destruct (coarse_xyz DATA3D projector (pass * block_sz + tid)) as [[xc yc] zc].
  destruct DATA3D.
  - pose proof (shift3D_R (trans_x i) (trans_y i) (trans_z i)
                  (imgX projector) (imgY projector) (imgZ projector) xc yc zc
                  (g_real (pass * block_sz + tid)%Z) (g_imag (pass * block_sz + tid)%Z))
      as E.
    rewrite !lookup_signed_R in E. rewrite !lookup_signed_R. exact E.
  - rewrite (lookup_signed_R (trans_x i)). apply shift2D_R.
Qed.

Let pixel_diff2 (block j i p : Z) : R :=
  coarse_pixel_diff2 REF3D DATA3D eulers_per_block g_eulers g_real g_imag projector
    g_corr block j (trans_x i) (trans_y i) (trans_z i) p.

Lemma coarse_term_phase block pass i tid j :
  coarse_term REF3D DATA3D block_sz eulers_per_block g_eulers trans_x trans_y trans_z
    g_real g_imag projector g_corr block pass i tid j
  = pixel_diff2 block j i (pass * block_sz + tid)%Z.
Proof.
  unfold coarse_term. rewrite coarse_shifted_phase.
  subst pixel_diff2. unfold coarse_pixel_diff2. cbv beta zeta.
  unfold coarse_s_ref, coarse_tile_xyz, coarse_s_corr, dist2.
  destruct (times_phase _ _ _) as [sr si].
  destruct (coarse_project REF3D DATA3D eulers_per_block g_eulers projector block j
              (coarse_xyz DATA3D projector (pass * block_sz + tid))) as [rr ri].
  cbn [fst snd xf_add xf_sub xf_mul xf_half R_ops]. lra.
Qed.

Lemma coarse_diff2s_Rsum block i j :
  (0 < block_sz)%Z -> (0 <= image_size)%Z ->
  (0 <= i < translation_num)%Z -> (0 <= j < eulers_per_block)%Z ->
  coarse_diff2s REF3D DATA3D block_sz eulers_per_block g_eulers trans_x trans_y trans_z
    g_real g_imag projector g_corr translation_num image_size block i j
  = Rsum 0 image_size (pixel_diff2 block j i).
Proof.
  intros Hbs Hn Hi Hj.
  destruct (coarse_pass_num_covers block_sz image_size Hbs Hn) as [Hpn Hcov].
  rewrite coarse_diff2s_at by assumption. cbn [xf_add xf_zero R_ops].
  rewrite for_loop_Rsum, Rplus_0_l.
  pose (G := fun p : Z => if (p <? image_size)%Z then pixel_diff2 block j i p else 0).
  rewrite (Rsum_ext _ _ _
             (fun pass => Rsum 0 block_sz (fun tid => G (pass * block_sz + tid)%Z))).
  - rewrite (Rsum_tiles block_sz G (coarse_pass_num block_sz image_size)) by lia.
    rewrite (Rsum_split 0 image_size) by lia.
    rewrite (Rsum_ext image_size _ G (fun _ => 0)), Rsum_zero.
    + rewrite Rplus_0_r. apply Rsum_ext.
      intros p Hp. subst G. cbv beta.
      destruct (Z.ltb_spec p image_size); [reflexivity|lia].
    + intros p Hp. subst G. cbv beta.
      destruct (Z.ltb_spec p image_size); [lia|reflexivity].
  - intros pass Hpass. rewrite coarse_diffi_at by assumption. cbn [xf_add xf_zero R_ops].
    rewrite (for_loop_ext 0 block_sz _
               (fun tid acc => acc + G (pass * block_sz + tid)%Z)).
    + rewrite for_loop_Rsum, Rplus_0_l. reflexivity.
    + intros tid st _. subst G. cbv beta.
      destruct (pass * block_sz + tid <? image_size)%Z; [|lra].
      rewrite coarse_term_phase. reflexivity.
Qed.

(** X6.  Over the reals and for arbitrary translations, the call of
    diff2_coarse adds to the cell of orientation [j] of block [block] and
    translation [i] the sum over all pixels [p < image_size] of
    [corr[p] * 0.5 * |ref_p - e^(i theta_p) sig_p|^2], where [theta_p] is
    the phase of the translation at the coordinates of [p]. *)
Theorem diff2_coarse_cell_value (out : Z -> R) (block j i : Z) :
  (0 < block_sz)%Z -> (0 <= image_size)%Z ->
  (0 <= block < grid_size)%Z -> (0 <= j < eulers_per_block)%Z ->
  (0 <= i < translation_num)%Z ->
  diff2_coarse REF3D DATA3D block_sz eulers_per_block grid_size g_eulers
    trans_x trans_y trans_z g_real g_imag projector g_corr out translation_num image_size
    (block * eulers_per_block * translation_num + (j * translation_num + i))%Z
  = out (block * eulers_per_block * translation_num + (j * translation_num + i))%Z
    + Rsum 0 image_size
        (coarse_pixel_diff2 REF3D DATA3D eulers_per_block g_eulers g_real g_imag
           projector g_corr block j (trans_x i) (trans_y i) (trans_z i)).
Proof.
  intros Hbs Hn Hb Hj Hi.
  rewrite diff2_coarse_cell by assumption. cbn [xf_add R_ops]. f_equal.
  apply coarse_diff2s_Rsum; assumption.
Qed.

End CoarseValue.

(* ================================================================== *)
(** * The sums of diff2_fine_2D and diff2_fine_3D *)

Section FineRows.
Context {XFLOAT : Type} {ops : XFloatOps XFLOAT}.
Variable REF3D : bool.
Variables g_eulers g_real g_imag g_trans_x g_trans_y g_trans_z : Z -> XFLOAT.
Variable projector : AccProjectorKernel XFLOAT.
Variable g_corr : Z -> XFLOAT.
Variables d_rot_idx d_trans_idx d_job_idx d_job_num : Z -> Z.

Lemma fine2D_rows_at bid it0 :
  0 <= it0 < d_job_num bid ->
  snd (fine2D_rows REF3D g_eulers g_real g_imag g_trans_x g_trans_y projector g_corr
         d_rot_idx d_trans_idx d_job_idx d_job_num bid) it0
  = for_loop 0 (imgY projector)
      (fun iy a =>
         a [+] fine2D_row_sum REF3D g_eulers g_real g_imag g_trans_x g_trans_y projector
                 g_corr d_rot_idx d_trans_idx d_job_idx bid iy (iy * imgX projector) it0)
      xf_zero.
Proof.
  intros Hit. unfold fine2D_rows.
  rewrite (rows_pixel_base (imgY projector) (imgX projector)
             (fun iy pixel s =>
                fine2D_row REF3D g_eulers g_real g_imag g_trans_x g_trans_y projector
                  g_corr d_rot_idx d_trans_idx d_job_idx d_job_num bid iy pixel s)).
  apply (for_loop_fold (fun s : Z -> XFLOAT => s it0)).
  intros iy s _. unfold fine2D_row. rewrite for_loop_upd_at.
  destruct (Z.leb_spec 0 it0), (Z.ltb_spec it0 (d_job_num bid)); cbn; try reflexivity; lia.
Qed.

Lemma fine3D_rows_at bid it0 :
  0 <= it0 < d_job_num bid ->
  snd (fine3D_rows g_eulers g_real g_imag g_trans_x g_trans_y g_trans_z projector g_corr
         d_rot_idx d_trans_idx d_job_idx d_job_num bid) it0
  = for_loop 0 (imgZ projector)
      (fun iz a =>
         for_loop 0 (imgY projector)
           (fun iy a =>
              a [+] fine3D_row_sum g_eulers g_real g_imag g_trans_x g_trans_y g_trans_z
                      projector g_corr d_rot_idx d_trans_idx d_job_idx bid iz iy
                      ((iz * imgY projector + iy) * imgX projector) it0)
           a)
      xf_zero.
Proof.
  intros Hit. unfold fine3D_rows.
  rewrite (rows3D_pixel_base (imgZ projector) (imgY projector) (imgX projector)
             (fun iz iy pixel s =>
                fine3D_row g_eulers g_real g_imag g_trans_x g_trans_y g_trans_z projector
                  g_corr d_rot_idx d_trans_idx d_job_idx d_job_num bid iz iy pixel s)).
  apply (for_loop_fold (fun s : Z -> XFLOAT => s it0)).
  intros iz s _.
  apply (for_loop_fold (fun s : Z -> XFLOAT => s it0)).
  intros iy s' _. unfold fine3D_row. rewrite for_loop_upd_at.
  destruct (Z.leb_spec 0 it0), (Z.ltb_spec it0 (d_job_num bid)); cbn; try reflexivity; lia.
Qed.

End FineRows.

Section FineValue.
Open Scope R_scope.
Variable REF3D : bool.
Variables g_eulers g_real g_imag g_trans_x g_trans_y g_trans_z : Z -> R.
Variable projector : AccProjectorKernel R.
Variable g_corr : Z -> R.
Variables d_rot_idx d_trans_idx d_job_idx d_job_num : Z -> Z.

Lemma fine2D_rows_sampled bid it :
  (0 <= it < d_job_num bid)%Z ->
  snd (fine2D_rows REF3D g_eulers g_real g_imag g_trans_x g_trans_y projector g_corr
         d_rot_idx d_trans_idx d_job_idx d_job_num bid) it
  = sampled_sum_2D projector
      (fun y pixel x =>
         fine2D_term REF3D g_eulers g_real g_imag g_trans_x g_trans_y projector g_corr
           d_rot_idx d_trans_idx d_job_idx bid y pixel it x).
Proof.
  intros Hit. rewrite fine2D_rows_at by exact Hit. cbn [xf_add xf_zero R_ops].
  rewrite for_loop_Rsum, Rplus_0_l. unfold sampled_sum_2D.
  apply Rsum_ext. intros iy _. unfold fine2D_row_sum, fine2D_row_range.
  destruct (row_rule (maxR projector) (imgY projector) iy 0 (imgX projector))
    as [[y xs] xe].
  cbn [xf_add xf_zero R_ops]. rewrite for_loop_Rsum, Rplus_0_l. reflexivity.
Qed.

Lemma fine3D_rows_sampled bid it :
  (0 <= it < d_job_num bid)%Z ->
  snd (fine3D_rows g_eulers g_real g_imag g_trans_x g_trans_y g_trans_z projector g_corr
         d_rot_idx d_trans_idx d_job_idx d_job_num bid) it
  = sampled_sum_3D projector
      (fun z y pixel x =>
         fine3D_term g_eulers g_real g_imag g_trans_x g_trans_y g_trans_z projector g_corr
           d_rot_idx d_trans_idx d_job_idx bid z y pixel it x).
Proof.
  intros Hit. rewrite fine3D_rows_at by exact Hit. cbn [xf_add xf_zero R_ops].
  set (rs := fine3D_row_sum g_eulers g_real g_imag g_trans_x g_trans_y g_trans_z
               projector g_corr d_rot_idx d_trans_idx d_job_idx bid).
  assert (G : forall n a,
             for_loop 0 n
               (fun iz a =>
                  for_loop 0 (imgY projector)
                    (fun iy a =>
                       a + rs iz iy ((iz * imgY projector + iy) * imgX projector)%Z it)
                    a)
               a
             = for_loop 0 n
                 (fun iz a =>
                    a + Rsum 0 (imgY projector)
                          (fun iy =>
                             rs iz iy ((iz * imgY projector + iy) * imgX projector)%Z it))
                 a).
  { intros n a. apply for_loop_ext. intros iz a' _.
    apply (for_loop_Rsum 0 (imgY projector)
             (fun iy => rs iz iy ((iz * imgY projector + iy) * imgX projector)%Z it)). }
  rewrite G. rewrite for_loop_Rsum, Rplus_0_l. unfold sampled_sum_3D.
  apply Rsum_ext. intros iz _. apply Rsum_ext. intros iy _.
  subst rs. unfold fine3D_row_sum, fine3D_row_range.
  destruct (row_rule (maxR projector) (imgZ projector) iz 0 (imgX projector))
    as [[z xsz] xez].
  destruct (row_rule (maxR projector) (imgY projector) iy xsz xez) as [[y xs] xe].
  cbn [xf_add xf_zero R_ops]. rewrite for_loop_Rsum, Rplus_0_l. reflexivity.
Qed.

Lemma times_phase_scale theta h a b :
  times_phase theta (a * h) (b * h)
  = (fst (times_phase theta a b) * h, snd (times_phase theta a b) * h).
Proof. unfold times_phase. cbn [fst snd]. f_equal; ring. Qed.

Lemma fine2D_term_value bid y pixel it x :
  0 <= g_corr (pixel + x)%Z ->
  fine2D_term REF3D g_eulers g_real g_imag g_trans_x g_trans_y projector g_corr
    d_rot_idx d_trans_idx d_job_idx bid y pixel it x
  = g_corr (pixel + x)%Z * (1 / 2)
    * dist2 (fine2D_project REF3D g_eulers projector d_rot_idx d_job_idx bid y x)
        (times_phase
           (theta2D (g_trans_x (d_trans_idx (d_job_idx bid) + it)%Z)
              (g_trans_y (d_trans_idx (d_job_idx bid) + it)%Z)
              (imgX projector) (imgY projector) x y)
           (g_real (pixel + x)%Z) (g_imag (pixel + x)%Z)).
Proof.
  intros Hc. unfold fine2D_term.
  assert (E : fine2D_shifted g_real g_imag g_trans_x g_trans_y projector g_corr
                d_trans_idx d_job_idx bid y pixel it x
              = times_phase
                  (theta2D (g_trans_x (d_trans_idx (d_job_idx bid) + it)%Z)
                     (g_trans_y (d_trans_idx (d_job_idx bid) + it)%Z)
                     (imgX projector) (imgY projector) x y)
                  (g_real (pixel + x)%Z * fine2D_half_corr g_corr pixel x)
                  (g_imag (pixel + x)%Z * fine2D_half_corr g_corr pixel x)).
  { unfold fine2D_shifted, fine2D_imgs, fine2D_trans_x, fine2D_trans_y.
    etransitivity; [|apply shift2D_R]. reflexivity. }
  rewrite E, times_phase_scale.
  destruct (times_phase _ (g_real (pixel + x)%Z) (g_imag (pixel + x)%Z)) as [sr si].
  destruct (fine2D_project REF3D g_eulers projector d_rot_idx d_job_idx bid y x)
    as [rr ri].
  unfold dist2. cbn [fst snd xf_add xf_sub xf_mul R_ops].
  assert (Hh : fine2D_half_corr g_corr pixel x * fine2D_half_corr g_corr pixel x
               = g_corr (pixel + x)%Z * (1 / 2)).
  { unfold fine2D_half_corr. cbn [xf_sqrt xf_mul xf_half R_ops].
    apply sqrt_sqrt. lra. }
  generalize dependent (fine2D_half_corr g_corr pixel x). intros h _ Hh.
  rewrite <- Hh. ring.
Qed.

Lemma fine3D_term_value bid z y pixel it x :
  0 <= g_corr (pixel + x)%Z ->
  fine3D_term g_eulers g_real g_imag g_trans_x g_trans_y g_trans_z projector g_corr
    d_rot_idx d_trans_idx d_job_idx bid z y pixel it x
  = g_corr (pixel + x)%Z * (1 / 2)
    * dist2 (fine3D_project g_eulers projector d_rot_idx d_job_idx bid z y x)
        (times_phase
           (theta3D (g_trans_x (d_trans_idx (d_job_idx bid) + it)%Z)
              (g_trans_y (d_trans_idx (d_job_idx bid) + it)%Z)
              (g_trans_z (d_trans_idx (d_job_idx bid) + it)%Z)
              (imgX projector) (imgY projector) (imgZ projector) x y z)
           (g_real (pixel + x)%Z) (g_imag (pixel + x)%Z)).
Proof.
  intros Hc. unfold fine3D_term.
  assert (E : fine3D_shifted g_real g_imag g_trans_x g_trans_y g_trans_z projector g_corr
                d_trans_idx d_job_idx bid z y pixel it x
              = times_phase
                  (theta3D (g_trans_x (d_trans_idx (d_job_idx bid) + it)%Z)
                     (g_trans_y (d_trans_idx (d_job_idx bid) + it)%Z)
                     (g_trans_z (d_trans_idx (d_job_idx bid) + it)%Z)
                     (imgX projector) (imgY projector) (imgZ projector) x y z)
                  (g_real (pixel + x)%Z * fine3D_half_corr g_corr pixel x)
                  (g_imag (pixel + x)%Z * fine3D_half_corr g_corr pixel x)).
  { unfold fine3D_shifted, fine3D_imgs, fine3D_trans_x, fine3D_trans_y, fine3D_trans_z.
    etransitivity; [|apply shift3D_R]. reflexivity. }
  rewrite E, times_phase_scale.
  destruct (times_phase _ (g_real (pixel + x)%Z) (g_imag (pixel + x)%Z)) as [sr si].
  destruct (fine3D_project g_eulers projector d_rot_idx d_job_idx bid z y x)
    as [rr ri].
  unfold dist2. cbn [fst snd xf_add xf_sub xf_mul R_ops].
  assert (Hh : fine3D_half_corr g_corr pixel x * fine3D_half_corr g_corr pixel x
               = g_corr (pixel + x)%Z * (1 / 2)).
  { unfold fine3D_half_corr. cbn [xf_sqrt xf_mul xf_half R_ops].
    apply sqrt_sqrt. lra. }
  generalize dependent (fine3D_half_corr g_corr pixel x). intros h _ Hh.
  rewrite <- Hh. ring.
Qed.

End FineValue.

(* ================================================================== *)
(** * The scores of the diff2 kernels *)

Section SumFacts.
Open Scope R_scope.

Lemma Rsum_nonneg lo hi f :
  (forall k, (lo <= k < hi)%Z -> 0 <= f k) -> 0 <= Rsum lo hi f.
Proof.
  intros H. destruct (Z_le_gt_dec lo hi) as [Hle|Hgt].
  - revert hi Hle H.
    apply (range_ind
             (fun hi => (forall k, (lo <= k < hi)%Z -> 0 <= f k) -> 0 <= Rsum lo hi f)).
    + intros _. rewrite Rsum_nil by lia. lra.
    + intros i Hi IH H. rewrite Rsum_snoc by lia.
      pose proof (IH ltac:(intros k Hk; apply H; lia)).
      pose proof (H i ltac:(lia)). lra.
  - rewrite Rsum_nil by lia. lra.
Qed.

Lemma added_nonneg (ws : list (Z * R)) (c : Z) :
  (forall w, In w ws -> 0 <= snd w) -> 0 <= added ws c.
Proof.
  induction ws as [|w ws IH]; intros H; cbn [added]; [lra|].
  pose proof (H w ltac:(left; reflexivity)).
  pose proof (IH ltac:(intros w' Hw'; apply H; right; exact Hw')).
  destruct (c =? fst w)%Z; lra.
Qed.

Lemma dist2_nonneg a b : 0 <= dist2 a b.
Proof.
  unfold dist2.
  pose proof (Rle_0_sqr (fst a - fst b)) as H1.
  pose proof (Rle_0_sqr (snd a - snd b)) as H2.
  unfold Rsqr in H1, H2. lra.
Qed.

Lemma sampled_sum_2D_nonneg (projector : AccProjectorKernel R) f :
  (forall y pixel x, 0 <= f y pixel x) -> 0 <= sampled_sum_2D projector f.
Proof.
  intros H. unfold sampled_sum_2D. apply Rsum_nonneg. intros iy _.
  destruct (row_rule _ _ _ _ _) as [[y xs] xe]. apply Rsum_nonneg. intros x _. apply H.
Qed.

Lemma sampled_sum_3D_nonneg (projector : AccProjectorKernel R) f :
  (forall z y pixel x, 0 <= f z y pixel x) -> 0 <= sampled_sum_3D projector f.
Proof.
  intros H. unfold sampled_sum_3D. apply Rsum_nonneg. intros iz _.
  apply Rsum_nonneg. intros iy _.
  destruct (row_rule _ _ iz _ _) as [[z xsz] xez].
  destruct (row_rule _ _ iy _ _) as [[y xs] xe]. apply Rsum_nonneg. intros x _. apply H.
Qed.

End SumFacts.

Section Diff2Values.
Open Scope R_scope.
Variables (REF3D DATA3D : bool) (block_sz eulers_per_block grid_size : Z).
Variables g_eulers g_real g_imag g_trans_x g_trans_y g_trans_z : Z -> R.
Variable projector : AccProjectorKernel R.
Variable g_corr : Z -> R.
Variables d_rot_idx d_trans_idx d_job_idx d_job_num : Z -> Z.

(** X7.  Over the reals and with weights that are not negative, a job of
    diff2_fine_2D or diff2_fine_3D adds to its cell [job_idx[b] + i] the
    sum over the sampled pixels of
    [corr[p] * 0.5 * |ref_p - e^(i theta_p) sig_p|^2], plus [sum_init]:
    scaling the reference and the signal by [sqrt (0.5 * corr[p])] before
    the difference (lines 377-384, 539-546) weights the squared distance
    by [0.5 * corr[p]]. *)
Theorem fine_job_weighted_diff2 (sum_init : R) (bid i : Z) (out : Z -> R) :
  (forall p, 0 <= g_corr p) ->
  (0 <= i < d_job_num bid)%Z ->
  fine2D_job REF3D g_eulers g_real g_imag g_trans_x g_trans_y projector g_corr sum_init
    d_rot_idx d_trans_idx d_job_idx d_job_num bid out (d_job_idx bid + i)%Z
  = out (d_job_idx bid + i)%Z
    + (sampled_sum_2D projector
         (fun y pixel x =>
            g_corr (pixel + x)%Z * (1 / 2)
            * dist2 (fine2D_project REF3D g_eulers projector d_rot_idx d_job_idx bid y x)
                (times_phase
                   (theta2D (g_trans_x (d_trans_idx (d_job_idx bid) + i)%Z)
                      (g_trans_y (d_trans_idx (d_job_idx bid) + i)%Z)
                      (imgX projector) (imgY projector) x y)
                   (g_real (pixel + x)%Z) (g_imag (pixel + x)%Z)))
       + sum_init)
  /\
  fine3D_job g_eulers g_real g_imag g_trans_x g_trans_y g_trans_z projector g_corr
    sum_init d_rot_idx d_trans_idx d_job_idx d_job_num bid out (d_job_idx bid + i)%Z
  = out (d_job_idx bid + i)%Z
    + (sampled_sum_3D projector
         (fun z y pixel x =>
            g_corr (pixel + x)%Z * (1 / 2)
            * dist2 (fine3D_project g_eulers projector d_rot_idx d_job_idx bid z y x)
                (times_phase
                   (theta3D (g_trans_x (d_trans_idx (d_job_idx bid) + i)%Z)
                      (g_trans_y (d_trans_idx (d_job_idx bid) + i)%Z)
                      (g_trans_z (d_trans_idx (d_job_idx bid) + i)%Z)
                      (imgX projector) (imgY projector) (imgZ projector) x y z)
                   (g_real (pixel + x)%Z) (g_imag (pixel + x)%Z)))
       + sum_init).
Proof.
  intros Hc Hi. split.
  - unfold fine2D_job. rewrite fine2D_emit_scatter.
    rewrite job_writes_hit by exact Hi. cbn [xf_add R_ops]. f_equal. f_equal.
    rewrite fine2D_rows_sampled by exact Hi. unfold sampled_sum_2D.
    apply Rsum_ext. intros iy _.
    destruct (row_rule _ _ _ _ _) as [[y xs] xe]. apply Rsum_ext. intros x _.
    apply fine2D_term_value. apply Hc.
  - unfold fine3D_job. rewrite fine3D_emit_scatter.
    rewrite job_writes_hit by exact Hi. cbn [xf_add R_ops]. f_equal. f_equal.
    rewrite fine3D_rows_sampled by exact Hi. unfold sampled_sum_3D.
    apply Rsum_ext. intros iz _. apply Rsum_ext. intros iy _.
    destruct (row_rule _ _ iz _ _) as [[z xsz] xez].
    destruct (row_rule _ _ iy _ _) as [[y xs] xe]. apply Rsum_ext. intros x _.
    apply fine3D_term_value. apply Hc.
Qed.

(** X8.  Over the reals and with weights that are not negative, a call of
    diff2_coarse (with a positive block size and [0 <= image_size]) lowers
    no cell of the output array, and a call of diff2_fine_2D or
    diff2_fine_3D with [0 <= sum_init] lowers none either. *)
Theorem diff2_scores_nonnegative (out : Z -> R) (translation_num image_size : Z)
    (sum_init : R) (orientation_num num_jobs : Z) :
  (forall p, 0 <= g_corr p) ->
  ((0 < block_sz)%Z -> (0 <= image_size)%Z ->
   forall c,
     out c <= diff2_coarse REF3D DATA3D block_sz eulers_per_block grid_size g_eulers
                g_trans_x g_trans_y g_trans_z g_real g_imag projector g_corr out
                translation_num image_size c) /\
  (0 <= sum_init ->
   forall c,
     out c <= diff2_fine_2D REF3D grid_size g_eulers g_real g_imag g_trans_x g_trans_y
                g_trans_z projector g_corr out image_size sum_init orientation_num
                translation_num num_jobs d_rot_idx d_trans_idx d_job_idx d_job_num c) /\
  (0 <= sum_init ->
   forall c,
     out c <= diff2_fine_3D grid_size g_eulers g_real g_imag g_trans_x g_trans_y
                g_trans_z projector g_corr out image_size sum_init orientation_num
                translation_num num_jobs d_rot_idx d_trans_idx d_job_idx d_job_num c).
Proof.
  intros Hc. split; [|split].
  - intros Hbs Hn c. rewrite diff2_coarse_scatter, scatter_added.
    match goal with |- _ <= _ + added ?ws c => enough (0 <= added ws c) by lra end.
    apply added_nonneg. intros w Hin. unfold diff2_coarse_writes in Hin.
    apply in_flat_map in Hin. destruct Hin as (block & Hb & Hin).
    unfold coarse_block_writes in Hin.
    apply in_flat_map in Hin. destruct Hin as (j & Hj & Hin).
    apply in_map_iff in Hin. destruct Hin as (i & <- & Hi). cbn [snd].
    apply in_zrange in Hj. apply in_zrange in Hi.
    rewrite coarse_diff2s_Rsum by assumption.
    apply Rsum_nonneg. intros p _. unfold coarse_pixel_diff2. cbv zeta.
    pose proof (Hc p).
    match goal with |- 0 <= _ * _ * dist2 ?a ?b => pose proof (dist2_nonneg a b) end.
    nra.
  - intros Hs c. rewrite diff2_fine_2D_scatter, scatter_added.
    match goal with |- _ <= _ + added ?ws c => enough (0 <= added ws c) by lra end.
    apply added_nonneg. intros w Hin.
    apply in_flat_map in Hin. destruct Hin as (bid & Hb & Hin).
    unfold job_writes in Hin.
    apply in_map_iff in Hin. destruct Hin as (i & <- & Hi). cbn [snd].
    apply in_zrange in Hi. unfold fine2D_score. cbn [xf_add R_ops].
    rewrite fine2D_rows_sampled by exact Hi.
    enough (0 <= sampled_sum_2D projector
                   (fun y pixel x =>
                      fine2D_term REF3D g_eulers g_real g_imag g_trans_x g_trans_y
                        projector g_corr d_rot_idx d_trans_idx d_job_idx bid y pixel i x))
      by lra.
    apply sampled_sum_2D_nonneg. intros y pixel x.
    rewrite fine2D_term_value by apply Hc.
    pose proof (Hc (pixel + x)%Z).
    match goal with |- 0 <= _ * _ * dist2 ?a ?b => pose proof (dist2_nonneg a b) end.
    nra.
  - intros Hs c. rewrite diff2_fine_3D_scatter, scatter_added.
    match goal with |- _ <= _ + added ?ws c => enough (0 <= added ws c) by lra end.
    apply added_nonneg. intros w Hin.
    apply in_flat_map in Hin. destruct Hin as (bid & Hb & Hin).
    unfold job_writes in Hin.
    apply in_map_iff in Hin. destruct Hin as (i & <- & Hi). cbn [snd].
    apply in_zrange in Hi. unfold fine3D_score. cbn [xf_add R_ops].
    rewrite fine3D_rows_sampled by exact Hi.
    enough (0 <= sampled_sum_3D projector
                   (fun z y pixel x =>
                      fine3D_term g_eulers g_real g_imag g_trans_x g_trans_y g_trans_z
                        projector g_corr d_rot_idx d_trans_idx d_job_idx bid z y pixel i x))
      by lra.
    apply sampled_sum_3D_nonneg. intros z y pixel x.
    rewrite fine3D_term_value by apply Hc.
    pose proof (Hc (pixel + x)%Z).
    match goal with |- 0 <= _ * _ * dist2 ?a ?b => pose proof (dist2_nonneg a b) end.
    nra.
Qed.

End Diff2Values.

(* ================================================================== *)
(** * The scores of diff2_CC_fine_2D and diff2_CC_fine_3D *)

Section CCFineAsCoarse.
Context {XFLOAT : Type} {ops : XFloatOps XFLOAT}.
Variable REF3D : bool.
Variables g_eulers g_real g_imag g_trans_x g_trans_y : Z -> XFLOAT.
Variable projector : AccProjectorKernel XFLOAT.
Variable g_corr : Z -> XFLOAT.
Variables d_rot_idx d_trans_idx d_job_idx d_job_num : Z -> Z.

(** A job of diff2_CC_fine_2D runs the rows of diff2_CC_coarse_2D for the
    job's orientation on the job's translations. *)
Lemma ccf2D_rows_as_coarse bid :
  ccf2D_rows REF3D g_eulers g_real g_imag g_trans_x g_trans_y projector g_corr
    d_rot_idx d_trans_idx d_job_idx d_job_num bid
  = ccc2D_rows REF3D g_eulers g_real g_imag
      (fun i => g_trans_x (d_trans_idx (d_job_idx bid) + i))
      (fun i => g_trans_y (d_trans_idx (d_job_idx bid) + i))
      projector g_corr (d_job_num bid) (d_rot_idx (d_job_idx bid)).
Proof. reflexivity. Qed.

(** X9.  On the dense job list, where job [b] is orientation [b] with all
    [trans_num] translations and its cells start at [b * trans_num],
    diff2_CC_fine_2D returns the output array of diff2_CC_coarse_2D.  This
    holds for every [XFLOAT] arithmetic in which [(- a) / b = - (a / b)],
    as in IEEE 754 and over the reals: the two kernels differ in where they
    negate (lines 734-738 and 1045-1047). *)
Theorem cc_fine_2D_dense_jobs_match_coarse
    (grid_size trans_num : Z) (g_diff2s : Z -> XFLOAT)
    (image_size image_size' : Z) (sum_init exp_local_sqrtXi2 exp_local_sqrtXi2' : XFLOAT)
    (orientation_num translation_num num_jobs : Z) :
  (forall a b : XFLOAT, ([~] a) [/] b = [~] (a [/] b)) ->
  (forall b, 0 <= b < grid_size ->
             d_job_idx b = b * trans_num /\ d_job_num b = trans_num /\
             d_rot_idx (b * trans_num) = b /\ d_trans_idx (b * trans_num) = 0) ->
  diff2_CC_fine_2D REF3D grid_size g_eulers g_real g_imag g_trans_x g_trans_y
    projector g_corr g_diff2s image_size sum_init exp_local_sqrtXi2
    orientation_num translation_num num_jobs d_rot_idx d_trans_idx d_job_idx d_job_num
  = diff2_CC_coarse_2D REF3D grid_size g_eulers g_real g_imag g_trans_x g_trans_y
      projector g_corr g_diff2s trans_num image_size' exp_local_sqrtXi2'.
Proof.
  intros Hneg Hjobs. unfold diff2_CC_fine_2D, diff2_CC_coarse_2D.
  apply for_loop_ext. intros bid out Hbid.
  destruct (Hjobs bid Hbid) as (Hidx & Hnum & Hrot & Htr).
  unfold ccf2D_job, ccc2D_orient. rewrite ccf2D_rows_as_coarse.
  rewrite Hidx, Hnum, Hrot, Htr.
  unfold ccf2D_emit, ccc2D_emit. rewrite Hidx, Hnum.
  apply for_loop_ext. intros itrans o _.
  change (ccf2D_sums projector) with (ccc2D_sums projector).
  destruct (ccc2D_sums projector _ itrans) as [s1 s2].
  rewrite Hneg. reflexivity.
Qed.

End CCFineAsCoarse.

Section CCFineValue.
Open Scope R_scope.
Variable REF3D : bool.
Variables g_eulers g_real g_imag g_trans_x g_trans_y g_trans_z : Z -> R.
Variable projector : AccProjectorKernel R.
Variable g_corr : Z -> R.
Variables d_rot_idx d_trans_idx d_job_idx d_job_num : Z -> Z.

(** [Re (ref * conj sh)] of two complex numbers given as pairs. *)
Let re_prod (ref sh : R * R) : R := fst ref * fst sh + snd ref * snd sh.
Let norm2 (ref : R * R) : R := fst ref * fst ref + snd ref * snd ref.

(** X10.  Over the reals, for [0 <= maxR < imgX] and extents [imgY] and
    [imgZ] that are not negative, a job of
    diff2_CC_fine_2D adds [(- sum1) / sqrt sum2] to its cell, where [sum1]
    is the sum over the sampled pixels [p] of
    [Re (ref_p * conj (e^(i theta_p) sig_p)) * corr[p]] and [sum2] the sum
    of [|ref_p|^2 * corr[p]].  A job of diff2_CC_fine_3D adds the same
    expression of the sums that take every row [(iz, iy)] at the row base
    [iz * imgX], as the code addresses them. *)
Theorem cc_fine_job_sampled_score (bid i : Z) (out : Z -> R) :
  (0 <= maxR projector < imgX projector)%Z ->
  (0 <= imgY projector)%Z -> (0 <= imgZ projector)%Z ->
  (0 <= i < d_job_num bid)%Z ->
  (let tx := g_trans_x (d_trans_idx (d_job_idx bid) + i)%Z in
   let ty := g_trans_y (d_trans_idx (d_job_idx bid) + i)%Z in
   let ref y x := ccf2D_project REF3D g_eulers projector d_rot_idx d_job_idx bid y x in
   let sum1 :=
     sampled_sum_2D projector
       (fun y pixel x =>
          re_prod (ref y x)
            (times_phase (theta2D tx ty (imgX projector) (imgY projector) x y)
               (g_real (pixel + x)%Z) (g_imag (pixel + x)%Z))
          * g_corr (pixel + x)%Z) in
   let sum2 :=
     sampled_sum_2D projector
       (fun y pixel x => norm2 (ref y x) * g_corr (pixel + x)%Z) in
   ccf2D_job REF3D g_eulers g_real g_imag g_trans_x g_trans_y projector g_corr
     d_rot_idx d_trans_idx d_job_idx d_job_num bid out (d_job_idx bid + i)%Z
   = out (d_job_idx bid + i)%Z + (- sum1) / sqrt sum2) /\
  (let tx := g_trans_x (d_trans_idx (d_job_idx bid) + i)%Z in
   let ty := g_trans_y (d_trans_idx (d_job_idx bid) + i)%Z in
   let tz := g_trans_z (d_trans_idx (d_job_idx bid) + i)%Z in
   let ref z y x := ccf3D_project g_eulers projector d_rot_idx d_job_idx bid z y x in
   let sum1 :=
     plane_sum_3D projector
       (fun z y pixel x =>
          re_prod (ref z y x)
            (times_phase
               (theta3D tx ty tz (imgX projector) (imgY projector) (imgZ projector) x y z)
               (g_real (pixel + x)%Z) (g_imag (pixel + x)%Z))
          * g_corr (pixel + x)%Z) in
   let sum2 :=
     plane_sum_3D projector
       (fun z y pixel x => norm2 (ref z y x) * g_corr (pixel + x)%Z) in
   ccf3D_job g_eulers g_real g_imag g_trans_x g_trans_y g_trans_z projector g_corr
     d_rot_idx d_trans_idx d_job_idx d_job_num bid out (d_job_idx bid + i)%Z
   = out (d_job_idx bid + i)%Z + (- sum1) / sqrt sum2).
Proof.
  intros Hm HY HZ Hi. split; cbv zeta.
  - unfold ccf2D_job. rewrite ccf2D_emit_scatter.
    rewrite job_writes_hit by exact Hi. unfold cc_fine_score.
    rewrite ccf2D_rows_as_coarse.
    change (ccf2D_sums projector) with (ccc2D_sums projector).
    rewrite (ccc2D_sums_sampled REF3D g_eulers g_real g_imag _ _ projector g_corr
               (d_job_num bid) Hm HY (d_rot_idx (d_job_idx bid)) i Hi).
    cbn [fst snd xf_add xf_neg xf_div xf_sqrt R_ops]. f_equal. f_equal.
    + f_equal. unfold sampled_sum_2D. apply Rsum_ext. intros iy _.
      destruct (row_rule _ _ _ _ _) as [[y xs] xe]. apply Rsum_ext. intros x _.
      unfold ccc2D_weight_term.
      change (ccc2D_project REF3D g_eulers projector (d_rot_idx (d_job_idx bid)) y x)
        with (ccf2D_project REF3D g_eulers projector d_rot_idx d_job_idx bid y x).
      match goal with
      | |- context [ccc2D_shifted ?a ?b ?c ?d ?p ?y0 ?px ?it ?x0] =>
          rewrite (shift2D_R (c it) (d it) (imgX p) (imgY p) x0 y0 (a (px + x0)%Z)
                     (b (px + x0)%Z)
                   : ccc2D_shifted a b c d p y0 px it x0 = _)
      end.
      destruct (ccf2D_project REF3D g_eulers projector d_rot_idx d_job_idx bid y x)
        as [rr ri].
      destruct (times_phase _ _ _) as [sr si]. subst re_prod.
      cbn [fst snd xf_add xf_mul R_ops]. reflexivity.
    + f_equal. unfold sampled_sum_2D. apply Rsum_ext. intros iy _.
      destruct (row_rule _ _ _ _ _) as [[y xs] xe]. apply Rsum_ext. intros x _.
      unfold ccc2D_norm_term.
      change (ccc2D_project REF3D g_eulers projector (d_rot_idx (d_job_idx bid)) y x)
        with (ccf2D_project REF3D g_eulers projector d_rot_idx d_job_idx bid y x).
      destruct (ccf2D_project REF3D g_eulers projector d_rot_idx d_job_idx bid y x)
        as [rr ri].
      subst norm2. cbn [fst snd xf_add xf_mul R_ops]. reflexivity.
  - unfold ccf3D_job. rewrite ccf3D_emit_scatter.
    rewrite job_writes_hit by exact Hi. unfold cc_fine_score.
    rewrite (ccf3D_sums_rows g_eulers g_real g_imag g_trans_x g_trans_y g_trans_z
               projector g_corr d_rot_idx d_trans_idx d_job_idx d_job_num Hm HY HZ
               bid i Hi).
    cbn [fst snd xf_add xf_neg xf_div xf_sqrt R_ops]. f_equal. f_equal.
    + f_equal. unfold plane_sum_3D. apply Rsum_ext. intros iz _.
      apply Rsum_ext. intros iy _. unfold ccf3D_row_range.
      destruct (row_rule _ _ iz _ _) as [[z xsz] xez].
      destruct (row_rule _ _ iy _ _) as [[y xs] xe]. apply Rsum_ext. intros x _.
      unfold ccf3D_s_term.
      match goal with
      | |- context [ccf3D_shifted ?a ?b ?c ?d ?e ?p ?ti ?ji ?bd ?z0 ?y0 ?px ?it ?x0] =>
          rewrite (shift3D_R (c (ti (ji bd) + it)%Z) (d (ti (ji bd) + it)%Z)
                     (e (ti (ji bd) + it)%Z) (imgX p) (imgY p) (imgZ p) x0 y0 z0
                     (a (px + x0)%Z) (b (px + x0)%Z)
                   : ccf3D_shifted a b c d e p ti ji bd z0 y0 px it x0 = _)
      end.
      destruct (ccf3D_project g_eulers projector d_rot_idx d_job_idx bid z y x)
        as [rr ri].
      destruct (times_phase _ _ _) as [sr si]. subst re_prod.
      cbn [fst snd xf_add xf_mul R_ops]. reflexivity.
    + f_equal. unfold plane_sum_3D. apply Rsum_ext. intros iz _.
      apply Rsum_ext. intros iy _. unfold ccf3D_row_range.
      destruct (row_rule _ _ iz _ _) as [[z xsz] xez].
      destruct (row_rule _ _ iy _ _) as [[y xs] xe]. apply Rsum_ext. intros x _.
      unfold ccf3D_cc_term.
      destruct (ccf3D_project g_eulers projector d_rot_idx d_job_idx bid z y x)
        as [rr ri].
      subst norm2. cbn [fst snd xf_add xf_mul R_ops]. reflexivity.
Qed.

End CCFineValue.

(* ================================================================== *)
(** * Job lists and repeated calls *)

Section ListFacts.

Lemma zrange_shift lo n : zrange lo (lo + n) = map (fun b => lo + b) (zrange 0 n).
Proof.
  unfold zrange. rewrite map_map.
  replace (lo + n - lo) with (n - 0) by lia. reflexivity.
Qed.

Lemma flat_map_map_arg {A B C : Type} (f : A -> B) (W : B -> list C) (l : list A) :
  flat_map W (map f l) = flat_map (fun a => W (f a)) l.
Proof. induction l as [|a l IH]; cbn; [reflexivity|]. rewrite IH. reflexivity. Qed.

Lemma flat_map_all_nil {A B : Type} (W : A -> list B) (l : list A) :
  (forall a, In a l -> W a = []) -> flat_map W l = [].
Proof.
  induction l as [|a l IH]; intros H; cbn; [reflexivity|].
  rewrite (H a) by (left; reflexivity). cbn. apply IH.
  intros a' Ha'. apply H. right. exact Ha'.
Qed.

End ListFacts.

Section JobCallFacts.
Context {XFLOAT : Type} {ops : XFloatOps XFLOAT}.

Lemma job_kernel_writes (k : JobKernel) (a : Args XFLOAT) :
  kernel_writes (job_kernel k) a
  = flat_map (fun bid => job_writes (a_job_idx a) (a_job_num a) (job_score k a bid) bid)
      (zrange 0 (a_grid_size a)).
Proof. destruct k; reflexivity. Qed.

(** X11.  A call of a job kernel on [n1 + n2] jobs returns what the call on
    the first [n1] jobs followed by the call on the other [n2] jobs (the
    tables [d_job_idx] and [d_job_num] advanced by [n1]) returns: a job
    list can be processed in batches.  For any [XFLOAT] arithmetic. *)
Theorem job_batches_compose (k : JobKernel) (a : Args XFLOAT) (n1 n2 : Z) :
  0 <= n1 -> 0 <= n2 -> a_grid_size a = n1 + n2 ->
  kernel_output (job_kernel k) a
  = kernel_output (job_kernel k)
      (with_diff2s (with_grid_size (with_jobs_from a n1) n2)
         (kernel_output (job_kernel k) (with_grid_size a n1))).
Proof.
  intros H1 H2 Hg. rewrite !kernel_output_scatter.
  rewrite kernel_writes_with_diff2s. rewrite !job_kernel_writes.
  cbn [a_grid_size a_diff2s a_job_idx a_job_num with_diff2s with_grid_size with_jobs_from].
  rewrite Hg. rewrite (zrange_split 0 n1 (n1 + n2)) by lia.
  rewrite flat_map_app, scatter_app. f_equal.
  rewrite (zrange_shift n1 n2). rewrite flat_map_map_arg.
  apply flat_map_ext. intros b. destruct k; reflexivity.
Qed.

(** X12.  A call without translations returns the output array as it was:
    [translation_num <= 0] for the three coarse kernels, [job_num[b] <= 0]
    for every job [b < grid_size] of the four job kernels. *)
Theorem no_translations_no_writes (k : Kernel) (a : Args XFLOAT) :
  no_translations k a -> kernel_output k a = a_diff2s a.
Proof.
  intros H. rewrite kernel_output_scatter.
  enough (E : kernel_writes k a = []) by (rewrite E; reflexivity).
  destruct k; cbn [kernel_writes no_translations] in *.
  - unfold diff2_coarse_writes, coarse_block_writes.
    apply flat_map_all_nil. intros block _. apply flat_map_all_nil. intros j _.
    rewrite zrange_nil by exact H. reflexivity.
  - apply flat_map_all_nil. intros b Hb. apply in_zrange in Hb.
    unfold job_writes. rewrite zrange_nil by (apply H; exact Hb). reflexivity.
  - apply flat_map_all_nil. intros b Hb. apply in_zrange in Hb.
    unfold job_writes. rewrite zrange_nil by (apply H; exact Hb). reflexivity.
  - apply flat_map_all_nil. intros b _.
    unfold orient_writes. rewrite zrange_nil by exact H. reflexivity.
  - apply flat_map_all_nil. intros b _.
    unfold orient_writes. rewrite zrange_nil by exact H. reflexivity.
  - apply flat_map_all_nil. intros b Hb. apply in_zrange in Hb.
    unfold job_writes. rewrite zrange_nil by (apply H; exact Hb). reflexivity.
  - apply flat_map_all_nil. intros b Hb. apply in_zrange in Hb.
    unfold job_writes. rewrite zrange_nil by (apply H; exact Hb). reflexivity.
Qed.

End JobCallFacts.

Section RealCalls.
Open Scope R_scope.

Lemma added_app (ws1 ws2 : list (Z * R)) (c : Z) :
  added (ws1 ++ ws2) c = added ws1 c + added ws2 c.
Proof.
  induction ws1 as [|w ws1 IH]; cbn [added app]; [lra|].
  rewrite IH. destruct (c =? fst w)%Z; lra.
Qed.

Lemma added_flat_map (W : Z -> list (Z * R)) (lo hi : Z) (c : Z) :
  added (flat_map W (zrange lo hi)) c = Rsum lo hi (fun k => added (W k) c).
Proof.
  unfold Rsum. induction (zrange lo hi) as [|k l IH]; cbn [flat_map fold_right added].
  - reflexivity.
  - rewrite added_app, IH. reflexivity.
Qed.

Lemma added_map (cell : Z -> Z) (v : Z -> R) (lo hi : Z) (c : Z) :
  added (map (fun i => (cell i, v i)) (zrange lo hi)) c
  = Rsum lo hi (fun i => if (c =? cell i)%Z then v i else 0).
Proof.
  unfold Rsum. induction (zrange lo hi) as [|k l IH]; cbn [map fold_right added fst snd].
  - reflexivity.
  - rewrite IH. destruct (c =? cell k)%Z; lra.
Qed.

(** X13.  Over the reals, two kernel calls on one output array commute:
    any two of the seven kernels, each with inputs of its own, leave the
    same array in either order. *)
Theorem kernel_calls_commute (k1 k2 : Kernel) (a1 a2 : Args R) (out : Z -> R) (c : Z) :
  kernel_output k2 (with_diff2s a2 (kernel_output k1 (with_diff2s a1 out))) c
  = kernel_output k1 (with_diff2s a1 (kernel_output k2 (with_diff2s a2 out))) c.
Proof.
  rewrite !kernel_output_scatter. rewrite !kernel_writes_with_diff2s.
  cbn [a_diff2s with_diff2s]. rewrite !scatter_added. lra.
Qed.

(** X14.  Over the reals, after the call of a job kernel every cell [c]
    holds its former content plus the scores of all the pairs of a job
    [b < grid_size] and a translation [i < job_num[b]] with
    [job_idx[b] + i = c]: jobs whose cell ranges overlap accumulate, and a
    cell of no job is left as it was. *)
Theorem job_cells_accumulate (k : JobKernel) (a : Args R) (c : Z) :
  kernel_output (job_kernel k) a c
  = a_diff2s a c
    + Rsum 0 (a_grid_size a)
        (fun b =>
           Rsum 0 (a_job_num a b)
             (fun i => if (c =? a_job_idx a b + i)%Z then job_score k a b i else 0)).
Proof.
  rewrite kernel_output_scatter, scatter_added, job_kernel_writes. f_equal.
  rewrite added_flat_map. apply Rsum_ext. intros b _.
  unfold job_writes. apply added_map.
Qed.

End RealCalls.

(* ================================================================== *)
(** * Coordinates of the coarse and the row-by-row kernels; Euler entries *)

Section Geometry2.
Context {XFLOAT : Type}.
Variable projector : AccProjectorKernel XFLOAT.

(** X15.  For 2D data the pixel [p = iy * imgX + x] gets from diff2_coarse
    the coordinates [(x, y, 0)] with the [y] that the row-by-row kernels
    use for row [iy], unless the row lies in the band
    [maxR < iy < imgY - maxR]: there diff2_coarse takes [y = iy - imgY] and
    the row-by-row kernels [y = iy]. *)
Theorem coarse_and_row_coordinates (iy x : Z) :
  0 < imgX projector -> 0 <= maxR projector ->
  0 <= iy < imgY projector -> 0 <= x < imgX projector ->
  let p := iy * imgX projector + x in
  let y_row := fst (fst (fine2D_row_range projector iy)) in
  let '(xc, yc, zc) := coarse_xyz false projector p in
  xc = x /\ zc = 0 /\
  (~ in_band (maxR projector) (imgY projector) iy -> yc = y_row) /\
  (in_band (maxR projector) (imgY projector) iy ->
   yc = iy - imgY projector /\ y_row = iy).
Proof.
  intros HX Hm Hiy Hx. cbv zeta. unfold coarse_xyz. cbv zeta.
  assert (Hp : 0 <= iy * imgX projector + x) by nia.
  rewrite Z.quot_div_nonneg, Z.rem_mod_nonneg by lia.
  assert (Hd : (iy * imgX projector + x) / imgX projector = iy).
  { rewrite Z.add_comm, Z.div_add by lia. rewrite Z.div_small by lia. lia. }
  assert (Hr : (iy * imgX projector + x) mod imgX projector = x).
  { rewrite Z.add_comm, Z.mod_add by lia. apply Z.mod_small. lia. }
  rewrite Hd, Hr. unfold fine2D_row_range, row_rule, in_band.
  destruct (Z.gtb_spec iy (maxR projector));
    [destruct (Z.geb_spec iy (imgY projector - maxR projector))|];
    cbn [fst snd]; repeat match goal with |- _ /\ _ => split end;
    try reflexivity; try lia; intros; try lia.
Qed.

End Geometry2.

Section EulerEntries.
Context {XFLOAT : Type} {ops : XFloatOps XFLOAT}.
Variable REF3D : bool.
Variables g_real g_imag g_trans_x g_trans_y g_trans_z : Z -> XFLOAT.
Variable projector : AccProjectorKernel XFLOAT.
Variable g_corr : Z -> XFLOAT.
Variables d_rot_idx d_trans_idx d_job_idx d_job_num : Z -> Z.

(** X16.  Of the 3 x 3 Euler matrix of an orientation the 2D kernels
    diff2_fine_2D, diff2_CC_fine_2D and diff2_CC_coarse_2D use the entries
    0, 1, 3, 4 for a 2D reference and 0, 1, 3, 4, 6, 7 for a 3D reference
    (the entries 6 and 7 are loaded in both cases, and reach the projector
    only for a 3D reference): Euler arrays that agree on these entries of
    the orientations of the call give the same output array.  For any
    [XFLOAT] arithmetic. *)
Theorem kernels_2D_use_euler_entries
    (grid_size : Z) (g_eulers g_eulers' g_diff2s : Z -> XFLOAT)
    (image_size : Z) (sum_init exp_local_sqrtXi2 : XFLOAT)
    (orientation_num translation_num num_jobs : Z) :
  (forall b k, 0 <= b < grid_size -> In k (euler_entries_2D REF3D) ->
               g_eulers (d_rot_idx (d_job_idx b) * 9 + k)
               = g_eulers' (d_rot_idx (d_job_idx b) * 9 + k)) ->
  (forall b k, 0 <= b < grid_size -> In k (euler_entries_2D REF3D) ->
               g_eulers (b * 9 + k) = g_eulers' (b * 9 + k)) ->
  diff2_fine_2D REF3D grid_size g_eulers g_real g_imag g_trans_x g_trans_y g_trans_z
    projector g_corr g_diff2s image_size sum_init orientation_num translation_num num_jobs
    d_rot_idx d_trans_idx d_job_idx d_job_num
  = diff2_fine_2D REF3D grid_size g_eulers' g_real g_imag g_trans_x g_trans_y g_trans_z
      projector g_corr g_diff2s image_size sum_init orientation_num translation_num
      num_jobs d_rot_idx d_trans_idx d_job_idx d_job_num
  /\
  diff2_CC_fine_2D REF3D grid_size g_eulers g_real g_imag g_trans_x g_trans_y
    projector g_corr g_diff2s image_size sum_init exp_local_sqrtXi2
    orientation_num translation_num num_jobs d_rot_idx d_trans_idx d_job_idx d_job_num
  = diff2_CC_fine_2D REF3D grid_size g_eulers' g_real g_imag g_trans_x g_trans_y
      projector g_corr g_diff2s image_size sum_init exp_local_sqrtXi2
      orientation_num translation_num num_jobs d_rot_idx d_trans_idx d_job_idx d_job_num
  /\
  diff2_CC_coarse_2D REF3D grid_size g_eulers g_real g_imag g_trans_x g_trans_y
    projector g_corr g_diff2s translation_num image_size exp_local_sqrtXi2
  = diff2_CC_coarse_2D REF3D grid_size g_eulers' g_real g_imag g_trans_x g_trans_y
      projector g_corr g_diff2s translation_num image_size exp_local_sqrtXi2.
Proof.
  intros Hjob Horient.
  assert (P1 : forall bid y x, 0 <= bid < grid_size ->
             fine2D_project REF3D g_eulers projector d_rot_idx d_job_idx bid y x
             = fine2D_project REF3D g_eulers' projector d_rot_idx d_job_idx bid y x).
  { intros bid y x Hb. unfold fine2D_project. cbv zeta.
    pose proof (fun k => Hjob bid k Hb) as E. unfold euler_entries_2D in E.
    replace (g_eulers (d_rot_idx (d_job_idx bid) * 9))
      with (g_eulers (d_rot_idx (d_job_idx bid) * 9 + 0)) by (f_equal; lia).
    replace (g_eulers' (d_rot_idx (d_job_idx bid) * 9))
      with (g_eulers' (d_rot_idx (d_job_idx bid) * 9 + 0)) by (f_equal; lia).
    destruct REF3D; cbn [In] in E.
    - rewrite !E by tauto. reflexivity.
    - rewrite !E by tauto. reflexivity. }
  assert (P2 : forall bid y x, 0 <= bid < grid_size ->
             ccf2D_project REF3D g_eulers projector d_rot_idx d_job_idx bid y x
             = ccf2D_project REF3D g_eulers' projector d_rot_idx d_job_idx bid y x).
  { intros bid y x Hb. unfold ccf2D_project. cbv zeta.
    pose proof (fun k => Hjob bid k Hb) as E. unfold euler_entries_2D in E.
    replace (g_eulers (d_rot_idx (d_job_idx bid) * 9))
      with (g_eulers (d_rot_idx (d_job_idx bid) * 9 + 0)) by (f_equal; lia).
    replace (g_eulers' (d_rot_idx (d_job_idx bid) * 9))
      with (g_eulers' (d_rot_idx (d_job_idx bid) * 9 + 0)) by (f_equal; lia).
    destruct REF3D; cbn [In] in E.
    - rewrite !E by tauto. reflexivity.
    - rewrite !E by tauto. reflexivity. }
  assert (P3 : forall io y x, 0 <= io < grid_size ->
             ccc2D_project REF3D g_eulers projector io y x
             = ccc2D_project REF3D g_eulers' projector io y x).
  { intros io y x Hb. unfold ccc2D_project. cbv zeta.
    pose proof (fun k => Horient io k Hb) as E. unfold euler_entries_2D in E.
    replace (g_eulers (io * 9)) with (g_eulers (io * 9 + 0)) by (f_equal; lia).
    replace (g_eulers' (io * 9)) with (g_eulers' (io * 9 + 0)) by (f_equal; lia).
    destruct REF3D; cbn [In] in E.
    - rewrite !E by tauto. reflexivity.
    - rewrite !E by tauto. reflexivity. }
  repeat split.
  - unfold diff2_fine_2D. apply for_loop_ext. intros bid out Hb.
    unfold fine2D_job. f_equal. unfold fine2D_rows. f_equal.
    apply for_loop_ext. intros iy st _. f_equal. unfold fine2D_row.
    apply for_loop_ext. intros itrans s _. f_equal. f_equal.
    unfold fine2D_row_sum. destruct (fine2D_row_range projector iy) as [[y xs] xe].
    apply for_loop_ext. intros x sum _. f_equal.
    unfold fine2D_term. rewrite P1 by exact Hb. reflexivity.
  - unfold diff2_CC_fine_2D. apply for_loop_ext. intros bid out Hb.
    unfold ccf2D_job. f_equal. unfold ccf2D_rows. f_equal.
    apply for_loop_ext. intros iy st _. f_equal. unfold ccf2D_row.
    destruct (ccf2D_row_range projector iy) as [[y xs] xe].
    apply for_loop_ext. intros itrans s _.
    apply for_loop_ext. intros x a _.
    unfold ccf2D_s_term, ccf2D_cc_term. rewrite P2 by exact Hb. reflexivity.
  - unfold diff2_CC_coarse_2D. apply for_loop_ext. intros io out Hb.
    unfold ccc2D_orient. f_equal. unfold ccc2D_rows. f_equal.
    apply for_loop_ext. intros iy st _. f_equal. unfold ccc2D_row.
    destruct (ccc2D_row_range projector iy) as [[y xs] xe].
    apply for_loop_ext. intros itrans s _.
    apply for_loop_ext. intros x a _.
    unfold ccc2D_weight_term, ccc2D_norm_term. rewrite P3 by exact Hb. reflexivity.
Qed.

End EulerEntries.

(* ================================================================== *)
(** * Sums over the sampled pixels *)

Section SampledSums.
Open Scope R_scope.
Variable projector : AccProjectorKernel R.

Lemma sampled_sum_2D_ext f g :
  (forall y pixel x, f y pixel x = g y pixel x) ->
  sampled_sum_2D projector f = sampled_sum_2D projector g.
Proof.
  intros H. unfold sampled_sum_2D. apply Rsum_ext. intros iy _.
  destruct (row_rule _ _ _ _ _) as [[y xs] xe]. apply Rsum_ext. intros x _. apply H.
Qed.

Lemma sampled_sum_2D_scal c f :
  sampled_sum_2D projector (fun y pixel x => c * f y pixel x)
  = c * sampled_sum_2D projector f.
Proof.
  unfold sampled_sum_2D. rewrite <- Rsum_scal. apply Rsum_ext. intros iy _.
  destruct (row_rule _ _ _ _ _) as [[y xs] xe]. apply Rsum_scal.
Qed.

Lemma sampled_sum_2D_plus f g :
  sampled_sum_2D projector (fun y pixel x => f y pixel x + g y pixel x)
  = sampled_sum_2D projector f + sampled_sum_2D projector g.
Proof.
  unfold sampled_sum_2D. rewrite <- Rsum_plus. apply Rsum_ext. intros iy _.
  destruct (row_rule _ _ _ _ _) as [[y xs] xe]. apply Rsum_plus.
Qed.

Lemma sampled_sum_3D_ext f g :
  (forall z y pixel x, f z y pixel x = g z y pixel x) ->
  sampled_sum_3D projector f = sampled_sum_3D projector g.
Proof.
  intros H. unfold sampled_sum_3D. apply Rsum_ext. intros iz _.
  apply Rsum_ext. intros iy _.
  destruct (row_rule _ _ iz _ _) as [[z xsz] xez].
  destruct (row_rule _ _ iy _ _) as [[y xs] xe]. apply Rsum_ext. intros x _. apply H.
Qed.

Lemma sampled_sum_3D_scal c f :
  sampled_sum_3D projector (fun z y pixel x => c * f z y pixel x)
  = c * sampled_sum_3D projector f.
Proof.
  unfold sampled_sum_3D. rewrite <- Rsum_scal. apply Rsum_ext. intros iz _.
  rewrite <- Rsum_scal. apply Rsum_ext. intros iy _.
  destruct (row_rule _ _ iz _ _) as [[z xsz] xez].
  destruct (row_rule _ _ iy _ _) as [[y xs] xe]. apply Rsum_scal.
Qed.

Lemma sampled_sum_3D_plus f g :
  sampled_sum_3D projector (fun z y pixel x => f z y pixel x + g z y pixel x)
  = sampled_sum_3D projector f + sampled_sum_3D projector g.
Proof.
  unfold sampled_sum_3D. rewrite <- Rsum_plus. apply Rsum_ext. intros iz _.
  rewrite <- Rsum_plus. apply Rsum_ext. intros iy _.
  destruct (row_rule _ _ iz _ _) as [[z xsz] xez].
  destruct (row_rule _ _ iy _ _) as [[y xs] xe]. apply Rsum_plus.
Qed.

(** A quadratic that is nowhere negative has a non-positive discriminant. *)
Lemma quadratic_discriminant (A B C : R) :
  (forall t, 0 <= t * t * A + 2 * t * B + C) -> B * B <= A * C.
Proof.
  intros H.
  destruct (Rle_lt_dec A 0) as [HA|HA].
  - assert (HB : B = 0).
    { destruct (Req_dec B 0) as [|HB]; [assumption|exfalso].
      pose proof (H 0) as H0. rewrite !Rmult_0_l, !Rmult_0_r, !Rplus_0_l in H0.
      pose proof (H (- (C + 1) / (2 * B))) as H1.
      assert (E : 2 * (- (C + 1) / (2 * B)) * B = - (C + 1)) by (field; exact HB).
      pose proof (Rle_0_sqr (- (C + 1) / (2 * B))) as Hsq. unfold Rsqr in Hsq.
      assert (- (C + 1) / (2 * B) * (- (C + 1) / (2 * B)) * A <= 0) by nra.
      lra. }
    subst B. pose proof (H 0) as H0.
    rewrite !Rmult_0_l, !Rmult_0_r, !Rplus_0_l in H0.
    assert (A = 0 \/ A < 0) as [->|HA'] by lra; [lra|].
    exfalso.
    pose proof (H (C / (- A) + 1)) as H1.
    assert (Hq : 0 <= C / - A) by (apply Rmult_le_pos; [lra|]; left; apply Rinv_0_lt_compat; lra).
    assert (E : C = (C / - A) * (- A)) by (field; lra).
    set (q := C / - A) in *. nra.
  - pose proof (H (- B / A)) as H1.
    assert (E : - B / A * (- B / A) * A + 2 * (- B / A) * B + C = C - B * B / A)
      by (field; lra).
    rewrite E in H1.
    assert (B * B / A <= C) by lra.
    assert (E2 : B * B = B * B / A * A) by (field; lra).
    rewrite E2. nra.
Qed.

End SampledSums.

(* ================================================================== *)
(** * A bound on the cross-correlation score *)

Section CCScoreFacts.
Open Scope R_scope.

Lemma times_phase_norm theta a b :
  cnorm2 (times_phase theta a b) = a * a + b * b.
Proof.
  unfold cnorm2, times_phase. cbn [fst snd].
  pose proof (sin2_cos2 theta) as H. unfold Rsqr in H.
  replace ((cos theta * a - sin theta * b) * (cos theta * a - sin theta * b)
           + (cos theta * b + sin theta * a) * (cos theta * b + sin theta * a))
    with ((sin theta * sin theta + cos theta * cos theta) * (a * a + b * b)) by ring.
  rewrite H. ring.
Qed.

Lemma score_square (B A : R) :
  0 < A -> (- (B / sqrt A)) * (- (B / sqrt A)) = B * B / A.
Proof.
  intros HA. pose proof (sqrt_lt_R0 A HA) as Hs.
  pose proof (sqrt_sqrt A ltac:(lra)) as E.
  rewrite <- E at 3. field. lra.
Qed.

Lemma score_bound (A B C : R) :
  0 < A -> B * B <= A * C -> (- (B / sqrt A)) * (- (B / sqrt A)) <= C.
Proof.
  intros HA H. rewrite score_square by exact HA.
  apply (Rmult_le_reg_r A); [exact HA|].
  replace (B * B / A * A) with (B * B) by (field; lra). lra.
Qed.

End CCScoreFacts.

Section CCCoarseBound.
Open Scope R_scope.
Variable REF3D : bool.
Variable grid_size : Z.
Variables g_eulers g_real g_imag g_trans_x g_trans_y g_trans_z : Z -> R.
Variable projector : AccProjectorKernel R.
Variable g_corr : Z -> R.
Variable trans_num : Z.

(** X17.  Over the reals, with weights that are not negative,
    [0 <= maxR < imgX], extents [imgY] and [imgZ] that are not negative and
    a positive norm, the score [d] that
    diff2_CC_coarse_2D or diff2_CC_coarse_3D adds to a cell satisfies
    [d^2 <= sum over the sampled pixels of corr[p] * |sig_p|^2], for every
    reference and translation (the inequality of Cauchy and Schwarz). *)
Theorem cc_coarse_score_bounded (out : Z -> R) (image_size : Z) (exp_local_sqrtXi2 : R)
    (iorient it : Z) :
  (0 <= maxR projector < imgX projector)%Z ->
  (0 <= imgY projector)%Z -> (0 <= imgZ projector)%Z ->
  (forall p, 0 <= g_corr p) ->
  (0 <= iorient < grid_size)%Z -> (0 <= it < trans_num)%Z ->
  (0 < snd (ccc2D_sums projector
              (snd (ccc2D_rows REF3D g_eulers g_real g_imag g_trans_x g_trans_y
                      projector g_corr trans_num iorient)) it) ->
   let d := diff2_CC_coarse_2D REF3D grid_size g_eulers g_real g_imag g_trans_x g_trans_y
              projector g_corr out trans_num image_size exp_local_sqrtXi2
              (iorient * trans_num + it)%Z
            - out (iorient * trans_num + it)%Z in
   d * d <= sampled_sum_2D projector
              (fun y pixel x =>
                 g_corr (pixel + x)%Z
                 * cnorm2 (g_real (pixel + x)%Z, g_imag (pixel + x)%Z))) /\
  (0 < snd (ccc3D_sums projector
              (snd (ccc3D_rows g_eulers g_real g_imag g_trans_x g_trans_y g_trans_z
                      projector g_corr trans_num iorient)) it) ->
   let d := diff2_CC_coarse_3D grid_size g_eulers g_real g_imag g_trans_x g_trans_y
              g_trans_z projector g_corr out trans_num image_size exp_local_sqrtXi2
              (iorient * trans_num + it)%Z
            - out (iorient * trans_num + it)%Z in
   d * d <= sampled_sum_3D projector
              (fun z y pixel x =>
                 g_corr (pixel + x)%Z
                 * cnorm2 (g_real (pixel + x)%Z, g_imag (pixel + x)%Z))).
Proof.
  intros Hm HY HZ Hc Ho Hit. split.
  - rewrite (ccc2D_sums_sampled REF3D g_eulers g_real g_imag g_trans_x g_trans_y
               projector g_corr trans_num Hm HY iorient it Hit).
    cbn [snd]. intros HA. cbv zeta.
    rewrite diff2_CC_coarse_2D_scatter.
    rewrite (orient_cell_hit grid_size trans_num _ out iorient it Ho Hit).
    unfold ccc2D_score, cc_coarse_score.
    rewrite (ccc2D_sums_sampled REF3D g_eulers g_real g_imag g_trans_x g_trans_y
               projector g_corr trans_num Hm HY iorient it Hit).
    cbn [fst snd xf_add xf_neg xf_div xf_sqrt R_ops].
    match goal with
    | |- (?o + - (?B / sqrt ?A) - ?o) * _ <= ?C =>
        replace (o + - (B / sqrt A) - o) with (- (B / sqrt A)) by ring;
        apply score_bound; [exact HA|];
        apply quadratic_discriminant; intros t
    end.
    rewrite <- !sampled_sum_2D_scal, <- !sampled_sum_2D_plus.
    apply sampled_sum_2D_nonneg. intros y pixel x.
    unfold ccc2D_norm_term, ccc2D_weight_term.
    match goal with
    | |- context [ccc2D_shifted ?a ?b ?c ?d ?p ?y0 ?px ?it0 ?x0] =>
        rewrite (shift2D_R (c it0) (d it0) (imgX p) (imgY p) x0 y0 (a (px + x0)%Z)
                   (b (px + x0)%Z)
                 : ccc2D_shifted a b c d p y0 px it0 x0 = _)
    end.
    pose proof (times_phase_norm
                  (theta2D (g_trans_x it) (g_trans_y it) (imgX projector) (imgY projector)
                     x y)
                  (g_real (pixel + x)%Z) (g_imag (pixel + x)%Z)) as N.
    unfold cnorm2 in *. cbn [fst snd] in *.
    destruct (times_phase _ _ _) as [sr si]. cbn [fst snd] in N.
    destruct (ccc2D_project REF3D g_eulers projector iorient y x) as [rr ri].
    cbn [xf_add xf_mul R_ops]. rewrite <- N.
    pose proof (Hc (pixel + x)%Z) as Hw.
    replace (t * t * ((rr * rr + ri * ri) * g_corr (pixel + x)%Z)
             + 2 * t * ((rr * sr + ri * si) * g_corr (pixel + x)%Z)
             + g_corr (pixel + x)%Z * (sr * sr + si * si))
      with (g_corr (pixel + x)%Z
            * ((t * rr + sr) * (t * rr + sr) + (t * ri + si) * (t * ri + si))) by ring.
    apply Rmult_le_pos; [exact Hw|].
    pose proof (Rle_0_sqr (t * rr + sr)) as H1.
    pose proof (Rle_0_sqr (t * ri + si)) as H2. unfold Rsqr in H1, H2. lra.
  - rewrite (ccc3D_sums_sampled g_eulers g_real g_imag g_trans_x g_trans_y g_trans_z
               projector g_corr trans_num Hm HY HZ iorient it Hit).
    cbn [snd]. intros HA. cbv zeta.
    rewrite diff2_CC_coarse_3D_scatter.
    rewrite (orient_cell_hit grid_size trans_num _ out iorient it Ho Hit).
    unfold ccc3D_score, cc_coarse_score.
    rewrite (ccc3D_sums_sampled g_eulers g_real g_imag g_trans_x g_trans_y g_trans_z
               projector g_corr trans_num Hm HY HZ iorient it Hit).
    cbn [fst snd xf_add xf_neg xf_div xf_sqrt R_ops].
    match goal with
    | |- (?o + - (?B / sqrt ?A) - ?o) * _ <= ?C =>
        replace (o + - (B / sqrt A) - o) with (- (B / sqrt A)) by ring;
        apply score_bound; [exact HA|];
        apply quadratic_discriminant; intros t
    end.
    rewrite <- !sampled_sum_3D_scal, <- !sampled_sum_3D_plus.
    apply sampled_sum_3D_nonneg. intros z y pixel x.
    unfold ccc3D_norm_term, ccc3D_weight_term.
    match goal with
    | |- context [ccc3D_shifted ?a ?b ?c ?d ?e ?p ?z0 ?y0 ?px ?it0 ?x0] =>
        rewrite (shift3D_R (c it0) (d it0) (e it0) (imgX p) (imgY p) (imgZ p) x0 y0 z0
                   (a (px + x0)%Z) (b (px + x0)%Z)
                 : ccc3D_shifted a b c d e p z0 y0 px it0 x0 = _)
    end.
    pose proof (times_phase_norm
                  (theta3D (g_trans_x it) (g_trans_y it) (g_trans_z it)
                     (imgX projector) (imgY projector) (imgZ projector) x y z)
                  (g_real (pixel + x)%Z) (g_imag (pixel + x)%Z)) as N.
    unfold cnorm2 in *. cbn [fst snd] in *.
    destruct (times_phase _ _ _) as [sr si]. cbn [fst snd] in N.
    destruct (ccc3D_project g_eulers projector iorient z y x) as [rr ri].
    cbn [xf_add xf_mul R_ops]. rewrite <- N.
    pose proof (Hc (pixel + x)%Z) as Hw.
    replace (t * t * ((rr * rr + ri * ri) * g_corr (pixel + x)%Z)
             + 2 * t * ((rr * sr + ri * si) * g_corr (pixel + x)%Z)
             + g_corr (pixel + x)%Z * (sr * sr + si * si))
      with (g_corr (pixel + x)%Z
            * ((t * rr + sr) * (t * rr + sr) + (t * ri + si) * (t * ri + si))) by ring.
    apply Rmult_le_pos; [exact Hw|].
    pose proof (Rle_0_sqr (t * rr + sr)) as H1.
    pose proof (Rle_0_sqr (t * ri + si)) as H2. unfold Rsqr in H1, H2. lra.
Qed.

End CCCoarseBound.

(* ================================================================== *)
(** * Scaling the signal and the reference *)

Section CCScaling.
Open Scope R_scope.
Variable REF3D : bool.
Variable grid_size : Z.
Variables g_eulers g_real g_imag g_trans_x g_trans_y g_trans_z : Z -> R.
Variable projector : AccProjectorKernel R.
Variable g_corr : Z -> R.
Variable trans_num : Z.

Lemma times_phase_linear theta c a b :
  times_phase theta (c * a) (c * b)
  = (c * fst (times_phase theta a b), c * snd (times_phase theta a b)).
Proof. unfold times_phase. cbn [fst snd]. f_equal; ring. Qed.

(** X18.  Over the reals, for [0 <= maxR < imgX] and extents [imgY] and
    [imgZ] that are not negative, the score that
    diff2_CC_coarse_2D or diff2_CC_coarse_3D adds to a cell is linear in the
    signal: for the signal [c * sig] it is [c] times the score for [sig]. *)
Theorem cc_coarse_score_linear_in_signal (c : R) (out : Z -> R) (image_size : Z)
    (exp_local_sqrtXi2 : R) (iorient it : Z) :
  (0 <= maxR projector < imgX projector)%Z ->
  (0 <= imgY projector)%Z -> (0 <= imgZ projector)%Z ->
  (0 <= iorient < grid_size)%Z -> (0 <= it < trans_num)%Z ->
  let cell := (iorient * trans_num + it)%Z in
  (diff2_CC_coarse_2D REF3D grid_size g_eulers
     (fun p => c * g_real p) (fun p => c * g_imag p) g_trans_x g_trans_y
     projector g_corr out trans_num image_size exp_local_sqrtXi2 cell - out cell
   = c * (diff2_CC_coarse_2D REF3D grid_size g_eulers g_real g_imag g_trans_x g_trans_y
            projector g_corr out trans_num image_size exp_local_sqrtXi2 cell - out cell))
  /\
  (diff2_CC_coarse_3D grid_size g_eulers
     (fun p => c * g_real p) (fun p => c * g_imag p) g_trans_x g_trans_y g_trans_z
     projector g_corr out trans_num image_size exp_local_sqrtXi2 cell - out cell
   = c * (diff2_CC_coarse_3D grid_size g_eulers g_real g_imag g_trans_x g_trans_y
            g_trans_z projector g_corr out trans_num image_size exp_local_sqrtXi2 cell
          - out cell)).
Proof.
  intros Hm HY HZ Ho Hit. cbv zeta. split.
  - rewrite !diff2_CC_coarse_2D_scatter.
    rewrite !(orient_cell_hit grid_size trans_num _ out iorient it Ho Hit).
    unfold ccc2D_score, cc_coarse_score.
    rewrite !(ccc2D_sums_sampled REF3D g_eulers _ _ g_trans_x g_trans_y
                projector g_corr trans_num Hm HY iorient it Hit).
    cbn [fst snd xf_add xf_neg xf_div xf_sqrt R_ops].
    rewrite (sampled_sum_2D_ext projector
               (fun y pixel x =>
                  ccc2D_weight_term REF3D g_eulers (fun p => c * g_real p)
                    (fun p => c * g_imag p) g_trans_x g_trans_y projector g_corr
                    iorient y pixel it x)
               (fun y pixel x =>
                  c * ccc2D_weight_term REF3D g_eulers g_real g_imag g_trans_x g_trans_y
                        projector g_corr iorient y pixel it x)).
    + rewrite sampled_sum_2D_scal. unfold Rdiv. ring.
    + intros y pixel x. unfold ccc2D_weight_term.
      rewrite (shift2D_R (g_trans_x it) (g_trans_y it) (imgX projector) (imgY projector)
                 x y (c * g_real (pixel + x)%Z) (c * g_imag (pixel + x)%Z)
               : ccc2D_shifted (fun p => c * g_real p) (fun p => c * g_imag p)
                   g_trans_x g_trans_y projector y pixel it x = _).
      rewrite (shift2D_R (g_trans_x it) (g_trans_y it) (imgX projector) (imgY projector)
                 x y (g_real (pixel + x)%Z) (g_imag (pixel + x)%Z)
               : ccc2D_shifted g_real g_imag g_trans_x g_trans_y projector y pixel it x
                 = _).
      rewrite times_phase_linear.
      destruct (times_phase _ _ _) as [sr si].
      destruct (ccc2D_project REF3D g_eulers projector iorient y x) as [rr ri].
      cbn [fst snd xf_add xf_mul R_ops]. ring.
  - rewrite !diff2_CC_coarse_3D_scatter.
    rewrite !(orient_cell_hit grid_size trans_num _ out iorient it Ho Hit).
    unfold ccc3D_score, cc_coarse_score.
    rewrite !(ccc3D_sums_sampled g_eulers _ _ g_trans_x g_trans_y g_trans_z
                projector g_corr trans_num Hm HY HZ iorient it Hit).
    cbn [fst snd xf_add xf_neg xf_div xf_sqrt R_ops].
    rewrite (sampled_sum_3D_ext projector
               (fun z y pixel x =>
                  ccc3D_weight_term g_eulers (fun p => c * g_real p)
                    (fun p => c * g_imag p) g_trans_x g_trans_y g_trans_z projector g_corr
                    iorient z y pixel it x)
               (fun z y pixel x =>
                  c * ccc3D_weight_term g_eulers g_real g_imag g_trans_x g_trans_y
                        g_trans_z projector g_corr iorient z y pixel it x)).
    + rewrite sampled_sum_3D_scal. unfold Rdiv. ring.
    + intros z y pixel x. unfold ccc3D_weight_term.
      rewrite (shift3D_R (g_trans_x it) (g_trans_y it) (g_trans_z it)
                 (imgX projector) (imgY projector) (imgZ projector)
                 x y z (c * g_real (pixel + x)%Z) (c * g_imag (pixel + x)%Z)
               : ccc3D_shifted (fun p => c * g_real p) (fun p => c * g_imag p)
                   g_trans_x g_trans_y g_trans_z projector z y pixel it x = _).
      rewrite (shift3D_R (g_trans_x it) (g_trans_y it) (g_trans_z it)
                 (imgX projector) (imgY projector) (imgZ projector)
                 x y z (g_real (pixel + x)%Z) (g_imag (pixel + x)%Z)
               : ccc3D_shifted g_real g_imag g_trans_x g_trans_y g_trans_z projector
                   z y pixel it x = _).
      rewrite times_phase_linear.
      destruct (times_phase _ _ _) as [sr si].
      destruct (ccc3D_project g_eulers projector iorient z y x) as [rr ri].
      cbn [fst snd xf_add xf_mul R_ops]. ring.
Qed.

Lemma scaled_score (lambda A B : R) :
  0 < lambda -> 0 < A ->
  - (lambda * B / sqrt (lambda * lambda * A)) = - (B / sqrt A).
Proof.
  intros Hl HA. rewrite sqrt_mult by nra.
  rewrite sqrt_square by lra.
  pose proof (sqrt_lt_R0 A HA). field. lra.
Qed.

(** X19.  Over the reals, for [0 <= maxR < imgX], extents [imgY] and [imgZ]
    that are not negative and a positive norm, the score that diff2_CC_coarse_2D or diff2_CC_coarse_3D adds to a cell does
    not change when the reference is scaled by a positive factor: the
    kernels normalise by the norm of the reference. *)
Theorem cc_coarse_score_reference_scale (lambda : R) (out : Z -> R) (image_size : Z)
    (exp_local_sqrtXi2 : R) (iorient it : Z) :
  (0 <= maxR projector < imgX projector)%Z ->
  (0 <= imgY projector)%Z -> (0 <= imgZ projector)%Z ->
  (0 <= iorient < grid_size)%Z -> (0 <= it < trans_num)%Z ->
  0 < lambda ->
  let cell := (iorient * trans_num + it)%Z in
  (0 < snd (ccc2D_sums projector
              (snd (ccc2D_rows REF3D g_eulers g_real g_imag g_trans_x g_trans_y
                      projector g_corr trans_num iorient)) it) ->
   diff2_CC_coarse_2D REF3D grid_size g_eulers g_real g_imag g_trans_x g_trans_y
     (scale_projector lambda projector) g_corr out trans_num image_size
     exp_local_sqrtXi2 cell
   = diff2_CC_coarse_2D REF3D grid_size g_eulers g_real g_imag g_trans_x g_trans_y
       projector g_corr out trans_num image_size exp_local_sqrtXi2 cell) /\
  (0 < snd (ccc3D_sums projector
              (snd (ccc3D_rows g_eulers g_real g_imag g_trans_x g_trans_y g_trans_z
                      projector g_corr trans_num iorient)) it) ->
   diff2_CC_coarse_3D grid_size g_eulers g_real g_imag g_trans_x g_trans_y g_trans_z
     (scale_projector lambda projector) g_corr out trans_num image_size
     exp_local_sqrtXi2 cell
   = diff2_CC_coarse_3D grid_size g_eulers g_real g_imag g_trans_x g_trans_y g_trans_z
       projector g_corr out trans_num image_size exp_local_sqrtXi2 cell).
Proof.
  intros Hm HY HZ Ho Hit Hl. cbv zeta. split.
  - rewrite (ccc2D_sums_sampled REF3D g_eulers g_real g_imag g_trans_x g_trans_y
               projector g_corr trans_num Hm HY iorient it Hit).
    cbn [snd]. intros HA.
    rewrite !diff2_CC_coarse_2D_scatter.
    rewrite !(orient_cell_hit grid_size trans_num _ out iorient it Ho Hit).
    unfold ccc2D_score, cc_coarse_score.
    rewrite (ccc2D_sums_sampled REF3D g_eulers g_real g_imag g_trans_x g_trans_y
               projector g_corr trans_num Hm HY iorient it Hit).
    rewrite (ccc2D_sums_sampled REF3D g_eulers g_real g_imag g_trans_x g_trans_y
               (scale_projector lambda projector) g_corr trans_num Hm HY iorient it Hit).
    cbn [fst snd xf_add xf_neg xf_div xf_sqrt R_ops]. f_equal.
    change (sampled_sum_2D (scale_projector lambda projector))
      with (sampled_sum_2D projector).
    rewrite (sampled_sum_2D_ext projector
               (fun y pixel x =>
                  ccc2D_weight_term REF3D g_eulers g_real g_imag g_trans_x g_trans_y
                    (scale_projector lambda projector) g_corr iorient y pixel it x)
               (fun y pixel x =>
                  lambda * ccc2D_weight_term REF3D g_eulers g_real g_imag g_trans_x
                             g_trans_y projector g_corr iorient y pixel it x)).
    + rewrite (sampled_sum_2D_ext projector
                 (fun y pixel x =>
                    ccc2D_norm_term REF3D g_eulers (scale_projector lambda projector)
                      g_corr iorient y pixel x)
                 (fun y pixel x =>
                    lambda * lambda
                    * ccc2D_norm_term REF3D g_eulers projector g_corr iorient y pixel x)).
      * rewrite !sampled_sum_2D_scal. apply scaled_score; assumption.
      * intros y pixel x. unfold ccc2D_norm_term, ccc2D_project. cbv zeta.
        destruct REF3D; cbn [scale_projector project2Dmodel project3Dmodel_xy].
        -- destruct (project3Dmodel_xy projector x y _ _ _ _ _ _) as [rr ri].
           cbn [xf_add xf_mul R_ops]. ring.
        -- destruct (project2Dmodel projector x y _ _ _ _) as [rr ri].
           cbn [xf_add xf_mul R_ops]. ring.
    + intros y pixel x. unfold ccc2D_weight_term, ccc2D_project. cbv zeta.
      change (ccc2D_shifted g_real g_imag g_trans_x g_trans_y
                (scale_projector lambda projector) y pixel it x)
        with (ccc2D_shifted g_real g_imag g_trans_x g_trans_y projector y pixel it x).
      destruct (ccc2D_shifted g_real g_imag g_trans_x g_trans_y projector y pixel it x)
        as [sr si].
      destruct REF3D; cbn [scale_projector project2Dmodel project3Dmodel_xy].
      * destruct (project3Dmodel_xy projector x y _ _ _ _ _ _) as [rr ri].
        cbn [xf_add xf_mul R_ops]. ring.
      * destruct (project2Dmodel projector x y _ _ _ _) as [rr ri].
        cbn [xf_add xf_mul R_ops]. ring.
  - rewrite (ccc3D_sums_sampled g_eulers g_real g_imag g_trans_x g_trans_y g_trans_z
               projector g_corr trans_num Hm HY HZ iorient it Hit).
    cbn [snd]. intros HA.
    rewrite !diff2_CC_coarse_3D_scatter.
    rewrite !(orient_cell_hit grid_size trans_num _ out iorient it Ho Hit).
    unfold ccc3D_score, cc_coarse_score.
    rewrite (ccc3D_sums_sampled g_eulers g_real g_imag g_trans_x g_trans_y g_trans_z
               projector g_corr trans_num Hm HY HZ iorient it Hit).
    rewrite (ccc3D_sums_sampled g_eulers g_real g_imag g_trans_x g_trans_y g_trans_z
               (scale_projector lambda projector) g_corr trans_num Hm HY HZ
               iorient it Hit).
    cbn [fst snd xf_add xf_neg xf_div xf_sqrt R_ops]. f_equal.
    change (sampled_sum_3D (scale_projector lambda projector))
      with (sampled_sum_3D projector).
    rewrite (sampled_sum_3D_ext projector
               (fun z y pixel x =>
                  ccc3D_weight_term g_eulers g_real g_imag g_trans_x g_trans_y g_trans_z
                    (scale_projector lambda projector) g_corr iorient z y pixel it x)
               (fun z y pixel x =>
                  lambda * ccc3D_weight_term g_eulers g_real g_imag g_trans_x
                             g_trans_y g_trans_z projector g_corr iorient z y pixel it x)).
    + rewrite (sampled_sum_3D_ext projector
                 (fun z y pixel x =>
                    ccc3D_norm_term g_eulers (scale_projector lambda projector)
                      g_corr iorient z y pixel x)
                 (fun z y pixel x =>
                    lambda * lambda
                    * ccc3D_norm_term g_eulers projector g_corr iorient z y pixel x)).
      * rewrite !sampled_sum_3D_scal. apply scaled_score; assumption.
      * intros z y pixel x. unfold ccc3D_norm_term, ccc3D_project. cbv zeta.
        cbn [scale_projector project3Dmodel_xyz].
        destruct (project3Dmodel_xyz projector x y z _ _ _ _ _ _ _ _ _) as [rr ri].
        cbn [xf_add xf_mul R_ops]. ring.
    + intros z y pixel x. unfold ccc3D_weight_term, ccc3D_project. cbv zeta.
      change (ccc3D_shifted g_real g_imag g_trans_x g_trans_y g_trans_z
                (scale_projector lambda projector) z y pixel it x)
        with (ccc3D_shifted g_real g_imag g_trans_x g_trans_y g_trans_z projector
                z y pixel it x).
      destruct (ccc3D_shifted g_real g_imag g_trans_x g_trans_y g_trans_z projector
                  z y pixel it x) as [sr si].
      cbn [scale_projector project3Dmodel_xyz].
      destruct (project3Dmodel_xyz projector x y z _ _ _ _ _ _ _ _ _) as [rr ri].
      cbn [xf_add xf_mul R_ops]. ring.
Qed.

End CCScaling.

(* ================================================================== *)
(** * Empty images *)

Section EmptyImage.
Context {XFLOAT : Type} {ops : XFloatOps XFLOAT}.
Variables (REF3D DATA3D : bool) (block_sz eulers_per_block grid_size : Z).
Variables g_eulers g_real g_imag g_trans_x g_trans_y g_trans_z : Z -> XFLOAT.
Variable projector : AccProjectorKernel XFLOAT.
Variable g_corr : Z -> XFLOAT.
Variables d_rot_idx d_trans_idx d_job_idx d_job_num : Z -> Z.

Lemma nested_rows_empty {S : Type} (nz ny : Z) (F : Z -> Z -> S -> S) (s0 : S) :
  ny <= 0 ->
  for_loop 0 nz (fun iz st => for_loop 0 ny (fun iy st => F iz iy st) st) s0 = s0.
Proof.
  intros H. apply (for_loop_inv (fun st : S => st = s0)); [reflexivity|].
  intros iz st _ ->. apply for_loop_nil. exact H.
Qed.

Lemma orient_writes_hit trans_num (score : Z -> XFLOAT) iorient it out :
  0 <= it < trans_num ->
  scatter (orient_writes trans_num score iorient) out (iorient * trans_num + it)
  = out (iorient * trans_num + it) [+] score it.
Proof.
  intros Hit. apply scatter_hit; [apply orient_writes_NoDup|].
  unfold orient_writes.
  apply (in_map (fun itrans => (iorient * trans_num + itrans, score itrans))).
  apply in_zrange. exact Hit.
Qed.

(** X20.  With [image_size = 0] diff2_coarse adds [(XFLOAT)0] to each of its
    cells.  On an image without rows and columns a job of diff2_fine_2D or
    diff2_fine_3D adds [0 + sum_init], and the cross-correlation kernels
    add [- (0 / sqrt 0)] (the fine ones [(- 0) / sqrt 0]): they divide by
    the square root of the norm without testing it.  For any [XFLOAT]
    arithmetic. *)
Theorem empty_image_scores (out : Z -> XFLOAT) (sum_init : XFLOAT) :
  (* diff2_coarse, no pixel *)
  (forall translation_num block j i,
      0 <= block < grid_size -> 0 <= j < eulers_per_block -> 0 <= i < translation_num ->
      diff2_coarse REF3D DATA3D block_sz eulers_per_block grid_size g_eulers
        g_trans_x g_trans_y g_trans_z g_real g_imag projector g_corr out
        translation_num 0
        (block * eulers_per_block * translation_num + (j * translation_num + i))
      = out (block * eulers_per_block * translation_num + (j * translation_num + i))
        [+] xf_zero) /\
  (* the row-by-row kernels, an image without rows and columns *)
  (imgX projector <= 0 -> imgY projector <= 0 ->
   (forall bid i, 0 <= i < d_job_num bid ->
      fine2D_job REF3D g_eulers g_real g_imag g_trans_x g_trans_y projector g_corr
        sum_init d_rot_idx d_trans_idx d_job_idx d_job_num bid out (d_job_idx bid + i)
      = out (d_job_idx bid + i) [+] (xf_zero [+] sum_init) /\
      fine3D_job g_eulers g_real g_imag g_trans_x g_trans_y g_trans_z projector g_corr
        sum_init d_rot_idx d_trans_idx d_job_idx d_job_num bid out (d_job_idx bid + i)
      = out (d_job_idx bid + i) [+] (xf_zero [+] sum_init) /\
      ccf2D_job REF3D g_eulers g_real g_imag g_trans_x g_trans_y projector g_corr
        d_rot_idx d_trans_idx d_job_idx d_job_num bid out (d_job_idx bid + i)
      = out (d_job_idx bid + i) [+] ([~] xf_zero) [/] xf_sqrt xf_zero /\
      ccf3D_job g_eulers g_real g_imag g_trans_x g_trans_y g_trans_z projector g_corr
        d_rot_idx d_trans_idx d_job_idx d_job_num bid out (d_job_idx bid + i)
      = out (d_job_idx bid + i) [+] ([~] xf_zero) [/] xf_sqrt xf_zero) /\
   (forall trans_num iorient it, 0 <= it < trans_num ->
      ccc2D_orient REF3D g_eulers g_real g_imag g_trans_x g_trans_y projector g_corr
        trans_num iorient out (iorient * trans_num + it)
      = out (iorient * trans_num + it) [+] [~] (xf_zero [/] xf_sqrt xf_zero) /\
      ccc3D_orient g_eulers g_real g_imag g_trans_x g_trans_y g_trans_z projector g_corr
        trans_num iorient out (iorient * trans_num + it)
      = out (iorient * trans_num + it) [+] [~] (xf_zero [/] xf_sqrt xf_zero))).
Proof.
  split.
  - intros translation_num block j i Hb Hj Hi.
    rewrite diff2_coarse_cell by assumption. reflexivity.
  - intros HX HY. split.
    + intros bid i Hi. repeat split.
      * unfold fine2D_job. rewrite fine2D_emit_scatter.
        rewrite job_writes_hit by exact Hi. unfold fine2D_rows.
        rewrite for_loop_nil by exact HY. reflexivity.
      * unfold fine3D_job. rewrite fine3D_emit_scatter.
        rewrite job_writes_hit by exact Hi. unfold fine3D_rows.
        rewrite nested_rows_empty by exact HY. reflexivity.
      * unfold ccf2D_job. rewrite ccf2D_emit_scatter.
        rewrite job_writes_hit by exact Hi. unfold ccf2D_rows, cc_fine_score, ccf2D_sums.
        rewrite !for_loop_nil by assumption. reflexivity.
      * unfold ccf3D_job. rewrite ccf3D_emit_scatter.
        rewrite job_writes_hit by exact Hi. unfold ccf3D_rows, cc_fine_score, ccf3D_sums.
        rewrite !(for_loop_nil 0 (imgX projector)) by assumption. reflexivity.
    + intros trans_num iorient it Hit. split.
      * unfold ccc2D_orient. rewrite ccc2D_emit_scatter.
        rewrite orient_writes_hit by exact Hit.
        unfold ccc2D_rows, cc_coarse_score, ccc2D_sums.
        rewrite !for_loop_nil by assumption. reflexivity.
      * unfold ccc3D_orient. rewrite ccc3D_emit_scatter.
        rewrite orient_writes_hit by exact Hit.
        unfold ccc3D_rows, cc_coarse_score, ccc3D_sums.
        rewrite !(for_loop_nil 0 (imgX projector)) by assumption. reflexivity.
Qed.

End EmptyImage.

(* ================================================================== *)
(** * The norm of the cross-correlation kernels *)

Section CCNorm.
Open Scope R_scope.
Variable REF3D : bool.
Variables g_eulers g_real g_imag g_trans_x g_trans_y g_trans_z : Z -> R.
Variable projector : AccProjectorKernel R.
Variable g_corr : Z -> R.
Variables d_rot_idx d_trans_idx d_job_idx d_job_num : Z -> Z.

Lemma weighted_norm_nonneg (ref : R * R) (w : R) :
  0 <= w -> 0 <= (fst ref * fst ref + snd ref * snd ref) * w.
Proof.
  intros Hw. apply Rmult_le_pos; [|exact Hw].
  pose proof (Rle_0_sqr (fst ref)) as H1. pose proof (Rle_0_sqr (snd ref)) as H2.
  unfold Rsqr in H1, H2. lra.
Qed.

(** X21.  Over the reals, with weights that are not negative,
    [0 <= maxR < imgX] and extents [imgY] and [imgZ] that are not negative,
    the norm whose square root the four
    cross-correlation kernels divide by ([sum_norm], [sum2]) is not
    negative. *)
Theorem cc_norm_nonnegative (trans_num iorient it bid i : Z) :
  (0 <= maxR projector < imgX projector)%Z ->
  (0 <= imgY projector)%Z -> (0 <= imgZ projector)%Z ->
  (forall p, 0 <= g_corr p) ->
  ((0 <= it < trans_num)%Z ->
   0 <= snd (ccc2D_sums projector
               (snd (ccc2D_rows REF3D g_eulers g_real g_imag g_trans_x g_trans_y
                       projector g_corr trans_num iorient)) it) /\
   0 <= snd (ccc3D_sums projector
               (snd (ccc3D_rows g_eulers g_real g_imag g_trans_x g_trans_y g_trans_z
                       projector g_corr trans_num iorient)) it)) /\
  ((0 <= i < d_job_num bid)%Z ->
   0 <= snd (ccf2D_sums projector
               (snd (ccf2D_rows REF3D g_eulers g_real g_imag g_trans_x g_trans_y
                       projector g_corr d_rot_idx d_trans_idx d_job_idx d_job_num bid)) i)
   /\
   0 <= snd (ccf3D_sums projector
               (snd (ccf3D_rows g_eulers g_real g_imag g_trans_x g_trans_y g_trans_z
                       projector g_corr d_rot_idx d_trans_idx d_job_idx d_job_num bid))
               i)).
Proof.
  intros Hm HY HZ Hc. split.
  - intros Hit. split.
    + rewrite (ccc2D_sums_sampled REF3D g_eulers g_real g_imag g_trans_x g_trans_y
                 projector g_corr trans_num Hm HY iorient it Hit).
      cbn [snd]. apply sampled_sum_2D_nonneg. intros y pixel x.
      unfold ccc2D_norm_term.
      destruct (ccc2D_project REF3D g_eulers projector iorient y x) as [rr ri].
      apply (weighted_norm_nonneg (rr, ri)). apply Hc.
    + rewrite (ccc3D_sums_sampled g_eulers g_real g_imag g_trans_x g_trans_y g_trans_z
                 projector g_corr trans_num Hm HY HZ iorient it Hit).
      cbn [snd]. apply sampled_sum_3D_nonneg. intros z y pixel x.
      unfold ccc3D_norm_term.
      destruct (ccc3D_project g_eulers projector iorient z y x) as [rr ri].
      apply (weighted_norm_nonneg (rr, ri)). apply Hc.
  - intros Hi. split.
    + rewrite ccf2D_rows_as_coarse.
      change (ccf2D_sums projector) with (ccc2D_sums projector).
      rewrite (ccc2D_sums_sampled REF3D g_eulers g_real g_imag _ _ projector g_corr
                 (d_job_num bid) Hm HY (d_rot_idx (d_job_idx bid)) i Hi).
      cbn [snd]. apply sampled_sum_2D_nonneg. intros y pixel x.
      unfold ccc2D_norm_term.
      destruct (ccc2D_project REF3D g_eulers projector _ y x) as [rr ri].
      apply (weighted_norm_nonneg (rr, ri)). apply Hc.
    + rewrite (ccf3D_sums_rows g_eulers g_real g_imag g_trans_x g_trans_y g_trans_z
                 projector g_corr d_rot_idx d_trans_idx d_job_idx d_job_num Hm HY HZ
                 bid i Hi).
      cbn [snd]. apply Rsum_nonneg. intros iz _. apply Rsum_nonneg. intros iy _.
      destruct (ccf3D_row_range projector iz iy) as [[[z y] xs] xe].
      apply Rsum_nonneg. intros x _. unfold ccf3D_cc_term.
      destruct (ccf3D_project g_eulers projector d_rot_idx d_job_idx bid z y x)
        as [rr ri].
      apply (weighted_norm_nonneg (rr, ri)). apply Hc.
Qed.

End CCNorm.

(* ================================================================== *)
(** * diff2_fine_2D in terms of the cross-correlation sums *)

Section FineAndCC.
Open Scope R_scope.
Variable REF3D : bool.
Variables g_eulers g_real g_imag g_trans_x g_trans_y : Z -> R.
Variable projector : AccProjectorKernel R.
Variable g_corr : Z -> R.
Variables d_rot_idx d_trans_idx d_job_idx d_job_num : Z -> Z.

(** X22.  Over the reals, with weights that are not negative,
    [0 <= maxR < imgX] and [0 <= imgY]: for one job and translation, the sum [s] that
    diff2_fine_2D accumulates and the sums [(sum1, sum2)] that
    diff2_CC_fine_2D accumulates satisfy
    [s = 0.5 * sum2 - sum1 + 0.5 * sum of corr[p] * |sig_p|^2] over the
    sampled pixels: the two kernels sample the same pixels at the same
    coordinates. *)
Theorem diff2_fine_2D_expands_to_cc_sums (bid i : Z) :
  (0 <= maxR projector < imgX projector)%Z -> (0 <= imgY projector)%Z ->
  (forall p, 0 <= g_corr p) ->
  (0 <= i < d_job_num bid)%Z ->
  let sums :=
    ccf2D_sums projector
      (snd (ccf2D_rows REF3D g_eulers g_real g_imag g_trans_x g_trans_y projector g_corr
              d_rot_idx d_trans_idx d_job_idx d_job_num bid)) i in
  snd (fine2D_rows REF3D g_eulers g_real g_imag g_trans_x g_trans_y projector g_corr
         d_rot_idx d_trans_idx d_job_idx d_job_num bid) i
  = 1 / 2 * snd sums - fst sums
    + 1 / 2 * sampled_sum_2D projector
                (fun y pixel x =>
                   g_corr (pixel + x)%Z
                   * cnorm2 (g_real (pixel + x)%Z, g_imag (pixel + x)%Z)).
Proof.
  intros Hm HY Hc Hi. cbv zeta.
  rewrite fine2D_rows_sampled by exact Hi.
  rewrite ccf2D_rows_as_coarse.
  change (ccf2D_sums projector) with (ccc2D_sums projector).
  rewrite (ccc2D_sums_sampled REF3D g_eulers g_real g_imag _ _ projector g_corr
             (d_job_num bid) Hm HY (d_rot_idx (d_job_idx bid)) i Hi).
  cbn [fst snd].
  rewrite <- !sampled_sum_2D_scal.
  match goal with
  | |- _ = ?a - ?b + ?c => replace (a - b + c) with (a + (-1) * b + c) by ring
  end.
  rewrite <- sampled_sum_2D_scal, <- !sampled_sum_2D_plus.
  apply sampled_sum_2D_ext. intros y pixel x.
  rewrite fine2D_term_value by apply Hc.
  unfold ccc2D_norm_term, ccc2D_weight_term.
  rewrite (shift2D_R (g_trans_x (d_trans_idx (d_job_idx bid) + i)%Z)
             (g_trans_y (d_trans_idx (d_job_idx bid) + i)%Z)
             (imgX projector) (imgY projector) x y
             (g_real (pixel + x)%Z) (g_imag (pixel + x)%Z)
           : ccc2D_shifted g_real g_imag
               (fun i0 => g_trans_x (d_trans_idx (d_job_idx bid) + i0)%Z)
               (fun i0 => g_trans_y (d_trans_idx (d_job_idx bid) + i0)%Z)
               projector y pixel i x = _).
  change (ccc2D_project REF3D g_eulers projector (d_rot_idx (d_job_idx bid)) y x)
    with (fine2D_project REF3D g_eulers projector d_rot_idx d_job_idx bid y x).
  pose proof (times_phase_norm
                (theta2D (g_trans_x (d_trans_idx (d_job_idx bid) + i)%Z)
                   (g_trans_y (d_trans_idx (d_job_idx bid) + i)%Z)
                   (imgX projector) (imgY projector) x y)
                (g_real (pixel + x)%Z) (g_imag (pixel + x)%Z)) as N.
  unfold cnorm2, dist2 in *. cbn [fst snd] in *.
  destruct (times_phase _ _ _) as [sr si]. cbn [fst snd] in N.
  destruct (fine2D_project REF3D g_eulers projector d_rot_idx d_job_idx bid y x)
    as [rr ri].
  cbn [fst snd xf_add xf_mul R_ops]. rewrite <- N. field.
Qed.

End FineAndCC.

(* ================================================================== *)
(** * diff2_coarse and diff2_fine_2D without band rows *)

Section CoarseAndFine.
Open Scope R_scope.
Variable REF3D : bool.
Variables (block_sz eulers_per_block : Z).
Variables g_eulers g_real g_imag g_trans_x g_trans_y g_trans_z : Z -> R.
Variable projector : AccProjectorKernel R.
Variable g_corr : Z -> R.
Variables d_rot_idx d_trans_idx d_job_idx d_job_num : Z -> Z.

Lemma coarse_xyz_2D_at (iy x : Z) :
  (0 < imgX projector)%Z -> (0 <= iy)%Z -> (0 <= x < imgX projector)%Z ->
  coarse_xyz false projector (iy * imgX projector + x)
  = (x, if (iy >? maxR projector)%Z then (iy - imgY projector)%Z else iy, 0%Z).
Proof.
  intros HX Hiy Hx. unfold coarse_xyz. cbv zeta.
  assert (Hp : (0 <= iy * imgX projector + x)%Z) by nia.
  rewrite Z.quot_div_nonneg, Z.rem_mod_nonneg by lia.
  assert (Hd : ((iy * imgX projector + x) / imgX projector = iy)%Z).
  { rewrite Z.add_comm, Z.div_add by lia. rewrite Z.div_small by lia. lia. }
  assert (Hr : ((iy * imgX projector + x) mod imgX projector = x)%Z).
  { rewrite Z.add_comm, Z.mod_add by lia. apply Z.mod_small. lia. }
  rewrite Hd, Hr. reflexivity.
Qed.

(** X23.  Over the reals, for 2D data whose rows all lie outside the band
    ([imgY <= 2 * maxR + 1]), [image_size = imgX * imgY] and weights that
    are not negative: the score [diff2s[i][j]] that diff2_coarse accumulates
    for the orientation [block * eulers_per_block + j] and the translation
    [i] is the score [s[i']] that a job of diff2_fine_2D accumulates for the
    same orientation and translation. *)
Theorem diff2_fine_2D_matches_coarse_without_band
    (translation_num image_size block j i bid i' : Z) :
  (0 < block_sz)%Z -> (0 < imgX projector)%Z -> (0 <= imgY projector)%Z ->
  (0 <= maxR projector)%Z ->
  (imgY projector <= 2 * maxR projector + 1)%Z ->
  image_size = (imgY projector * imgX projector)%Z ->
  (forall p, 0 <= g_corr p) ->
  (0 <= i < translation_num)%Z -> (0 <= j < eulers_per_block)%Z ->
  (0 <= i' < d_job_num bid)%Z ->
  d_rot_idx (d_job_idx bid) = (block * eulers_per_block + j)%Z ->
  (d_trans_idx (d_job_idx bid) + i')%Z = i ->
  coarse_diff2s REF3D false block_sz eulers_per_block g_eulers g_trans_x g_trans_y
    g_trans_z g_real g_imag projector g_corr translation_num image_size block i j
  = snd (fine2D_rows REF3D g_eulers g_real g_imag g_trans_x g_trans_y projector g_corr
           d_rot_idx d_trans_idx d_job_idx d_job_num bid) i'.
Proof.
  intros Hbs HX HY Hm Hband Hsize Hc Hi Hj Hi' Hrot Htr.
  rewrite coarse_diff2s_Rsum by (try assumption; nia). cbv beta.
  rewrite fine2D_rows_sampled by exact Hi'.
  rewrite Hsize.
  rewrite <- (Rsum_tiles (imgX projector) _ (imgY projector)) by lia.
  unfold sampled_sum_2D. apply Rsum_ext. intros iy Hiy.
  rewrite row_rule_outside by (unfold in_band; lia).
  apply Rsum_ext. intros x Hx.
  rewrite fine2D_term_value by apply Hc.
  unfold coarse_pixel_diff2. cbv zeta.
  rewrite coarse_xyz_2D_at by lia.
  assert (Ey : (if (iy >? maxR projector)%Z then (iy - imgY projector)%Z else iy)
               = row_coord (maxR projector) (imgY projector) iy).
  { unfold row_coord.
    destruct (Z.gtb_spec iy (maxR projector));
      [destruct (Z.geb_spec iy (imgY projector - maxR projector))|];
      cbn [andb]; reflexivity || lia. }
  rewrite Ey. rewrite Htr. f_equal. f_equal.
  unfold coarse_project, coarse_s_eulers, fine2D_project. cbv zeta. rewrite Hrot.
  replace (block * eulers_per_block * 9 + j * 9 + 0)%Z
    with ((block * eulers_per_block + j) * 9)%Z by lia.
  replace (block * eulers_per_block * 9 + j * 9 + 1)%Z
    with ((block * eulers_per_block + j) * 9 + 1)%Z by lia.
  replace (block * eulers_per_block * 9 + j * 9 + 3)%Z
    with ((block * eulers_per_block + j) * 9 + 3)%Z by lia.
  replace (block * eulers_per_block * 9 + j * 9 + 4)%Z
    with ((block * eulers_per_block + j) * 9 + 4)%Z by lia.
  replace (block * eulers_per_block * 9 + j * 9 + 6)%Z
    with ((block * eulers_per_block + j) * 9 + 6)%Z by lia.
  replace (block * eulers_per_block * 9 + j * 9 + 7)%Z
    with ((block * eulers_per_block + j) * 9 + 7)%Z by lia.
  reflexivity.
Qed.

End CoarseAndFine.

(* ================================================================== *)
(** * Further examples *)

Section FurtherExamples.
Open Scope R_scope.

(** Pixel 24 of the 8 x 8 image with cutoff 2 is the pixel [x = 0] of the
    band row 3: diff2_fine_2D does not read it. *)
Lemma row_kernels_2D_read_sampled_pixels_example :
  off_band_8x8 24 <> ones 24 /\
  diff2_fine_2D false 1 zeros off_band_8x8 zeros zeros zeros zeros projector_8x8 ones
    zeros 64 0 1 1 1 job_first job_first job_first job_single
  = diff2_fine_2D false 1 zeros ones zeros zeros zeros zeros projector_8x8 ones
      zeros 64 0 1 1 1 job_first job_first job_first job_single.
Proof.
  split.
  - change (off_band_8x8 24) with 5. unfold ones. lra.
  - apply (proj1 (@row_kernels_2D_read_sampled_pixels R R_ops false zeros zeros zeros
                    zeros projector_8x8 job_first job_first job_first job_single
                    1%Z off_band_8x8 zeros ones ones zeros ones zeros 64%Z 0 1 1%Z 1%Z
                    1%Z
                    ltac:(intros p (iy & x & Hiy & Hx & ->);
                          split; [|split; reflexivity];
                          cbn [imgX imgY maxR projector_8x8] in *;
                          unfold off_band_8x8, ones, row_rule in *;
                          destruct (Z.eqb_spec (iy * 8 + x) 24); [exfalso|reflexivity];
                          destruct (Z.gtb_spec iy 2);
                          [destruct (Z.geb_spec iy (8 - 2))|]; lia))).
Defined.

(** Pixel 8 of the 4 x 4 x 4 volume with cutoff 1 is the pixel [x = 0] of
    the band row [(0, 2)]: diff2_fine_3D does not read it. *)
Lemma row_kernels_3D_read_sampled_pixels_example :
  off_band_4x4x4 8 <> ones 8 /\
  diff2_fine_3D 1 zeros off_band_4x4x4 zeros zeros zeros zeros projector_4x4x4 ones
    zeros 64 0 1 1 1 job_first job_first job_first job_single
  = diff2_fine_3D 1 zeros ones zeros zeros zeros zeros projector_4x4x4 ones
      zeros 64 0 1 1 1 job_first job_first job_first job_single.
Proof.
  split.
  - change (off_band_4x4x4 8) with 5. unfold ones. lra.
  - apply (proj1 (@row_kernels_3D_read_sampled_pixels R R_ops zeros zeros zeros
                    zeros projector_4x4x4 job_first job_first job_first job_single
                    1%Z off_band_4x4x4 zeros ones ones zeros ones zeros 64%Z 0 1 1%Z 1%Z
                    1%Z
                    ltac:(intros p (iz & iy & x & Hiz & Hiy & Hx & ->);
                          split; [|split; reflexivity];
                          cbn [imgX imgY imgZ maxR projector_4x4x4] in *;
                          unfold off_band_4x4x4, ones, row_rule in *;
                          destruct (Z.eqb_spec ((iz * 4 + iy) * 4 + x) 8);
                          [exfalso|reflexivity];
                          destruct (Z.gtb_spec iz 1);
                          [destruct (Z.geb_spec iz (4 - 1))|];
                          (destruct (Z.gtb_spec iy 1);
                           [destruct (Z.geb_spec iy (4 - 1))|]); lia))).
Defined.

(** With [image_size = 16] and the block size 8, diff2_coarse does not read
    index 16. *)
Lemma diff2_coarse_reads_below_image_size_example :
  beyond_16 16 <> ones 16 /\
  diff2_coarse false false 8 2 1 zeros zeros zeros zeros beyond_16 zeros
    projector_4x4 ones zeros 1 16
  = diff2_coarse false false 8 2 1 zeros zeros zeros zeros ones zeros
      projector_4x4 ones zeros 1 16.
Proof.
  split.
  - change (beyond_16 16) with 5. unfold ones. lra.
  - apply (@diff2_coarse_reads_below_image_size R R_ops false false 8%Z 2%Z 1%Z
             zeros zeros zeros zeros projector_4x4 1%Z 16%Z
             beyond_16 zeros ones ones zeros ones zeros).
    intros p Hp. split; [|split; reflexivity].
    unfold beyond_16, ones. destruct (Z.ltb_spec p 16); [reflexivity|lia].
Defined.

(** Row 3 of the 8 x 8 image with cutoff 2: the range is [(2, 3)] and its
    pixel lies in the image. *)
Lemma row_accesses_in_bounds_example :
  fine2D_row_range projector_8x8 3 = (3, 2, 3)%Z /\
  (forall x, (2 <= x < 3)%Z -> (0 <= 3 * 8 + x < 8 * 8)%Z).
Proof.
  pose proof (proj1 (@row_accesses_in_bounds R projector_8x8 0%Z 3%Z
                       ltac:(cbn; lia)) ltac:(cbn; lia)) as (_ & _ & H).
  change (fine2D_row_range projector_8x8 3) with (3, 2, 3)%Z in H.
  cbv iota beta in H. cbn [imgX imgY projector_8x8] in H.
  split; [reflexivity|]. apply H.
Defined.

(** Pixel 13 of the 4 x 4 image with cutoff 1 has the coordinates
    [(1, -1, 0)]. *)
Lemma coarse_coordinates_in_bounds_example :
  coarse_xyz false projector_4x4 13 = (1, -1, 0)%Z /\
  (0 <= 1 < 4)%Z /\ (- 4 < - 1 < 4)%Z.
Proof.
  pose proof (@coarse_coordinates_in_bounds R projector_4x4 false 13%Z
                ltac:(cbn; lia) ltac:(cbn; lia) ltac:(cbn; lia) ltac:(cbn; lia)) as H.
  change (coarse_xyz false projector_4x4 13) with (1, -1, 0)%Z in H.
  cbv iota beta in H. cbn [imgX imgY projector_4x4] in H.
  split; [reflexivity|]. split; apply H.
Defined.

(** Entry 2 of the Euler matrix is not read by diff2_CC_coarse_2D. *)
Lemma kernels_2D_use_euler_entries_example :
  eulers_entry_2 2 <> zeros 2 /\
  diff2_CC_coarse_2D true 1 zeros ones zeros zeros zeros projector_4x4 ones zeros 1 16 1
  = diff2_CC_coarse_2D true 1 eulers_entry_2 ones zeros zeros zeros projector_4x4 ones
      zeros 1 16 1.
Proof.
  split.
  - change (eulers_entry_2 2) with 5. unfold zeros. lra.
  - apply (proj2 (proj2 (@kernels_2D_use_euler_entries R R_ops true ones zeros zeros
                           zeros zeros projector_4x4 ones job_first job_first job_first
                           job_single 1%Z zeros eulers_entry_2 zeros 16%Z 0 1 1%Z 1%Z 1%Z
                           ltac:(intros b k _ Hk; unfold job_first, eulers_entry_2, zeros;
                                 cbn [euler_entries_2D In] in Hk;
                                 destruct (Z.eqb_spec (0 * 9 + k) 2); [lia|reflexivity])
                           ltac:(intros b k Hb Hk; unfold eulers_entry_2, zeros;
                                 cbn [euler_entries_2D In] in Hk;
                                 destruct (Z.eqb_spec (b * 9 + k) 2);
                                 [lia|reflexivity])))).
Defined.

(** Pixel 26 of the 8 x 8 image with cutoff 2, in the band row 3:
    diff2_coarse takes [y = 3 - 8], the row-by-row kernels [y = 3]. *)
Lemma coarse_and_row_coordinates_example :
  coarse_xyz false projector_8x8 26 = (2, 3 - 8, 0)%Z /\
  fst (fst (fine2D_row_range projector_8x8 3)) = 3%Z.
Proof.
  pose proof (@coarse_and_row_coordinates R projector_8x8 3%Z 2%Z
                ltac:(cbn; lia) ltac:(cbn; lia) ltac:(cbn; lia) ltac:(cbn; lia)) as H.
  cbv zeta in H.
  change (3 * imgX projector_8x8 + 2)%Z with 26%Z in H.
  destruct (coarse_xyz false projector_8x8 26) as [[xc yc] zc].
  destruct H as (Hx & Hz & _ & Hband).
  destruct (Hband ltac:(unfold in_band; cbn; lia)) as [Hy Hrow].
  split; [|exact Hrow]. rewrite Hx, Hz, Hy. reflexivity.
Defined.

(** The cell 0 of a call on the 4 x 4 image. *)
Lemma diff2_coarse_cell_value_example :
  diff2_coarse false false 8 2 1 zeros zeros zeros zeros zeros zeros
    projector_4x4 ones zeros 1 16 0%Z
  = 0 + Rsum 0 16
          (coarse_pixel_diff2 false false 2 zeros zeros zeros projector_4x4 ones 0 0
             0 0 0).
Proof.
  apply (@diff2_coarse_cell_value false false 8%Z 2%Z 1%Z zeros zeros zeros zeros zeros
           zeros projector_4x4 ones 1%Z 16%Z zeros 0%Z 0%Z 0%Z); lia.
Defined.

(** One job of one translation on the 4 x 4 image, with
    [sum_init = 7/2]. *)
Lemma fine_job_weighted_diff2_example :
  exists f,
    fine2D_job false zeros ones zeros zeros zeros projector_4x4 ones (7 / 2)
      job_first job_first job_first job_single 0 zeros 0%Z
    = 0 + (sampled_sum_2D projector_4x4 f + 7 / 2).
Proof.
  eexists.
  apply (proj1 (@fine_job_weighted_diff2 false zeros ones zeros zeros zeros zeros
                  projector_4x4 ones job_first job_first job_first job_single
                  (7 / 2) 0%Z 0%Z zeros
                  ltac:(intros p; unfold ones; lra)
                  ltac:(unfold job_single; lia))).
Defined.

(** A call of diff2_fine_2D with unit weights and [sum_init = 7/2] does not
    lower cell 0. *)
Lemma diff2_scores_nonnegative_example :
  zeros 0%Z
  <= diff2_fine_2D false 1 zeros ones zeros zeros zeros zeros projector_4x4 ones zeros
       16 (7 / 2) 1 1 1 job_first job_first job_first job_single 0%Z.
Proof.
  apply (proj1 (proj2 (@diff2_scores_nonnegative false false 8%Z 2%Z 1%Z zeros ones zeros
                         zeros zeros zeros projector_4x4 ones job_first job_first
                         job_first job_single zeros 1%Z 16%Z (7 / 2) 1%Z 1%Z
                         ltac:(intros p; unfold ones; lra)))).
  lra.
Defined.

(** A 2 x 2 image with cutoff 1 has no row in the band. *)
Lemma diff2_fine_2D_matches_coarse_without_band_example :
  coarse_diff2s false false 8 2 zeros zeros zeros zeros ones zeros projector_2x2x2 ones
    1 4 0 0 0
  = snd (fine2D_rows false zeros ones zeros zeros zeros projector_2x2x2 ones
           job_first job_first job_first job_single 0) 0%Z.
Proof.
  apply (@diff2_fine_2D_matches_coarse_without_band false 8%Z 2%Z zeros ones zeros zeros
           zeros zeros projector_2x2x2 ones job_first job_first job_first job_single
           1%Z 4%Z 0%Z 0%Z 0%Z 0%Z 0%Z);
    try (cbn [imgX imgY maxR projector_2x2x2]; unfold job_first, job_single; lia).
  intros p. unfold ones. lra.
Defined.

(** One job of one translation on the 8 x 8 image. *)
Lemma cc_fine_job_sampled_score_example :
  exists f1 f2,
    ccf2D_job false zeros ones zeros zeros zeros projector_8x8 ones
      job_first job_first job_first job_single 0 zeros 0%Z
    = 0 + (- sampled_sum_2D projector_8x8 f1) / sqrt (sampled_sum_2D projector_8x8 f2).
Proof.
  do 2 eexists.
  apply (proj1 (@cc_fine_job_sampled_score false zeros ones zeros zeros zeros zeros
                  projector_8x8 ones job_first job_first job_first job_single
                  0%Z 0%Z zeros
                  ltac:(cbn; lia) ltac:(cbn; lia) ltac:(cbn; lia)
                  ltac:(unfold job_single; lia))).
Defined.

(** Two orientations with three translations each, over the reals. *)
Lemma cc_fine_2D_dense_jobs_match_coarse_example :
  diff2_CC_fine_2D false 2 zeros ones zeros zeros zeros projector_4x4 ones zeros
    16 0 1 2 3 2 dense_rot_idx dense_trans_idx dense_job_idx dense_job_num
  = diff2_CC_coarse_2D false 2 zeros ones zeros zeros zeros projector_4x4 ones zeros
      3 16 1.
Proof.
  apply (@cc_fine_2D_dense_jobs_match_coarse R R_ops false zeros ones zeros zeros zeros
           projector_4x4 ones dense_rot_idx dense_trans_idx dense_job_idx dense_job_num
           2%Z 3%Z zeros 16%Z 16%Z 0 1 1 2%Z 3%Z 2%Z).
  - intros a b. cbn [xf_neg xf_div R_ops]. unfold Rdiv. ring.
  - intros b Hb. unfold dense_job_idx, dense_job_num, dense_rot_idx, dense_trans_idx.
    rewrite Z.div_mul, Z.mod_mul by lia. repeat split.
Defined.

(** One job of one translation on the 4 x 4 image. *)
Lemma diff2_fine_2D_expands_to_cc_sums_example :
  snd (fine2D_rows false zeros ones zeros zeros zeros projector_4x4 ones
         job_first job_first job_first job_single 0) 0%Z
  = 1 / 2 * snd (ccf2D_sums projector_4x4
                   (snd (ccf2D_rows false zeros ones zeros zeros zeros projector_4x4 ones
                           job_first job_first job_first job_single 0)) 0)
    - fst (ccf2D_sums projector_4x4
             (snd (ccf2D_rows false zeros ones zeros zeros zeros projector_4x4 ones
                     job_first job_first job_first job_single 0)) 0)
    + 1 / 2 * sampled_sum_2D projector_4x4
                (fun y pixel x =>
                   ones (pixel + x)%Z * cnorm2 (ones (pixel + x)%Z, zeros (pixel + x)%Z)).
Proof.
  apply (@diff2_fine_2D_expands_to_cc_sums false zeros ones zeros zeros zeros
           projector_4x4 ones job_first job_first job_first job_single 0%Z 0%Z
           ltac:(cbn; lia) ltac:(cbn; lia)
           ltac:(intros p; unfold ones; lra)
           ltac:(unfold job_single; lia)).
Defined.

(** The norm of diff2_CC_coarse_2D on the 4 x 4 image with unit weights. *)
Lemma cc_norm_nonnegative_example :
  0 <= snd (ccc2D_sums projector_4x4
              (snd (ccc2D_rows false zeros ones zeros zeros zeros projector_4x4 ones 1 0))
              0).
Proof.
  apply (proj1 (proj1 (@cc_norm_nonnegative false zeros ones zeros zeros zeros zeros
                         projector_4x4 ones job_first job_first job_first job_single
                         1%Z 0%Z 0%Z 0%Z 0%Z
                         ltac:(cbn; lia) ltac:(cbn; lia) ltac:(cbn; lia)
                         ltac:(intros p; unfold ones; lra))
                  ltac:(lia))).
Defined.

(** The index ranges and row rules of a goal at concrete extents. *)
Ltac eval_row_ranges :=
  repeat match goal with
         | |- context [zrange ?a ?b] =>
             let v := eval vm_compute in (zrange a b) in change (zrange a b) with v
         | |- context [row_rule ?a ?b ?c ?d ?e] =>
             let v := eval vm_compute in (row_rule a b c d e) in
             change (row_rule a b c d e) with v
         end.

(** The norm of the unit reference over the 4 x 4 image with cutoff 1 and
    unit weights: the 13 sampled pixels. *)
Lemma norm_4x4_ones :
  snd (ccc2D_sums projector_4x4
         (snd (ccc2D_rows false zeros ones zeros zeros zeros projector_4x4 ones 1 0)) 0)
  = 13.
Proof.
  rewrite (ccc2D_sums_sampled false zeros ones zeros zeros zeros projector_4x4 ones 1
             ltac:(cbn; lia) ltac:(cbn; lia) 0 0 ltac:(lia)).
  cbn [snd]. unfold sampled_sum_2D, Rsum. cbn [imgX imgY maxR projector_4x4].
  eval_row_ranges. cbn [fold_right]. eval_row_ranges. cbv iota beta.
  eval_row_ranges. cbn [fold_right].
  unfold ccc2D_norm_term. cbn [ccc2D_project projector_4x4 project2Dmodel].
  cbn [xf_add xf_mul R_ops]. unfold ones. lra.
Qed.

(** The unit signal on the 4 x 4 image, where the norm is 13. *)
Lemma cc_coarse_score_bounded_example :
  (diff2_CC_coarse_2D false 1 zeros ones zeros zeros zeros projector_4x4 ones zeros
     1 16 1 0%Z - zeros 0%Z)
  * (diff2_CC_coarse_2D false 1 zeros ones zeros zeros zeros projector_4x4 ones zeros
       1 16 1 0%Z - zeros 0%Z)
  <= sampled_sum_2D projector_4x4
       (fun y pixel x =>
          ones (pixel + x)%Z * cnorm2 (ones (pixel + x)%Z, zeros (pixel + x)%Z)).
Proof.
  apply (proj1 (@cc_coarse_score_bounded false 1%Z zeros ones zeros zeros zeros zeros
                  projector_4x4 ones 1%Z zeros 16%Z 1 0%Z 0%Z
                  ltac:(cbn; lia) ltac:(cbn; lia) ltac:(cbn; lia)
                  ltac:(intros p; unfold ones; lra)
                  ltac:(lia) ltac:(lia))).
  rewrite norm_4x4_ones. lra.
Defined.

(** Three times the unit signal gives three times the score. *)
Lemma cc_coarse_score_linear_in_signal_example :
  diff2_CC_coarse_2D false 1 zeros (fun p => 3 * ones p) (fun p => 3 * zeros p)
    zeros zeros projector_4x4 ones zeros 1 16 1 0%Z - zeros 0%Z
  = 3 * (diff2_CC_coarse_2D false 1 zeros ones zeros zeros zeros projector_4x4 ones zeros
           1 16 1 0%Z - zeros 0%Z).
Proof.
  apply (proj1 (@cc_coarse_score_linear_in_signal false 1%Z zeros ones zeros zeros zeros
                  zeros projector_4x4 ones 1%Z 3 zeros 16%Z 1 0%Z 0%Z
                  ltac:(cbn; lia) ltac:(cbn; lia) ltac:(cbn; lia)
                  ltac:(lia) ltac:(lia))).
Defined.

(** Twice the unit reference gives the same score. *)
Lemma cc_coarse_score_reference_scale_example :
  diff2_CC_coarse_2D false 1 zeros ones zeros zeros zeros
    (scale_projector 2 projector_4x4) ones zeros 1 16 1 0%Z
  = diff2_CC_coarse_2D false 1 zeros ones zeros zeros zeros projector_4x4 ones zeros
      1 16 1 0%Z.
Proof.
  apply (proj1 (@cc_coarse_score_reference_scale false 1%Z zeros ones zeros zeros zeros
                  zeros projector_4x4 ones 1%Z 2 zeros 16%Z 1 0%Z 0%Z
                  ltac:(cbn; lia) ltac:(cbn; lia) ltac:(cbn; lia)
                  ltac:(lia) ltac:(lia) ltac:(lra))).
  rewrite norm_4x4_ones. lra.
Defined.

(** Three jobs of diff2_fine_2D, as one job followed by two. *)
Lemma job_batches_compose_example :
  kernel_output (K_diff2_fine_2D false) (with_grid_size example_args 3)
  = kernel_output (K_diff2_fine_2D false)
      (with_diff2s (with_grid_size (with_jobs_from (with_grid_size example_args 3) 1) 2)
         (kernel_output (K_diff2_fine_2D false)
            (with_grid_size (with_grid_size example_args 3) 1))).
Proof.
  apply (@job_batches_compose R R_ops (JK_diff2_fine_2D false)
           (with_grid_size example_args 3) 1%Z 2%Z); cbn; lia.
Defined.

(** Calls without translations leave the output array of ones. *)
Lemma no_translations_no_writes_example :
  kernel_output (K_diff2_coarse false false 8 2) idle_args = ones /\
  kernel_output K_diff2_CC_fine_3D idle_args = ones.
Proof.
  split.
  - apply (@no_translations_no_writes R R_ops (K_diff2_coarse false false 8 2) idle_args).
    cbn. lia.
  - apply (@no_translations_no_writes R R_ops K_diff2_CC_fine_3D idle_args).
    cbn. intros b _. lia.
Defined.

(** On the image of 0 x 0 pixels a job of diff2_CC_fine_2D adds
    [(- 0) / sqrt 0] and diff2_CC_coarse_2D adds [- (0 / sqrt 0)]. *)
Lemma empty_image_scores_example :
  ccf2D_job false zeros ones zeros zeros zeros projector_0x0 ones
    job_first job_first job_first job_single 0 zeros 0%Z
  = zeros 0%Z + (- 0) / sqrt 0 /\
  ccc2D_orient false zeros ones zeros zeros zeros projector_0x0 ones 1 0 zeros 0%Z
  = zeros 0%Z + - (0 / sqrt 0).
Proof.
  pose proof (proj2 (@empty_image_scores R R_ops false false 8%Z 2%Z 1%Z zeros ones
                       zeros zeros zeros zeros projector_0x0 ones job_first job_first
                       job_first job_single zeros 0)
                ltac:(cbn; lia) ltac:(cbn; lia)) as [Hjob Horient].
  split.
  - exact (proj1 (proj2 (proj2 (Hjob 0%Z 0%Z ltac:(unfold job_single; lia))))).
  - exact (proj1 (Horient 1%Z 0%Z 0%Z ltac:(lia))).
Defined.

End FurtherExamples.
